(** * SourceCred: the addressable graph, score decomposition and cred data

    A shallow embedding of

    - [src/core/graph.js]              (the [Graph] class),
    - the payload-carrying [Graph] of the earlier core (two-graph [merge],
      [mergeConservative], [neighborhood]),
    - [src/analysis/pagerankNodeDecomposition.js] ([decompose]),
    - the cred data compression ([compressByThreshold]),

    followed by the properties proved about them.

    Conventions.  A JavaScript [Map] or [Set] iterates in insertion order
    and the code iterates them, so they are insertion-ordered association
    lists here.  An object mutated in place is a state threaded through a
    small state-and-exception monad whose exceptions keep the state reached
    at the [throw].  [number]s that only count are [Z]; the weights and
    scores of the decomposition are IEEE 754 binary64 numbers, as in
    JavaScript: Rocq's primitive [float]s with their rounding, their
    infinities and NaN.  A [string] holds the UTF-8 bytes of a
    JavaScript string, and strings are compared as JavaScript compares
    them, by UTF-16 code units ([compareStrings]). *)

From Stdlib Require Import List Bool Arith ZArith Lia String Ascii.
From Stdlib Require Import Permutation Sorting.Sorted.
From Stdlib Require OrderedTypeEx Floats.
Import ListNotations.

Set Implicit Arguments.

Local Open Scope string_scope.
Local Open Scope list_scope.

(* ================================================================== *)
(** * Part I.  Definitions                                             *)
(* ================================================================== *)

(** ** ECMAScript collections *)

(** [Set<string>]: distinct elements in insertion order. *)
Module JsSet.

Definition t := list string.

Definition empty : t := [].

Definition has (x : string) (s : t) : bool := existsb (String.eqb x) s.

(** [add] of a present element keeps its place; a new one goes last. *)
Definition add (x : string) (s : t) : t := if has x s then s else s ++ [x].

Definition delete (x : string) (s : t) : t :=
  filter (fun y => negb (String.eqb x y)) s.

End JsSet.

(** [Map<string, V>]: distinct keys in insertion order. *)
Module JsMap.

Section WithValue.
Variable V : Type.

Definition t := list (string * V).

Definition empty : t := [].

Definition get (k : string) (m : t) : option V :=
  match find (fun p => String.eqb k (fst p)) m with
  | Some p => Some (snd p)
  | None => None
  end.

Definition has (k : string) (m : t) : bool :=
  existsb (fun p => String.eqb k (fst p)) m.

(** [set] on a present key replaces the value in place. *)
Definition set (k : string) (v : V) (m : t) : t :=
  if has k m
  then map (fun p => if String.eqb k (fst p) then (k, v) else p) m
  else m ++ [(k, v)].

Definition delete (k : string) (m : t) : t :=
  filter (fun p => negb (String.eqb k (fst p))) m.

Definition keys (m : t) : list string := map fst m.

Definition values (m : t) : list V := map snd m.

End WithValue.

Arguments empty {V}.

End JsMap.

(** ** Addresses *)

(** Modelled from the spec: [src/core/address.js] ([makeAddressModule]) is
    not among the sources.  An address is a plain string: the kind marker
    (nonce), then each part, every one of them followed by the NUL
    separator.  [assertValid] rejects a string that does not end with the
    separator or does not start with the marker and a separator; a part
    may not contain the separator; [hasPrefix] validates both arguments
    and compares the strings. *)
Module Address.

Definition separator : ascii := Ascii.zero.

Fixpoint endsWithSeparator (s : string) : bool :=
  match s with
  | EmptyString => false
  | String c EmptyString => Ascii.eqb c separator
  | String _ s' => endsWithSeparator s'
  end.

Fixpoint containsSeparator (s : string) : bool :=
  match s with
  | EmptyString => false
  | String c s' => Ascii.eqb c separator || containsSeparator s'
  end.

Definition nonceWithSeparator (nonce : string) : string :=
  (nonce ++ String separator EmptyString)%string.

Definition isValid (nonce : string) (address : string) : bool :=
  endsWithSeparator address && String.prefix (nonceWithSeparator nonce) address.

(** [String.prototype.split] with a one-character separator. *)
Fixpoint split (s : string) : list string :=
  match s with
  | EmptyString => [EmptyString]
  | String c s' =>
      if Ascii.eqb c separator then EmptyString :: split s'
      else match split s' with
           | [] => [String c EmptyString]
           | p :: ps => String c p :: ps
           end
  end.

Definition partsString (parts : list string) : string :=
  fold_right (fun p acc => (p ++ String separator acc)%string) EmptyString parts.

Definition validParts (parts : list string) : bool :=
  forallb (fun p => negb (containsSeparator p)) parts.

Definition fromParts (nonce : string) (parts : list string) : option string :=
  if validParts parts
  then Some (nonceWithSeparator nonce ++ partsString parts)%string
  else None.

(** [address.split(separator).slice(1, -1)] *)
Definition toParts (nonce : string) (address : string) : option (list string) :=
  if isValid nonce address
  then Some (removelast (tl (split address)))
  else None.

Definition hasPrefix (nonce : string) (address prefix : string) : option bool :=
  if isValid nonce address && isValid nonce prefix
  then Some (String.prefix prefix address)
  else None.

Definition empty (nonce : string) : string := nonceWithSeparator nonce.

End Address.

Definition NodeAddressT := string.
Definition EdgeAddressT := string.

Module NodeAddress.
Definition nonce := "N".
Definition isValid := Address.isValid nonce.
Definition fromParts := Address.fromParts nonce.
Definition toParts := Address.toParts nonce.
Definition hasPrefix := Address.hasPrefix nonce.
Definition empty : NodeAddressT := Address.empty nonce.
End NodeAddress.

Module EdgeAddress.
Definition nonce := "E".
Definition isValid := Address.isValid nonce.
Definition fromParts := Address.fromParts nonce.
Definition toParts := Address.toParts nonce.
Definition hasPrefix := Address.hasPrefix nonce.
Definition empty : EdgeAddressT := Address.empty nonce.
End EdgeAddress.

(** ** [src/core/graph.js]: types *)

Record Edge := mkEdge {
  address : EdgeAddressT;
  src : NodeAddressT;
  dst : NodeAddressT
}.

(** [deepEqual] on two edges. *)
Definition Edge_eqb (e f : Edge) : bool :=
  String.eqb (address e) (address f) && String.eqb (src e) (src f)
  && String.eqb (dst e) (dst f).

Record Neighbor := mkNeighbor { node : NodeAddressT; edge : Edge }.

Inductive DirectionT := IN | OUT | ANY.

(** The result object of an iterator's [next()]. *)
Inductive IteratorResult (A : Type) :=
| Yield (value : A)
| Done.

Arguments Done {A}.

Definition DirectionT_eqb (d d' : DirectionT) : bool :=
  match d, d' with
  | IN, IN | OUT, OUT | ANY, ANY => true
  | _, _ => false
  end.

Record NeighborsOptions := mkNeighborsOptions {
  direction : DirectionT;
  nodePrefix : NodeAddressT;
  edgePrefix : EdgeAddressT
}.

Record EdgesOptions := mkEdgesOptions {
  addressPrefix : EdgeAddressT;
  srcPrefix : NodeAddressT;
  dstPrefix : NodeAddressT
}.

Record IndexedEdgeJSON := mkIndexedEdgeJSON {
  json_address : list string;
  srcIndex : nat;
  dstIndex : nat
}.

Record GraphJSON := mkGraphJSON {
  json_nodes : list (list string);
  json_edges : list IndexedEdgeJSON
}.

(** Modelled from the spec: [src/util/compat.js] is not among the sources.
    Serialized data travels in an envelope carrying a type and a version,
    checked on load. *)
Record CompatInfo := mkCompatInfo { compat_type : string; compat_version : string }.

Record Compatible (A : Type) := mkCompatible {
  compat_info : CompatInfo;
  compat_data : A
}.

Definition toCompat {A} (info : CompatInfo) (data : A) : Compatible A :=
  mkCompatible info data.

Definition fromCompat {A} (expected : CompatInfo) (c : Compatible A) : option A :=
  if String.eqb (compat_type (compat_info c)) (compat_type expected)
     && String.eqb (compat_version (compat_info c)) (compat_version expected)
  then Some (compat_data c)
  else None.

Definition COMPAT_INFO : CompatInfo := mkCompatInfo "sourcecred/graph" "0.4.0".

(** ** The order of strings

    [<] and [>] on two strings, the default comparison of
    [Array.prototype.sort] and lodash's [compareAscending] compare the
    UTF-16 code units of the strings, the first difference deciding and
    a proper prefix coming first.  On the UTF-8 bytes this is the order
    of the bytes but for one exchange.  A character from U+E000 to
    U+FFFF is one code unit, at least [0xE000], and its bytes start with
    [0xEE] or [0xEF]; a character beyond U+FFFF is a surrogate pair, its
    first code unit between [0xD800] and [0xDBFF], and its bytes start
    with [0xF0] to [0xF4].  So the lead bytes from [0xF0] on come before
    [0xEE] and [0xEF], and every other pair of bytes compares as it
    stands: where two strings first differ, their bytes are both lead
    bytes or both in the same place of a character with the same lead
    byte. *)
Definition codeUnitRank (a : ascii) : ascii :=
  let n := N_of_ascii a in
  ascii_of_N (if (n <? 238)%N then n
              else if (n <? 240)%N then n + 16
              else n - 2)%N.

(** The bytes of a string, each moved to its place in that order. *)
Fixpoint codeUnitOrder (s : string) : string :=
  match s with
  | EmptyString => EmptyString
  | String a rest => String (codeUnitRank a) (codeUnitOrder rest)
  end.

Definition compareStrings (x y : string) : comparison :=
  String.compare (codeUnitOrder x) (codeUnitOrder y).

(** [x <= y] and [x < y] on strings. *)
Definition stringLeb (x y : string) : bool :=
  String.leb (codeUnitOrder x) (codeUnitOrder y).

Definition stringLtb (x y : string) : bool :=
  String.ltb (codeUnitOrder x) (codeUnitOrder y).

(** [Array.prototype.sort] on strings and lodash's [sortBy] on a string
    key: the stable sort by code-unit order (the arrangement it produces
    does not depend on the algorithm). *)
Fixpoint insertBy {A} (key : A -> string) (x : A) (l : list A) : list A :=
  match l with
  | [] => [x]
  | y :: rest =>
      if stringLeb (key x) (key y) then x :: l else y :: insertBy key x rest
  end.

Definition sortBy {A} (key : A -> string) (l : list A) : list A :=
  fold_right (insertBy key) [] l.

(** The two adjacency scans of [_checkInvariants]. *)
Inductive AdjacencyKind := InEdgeKind | OutEdgeKind.

(** What [_checkInvariants] can report, one constructor per [throw] of the
    function, carrying what the message is built from. *)
Inductive Failure :=
| NeverChecked
| MissingInEdges (n : NodeAddressT)
| MissingOutEdges (n : NodeAddressT)
| BadEdgeAddress (e : Edge) (a : EdgeAddressT)
| MissingSrc (e : Edge)
| MissingDst (e : Edge)
| SpuriousBase (kind : AdjacencyKind) (base : NodeAddressT)
| DuplicateAdjacent (kind : AdjacencyKind) (e : Edge)
| SpuriousAdjacent (kind : AdjacencyKind) (e : Edge)
| BadAdjacent (kind : AdjacencyKind) (e expected : Edge)
| BadAnchor (kind : AdjacencyKind) (e : Edge)
| MissingInEdge (e : Edge)
| MissingOutEdge (e : Edge).

(** Every [throw new Error(...)] of the class, named after the failure it
    signals. *)
Inductive Error :=
| InvalidAddressError (what : string) (a : string)
| InvalidPrefixError
| MissingEndpointError (missingThing : string) (e : Edge)
| ConflictingEdgeError (e existing : Edge)
| DanglingEdgeError (a : NodeAddressT) (incident : nat) (example : Edge)
| ConcurrentModificationError
| ModificationCountInThePast
| ModificationLimitError (count : Z)
| RemoveEdgeInvariantViolation (a : EdgeAddressT)
| NodeDoesNotExistError (a : NodeAddressT)
| InvariantViolation (f : Failure)
| NullValueError
| IncompatibleFormatError.

Record LastChecked := mkLastChecked { when : Z; failure : option Failure }.

Record Graph := mkGraph {
  _nodes : JsSet.t;
  _edges : JsMap.t Edge;
  _inEdges : JsMap.t (list Edge);
  _outEdges : JsMap.t (list Edge);
  _modificationCount : Z;
  _invariantsLastChecked : LastChecked
}.

Definition MAX_SAFE_INTEGER : Z := 9007199254740991.

(** ** State and exceptions

    A method runs on the graph it is called on and either returns or
    throws; in both cases the graph is left in some state. *)

Inductive Outcome (A : Type) :=
| Returned (a : A) (g : Graph)
| Threw (e : Error) (g : Graph).

Arguments Threw {A} e g.

Definition M (A : Type) := Graph -> Outcome A.

Definition ret {A} (a : A) : M A := fun g => Returned a g.

Definition throw {A} (e : Error) : M A := fun g => Threw e g.

Definition bind {A B} (c : M A) (k : A -> M B) : M B :=
  fun g => match c g with
           | Returned a g' => k a g'
           | Threw e g' => Threw e g'
           end.

Definition this : M Graph := fun g => Returned g g.

Definition modify (f : Graph -> Graph) : M unit := fun g => Returned tt (f g).

Notation "x <- c ;; k" := (bind c (fun x => k))
  (at level 61, c at next level, right associativity).
Notation "c ;;; k" := (bind c (fun _ => k))
  (at level 61, right associativity).

Definition stateOf {A} (o : Outcome A) : Graph :=
  match o with Returned _ g => g | Threw _ g => g end.

(** Modelled from the spec: [src/util/null.js] is not among the sources;
    [NullUtil.get] returns its argument unless it is [null] or
    [undefined], and throws then. *)
Definition NullUtil_get {A} (x : option A) : M A :=
  match x with Some a => ret a | None => throw NullValueError end.

(** [x || []] on an optional array. *)
Definition orEmpty {A} (x : option (list A)) : list A :=
  match x with Some l => l | None => [] end.

Definition assertValidNode (a : NodeAddressT) (what : string) : M unit :=
  if NodeAddress.isValid a then ret tt else throw (InvalidAddressError what a).

Definition assertValidEdge (a : EdgeAddressT) (what : string) : M unit :=
  if EdgeAddress.isValid a then ret tt else throw (InvalidAddressError what a).

(** Field updates. *)
Definition set_nodes (f : JsSet.t -> JsSet.t) (g : Graph) : Graph :=
  mkGraph (f (_nodes g)) (_edges g) (_inEdges g) (_outEdges g)
          (_modificationCount g) (_invariantsLastChecked g).

Definition set_edges (f : JsMap.t Edge -> JsMap.t Edge) (g : Graph) : Graph :=
  mkGraph (_nodes g) (f (_edges g)) (_inEdges g) (_outEdges g)
          (_modificationCount g) (_invariantsLastChecked g).

Definition set_inEdges (f : JsMap.t (list Edge) -> JsMap.t (list Edge))
    (g : Graph) : Graph :=
  mkGraph (_nodes g) (_edges g) (f (_inEdges g)) (_outEdges g)
          (_modificationCount g) (_invariantsLastChecked g).

Definition set_outEdges (f : JsMap.t (list Edge) -> JsMap.t (list Edge))
    (g : Graph) : Graph :=
  mkGraph (_nodes g) (_edges g) (_inEdges g) (f (_outEdges g))
          (_modificationCount g) (_invariantsLastChecked g).

Definition set_modificationCount (c : Z) (g : Graph) : Graph :=
  mkGraph (_nodes g) (_edges g) (_inEdges g) (_outEdges g)
          c (_invariantsLastChecked g).

Definition set_invariantsLastChecked (c : LastChecked) (g : Graph) : Graph :=
  mkGraph (_nodes g) (_edges g) (_inEdges g) (_outEdges g)
          (_modificationCount g) c.

(** ** [Graph._checkInvariants] *)

(** The first failure, in iteration order, of a check run on each item. *)
Fixpoint firstFailure {A} (check : A -> option Failure) (l : list A)
    : option Failure :=
  match l with
  | [] => None
  | x :: rest =>
      match check x with
      | Some f => Some f
      | None => firstFailure check rest
      end
  end.

(** Invariant 1. *)
Definition checkNode (g : Graph) (n : NodeAddressT) : option Failure :=
  if negb (JsMap.has n (_inEdges g)) then Some (MissingInEdges n)
  else if negb (JsMap.has n (_outEdges g)) then Some (MissingOutEdges n)
  else None.

(** Invariants 2.1, 2.2 and 2.3. *)
Definition checkEdgeEntry (g : Graph) (entry : EdgeAddressT * Edge)
    : option Failure :=
  let (a, e) := entry in
  if negb (String.eqb (address e) a) then Some (BadEdgeAddress e a)
  else if negb (JsSet.has (src e) (_nodes g)) then Some (MissingSrc e)
  else if negb (JsSet.has (dst e) (_nodes g)) then Some (MissingDst e)
  else None.

Definition baseNodeAccessor (kind : AdjacencyKind) (e : Edge) : NodeAddressT :=
  match kind with InEdgeKind => dst e | OutEdgeKind => src e end.

(** The inner loop of invariants 3 and 4: the edges anchored at [base],
    threading the set [seen] of edge addresses met so far. *)
Fixpoint checkAnchored (g : Graph) (kind : AdjacencyKind) (base : NodeAddressT)
    (edges : list Edge) (seen : JsSet.t) : Failure + JsSet.t :=
  match edges with
  | [] => inr seen
  | e :: rest =>
      if JsSet.has (address e) seen then inl (DuplicateAdjacent kind e)
      else
        let seen' := JsSet.add (address e) seen in
        match JsMap.get (address e) (_edges g) with
        | None => inl (SpuriousAdjacent kind e)
        | Some expected =>
            if negb (Edge_eqb e expected) then inl (BadAdjacent kind e expected)
            else if negb (String.eqb base (baseNodeAccessor kind e))
            then inl (BadAnchor kind e)
            else checkAnchored g kind base rest seen'
        end
  end.

(** The outer loop of invariants 3 and 4, over the entries of one index. *)
Fixpoint checkAdjacency (g : Graph) (kind : AdjacencyKind)
    (entries : list (NodeAddressT * list Edge)) (seen : JsSet.t)
    : Failure + JsSet.t :=
  match entries with
  | [] => inr seen
  | (base, edges) :: rest =>
      if negb (JsSet.has base (_nodes g)) then inl (SpuriousBase kind base)
      else match checkAnchored g kind base edges seen with
           | inl f => inl f
           | inr seen' => checkAdjacency g kind rest seen'
           end
  end.

(** Invariants 2.4 and 2.5, from the two sets of seen addresses. *)
Definition checkEdgeSeen (inEdgesSeen outEdgesSeen : JsSet.t) (e : Edge)
    : option Failure :=
  if negb (JsSet.has (address e) inEdgesSeen) then Some (MissingInEdge e)
  else if negb (JsSet.has (address e) outEdgesSeen) then Some (MissingOutEdge e)
  else None.

(** [None] when the function returns, [Some f] when it throws. *)
Definition _checkInvariants (g : Graph) : option Failure :=
  match firstFailure (checkNode g) (_nodes g) with
  | Some f => Some f
  | None =>
  match firstFailure (checkEdgeEntry g) (_edges g) with
  | Some f => Some f
  | None =>
  match checkAdjacency g InEdgeKind (_inEdges g) JsSet.empty with
  | inl f => Some f
  | inr inEdgesSeen =>
  match checkAdjacency g OutEdgeKind (_outEdges g) JsSet.empty with
  | inl f => Some f
  | inr outEdgesSeen =>
      firstFailure (checkEdgeSeen inEdgesSeen outEdgesSeen)
                   (JsMap.values (_edges g))
  end end end end.

(** [Graph.checkInvariants]: the result of the sweep is cached against
    the modification count. *)
Definition checkInvariants : M unit :=
  g <- this ;;
  (if negb (when (_invariantsLastChecked g) =? _modificationCount g)%Z
   then modify (set_invariantsLastChecked
                  (mkLastChecked (_modificationCount g) (_checkInvariants g)))
   else ret tt) ;;;
  g <- this ;;
  match failure (_invariantsLastChecked g) with
  | Some f => throw (InvariantViolation f)
  | None => ret tt
  end.

(** ** The methods of [Graph] *)

Section Methods.

(** [process.env.NODE_ENV] *)
Variable NODE_ENV : string.

Definition _maybeCheckInvariants : M unit :=
  if String.eqb NODE_ENV "test" then checkInvariants else ret tt.

(** [new Graph()] *)
Definition constructor : Outcome unit :=
  _maybeCheckInvariants
    (mkGraph JsSet.empty JsMap.empty JsMap.empty JsMap.empty 0
             (mkLastChecked (-1) (Some NeverChecked))).

Definition _checkForComodification (since : Z) : M unit :=
  g <- this ;;
  let now := _modificationCount g in
  if (now =? since)%Z then _maybeCheckInvariants
  else if (now >? since)%Z then throw ConcurrentModificationError
  else if (now <? since)%Z then throw ModificationCountInThePast
  else _maybeCheckInvariants.

Definition _markModification : M unit :=
  g <- this ;;
  if (_modificationCount g >=? MAX_SAFE_INTEGER)%Z
  then throw (ModificationLimitError (_modificationCount g))
  else
    modify (set_modificationCount (_modificationCount g + 1)) ;;;
    _maybeCheckInvariants.

Definition addNode (a : NodeAddressT) : M unit :=
  assertValidNode a "" ;;;
  g <- this ;;
  (if negb (JsSet.has a (_nodes g))
   then
     modify (set_nodes (JsSet.add a)) ;;;
     modify (set_inEdges (JsMap.set a [])) ;;;
     modify (set_outEdges (JsMap.set a []))
   else ret tt) ;;;
  _markModification ;;;
  _maybeCheckInvariants.

Definition removeNode (a : NodeAddressT) : M unit :=
  assertValidNode a "" ;;;
  g <- this ;;
  let existingInEdges := orEmpty (JsMap.get a (_inEdges g)) in
  let existingOutEdges := orEmpty (JsMap.get a (_outEdges g)) in
  let existingEdges := existingInEdges ++ existingOutEdges in
  match existingEdges with
  | example :: _ =>
      throw (DanglingEdgeError a (List.length existingEdges) example)
  | [] =>
      modify (set_inEdges (JsMap.delete a)) ;;;
      modify (set_outEdges (JsMap.delete a)) ;;;
      modify (set_nodes (JsSet.delete a)) ;;;
      _markModification ;;;
      _maybeCheckInvariants
  end.

Definition hasNode (a : NodeAddressT) : M bool :=
  assertValidNode a "" ;;;
  g <- this ;;
  let result := JsSet.has a (_nodes g) in
  _maybeCheckInvariants ;;;
  ret result.

(** [edges.push(edge)] on the array stored under [k]. *)
Definition push (k : NodeAddressT) (e : Edge) (m : JsMap.t (list Edge))
    : JsMap.t (list Edge) :=
  match JsMap.get k m with
  | Some es => JsMap.set k (es ++ [e]) m
  | None => m
  end.

Definition addEdge (e : Edge) : M unit :=
  assertValidNode (src e) "edge.src" ;;;
  assertValidNode (dst e) "edge.dst" ;;;
  assertValidEdge (address e) "edge.address" ;;;
  g <- this ;;
  let srcMissing := negb (JsSet.has (src e) (_nodes g)) in
  let dstMissing := negb (JsSet.has (dst e) (_nodes g)) in
  if srcMissing || dstMissing
  then throw (MissingEndpointError (if srcMissing then "src" else "dst") e)
  else
    (match JsMap.get (address e) (_edges g) with
     | Some existingEdge =>
         if negb (String.eqb (src existingEdge) (src e))
            || negb (String.eqb (dst existingEdge) (dst e))
            || negb (String.eqb (address existingEdge) (address e))
         then throw (ConflictingEdgeError e existingEdge)
         else ret tt
     | None =>
         modify (set_edges (JsMap.set (address e) e)) ;;;
         g <- this ;;
         _ <- NullUtil_get (JsMap.get (dst e) (_inEdges g)) ;;
         _ <- NullUtil_get (JsMap.get (src e) (_outEdges g)) ;;
         modify (set_inEdges (push (dst e) e)) ;;;
         modify (set_outEdges (push (src e) e))
     end) ;;;
    modify (set_edges (JsMap.set (address e) e)) ;;;
    _markModification ;;;
    _maybeCheckInvariants.

(** [edges.findIndex(e => e.address === a)] then [edges.splice(index, 1)];
    [None] when [findIndex] returns -1. *)
Fixpoint spliceOut (a : EdgeAddressT) (edges : list Edge) : option (list Edge) :=
  match edges with
  | [] => None
  | e :: rest =>
      if String.eqb (address e) a then Some rest
      else match spliceOut a rest with
           | Some rest' => Some (e :: rest')
           | None => None
           end
  end.

(** One round of the [forEach] of [removeEdge], on the array stored under
    [k] of the index reached through [index]/[update]. *)
Definition removeFrom
    (index : Graph -> JsMap.t (list Edge))
    (update : (JsMap.t (list Edge) -> JsMap.t (list Edge)) -> Graph -> Graph)
    (k : NodeAddressT) (a : EdgeAddressT) : M unit :=
  g <- this ;;
  match spliceOut a (orEmpty (JsMap.get k (index g))) with
  | None => throw (RemoveEdgeInvariantViolation a)
  | Some edges' => modify (update (JsMap.set k edges'))
  end.

Definition removeEdge (a : EdgeAddressT) : M unit :=
  assertValidEdge a "" ;;;
  g <- this ;;
  (match JsMap.get a (_edges g) with
   | Some e =>
       modify (set_edges (JsMap.delete a)) ;;;
       g <- this ;;
       _ <- NullUtil_get (JsMap.get (dst e) (_inEdges g)) ;;
       _ <- NullUtil_get (JsMap.get (src e) (_outEdges g)) ;;
       removeFrom _inEdges set_inEdges (dst e) a ;;;
       removeFrom _outEdges set_outEdges (src e) a
   | None => ret tt
   end) ;;;
  _markModification ;;;
  _maybeCheckInvariants.

Definition hasEdge (a : EdgeAddressT) : M bool :=
  assertValidEdge a "" ;;;
  g <- this ;;
  let result := JsMap.has a (_edges g) in
  _maybeCheckInvariants ;;;
  ret result.

(** [edge(address)]; the name [edge] is taken by the field of
    [Neighbor]. *)
Definition getEdge (a : EdgeAddressT) : M (option Edge) :=
  assertValidEdge a "" ;;;
  g <- this ;;
  let result := JsMap.get a (_edges g) in
  _maybeCheckInvariants ;;;
  ret result.

(** *** Iteration

    [nodes], [edges] and [neighbors] return generator objects.  The three
    generator functions have one shape: a loop over items read from the
    graph, a test on each item that throws, skips the item or selects a
    value, and the comodification check before each [yield] and after the
    loop.  A suspended generator is its arguments, the modification count
    it was created with, the number of items its loop has consumed, and
    whether it has completed (by returning or by throwing). *)

Section Generators.

Variables Args A B : Type.

(** What the loop ranges over, read from the graph the generator runs on. *)
Variable source : Args -> Graph -> Error + list A.

(** The test inside the loop. *)
Variable select : Args -> A -> Error + option B.

Record Generator := mkGenerator {
  args : Args;
  initialModificationCount : Z;
  position : nat;
  completed : bool
}.

Definition suspendAt (it : Generator) (pos : nat) : Generator :=
  mkGenerator (args it) (initialModificationCount it) pos false.

Definition complete (it : Generator) : Generator :=
  mkGenerator (args it) (initialModificationCount it) (position it) true.

(** Run the body from the loop head over the remaining [items] up to the
    next [yield] (the value and the number of items consumed so far) or
    to the end of the function. *)
Fixpoint resume (a : Args) (since : Z) (items : list A) (pos : nat)
    : M (IteratorResult B * nat) :=
  match items with
  | [] =>
      _checkForComodification since ;;;
      _maybeCheckInvariants ;;;
      ret (Done, pos)
  | x :: rest =>
      match select a x with
      | inl err => throw err
      | inr None => resume a since rest (S pos)
      | inr (Some y) =>
          _checkForComodification since ;;;
          _maybeCheckInvariants ;;;
          ret (Yield y, S pos)
      end
  end.

(** What a suspended generator ranges over.  The body reads it from the
    graph when it starts, at the first [next], and there the read can
    throw.  From then on the generator holds the object it read, a
    [Set], a [Map] or an array that the graph changes in place; the
    graph holds it as well ([source] finds it), or has let go of it,
    which only [removeNode] does, to the adjacency arrays of a node and
    when they are empty: the generator is then left with an empty
    array.  A generator that has started has consumed an item. *)
Definition ranged (it : Generator) (g : Graph) : Error + list A :=
  match source (args it) g with
  | inl err => if (position it =? 0)%nat then inl err else inr []
  | inr items => inr items
  end.

(** [it.next()], on the graph [g] as it is at the time of the call. *)
Definition next (it : Generator) (g : Graph)
    : Generator * Outcome (IteratorResult B) :=
  if completed it then (it, Returned (Done) g)
  else
    match ranged it g with
    | inl err => (complete it, Threw err g)
    | inr items =>
        match resume (args it) (initialModificationCount it)
                     (skipn (position it) items) (position it) g with
        | Returned (Yield y, pos) g' => (suspendAt it pos, Returned (Yield y) g')
        | Returned (Done, _) g' => (complete it, Returned (Done) g')
        | Threw err g' => (complete it, Threw err g')
        end
    end.

(** Up to [n] calls of [next] on a graph nobody else touches, stopping at
    the first that does not yield: the values yielded and how it ended. *)
Fixpoint iterate (n : nat) (it : Generator) (g : Graph)
    : list B * (Generator * Outcome (IteratorResult B)) :=
  match n with
  | O => ([], (it, Returned (Done) g))
  | S n' =>
      match next it g with
      | (it', Returned (Yield y) g') =>
          let (ys, last) := iterate n' it' g' in (y :: ys, last)
      | last => ([], last)
      end
  end.

(** The body run from the loop head to the end of the function, every
    yielded value collected. *)
Fixpoint collect (a : Args) (since : Z) (items : list A) : M (list B) :=
  match items with
  | [] =>
      _checkForComodification since ;;;
      _maybeCheckInvariants ;;;
      ret []
  | x :: rest =>
      match select a x with
      | inl err => throw err
      | inr None => collect a since rest
      | inr (Some y) =>
          _checkForComodification since ;;;
          _maybeCheckInvariants ;;;
          ys <- collect a since rest ;;
          ret (y :: ys)
      end
  end.

(** [Array.from(it)] *)
Definition arrayFrom (it : Generator) : M (list B) :=
  if completed it then ret []
  else
    g <- this ;;
    match ranged it g with
    | inl err => throw err
    | inr items =>
        collect (args it) (initialModificationCount it)
                (skipn (position it) items)
    end.

End Generators.

(** [NodeAddress.hasPrefix] and [EdgeAddress.hasPrefix] with the error of
    the [assertValid] that fails. *)
Definition hasPrefixOrThrow (isValid : string -> bool) (a prefix : string)
    : Error + bool :=
  if negb (isValid a) then inl (InvalidAddressError "" a)
  else if negb (isValid prefix) then inl (InvalidAddressError "" prefix)
  else inr (String.prefix prefix a).

Definition nodeHasPrefix := hasPrefixOrThrow NodeAddress.isValid.
Definition edgeHasPrefix := hasPrefixOrThrow EdgeAddress.isValid.

(** [_nodesIterator] *)
Definition nodesSource (_ : NodeAddressT) (g : Graph) : Error + list NodeAddressT :=
  inr (_nodes g).

Definition nodesSelect (prefix : NodeAddressT) (n : NodeAddressT)
    : Error + option NodeAddressT :=
  match nodeHasPrefix n prefix with
  | inl err => inl err
  | inr true => inr (Some n)
  | inr false => inr None
  end.

Definition NodesIterator := Generator NodeAddressT.

Definition _nodesIterator (initialModificationCount : Z) (prefix : NodeAddressT)
    : NodesIterator :=
  mkGenerator prefix initialModificationCount 0 false.

Definition nodesNext := next nodesSource nodesSelect.

(** [nodes(options)]: [None] is a call without options, [Some None] an
    options object whose prefix is [null]. *)
Definition nodes (options : option (option NodeAddressT)) : M NodesIterator :=
  let prefix :=
    match options with Some p => p | None => Some NodeAddress.empty end in
  match prefix with
  | None => throw InvalidPrefixError
  | Some prefix =>
      g <- this ;;
      let result := _nodesIterator (_modificationCount g) prefix in
      _maybeCheckInvariants ;;;
      ret result
  end.

(** [_edgesIterator] *)
Definition edgesSource (_ : EdgesOptions) (g : Graph) : Error + list Edge :=
  inr (JsMap.values (_edges g)).

Definition edgesSelect (options : EdgesOptions) (e : Edge)
    : Error + option Edge :=
  match edgeHasPrefix (address e) (addressPrefix options) with
  | inl err => inl err
  | inr false => inr None
  | inr true =>
      match nodeHasPrefix (src e) (srcPrefix options) with
      | inl err => inl err
      | inr false => inr None
      | inr true =>
          match nodeHasPrefix (dst e) (dstPrefix options) with
          | inl err => inl err
          | inr false => inr None
          | inr true => inr (Some e)
          end
      end
  end.

Definition EdgesIterator := Generator EdgesOptions.

Definition _edgesIterator (initialModificationCount : Z) (options : EdgesOptions)
    : EdgesIterator :=
  mkGenerator options initialModificationCount 0 false.

Definition edgesNext := next edgesSource edgesSelect.

Definition defaultEdgesOptions : EdgesOptions :=
  mkEdgesOptions EdgeAddress.empty NodeAddress.empty NodeAddress.empty.

(** [edges(options)]; the three [null] checks cannot fire on an
    [EdgesOptions], whose fields are addresses. *)
Definition edges (options : option EdgesOptions) : M EdgesIterator :=
  let options :=
    match options with Some o => o | None => defaultEdgesOptions end in
  g <- this ;;
  let result := _edgesIterator (_modificationCount g) options in
  _maybeCheckInvariants ;;;
  ret result.

(** [_neighbors]: the items are the edges of the scanned adjacencies, each
    with the direction of its scan.  [NullUtil.get] throws when the node
    has no array. *)
Definition neighborsSource (a : NodeAddressT * NeighborsOptions) (g : Graph)
    : Error + list (DirectionT * Edge) :=
  let (n, options) := a in
  let d := direction options in
  match
    (if DirectionT_eqb d IN || DirectionT_eqb d ANY
     then match JsMap.get n (_inEdges g) with
          | Some inEdges => inr (map (pair IN) inEdges)
          | None => inl NullValueError
          end
     else inr [])
  with
  | inl err => inl err
  | inr scanIn =>
      match
        (if DirectionT_eqb d OUT || DirectionT_eqb d ANY
         then match JsMap.get n (_outEdges g) with
              | Some outEdges => inr (map (pair OUT) outEdges)
              | None => inl NullValueError
              end
         else inr [])
      with
      | inl err => inl err
      | inr scanOut => inr (scanIn ++ scanOut)
      end
  end.

Definition neighborsSelect (a : NodeAddressT * NeighborsOptions)
    (item : DirectionT * Edge) : Error + option Neighbor :=
  let (_, options) := a in
  let (scan, e) := item in
  if DirectionT_eqb (direction options) ANY && DirectionT_eqb scan IN
     && String.eqb (src e) (dst e)
  then inr None
  else
    let neighborNode := if DirectionT_eqb scan IN then src e else dst e in
    match nodeHasPrefix neighborNode (nodePrefix options) with
    | inl err => inl err
    | inr false => inr None
    | inr true =>
        match edgeHasPrefix (address e) (edgePrefix options) with
        | inl err => inl err
        | inr false => inr None
        | inr true => inr (Some (mkNeighbor neighborNode e))
        end
    end.

Definition NeighborsIterator := Generator (NodeAddressT * NeighborsOptions).

Definition _neighbors (n : NodeAddressT) (options : NeighborsOptions)
    (initialModificationCount : Z) : NeighborsIterator :=
  mkGenerator (n, options) initialModificationCount 0 false.

Definition neighborsNext := next neighborsSource neighborsSelect.

Definition neighbors (n : NodeAddressT) (options : NeighborsOptions)
    : M NeighborsIterator :=
  present <- hasNode n ;;
  if negb present then throw (NodeDoesNotExistError n)
  else
    g <- this ;;
    let result := _neighbors n options (_modificationCount g) in
    _maybeCheckInvariants ;;;
    ret result.

(** *** Equality and serialization *)

(** [deepEqual] on two [Set]s and on two [Map]s of edges (lodash compares
    them without regard to order: same size, and every entry of the first
    has a deep-equal entry in the second). *)
Definition setEquals (s1 s2 : JsSet.t) : bool :=
  (List.length s1 =? List.length s2)%nat
  && forallb (fun x => JsSet.has x s2) s1.

Definition entryEquals (p q : EdgeAddressT * Edge) : bool :=
  String.eqb (fst p) (fst q) && Edge_eqb (snd p) (snd q).

Definition mapEquals (m1 m2 : JsMap.t Edge) : bool :=
  (List.length m1 =? List.length m2)%nat
  && forallb (fun p => existsb (entryEquals p) m2) m1.

Definition equals (that : Graph) : M bool :=
  g <- this ;;
  let result :=
    setEquals (_nodes g) (_nodes that) && mapEquals (_edges g) (_edges that) in
  _maybeCheckInvariants ;;;
  ret result.

(** [array.forEach(f)] and [array.map(f)] for an [f] that may throw. *)
Fixpoint forEach {A} (f : A -> M unit) (l : list A) : M unit :=
  match l with
  | [] => ret tt
  | x :: rest => f x ;;; forEach f rest
  end.

Fixpoint mapM {A B} (f : A -> M B) (l : list A) : M (list B) :=
  match l with
  | [] => ret []
  | x :: rest => y <- f x ;; ys <- mapM f rest ;; ret (y :: ys)
  end.

Definition nodeToParts (a : NodeAddressT) : M (list string) :=
  match NodeAddress.toParts a with
  | Some parts => ret parts
  | None => throw (InvalidAddressError "" a)
  end.

Definition edgeToParts (a : EdgeAddressT) : M (list string) :=
  match EdgeAddress.toParts a with
  | Some parts => ret parts
  | None => throw (InvalidAddressError "" a)
  end.

(** [sortedNodes.forEach((node, i) => nodeToSortedIndex.set(node, i))] *)
Fixpoint indexFrom (i : nat) (l : list NodeAddressT) (m : JsMap.t nat)
    : JsMap.t nat :=
  match l with
  | [] => m
  | n :: rest => indexFrom (S i) rest (JsMap.set n i m)
  end.

Definition toJSON : M (Compatible GraphJSON) :=
  it <- nodes None ;;
  unsortedNodes <- arrayFrom nodesSource nodesSelect it ;;
  let sortedNodes := sortBy (fun x => x) unsortedNodes in
  let nodeToSortedIndex := indexFrom 0 sortedNodes JsMap.empty in
  it <- edges None ;;
  unsortedEdges <- arrayFrom edgesSource edgesSelect it ;;
  let sortedEdges := sortBy address unsortedEdges in
  indexedEdges <-
    mapM (fun e =>
            srcIndex <- NullUtil_get (JsMap.get (src e) nodeToSortedIndex) ;;
            dstIndex <- NullUtil_get (JsMap.get (dst e) nodeToSortedIndex) ;;
            parts <- edgeToParts (address e) ;;
            ret (mkIndexedEdgeJSON parts srcIndex dstIndex))
         sortedEdges ;;
  nodesParts <- mapM nodeToParts sortedNodes ;;
  let rawJSON := mkGraphJSON nodesParts indexedEdges in
  let result := toCompat COMPAT_INFO rawJSON in
  _maybeCheckInvariants ;;;
  ret result.

(** A static method returns the graph it built, or throws. *)
Definition built (o : Outcome unit) : Error + Graph :=
  match o with
  | Returned _ g => inr g
  | Threw err _ => inl err
  end.

Fixpoint mapParts (fromParts : list string -> option string)
    (l : list (list string)) : Error + list string :=
  match l with
  | [] => inr []
  | parts :: rest =>
      match fromParts parts with
      | None => inl (InvalidAddressError "" (Address.partsString parts))
      | Some a =>
          match mapParts fromParts rest with
          | inl err => inl err
          | inr l' => inr (a :: l')
          end
      end
  end.

(** The callback of [edges.forEach] in [fromJSON]; an index outside
    [nodes] reads [undefined], which [addEdge] rejects as an address. *)
Definition addIndexedEdge (nodes : list NodeAddressT) (j : IndexedEdgeJSON)
    : M unit :=
  match EdgeAddress.fromParts (json_address j) with
  | None => throw (InvalidAddressError "" (Address.partsString (json_address j)))
  | Some a =>
      match nth_error nodes (srcIndex j), nth_error nodes (dstIndex j) with
      | Some s, Some d => addEdge (mkEdge a s d)
      | None, _ => throw (InvalidAddressError "edge.src" "undefined")
      | Some _, None => throw (InvalidAddressError "edge.dst" "undefined")
      end
  end.

Definition fromJSON (json : Compatible GraphJSON) : Error + Graph :=
  match fromCompat COMPAT_INFO json with
  | None => inl IncompatibleFormatError
  | Some raw =>
      match constructor with
      | Threw err _ => inl err
      | Returned _ result =>
          match mapParts NodeAddress.fromParts (json_nodes raw) with
          | inl err => inl err
          | inr nodes =>
              built ((forEach addNode nodes ;;;
                      forEach (addIndexedEdge nodes) (json_edges raw)) result)
          end
      end
  end.

End Methods.

(** ** [Graph.merge] and [copy]

    [merge] works on several objects at once: the graphs of its
    argument, on which the generators of [nodes()] and [edges()] run,
    and the new graph that [addNode] and [addEdge] fill.  The graphs of
    the iterable are listed by value, in the order of the iterable; the
    new graph is none of them, so the loop body never touches the graph
    that the generator reads. *)

Section Merging.

Variable NODE_ENV : string.

(** How a [for (const y of graph.items()) { ... result ... }] ends: the
    two graphs as the loop leaves them. *)
Inductive LoopOutcome :=
| Completed (graph result : Graph)
| Aborted (err : Error) (graph result : Graph).

Section ForOf.

Variables Args A B : Type.
Variable source : Args -> Graph -> Error + list A.
Variable select : Args -> A -> Error + option B.

(** The loop body, run on [result]. *)
Variable body : B -> M unit.

(** The generator body from the loop head over the remaining [items],
    the loop body run at every [yield]. *)
Fixpoint forOfItems (a : Args) (since : Z) (items : list A)
    (graph result : Graph) : LoopOutcome :=
  match items with
  | [] =>
      match (_checkForComodification NODE_ENV since ;;;
             _maybeCheckInvariants NODE_ENV) graph with
      | Returned _ graph' => Completed graph' result
      | Threw err graph' => Aborted err graph' result
      end
  | x :: rest =>
      match select a x with
      | inl err => Aborted err graph result
      | inr None => forOfItems a since rest graph result
      | inr (Some y) =>
          match (_checkForComodification NODE_ENV since ;;;
                 _maybeCheckInvariants NODE_ENV) graph with
          | Threw err graph' => Aborted err graph' result
          | Returned _ graph' =>
              match body y result with
              | Threw err result' => Aborted err graph' result'
              | Returned _ result' => forOfItems a since rest graph' result'
              end
          end
      end
  end.

(** [for (const y of it) body(y)] *)
Definition forOf (it : Generator Args) (graph result : Graph) : LoopOutcome :=
  if completed it then Completed graph result
  else
    match ranged source it graph with
    | inl err => Aborted err graph result
    | inr items =>
        forOfItems (args it) (initialModificationCount it)
                   (skipn (position it) items) graph result
    end.

End ForOf.

(** The body of [for (const graph of graphs)]. *)
Definition mergeOne (graph result : Graph) : LoopOutcome :=
  match nodes NODE_ENV None graph with
  | Threw err graph => Aborted err graph result
  | Returned it graph =>
      match forOf nodesSource nodesSelect (addNode NODE_ENV) it graph result with
      | Aborted err graph result => Aborted err graph result
      | Completed graph result =>
          match edges NODE_ENV None graph with
          | Threw err graph => Aborted err graph result
          | Returned it graph =>
              forOf edgesSource edgesSelect (addEdge NODE_ENV) it graph result
          end
      end
  end.

(** The loop over the graphs: what [merge] returns or throws, and the
    graphs of the argument as the call leaves them. *)
Fixpoint mergeInto (graphs : list Graph) (result : Graph)
    : (Error + Graph) * list Graph :=
  match graphs with
  | [] => (inr result, [])
  | graph :: rest =>
      match mergeOne graph result with
      | Aborted err graph _ => (inl err, graph :: rest)
      | Completed graph result =>
          let (outcome, rest) := mergeInto rest result in
          (outcome, graph :: rest)
      end
  end.

(** [Graph.merge(graphs)] *)
Definition merge (graphs : list Graph) : (Error + Graph) * list Graph :=
  match constructor NODE_ENV with
  | Threw err _ => (inl err, graphs)
  | Returned _ result => mergeInto graphs result
  end.

(** [copy()] *)
Definition copy : M Graph :=
  fun g =>
    let (outcome, graphs) := merge [g] in
    let g := hd g graphs in
    match outcome with
    | inl err => Threw err g
    | inr result => (_maybeCheckInvariants NODE_ENV ;;; ret result) g
    end.

End Merging.

(** ** Cred data and its compression *)

Module CredData.

Section WithNumber.

(** The [number]s of the cred data and the two comparisons the code
    applies to them, [a < b] and [a >= b].  Nothing is assumed of them
    (on IEEE doubles both are false when an argument is NaN). *)
Variable number : Type.
Variable lt : number -> number -> bool.
Variable ge : number -> number -> bool.

Record NodeCredSummary := mkNodeCredSummary {
  cred : number;
  seedFlow : number;
  syntheticLoopFlow : number
}.

(** A field that compression may drop is [null] afterwards. *)
Record NodeCredOverTime := mkNodeCredOverTime {
  credOverTime : list number;
  seedFlowOverTime : option (list number);
  syntheticLoopFlowOverTime : option (list number)
}.

Record EdgeCredSummary := mkEdgeCredSummary {
  forwardFlow : number;
  backwardFlow : number
}.

Record EdgeCredOverTime := mkEdgeCredOverTime {
  forwardFlowOverTime : option (list number);
  backwardFlowOverTime : option (list number)
}.

Record CredData := mkCredData {
  nodeSummaries : list NodeCredSummary;
  nodeOverTime : list (option NodeCredOverTime);
  edgeSummaries : list EdgeCredSummary;
  edgeOverTime : list (option EdgeCredOverTime);
  intervalEnds : list number
}.

(** [array.map((d, i) => f(d, i))] from index [i] on, for an [f] that may
    throw ([None]). *)
Fixpoint mapFrom {A B} (f : A -> nat -> option B) (i : nat) (l : list A)
    : option (list B) :=
  match l with
  | [] => Some []
  | d :: rest =>
      match f d i with
      | None => None
      | Some y =>
          match mapFrom f (S i) rest with
          | None => None
          | Some ys => Some (y :: ys)
          end
      end
  end.

(** The callback on [nodeOverTime]; reading a field of
    [nodeSummaries[i]] throws when the index is out of range. *)
Definition compressNode (nodeSummaries : list NodeCredSummary)
    (threshold : number) (d : option NodeCredOverTime) (i : nat)
    : option (option NodeCredOverTime) :=
  match d with
  | None => Some None
  | Some d =>
      match nth_error nodeSummaries i with
      | None => None
      | Some s =>
          if lt (cred s) threshold then Some None
          else
            Some (Some (mkNodeCredOverTime
              (credOverTime d)
              (if lt (seedFlow s) threshold then None else seedFlowOverTime d)
              (if lt (syntheticLoopFlow s) threshold then None
               else syntheticLoopFlowOverTime d)))
      end
  end.

(** The callback on [edgeOverTime]. *)
Definition compressEdge (edgeSummaries : list EdgeCredSummary)
    (threshold : number) (d : option EdgeCredOverTime) (i : nat)
    : option (option EdgeCredOverTime) :=
  match d with
  | None => Some None
  | Some d =>
      match nth_error edgeSummaries i with
      | None => None
      | Some s =>
          let checkF := ge (forwardFlow s) threshold in
          let checkB := ge (backwardFlow s) threshold in
          if checkF || checkB
          then Some (Some (mkEdgeCredOverTime
                 (if checkF then forwardFlowOverTime d else None)
                 (if checkB then backwardFlowOverTime d else None)))
          else Some None
      end
  end.

(** [None] when the call throws. *)
Definition compressByThreshold (x : CredData) (threshold : number)
    : option CredData :=
  match mapFrom (compressNode (nodeSummaries x) threshold) 0 (nodeOverTime x) with
  | None => None
  | Some newNodeOverTime =>
      match mapFrom (compressEdge (edgeSummaries x) threshold) 0
                    (edgeOverTime x) with
      | None => None
      | Some newEdgeOverTime =>
          Some (mkCredData (nodeSummaries x) newNodeOverTime
                           (edgeSummaries x) newEdgeOverTime (intervalEnds x))
      end
  end.

(** [array.map((d, i) => f(d, i))] from index [i] on, for an [f] that
    does not throw. *)
Fixpoint mapIndexed {A B} (f : A -> nat -> B) (i : nat) (l : list A) : list B :=
  match l with
  | [] => []
  | d :: rest => f d i :: mapIndexed f (S i) rest
  end.

(** [compressDownToMatchingIndices]; of the [Set] of indices only
    [has] is used. *)
Definition compressDownToMatchingIndices (x : CredData)
    (inclusionIndices : list nat) : CredData :=
  let newNodeOverTime :=
    mapIndexed
      (fun d i =>
         match d with
         | None => None
         | Some d =>
             if existsb (Nat.eqb i) inclusionIndices
             then Some (mkNodeCredOverTime (credOverTime d) None None)
             else None
         end)
      0 (nodeOverTime x) in
  let newEdgeOverTime := map (fun _ => None) (edgeOverTime x) in
  mkCredData (nodeSummaries x) newNodeOverTime
             (edgeSummaries x) newEdgeOverTime (intervalEnds x).

(** *** [computeCredData]

    The scores of one interval, as the function reads them:
    [interval.endTimeMs] and five arrays. *)
Record CredScores := mkCredScores {
  endTimeMs : number;
  scoreCred : list number;
  scoreForwardFlow : list number;
  scoreBackwardFlow : list number;
  scoreSeedFlow : list number;
  scoreSyntheticLoopFlow : list number
}.

(** The arithmetic of the function: [0], [a + b], and what reading an
    array beyond its end or a slot of [new Array(n)] that was never
    written gives, [undefined]. *)
Variable zero : number.
Variable add : number -> number -> number.
Variable undefined : number.

(** [array[n]] *)
Definition read (array : list number) (n : nat) : number := nth n array undefined.

(** [array[n] = f(array[n])] for an index within the array. *)
Fixpoint updateAt {A} (n : nat) (f : A -> A) (array : list A) {struct array}
    : list A :=
  match array, n with
  | [], _ => []
  | x :: rest, O => f x :: rest
  | x :: rest, S n' => x :: updateAt n' f rest
  end.

(** The over-time record of a node while it is filled: its three arrays. *)
Record NodeSeries := mkNodeSeries {
  credSeries : list number;
  seedFlowSeries : list number;
  syntheticLoopFlowSeries : list number
}.

Record EdgeSeries := mkEdgeSeries {
  forwardFlowSeries : list number;
  backwardFlowSeries : list number
}.

(** The four arrays that the loops fill. *)
Record Accumulator := mkAccumulator {
  accNodeSummaries : list NodeCredSummary;
  accNodeOverTime : list NodeSeries;
  accEdgeSummaries : list EdgeCredSummary;
  accEdgeOverTime : list EdgeSeries
}.

(** The body of [for (let n = 0; n < numNodes; n++)] in interval [i]. *)
Definition accumulateNode (i : nat) (scores : CredScores) (acc : Accumulator)
    (n : nat) : Accumulator :=
  mkAccumulator
    (updateAt n
       (fun s => mkNodeCredSummary
                   (add (cred s) (read (scoreCred scores) n))
                   (add (seedFlow s) (read (scoreSeedFlow scores) n))
                   (add (syntheticLoopFlow s)
                        (read (scoreSyntheticLoopFlow scores) n)))
       (accNodeSummaries acc))
    (updateAt n
       (fun d => mkNodeSeries
                   (updateAt i (fun _ => read (scoreCred scores) n) (credSeries d))
                   (updateAt i (fun _ => read (scoreSeedFlow scores) n)
                             (seedFlowSeries d))
                   (updateAt i (fun _ => read (scoreSyntheticLoopFlow scores) n)
                             (syntheticLoopFlowSeries d)))
       (accNodeOverTime acc))
    (accEdgeSummaries acc)
    (accEdgeOverTime acc).

(** The body of [for (let e = 0; e < numEdges; e++)] in interval [i]. *)
Definition accumulateEdge (i : nat) (scores : CredScores) (acc : Accumulator)
    (e : nat) : Accumulator :=
  mkAccumulator
    (accNodeSummaries acc)
    (accNodeOverTime acc)
    (updateAt e
       (fun s => mkEdgeCredSummary
                   (add (forwardFlow s) (read (scoreForwardFlow scores) e))
                   (add (backwardFlow s) (read (scoreBackwardFlow scores) e)))
       (accEdgeSummaries acc))
    (updateAt e
       (fun d => mkEdgeSeries
                   (updateAt i (fun _ => read (scoreForwardFlow scores) e)
                             (forwardFlowSeries d))
                   (updateAt i (fun _ => read (scoreBackwardFlow scores) e)
                             (backwardFlowSeries d)))
       (accEdgeOverTime acc)).

(** The body of [for (let i = 0; i < numIntervals; i++)]. *)
Definition accumulateInterval (numNodes numEdges : nat) (acc : Accumulator)
    (step : nat * CredScores) : Accumulator :=
  let (i, scores) := step in
  let acc := fold_left (accumulateNode i scores) (seq 0 numNodes) acc in
  fold_left (accumulateEdge i scores) (seq 0 numEdges) acc.

Definition computeCredData (scores : list CredScores) : CredData :=
  let numIntervals := List.length scores in
  match scores with
  | [] => mkCredData [] [] [] [] []
  | first :: _ =>
      let intervalEnds := map endTimeMs scores in
      let numNodes := List.length (scoreCred first) in
      let numEdges := List.length (scoreForwardFlow first) in
      let nodeSummaries := repeat (mkNodeCredSummary zero zero zero) numNodes in
      let nodeOverTime :=
        repeat (mkNodeSeries (repeat undefined numIntervals)
                             (repeat undefined numIntervals)
                             (repeat undefined numIntervals)) numNodes in
      let edgeSummaries := repeat (mkEdgeCredSummary zero zero) numEdges in
      let edgeOverTime :=
        repeat (mkEdgeSeries (repeat undefined numIntervals)
                             (repeat undefined numIntervals)) numEdges in
      let acc :=
        fold_left (accumulateInterval numNodes numEdges)
                  (combine (seq 0 numIntervals) scores)
                  (mkAccumulator nodeSummaries nodeOverTime
                                 edgeSummaries edgeOverTime) in
      mkCredData
        (accNodeSummaries acc)
        (map (fun d => Some (mkNodeCredOverTime
                               (credSeries d)
                               (Some (seedFlowSeries d))
                               (Some (syntheticLoopFlowSeries d))))
             (accNodeOverTime acc))
        (accEdgeSummaries acc)
        (map (fun d => Some (mkEdgeCredOverTime
                               (Some (forwardFlowSeries d))
                               (Some (backwardFlowSeries d))))
             (accEdgeOverTime acc))
        intervalEnds
  end.

End WithNumber.

End CredData.

(** ** [src/analysis/pagerankNodeDecomposition.js]

    Scores and weights are [number]s in the source and doubles here:
    [*], unary [-], [<], [>] and [===] are the operations of Rocq's
    primitive floats, which are those of IEEE 754 binary64 with
    rounding to nearest, ties to even. *)

Module NodeDecomposition.

(** Modelled from the spec: [src/core/attribution/graphToMarkovChain.js]
    is not among the sources.  An adjacency of a node is a real inbound
    edge, a real outbound edge used in reverse, or the synthetic
    self-loop, and carries a source node; [decompose] reads its [type]
    tag and, for the first two, its [edge]. *)
Inductive Adjacency :=
| SYNTHETIC_LOOP
| IN_EDGE (edge : Edge)
| OUT_EDGE (edge : Edge).

(** The [type] field. *)
Definition adjacencyType (a : Adjacency) : string :=
  match a with
  | SYNTHETIC_LOOP => "SYNTHETIC_LOOP"
  | IN_EDGE _ => "IN_EDGE"
  | OUT_EDGE _ => "OUT_EDGE"
  end.

(** A [number] of the decomposition: a binary64 double. *)
Abbreviation number := PrimFloat.float.

Record Connection := mkConnection { adjacency : Adjacency; weight : number }.

Definition NodeToConnections := JsMap.t (list Connection).

Definition NodeScore := JsMap.t number.

(** Modelled from the spec: the source node of an adjacency of [target]
    (same missing file). *)
Definition adjacencySource (target : NodeAddressT) (a : Adjacency)
    : NodeAddressT :=
  match a with
  | SYNTHETIC_LOOP => target
  | IN_EDGE e => src e
  | OUT_EDGE e => dst e
  end.

Record ScoredConnection := mkScoredConnection {
  connection : Connection;
  source : NodeAddressT;
  connectionScore : number
}.

Record Decomposed := mkDecomposed {
  score : number;
  scoredConnections : list ScoredConnection
}.

Definition PagerankNodeDecomposition := JsMap.t Decomposed.

(** The three iteratees given to [sortBy]. *)
Definition byScore (x : ScoredConnection) : number :=
  PrimFloat.opp (connectionScore x).

Definition byType (x : ScoredConnection) : string :=
  adjacencyType (adjacency (connection x)).

Definition byAddress (x : ScoredConnection) : string :=
  match adjacency (connection x) with
  | IN_EDGE e => address e
  | OUT_EDGE e => address e
  | SYNTHETIC_LOOP => ""
  end.

(** lodash's [compareAscending] on two numbers: [1] is [Gt], [-1] is
    [Lt], [0] is [Eq].  [!==], [>] and [<] are those of the doubles; a
    value that is not equal to itself is NaN. *)
Definition compareNumbers (value other : number) : comparison :=
  if negb (PrimFloat.eqb value other) then
    let valIsReflexive := PrimFloat.eqb value value in
    let othIsReflexive := PrimFloat.eqb other other in
    if PrimFloat.ltb other value || negb valIsReflexive then Gt
    else if PrimFloat.ltb value other || negb othIsReflexive then Lt
    else Eq
  else Eq.

(** lodash's [compareMultiple]: the first iteratee on which the two
    differ decides ([compareAscending] on two strings is their [>] and
    [<]). *)
Definition compareMultiple (x y : ScoredConnection) : comparison :=
  match compareNumbers (byScore x) (byScore y) with
  | Eq =>
      match compareStrings (byType x) (byType y) with
      | Eq => compareStrings (byAddress x) (byAddress y)
      | c => c
      end
  | c => c
  end.

(** lodash's [sortBy]: [Array.prototype.sort] with [compareMultiple],
    which falls back on the index in the input when it finds no
    difference.  When no score is NaN this comparison is a total order
    of the entries, and sorting by it is the stable sort (ties keep the
    order of the input), whatever the algorithm of the engine. *)
Fixpoint insertSorted {A} (cmp : A -> A -> comparison) (x : A) (l : list A)
    : list A :=
  match l with
  | [] => [x]
  | y :: rest =>
      match cmp x y with
      | Gt => y :: insertSorted cmp x rest
      | _ => x :: l
      end
  end.

Definition sortByComparison {A} (cmp : A -> A -> comparison) (l : list A)
    : list A :=
  fold_right (insertSorted cmp) [] l.

(** [connections.map(...)] of [decompose]; [None] when [NullUtil.get]
    throws. *)
Fixpoint scoreConnections (pr : NodeScore) (target : NodeAddressT)
    (connections : list Connection) : option (list ScoredConnection) :=
  match connections with
  | [] => Some []
  | c :: rest =>
      let source := adjacencySource target (adjacency c) in
      match JsMap.get source pr with
      | None => None
      | Some sourceScore =>
          let connectionScore := PrimFloat.mul (weight c) sourceScore in
          match scoreConnections pr target rest with
          | None => None
          | Some scored =>
              Some (mkScoredConnection c source connectionScore :: scored)
          end
      end
  end.

(** The callback given to [MapUtil.mapValues]. *)
Definition decomposeNode (pr : NodeScore) (target : NodeAddressT)
    (connections : list Connection) : option Decomposed :=
  match JsMap.get target pr with
  | None => None
  | Some score =>
      match scoreConnections pr target connections with
      | None => None
      | Some scored =>
          Some (mkDecomposed score (sortByComparison compareMultiple scored))
      end
  end.

(** Modelled from the spec: [src/util/map.js] is not among the sources;
    [mapValues] builds the map with the same keys, in the same order,
    and the values the callback returns for them. *)
Fixpoint mapValues {V W} (f : string -> V -> option W) (m : JsMap.t V)
    : option (JsMap.t W) :=
  match m with
  | [] => Some []
  | (k, v) :: rest =>
      match f k v with
      | None => None
      | Some w =>
          match mapValues f rest with
          | None => None
          | Some rest' => Some ((k, w) :: rest')
          end
      end
  end.

(** [None] when the call throws. *)
Definition decompose (pr : NodeScore) (connections : NodeToConnections)
    : option PagerankNodeDecomposition :=
  mapValues (decomposeNode pr) connections.

End NodeDecomposition.

(** ** The graph with payloads (earlier core): [merge], [mergeConservative] *)

Module LegacyGraph.

Section WithPayloads.

(** The [Address] of that core is declared in a file that is not among
    the sources; the class compares addresses and reads their [type]. *)
Variable Address : Type.
Variable Address_eq_dec : forall a b : Address, {a = b} + {a <> b}.
Variable addressType : Address -> string.

(** The payloads of nodes and of edges, compared by [deepEqual]. *)
Variables NP EP : Type.
Variable NP_eq_dec : forall p q : NP, {p = q} + {p <> q}.
Variable EP_eq_dec : forall p q : EP, {p = q} + {p <> q}.

Record Node := mkNode { nodeAddress : Address; nodePayload : NP }.

Record Edge := mkEdge {
  address : Address;
  src : Address;
  dst : Address;
  payload : EP
}.

(** An entry of [_outEdges] or [_inEdges]. *)
Record Adjacent := mkAdjacent { anchor : Address; edges : list Address }.

Definition Address_eqb (a b : Address) : bool :=
  if Address_eq_dec a b then true else false.

(** [deepEqual] on nodes and on edges. *)
Definition Node_eqb (u v : Node) : bool :=
  Address_eqb (nodeAddress u) (nodeAddress v)
  && (if NP_eq_dec (nodePayload u) (nodePayload v) then true else false).

Definition Edge_eqb (e f : Edge) : bool :=
  Address_eqb (address e) (address f)
  && Address_eqb (src e) (src f) && Address_eqb (dst e) (dst f)
  && (if EP_eq_dec (payload e) (payload f) then true else false).

(** Modelled from the spec: the [AddressMap] of that core is in the same
    missing file.  It keeps one item per address, under the address the
    item carries: [add] replaces the item at that address or appends a
    new one, [get] finds it, [getAll] lists the items in insertion
    order. *)
Section AddressMap.

Variable T : Type.
Variable addressOf : T -> Address.

Definition AddressMap := list T.

Definition get (a : Address) (m : AddressMap) : option T :=
  find (fun t => Address_eqb (addressOf t) a) m.

Definition add (t : T) (m : AddressMap) : AddressMap :=
  match get (addressOf t) m with
  | Some _ =>
      map (fun t' => if Address_eqb (addressOf t') (addressOf t) then t else t') m
  | None => m ++ [t]
  end.

Definition remove (a : Address) (m : AddressMap) : AddressMap :=
  filter (fun t => negb (Address_eqb (addressOf t) a)) m.

Definition getAll (m : AddressMap) : list T := m.

End AddressMap.

Record Graph := mkGraph {
  _nodes : AddressMap Node;
  _edges : AddressMap Edge;
  _outEdges : AddressMap Adjacent;
  _inEdges : AddressMap Adjacent
}.

(** [new Graph()] *)
Definition empty : Graph := mkGraph [] [] [] [].

(** The [throw]s of the class. *)
Inductive LegacyError :=
| ExistsWithDistinctContents (kind : string) (a : Address)
| Distinct (kinds : string) (a : Address).

Definition node (a : Address) (g : Graph) : option Node :=
  get nodeAddress a (_nodes g).

Definition edge (a : Address) (g : Graph) : option Edge :=
  get address a (_edges g).

Definition _lookupEdges (m : AddressMap Adjacent) (key : Address)
    : list Address :=
  match get anchor key m with
  | Some result => edges result
  | None => []
  end.

(** [addNode] and [addEdge]; their arguments are not [null], by their
    type.  [push] on the array that [_lookupEdges] returned followed by
    [add] of an entry with that array leaves the entry with the array
    extended. *)
Definition addNode (n : Node) (g : Graph) : LegacyError + Graph :=
  match node (nodeAddress n) g with
  | Some existingNode =>
      if Node_eqb existingNode n then inr g
      else inl (ExistsWithDistinctContents "node" (nodeAddress n))
  | None =>
      inr (mkGraph
             (add nodeAddress n (_nodes g))
             (_edges g)
             (add anchor
                  (mkAdjacent (nodeAddress n)
                              (_lookupEdges (_outEdges g) (nodeAddress n)))
                  (_outEdges g))
             (add anchor
                  (mkAdjacent (nodeAddress n)
                              (_lookupEdges (_inEdges g) (nodeAddress n)))
                  (_inEdges g)))
  end.

Definition addEdge (e : Edge) (g : Graph) : LegacyError + Graph :=
  match edge (address e) g with
  | Some existingEdge =>
      if Edge_eqb existingEdge e then inr g
      else inl (ExistsWithDistinctContents "edge" (address e))
  | None =>
      inr (mkGraph
             (_nodes g)
             (add address e (_edges g))
             (add anchor
                  (mkAdjacent (src e)
                              (_lookupEdges (_outEdges g) (src e) ++ [address e]))
                  (_outEdges g))
             (add anchor
                  (mkAdjacent (dst e)
                              (_lookupEdges (_inEdges g) (dst e) ++ [address e]))
                  (_inEdges g)))
  end.

(** [removeNode]; the entries of the node in [_outEdges] and [_inEdges]
    stay. *)
Definition removeNode (a : Address) (g : Graph) : Graph :=
  mkGraph (remove nodeAddress a (_nodes g)) (_edges g) (_outEdges g) (_inEdges g).

(** [edges.findIndex((ea) => deepEqual(ea, address))] followed by
    [edges.splice(index, 1)] when an index was found. *)
Fixpoint spliceFirst (a : Address) (l : list Address) : list Address :=
  match l with
  | [] => []
  | ea :: rest => if Address_eqb ea a then rest else ea :: spliceFirst a rest
  end.

(** [_lookupEdges] returns the array that the entry holds, or a fresh
    empty one when there is no entry: the [splice] of [removeEdge]
    changes the entry, if there is one. *)
Definition spliceEntry (key a : Address) (m : AddressMap Adjacent)
    : AddressMap Adjacent :=
  match get anchor key m with
  | Some result =>
      add anchor (mkAdjacent (anchor result) (spliceFirst a (edges result))) m
  | None => m
  end.

Definition removeEdge (a : Address) (g : Graph) : Graph :=
  match edge a g with
  | Some e =>
      mkGraph (_nodes g)
              (remove address a (_edges g))
              (spliceEntry (src e) a (_outEdges g))
              (spliceEntry (dst e) a (_inEdges g))
  | None =>
      mkGraph (_nodes g) (remove address a (_edges g)) (_outEdges g) (_inEdges g)
  end.

(** The options of [neighborhood]; each may be left out. *)
Record NeighborhoodOptions := mkNeighborhoodOptions {
  nodeType : option string;
  edgeType : option string;
  direction : option DirectionT
}.

(** An item of the result of [neighborhood]: [{edge, neighbor}]. *)
Record Neighbor := mkNeighbor { neighborEdge : Edge; neighbor : Address }.

(** [addresses.map((e) => { const edge = this.edge(e); return {edge,
    neighbor: edge.src}; })], and the same with [edge.dst]: reading the
    endpoint of an [undefined] edge is a [TypeError], here [None]. *)
Fixpoint neighborsAt (endpoint : Edge -> Address) (g : Graph)
    (addresses : list Address) : option (list Neighbor) :=
  match addresses with
  | [] => Some []
  | e :: rest =>
      match edge e g with
      | None => None
      | Some found =>
          match neighborsAt endpoint g rest with
          | None => None
          | Some neighbors => Some (mkNeighbor found (endpoint found) :: neighbors)
          end
      end
  end.

Definition isDirection (d d' : DirectionT) : bool :=
  match d, d' with
  | IN, IN | OUT, OUT | ANY, ANY => true
  | _, _ => false
  end.

(** [neighborhood(nodeAddress, options)]; [None] is the [TypeError]. *)
Definition neighborhood (nodeAddress : Address)
    (options : option NeighborhoodOptions) (g : Graph)
    : option (list Neighbor) :=
  let result := [] in
  let direction :=
    match options with
    | Some o => match direction o with Some d => d | None => ANY end
    | None => ANY
    end in
  match
    (if isDirection direction ANY || isDirection direction IN then
       match neighborsAt src g (_lookupEdges (_inEdges g) nodeAddress) with
       | None => None
       | Some inNeighbors => Some (result ++ inNeighbors)
       end
     else Some result)
  with
  | None => None
  | Some result =>
  match
    (if isDirection direction ANY || isDirection direction OUT then
       match neighborsAt dst g (_lookupEdges (_outEdges g) nodeAddress) with
       | None => None
       | Some outNeighbors =>
           let outNeighbors :=
             if isDirection direction ANY then
               filter (fun x => negb (Address_eqb (src (neighborEdge x))
                                                  (dst (neighborEdge x))))
                      outNeighbors
             else outNeighbors in
           Some (result ++ outNeighbors)
       end
     else Some result)
  with
  | None => None
  | Some result =>
      let result :=
        match options with
        | Some o =>
            match edgeType o with
            | Some edgeType =>
                filter (fun x => String.eqb (addressType (address (neighborEdge x)))
                                            edgeType)
                       result
            | None => result
            end
        | None => result
        end in
      let result :=
        match options with
        | Some o =>
            match nodeType o with
            | Some nodeType =>
                filter (fun x => String.eqb (addressType (neighbor x)) nodeType)
                       result
            | None => result
            end
        | None => result
        end in
      Some result
  end end.

(** [nodes(filter)] and [edges(filter)]; the filter and its [type] may
    be left out. *)
Definition nodes (filter : option (option string)) (g : Graph) : list Node :=
  let nodes := getAll (_nodes g) in
  match filter with
  | Some (Some typeFilter) =>
      List.filter (fun n => String.eqb (addressType (nodeAddress n)) typeFilter)
                  nodes
  | _ => nodes
  end.

Definition edgesOf (filter : option (option string)) (g : Graph) : list Edge :=
  let edges := getAll (_edges g) in
  match filter with
  | Some (Some typeFilter) =>
      List.filter (fun e => String.eqb (addressType (address e)) typeFilter) edges
  | _ => edges
  end.

(** [array.forEach(f)] on the graph under construction, for an [f] that
    may throw. *)
Fixpoint forEach {A} (f : A -> Graph -> LegacyError + Graph) (l : list A)
    (result : Graph) : LegacyError + Graph :=
  match l with
  | [] => inr result
  | x :: rest =>
      match f x result with
      | inl err => inl err
      | inr result' => forEach f rest result'
      end
  end.

(** [Graph.merge]; a resolver may throw. *)
Definition merge (g1 g2 : Graph)
    (nodeResolver : Node -> Node -> LegacyError + Node)
    (edgeResolver : Edge -> Edge -> LegacyError + Edge)
    : LegacyError + Graph :=
  let result := empty in
  match
    forEach (fun n result =>
               match node (nodeAddress n) g2 with
               | Some n2 =>
                   match nodeResolver n n2 with
                   | inl err => inl err
                   | inr resolved => addNode resolved result
                   end
               | None => addNode n result
               end)
            (nodes None g1) result
  with
  | inl err => inl err
  | inr result =>
  match
    forEach (fun n result =>
               match node (nodeAddress n) result with
               | None => addNode n result
               | Some _ => inr result
               end)
            (nodes None g2) result
  with
  | inl err => inl err
  | inr result =>
  match
    forEach (fun e result =>
               match edge (address e) g2 with
               | Some e2 =>
                   match edgeResolver e e2 with
                   | inl err => inl err
                   | inr resolved => addEdge resolved result
                   end
               | None => addEdge e result
               end)
            (edgesOf None g1) result
  with
  | inl err => inl err
  | inr result =>
    forEach (fun e result =>
               match edge (address e) result with
               | None => addEdge e result
               | Some _ => inr result
               end)
            (edgesOf None g2) result
  end end end.

(** The resolvers of [mergeConservative]. *)
Definition conservativeNodeResolver (a b : Node) : LegacyError + Node :=
  if Node_eqb a b then inr a else inl (Distinct "nodes" (nodeAddress a)).

Definition conservativeEdgeResolver (a b : Edge) : LegacyError + Edge :=
  if Edge_eqb a b then inr a else inl (Distinct "edges" (address a)).

Definition mergeConservative (g1 g2 : Graph) : LegacyError + Graph :=
  merge g1 g2 conservativeNodeResolver conservativeEdgeResolver.

(** [copy()] *)
Definition copy (g : Graph) : LegacyError + Graph := mergeConservative empty g.

(** [mergeManyConservative]: one accumulator for all the graphs. *)
Definition mergeManyConservative (graphs : list Graph) : LegacyError + Graph :=
  let result := empty in
  forEach (fun graph result =>
             match forEach addNode (nodes None graph) result with
             | inl err => inl err
             | inr result => forEach addEdge (edgesOf None graph) result
             end)
          graphs result.

(** What the comment of [mergeManyConservative] says it is equivalent
    to: [graphs.reduce((g, h) => Graph.mergeConservative(g, h), new
    Graph())]. *)
Definition reduceConservative (graphs : list Graph) : LegacyError + Graph :=
  fold_left (fun acc h =>
               match acc with
               | inl err => inl err
               | inr g => mergeConservative g h
               end)
            graphs (inr empty).

End WithPayloads.

End LegacyGraph.

Unset Implicit Arguments.

(** ** The invariants of [Graph], as propositions

    These restate the comment block of [_checkInvariants]. *)

Definition adjacencyIndex (kind : AdjacencyKind) (g : Graph)
    : JsMap.t (list Edge) :=
  match kind with InEdgeKind => _inEdges g | OutEdgeKind => _outEdges g end.

(** Invariants 3 ([InEdgeKind]) and 4 ([OutEdgeKind]). *)
Definition AdjacencyInvariant (kind : AdjacencyKind) (g : Graph) : Prop :=
  forall n es, JsMap.get n (adjacencyIndex kind g) = Some es ->
    In n (_nodes g)
    /\ NoDup (map address es)
    /\ forall e, In e es ->
         JsMap.get (address e) (_edges g) = Some e
         /\ baseNodeAccessor kind e = n.

Record DataInvariant (g : Graph) : Prop := mkDataInvariant {
  (* the keys of a [Set] or [Map] are distinct *)
  nodes_distinct : NoDup (_nodes g);
  edges_distinct : NoDup (JsMap.keys (_edges g));
  inEdges_distinct : NoDup (JsMap.keys (_inEdges g));
  outEdges_distinct : NoDup (JsMap.keys (_outEdges g));
  (* every address went through [assertValid] *)
  nodes_valid : forall n, In n (_nodes g) -> NodeAddress.isValid n = true;
  edges_valid : forall a e,
    JsMap.get a (_edges g) = Some e -> EdgeAddress.isValid a = true;
  (* Invariant 1 *)
  invariant_1 : forall n, In n (_nodes g) ->
    JsMap.get n (_inEdges g) <> None /\ JsMap.get n (_outEdges g) <> None;
  (* Invariant 2 *)
  invariant_2 : forall a e, JsMap.get a (_edges g) = Some e ->
    address e = a
    /\ In (src e) (_nodes g)
    /\ In (dst e) (_nodes g)
    /\ (exists es, JsMap.get (dst e) (_inEdges g) = Some es /\ In e es)
    /\ (exists es, JsMap.get (src e) (_outEdges g) = Some es /\ In e es);
  invariant_3 : AdjacencyInvariant InEdgeKind g;
  invariant_4 : AdjacencyInvariant OutEdgeKind g
}.

(** The modification count and the cache of [checkInvariants]. *)
Record BookkeepingInvariant (g : Graph) : Prop := mkBookkeepingInvariant {
  count_range : (0 <= _modificationCount g <= MAX_SAFE_INTEGER)%Z;
  size_bound :
    (Z.of_nat (List.length (_nodes g) + List.length (_edges g))
     <= _modificationCount g)%Z;
  checked_past : (when (_invariantsLastChecked g) <= _modificationCount g)%Z;
  checked_now :
    when (_invariantsLastChecked g) = _modificationCount g ->
    failure (_invariantsLastChecked g) = None
}.

Definition GraphInvariant (g : Graph) : Prop :=
  DataInvariant g /\ BookkeepingInvariant g.

(** The graphs a program can hold: built by [new Graph()] and changed by
    calls that returned. *)
Inductive reachable (NODE_ENV : string) : Graph -> Prop :=
| reachable_new g :
    constructor NODE_ENV = Returned tt g -> reachable NODE_ENV g
| reachable_addNode g a g' :
    reachable NODE_ENV g -> addNode NODE_ENV a g = Returned tt g' ->
    reachable NODE_ENV g'
| reachable_addEdge g e g' :
    reachable NODE_ENV g -> addEdge NODE_ENV e g = Returned tt g' ->
    reachable NODE_ENV g'
| reachable_removeNode g a g' :
    reachable NODE_ENV g -> removeNode NODE_ENV a g = Returned tt g' ->
    reachable NODE_ENV g'
| reachable_removeEdge g a g' :
    reachable NODE_ENV g -> removeEdge NODE_ENV a g = Returned tt g' ->
    reachable NODE_ENV g'
| reachable_checkInvariants g g' :
    reachable NODE_ENV g -> checkInvariants g = Returned tt g' ->
    reachable NODE_ENV g'.

(* ================================================================== *)
(** * Part II.  Properties                                             *)
(* ================================================================== *)

(** ** Facts about the collections *)

Lemma eqb_sym_string (a b : string) : String.eqb a b = String.eqb b a.
Proof.
  destruct (String.eqb_spec a b) as [->|Hn].
  - now rewrite String.eqb_refl.
  - destruct (String.eqb_spec b a) as [->|_]; [now elim Hn | reflexivity].
Qed.

Module JsSetFacts.

Lemma has_In x s : JsSet.has x s = true <-> In x s.
Proof.
  unfold JsSet.has. rewrite existsb_exists. split.
  - intros (y & Hy & Heq). apply String.eqb_eq in Heq. now subst.
  - intros H. exists x. split; [assumption | apply String.eqb_refl].
Qed.

Lemma has_false x s : JsSet.has x s = false <-> ~ In x s.
Proof.
  rewrite <- has_In. destruct (JsSet.has x s); split; congruence.
Qed.

Lemma has_add y x s :
  JsSet.has y (JsSet.add x s) = String.eqb y x || JsSet.has y s.
Proof.
  unfold JsSet.add. destruct (JsSet.has x s) eqn:Hx.
  - destruct (String.eqb_spec y x) as [->|]; [now rewrite Hx | reflexivity].
  - unfold JsSet.has. rewrite existsb_app. simpl.
    rewrite orb_false_r. apply orb_comm.
Qed.

Lemma has_delete y x s :
  JsSet.has y (JsSet.delete x s) = negb (String.eqb x y) && JsSet.has y s.
Proof.
  unfold JsSet.delete, JsSet.has. induction s as [|z s IH]; simpl.
  - now rewrite andb_false_r.
  - destruct (String.eqb_spec x z) as [->|Hxz]; simpl.
    + rewrite IH. rewrite (eqb_sym_string y z).
      destruct (String.eqb z y); reflexivity.
    + rewrite IH. destruct (String.eqb_spec y z) as [->|]; simpl.
      * destruct (String.eqb_spec x z); [contradiction | reflexivity].
      * reflexivity.
Qed.

Lemma In_add y x s : In y (JsSet.add x s) <-> y = x \/ In y s.
Proof.
  rewrite <- !has_In, has_add, orb_true_iff, String.eqb_eq. reflexivity.
Qed.

Lemma NoDup_add x s : NoDup s -> NoDup (JsSet.add x s).
Proof.
  intros H. unfold JsSet.add. destruct (JsSet.has x s) eqn:Hx; [assumption|].
  apply has_false in Hx.
  apply NoDup_app; [assumption | repeat constructor; intros [] | ].
  intros a Ha [<-|[]]. contradiction.
Qed.

Lemma NoDup_delete x s : NoDup s -> NoDup (JsSet.delete x s).
Proof. apply NoDup_filter. Qed.

Lemma In_delete y x s : In y (JsSet.delete x s) <-> y <> x /\ In y s.
Proof.
  unfold JsSet.delete. rewrite filter_In, negb_true_iff, String.eqb_neq.
  intuition congruence.
Qed.

Lemma length_add x s :
  List.length (JsSet.add x s)
  = if JsSet.has x s then List.length s else S (List.length s).
Proof.
  unfold JsSet.add. destruct (JsSet.has x s); [reflexivity|].
  rewrite length_app. simpl. lia.
Qed.

Lemma length_delete x s : (List.length (JsSet.delete x s) <= List.length s)%nat.
Proof. apply filter_length_le. Qed.

End JsSetFacts.

Module JsMapFacts.

Section WithValue.
Context {V : Type}.
Implicit Types (m : JsMap.t V) (k : string) (v : V).

Lemma has_get k m :
  JsMap.has k m = match JsMap.get k m with Some _ => true | None => false end.
Proof.
  unfold JsMap.has, JsMap.get. induction m as [|[k' v'] m IH]; simpl.
  - reflexivity.
  - destruct (String.eqb k k'); [reflexivity | exact IH].
Qed.

Lemma get_cons k k' v m :
  JsMap.get k ((k', v) :: m) = if String.eqb k k' then Some v else JsMap.get k m.
Proof. unfold JsMap.get. simpl. now destruct (String.eqb k k'). Qed.

Lemma get_In k v m : JsMap.get k m = Some v -> In (k, v) m.
Proof.
  induction m as [|[k' v'] m IH]; [discriminate|].
  rewrite get_cons. destruct (String.eqb_spec k k') as [->|Hn].
  - intros [= ->]. now left.
  - intros H. right. auto.
Qed.

Lemma get_None k m : JsMap.get k m = None <-> ~ In k (JsMap.keys m).
Proof.
  induction m as [|[k' v'] m IH]; simpl.
  - unfold JsMap.get. simpl. intuition.
  - rewrite get_cons. destruct (String.eqb_spec k k') as [->|Hn].
    + split; [discriminate | intros H; elim H; now left].
    + rewrite IH. intuition congruence.
Qed.

Lemma In_get k v m : NoDup (JsMap.keys m) -> In (k, v) m -> JsMap.get k m = Some v.
Proof.
  induction m as [|[k' v'] m IH]; simpl; [intros _ []|].
  intros Hnd [Heq|Hin]; rewrite get_cons; inversion Hnd as [|? ? Hk Hnd']; subst.
  - inversion Heq; subst. now rewrite String.eqb_refl.
  - destruct (String.eqb_spec k k') as [->|Hn]; [|auto].
    elim Hk. change k' with (fst (k', v)). now apply in_map.
Qed.

Lemma get_app k m m' :
  JsMap.get k (m ++ m')
  = match JsMap.get k m with Some v => Some v | None => JsMap.get k m' end.
Proof.
  induction m as [|[k' v'] m IH]; simpl; [reflexivity|].
  rewrite !get_cons. now destruct (String.eqb k k').
Qed.

Lemma get_replace k' k v m :
  JsMap.get k' (map (fun p => if String.eqb k (fst p) then (k, v) else p) m)
  = if String.eqb k' k
    then match JsMap.get k m with Some _ => Some v | None => None end
    else JsMap.get k' m.
Proof.
  induction m as [|[k0 w0] m IH]; simpl.
  - unfold JsMap.get. simpl. now destruct (String.eqb k' k).
  - destruct (String.eqb_spec k k0) as [->|Hn]; rewrite !get_cons, IH.
    + destruct (String.eqb_spec k' k0) as [->|]; [|reflexivity].
      now rewrite String.eqb_refl.
    + simpl. destruct (String.eqb_spec k' k0) as [->|].
      * destruct (String.eqb_spec k0 k); [now subst; elim Hn | reflexivity].
      * destruct (String.eqb_spec k' k) as [->|]; [|reflexivity].
        destruct (String.eqb_spec k k0); [contradiction | reflexivity].
Qed.

Lemma get_set k' k v m :
  JsMap.get k' (JsMap.set k v m)
  = if String.eqb k' k then Some v else JsMap.get k' m.
Proof.
  unfold JsMap.set. rewrite has_get. destruct (JsMap.get k m) eqn:Hk.
  - rewrite get_replace, Hk. reflexivity.
  - rewrite get_app, get_cons.
    destruct (String.eqb_spec k' k) as [->|].
    + now rewrite Hk.
    + destruct (JsMap.get k' m); reflexivity.
Qed.

Lemma get_delete k' k m :
  JsMap.get k' (JsMap.delete k m)
  = if String.eqb k' k then None else JsMap.get k' m.
Proof.
  unfold JsMap.delete. induction m as [|[k0 v0] m IH]; simpl.
  - unfold JsMap.get. simpl. now destruct (String.eqb k' k).
  - destruct (String.eqb_spec k k0) as [->|Hn]; simpl; rewrite ?get_cons, IH.
    + destruct (String.eqb k' k0); reflexivity.
    + destruct (String.eqb_spec k' k) as [->|].
      * destruct (String.eqb_spec k k0); [contradiction | reflexivity].
      * reflexivity.
Qed.

Lemma keys_set k v m :
  JsMap.keys (JsMap.set k v m)
  = if JsMap.has k m then JsMap.keys m else JsMap.keys m ++ [k].
Proof.
  unfold JsMap.set, JsMap.keys. destruct (JsMap.has k m).
  - rewrite map_map. apply map_ext_in. intros [k0 v0] _. simpl.
    destruct (String.eqb_spec k k0); simpl; congruence.
  - now rewrite map_app.
Qed.

Lemma NoDup_keys_set k v m :
  NoDup (JsMap.keys m) -> NoDup (JsMap.keys (JsMap.set k v m)).
Proof.
  intros H. rewrite keys_set, has_get.
  destruct (JsMap.get k m) eqn:Hk; [assumption|].
  apply get_None in Hk.
  apply NoDup_app; [assumption | repeat constructor; intros [] | ].
  intros a Ha [<-|[]]. contradiction.
Qed.

Lemma keys_delete k m :
  JsMap.keys (JsMap.delete k m) = JsSet.delete k (JsMap.keys m).
Proof.
  unfold JsMap.keys, JsMap.delete, JsSet.delete.
  induction m as [|[k0 v0] m IH]; simpl; [reflexivity|].
  destruct (String.eqb k k0); simpl; now rewrite IH.
Qed.

Lemma NoDup_keys_delete k m :
  NoDup (JsMap.keys m) -> NoDup (JsMap.keys (JsMap.delete k m)).
Proof. rewrite keys_delete. apply JsSetFacts.NoDup_delete. Qed.

Lemma length_set k v m :
  List.length (JsMap.set k v m)
  = if JsMap.has k m then List.length m else S (List.length m).
Proof.
  unfold JsMap.set. destruct (JsMap.has k m).
  - apply length_map.
  - rewrite length_app. simpl. lia.
Qed.

Lemma length_delete_present k v m :
  JsMap.get k m = Some v ->
  (S (List.length (JsMap.delete k m)) <= List.length m)%nat.
Proof.
  unfold JsMap.delete. induction m as [|[k0 v0] m IH]; [discriminate|].
  rewrite get_cons. simpl. destruct (String.eqb k k0); simpl.
  - intros _. pose proof (filter_length_le
      (fun p : string * V => negb (String.eqb k (fst p))) m). lia.
  - intros H. apply IH in H. lia.
Qed.

(** Setting a key to the value it has changes nothing. *)
Lemma set_same k v m :
  NoDup (JsMap.keys m) -> JsMap.get k m = Some v -> JsMap.set k v m = m.
Proof.
  intros Hnd H. unfold JsMap.set. rewrite has_get, H.
  apply get_In in H. rewrite <- (map_id m) at 2.
  apply map_ext_in. intros [k0 v0] Hin. simpl.
  destruct (String.eqb_spec k k0) as [->|Hn]; [|reflexivity].
  f_equal. apply (In_get _ _ _ Hnd) in H. apply (In_get _ _ _ Hnd) in Hin.
  congruence.
Qed.

End WithValue.

End JsMapFacts.

(** ** The sweep accepts every graph that satisfies the invariants *)

Lemma firstFailure_None {A} (check : A -> option Failure) l :
  (forall x, In x l -> check x = None) -> firstFailure check l = None.
Proof.
  induction l as [|x l IH]; simpl; intros H; [reflexivity|].
  rewrite (H x (or_introl eq_refl)). apply IH. intros y Hy. apply H. now right.
Qed.

Lemma Edge_eqb_refl e : Edge_eqb e e = true.
Proof. unfold Edge_eqb. now rewrite !String.eqb_refl. Qed.

Lemma Edge_eqb_eq e f : Edge_eqb e f = true <-> e = f.
Proof.
  split; [|intros ->; apply Edge_eqb_refl].
  unfold Edge_eqb. rewrite !andb_true_iff, !String.eqb_eq.
  destruct e, f; simpl. intros [[-> ->] ->]. reflexivity.
Qed.

Lemma add_fresh x s : ~ In x s -> JsSet.add x s = s ++ [x].
Proof.
  intros H. unfold JsSet.add. apply JsSetFacts.has_false in H. now rewrite H.
Qed.

Section Sweep.

Variable g : Graph.
Variable kind : AdjacencyKind.

(** The inner loop goes through when the edges met are new, registered
    and anchored at the base; it has then seen their addresses. *)
Lemma checkAnchored_passes base es seen :
  NoDup (seen ++ map address es) ->
  (forall e, In e es ->
     JsMap.get (address e) (_edges g) = Some e /\ baseNodeAccessor kind e = base) ->
  checkAnchored g kind base es seen = inr (seen ++ map address es).
Proof.
  revert seen. induction es as [|e es IH]; simpl; intros seen Hnd Hes.
  - now rewrite app_nil_r.
  - destruct (Hes e (or_introl eq_refl)) as [Hget Hbase].
    assert (Hfresh : ~ In (address e) seen).
    { intros Hin. apply NoDup_remove_2 in Hnd. apply Hnd.
      apply in_or_app. now left. }
    rewrite (proj2 (JsSetFacts.has_false _ _) Hfresh), Hget, Edge_eqb_refl.
    rewrite Hbase, String.eqb_refl. simpl.
    rewrite add_fresh by assumption.
    rewrite IH.
    + now rewrite <- app_assoc.
    + rewrite <- app_assoc. exact Hnd.
    + intros e' He'. apply Hes. now right.
Qed.

Definition addressesOf (entries : list (NodeAddressT * list Edge))
    : list EdgeAddressT :=
  map address (List.concat (map snd entries)).

Lemma checkAdjacency_passes entries seen :
  NoDup (seen ++ addressesOf entries) ->
  (forall base es, In (base, es) entries ->
     In base (_nodes g)
     /\ forall e, In e es ->
          JsMap.get (address e) (_edges g) = Some e
          /\ baseNodeAccessor kind e = base) ->
  checkAdjacency g kind entries seen = inr (seen ++ addressesOf entries).
Proof.
  revert seen. induction entries as [|[base es] entries IH]; simpl;
    intros seen Hnd Hent.
  - unfold addressesOf. simpl. now rewrite app_nil_r.
  - destruct (Hent base es (or_introl eq_refl)) as [Hbase Hes].
    rewrite (proj2 (JsSetFacts.has_In _ _) Hbase). simpl.
    unfold addressesOf in *. simpl in *. rewrite map_app in *.
    rewrite checkAnchored_passes; [| |exact Hes].
    + rewrite IH.
      * now rewrite <- app_assoc.
      * now rewrite <- app_assoc.
      * intros b e He. apply Hent. now right.
    + rewrite app_assoc in Hnd. now apply NoDup_app_remove_r in Hnd.
Qed.

End Sweep.

(** Two entries of one index share no edge address: an address names one
    edge, and an edge is anchored at one base. *)
Lemma addresses_distinct g kind entries :
  NoDup (map fst entries) ->
  (forall base es, In (base, es) entries ->
     NoDup (map address es)
     /\ forall e, In e es ->
          JsMap.get (address e) (_edges g) = Some e
          /\ baseNodeAccessor kind e = base) ->
  NoDup (addressesOf entries).
Proof.
  unfold addressesOf.
  induction entries as [|[base es] entries IH]; simpl; intros Hkeys Hent.
  - constructor.
  - inversion Hkeys as [|? ? Hbase Hkeys']; subst.
    destruct (Hent base es (or_introl eq_refl)) as [Hnd Hes].
    rewrite map_app. apply NoDup_app.
    + exact Hnd.
    + apply IH; [assumption|]. intros b e He. apply Hent. now right.
    + intros a Ha Ha'.
      apply in_map_iff in Ha as (e1 & <- & He1).
      apply in_map_iff in Ha' as (e2 & Heq & He2).
      apply in_concat in He2 as (es2 & Hes2 & He2).
      apply in_map_iff in Hes2 as ([b2 es2'] & <- & Hentry). simpl in He2.
      destruct (Hes e1 He1) as [Hg1 Hb1].
      destruct (Hent b2 es2' (or_intror Hentry)) as [_ Hes2].
      destruct (Hes2 e2 He2) as [Hg2 Hb2].
      rewrite <- Heq, Hg2 in Hg1. inversion Hg1; subst e2.
      apply Hbase. rewrite <- Hb1, Hb2.
      change b2 with (fst (b2, es2')). now apply in_map.
Qed.

Lemma adjacency_sweep g kind :
  NoDup (JsMap.keys (adjacencyIndex kind g)) ->
  AdjacencyInvariant kind g ->
  checkAdjacency g kind (adjacencyIndex kind g) JsSet.empty
  = inr (addressesOf (adjacencyIndex kind g)).
Proof.
  intros Hkeys Hinv.
  assert (Hent : forall base es, In (base, es) (adjacencyIndex kind g) ->
            In base (_nodes g) /\ NoDup (map address es)
            /\ forall e, In e es ->
                 JsMap.get (address e) (_edges g) = Some e
                 /\ baseNodeAccessor kind e = base).
  { intros base es Hin. apply Hinv. now apply JsMapFacts.In_get. }
  change JsSet.empty with (@nil string).
  rewrite checkAdjacency_passes; [reflexivity| |].
  - simpl. apply (addresses_distinct g kind); [exact Hkeys|].
    intros base es Hin. now apply Hent.
  - intros base es Hin. destruct (Hent base es Hin) as (? & _ & ?). now split.
Qed.

Lemma seen_anchored kind g n es e :
  JsMap.get n (adjacencyIndex kind g) = Some es -> In e es ->
  JsSet.has (address e) (addressesOf (adjacencyIndex kind g)) = true.
Proof.
  intros Hget He. apply JsSetFacts.has_In. unfold addressesOf.
  apply in_map, in_concat. exists es. split; [|exact He].
  apply JsMapFacts.get_In in Hget.
  change es with (snd (n, es)). now apply in_map.
Qed.

Theorem checkInvariants_complete g :
  DataInvariant g -> _checkInvariants g = None.
Proof.
  intros [Hn He Hi Ho Hvn Hve I1 I2 I3 I4]. unfold _checkInvariants.
  rewrite firstFailure_None.
  2:{ intros n Hin. unfold checkNode. rewrite !JsMapFacts.has_get.
      destruct (I1 n Hin) as [H1 H2].
      destruct (JsMap.get n (_inEdges g)); [|congruence].
      destruct (JsMap.get n (_outEdges g)); [reflexivity | congruence]. }
  rewrite firstFailure_None.
  2:{ intros [a e] Hin. apply (JsMapFacts.In_get _ _ _ He) in Hin.
      destruct (I2 a e Hin) as (Ha & Hs & Hd & _). unfold checkEdgeEntry.
      rewrite Ha, String.eqb_refl.
      now rewrite !(proj2 (JsSetFacts.has_In _ _)). }
  pose proof (adjacency_sweep g InEdgeKind Hi I3) as Sin.
  pose proof (adjacency_sweep g OutEdgeKind Ho I4) as Sout.
  simpl in Sin, Sout. rewrite Sin, Sout.
  apply firstFailure_None. intros e Hin.
  apply in_map_iff in Hin as ([a e'] & <- & Hin). simpl.
  apply (JsMapFacts.In_get _ _ _ He) in Hin.
  destruct (I2 a e' Hin) as (_ & _ & _ & (es1 & H1 & H1') & (es2 & H2 & H2')).
  unfold checkEdgeSeen.
  pose proof (seen_anchored InEdgeKind g _ _ _ H1 H1') as S1.
  pose proof (seen_anchored OutEdgeKind g _ _ _ H2 H2') as S2.
  simpl in S1, S2. now rewrite S1, S2.
Qed.

(** ** What each mutation does to the data, and that it keeps the invariants *)

Lemma DataInvariant_ext g g' :
  _nodes g' = _nodes g -> _edges g' = _edges g ->
  _inEdges g' = _inEdges g -> _outEdges g' = _outEdges g ->
  DataInvariant g -> DataInvariant g'.
Proof.
  destruct g, g'; simpl. intros -> -> -> -> [? ? ? ? ? ? ? ? I3 I4].
  constructor; try assumption.
Qed.

(** The changes made by [addNode] for a new node. *)
Definition insertNode (a : NodeAddressT) (g : Graph) : Graph :=
  set_outEdges (JsMap.set a [])
    (set_inEdges (JsMap.set a []) (set_nodes (JsSet.add a) g)).

(** The changes made by [removeNode]. *)
Definition deleteNode (a : NodeAddressT) (g : Graph) : Graph :=
  set_nodes (JsSet.delete a)
    (set_outEdges (JsMap.delete a) (set_inEdges (JsMap.delete a) g)).

(** The changes made by [addEdge] for a new edge. *)
Definition insertEdge (e : Edge) (g : Graph) : Graph :=
  set_edges (JsMap.set (address e) e)
    (set_outEdges (push (src e) e)
       (set_inEdges (push (dst e) e)
          (set_edges (JsMap.set (address e) e) g))).

(** [edges.splice(index, 1)] on the array stored under [k]. *)
Definition splice (k : NodeAddressT) (a : EdgeAddressT)
    (m : JsMap.t (list Edge)) : JsMap.t (list Edge) :=
  match spliceOut a (orEmpty (JsMap.get k m)) with
  | Some es => JsMap.set k es m
  | None => m
  end.

(** The changes made by [removeEdge] for a present edge. *)
Definition deleteEdge (e : Edge) (g : Graph) : Graph :=
  set_outEdges (splice (src e) (address e))
    (set_inEdges (splice (dst e) (address e))
       (set_edges (JsMap.delete (address e)) g)).

Lemma get_push k' k e m :
  JsMap.get k' (push k e m)
  = if String.eqb k' k
    then match JsMap.get k m with Some es => Some (es ++ [e]) | None => None end
    else JsMap.get k' m.
Proof.
  unfold push. destruct (JsMap.get k m) eqn:Hk.
  - apply JsMapFacts.get_set.
  - destruct (String.eqb_spec k' k) as [->|]; [exact Hk | reflexivity].
Qed.

Lemma NoDup_keys_push k e m :
  NoDup (JsMap.keys m) -> NoDup (JsMap.keys (push k e m)).
Proof.
  unfold push. destruct (JsMap.get k m); [|trivial].
  apply JsMapFacts.NoDup_keys_set.
Qed.

Lemma spliceOut_spec a es :
  NoDup (map address es) ->
  In a (map address es) ->
  exists es',
    spliceOut a es = Some es'
    /\ NoDup (map address es')
    /\ forall e, In e es' <-> In e es /\ address e <> a.
Proof.
  induction es as [|e0 es IH]; simpl; [intros _ []|].
  intros Hnd Hin. inversion Hnd as [|? ? Hfresh Hnd']; subst.
  destruct (String.eqb_spec (address e0) a) as [Heq|Hneq].
  - exists es. split; [reflexivity|]. split; [assumption|].
    intros e. split.
    + intros He. split; [now right|]. intros Hea. apply Hfresh.
      rewrite Heq, <- Hea. now apply in_map.
    + intros [[<-|He] Hea]; [contradiction | assumption].
  - destruct Hin as [Hin|Hin]; [contradiction|].
    destruct (IH Hnd' Hin) as (es' & -> & Hnd'' & Hes').
    exists (e0 :: es'). split; [reflexivity|]. split.
    + simpl. constructor; [|assumption]. intros Hin'.
      apply in_map_iff in Hin' as (e1 & Heq1 & He1).
      apply Hes' in He1 as [He1 _]. apply Hfresh. rewrite <- Heq1.
      now apply in_map.
    + intros e. simpl. rewrite Hes'. split.
      * intros [<-|[He Hea]]; [now split; [left|] | now split; [right|]].
      * intros [[<-|He] Hea]; [now left | now right].
Qed.

Lemma spliceOut_absent a es :
  ~ In a (map address es) -> spliceOut a es = None.
Proof.
  induction es as [|e0 es IH]; simpl; [reflexivity|]. intros Hn.
  destruct (String.eqb_spec (address e0) a) as [Heq|Hneq].
  - elim Hn. now left.
  - rewrite IH; [reflexivity|]. intros Hin. apply Hn. now right.
Qed.

Lemma get_splice k' k a m :
  JsMap.get k' (splice k a m)
  = if String.eqb k' k
    then match spliceOut a (orEmpty (JsMap.get k m)) with
         | Some es => Some es
         | None => JsMap.get k m
         end
    else JsMap.get k' m.
Proof.
  unfold splice. destruct (spliceOut a (orEmpty (JsMap.get k m))).
  - apply JsMapFacts.get_set.
  - now destruct (String.eqb_spec k' k) as [->|].
Qed.

Lemma NoDup_keys_splice k a m :
  NoDup (JsMap.keys m) -> NoDup (JsMap.keys (splice k a m)).
Proof.
  unfold splice. destruct (spliceOut a (orEmpty (JsMap.get k m))); [|trivial].
  apply JsMapFacts.NoDup_keys_set.
Qed.

Lemma adjacency_absent kind g n :
  AdjacencyInvariant kind g -> ~ In n (_nodes g) ->
  JsMap.get n (adjacencyIndex kind g) = None.
Proof.
  intros Hinv Hn. destruct (JsMap.get n (adjacencyIndex kind g)) eqn:Hg; [|easy].
  elim Hn. now apply (Hinv n l).
Qed.

Lemma insertNode_invariant a g :
  DataInvariant g -> NodeAddress.isValid a = true -> ~ In a (_nodes g) ->
  DataInvariant (insertNode a g).
Proof.
  intros [Hn He Hi Ho Hvn Hve I1 I2 I3 I4] Hvalid Hfresh.
  pose proof (adjacency_absent InEdgeKind g a I3 Hfresh) as Hin0.
  pose proof (adjacency_absent OutEdgeKind g a I4 Hfresh) as Hout0.
  assert (Hadj : forall kind, AdjacencyInvariant kind g ->
            AdjacencyInvariant kind (insertNode a g)).
  { intros kind Hinv n es.
    replace (adjacencyIndex kind (insertNode a g))
      with (JsMap.set a [] (adjacencyIndex kind g)) by now destruct kind.
    rewrite JsMapFacts.get_set. simpl. rewrite JsSetFacts.In_add.
    destruct (String.eqb_spec n a) as [->|Hna].
    - intros [= <-]. split; [now left|]. split; [constructor | intros e []].
    - intros Hget. destruct (Hinv n es Hget) as (H1 & H2 & H3). auto. }
  constructor; simpl.
  - now apply JsSetFacts.NoDup_add.
  - assumption.
  - now apply JsMapFacts.NoDup_keys_set.
  - now apply JsMapFacts.NoDup_keys_set.
  - intros n Hin. apply JsSetFacts.In_add in Hin as [->|Hin]; auto.
  - assumption.
  - intros n Hin. rewrite !JsMapFacts.get_set.
    destruct (String.eqb_spec n a) as [->|Hna]; [split; discriminate|].
    apply JsSetFacts.In_add in Hin as [->|Hin]; [contradiction | auto].
  - intros a0 e Hget. destruct (I2 a0 e Hget) as (H1 & H2 & H3 & H4 & H5).
    rewrite !JsSetFacts.In_add, !JsMapFacts.get_set.
    destruct (String.eqb_spec (dst e) a) as [Heq|_];
      [rewrite Heq in H3; contradiction|].
    destruct (String.eqb_spec (src e) a) as [Heq|_];
      [rewrite Heq in H2; contradiction|].
    auto 10.
  - now apply Hadj.
  - now apply Hadj.
Qed.

Lemma deleteNode_invariant a g :
  DataInvariant g ->
  orEmpty (JsMap.get a (_inEdges g)) = [] ->
  orEmpty (JsMap.get a (_outEdges g)) = [] ->
  DataInvariant (deleteNode a g).
Proof.
  intros [Hn He Hi Ho Hvn Hve I1 I2 I3 I4] Hin0 Hout0.
  assert (Hsrc : forall a0 e, JsMap.get a0 (_edges g) = Some e -> src e <> a).
  { intros a0 e Hget Heq. destruct (I2 a0 e Hget) as (_ & _ & _ & _ & es & H & H').
    rewrite Heq in H. rewrite H in Hout0. simpl in Hout0. now subst es. }
  assert (Hdst : forall a0 e, JsMap.get a0 (_edges g) = Some e -> dst e <> a).
  { intros a0 e Hget Heq. destruct (I2 a0 e Hget) as (_ & _ & _ & (es & H & H') & _).
    rewrite Heq in H. rewrite H in Hin0. simpl in Hin0. now subst es. }
  assert (Hadj : forall kind, AdjacencyInvariant kind g ->
            AdjacencyInvariant kind (deleteNode a g)).
  { intros kind Hinv n es.
    replace (adjacencyIndex kind (deleteNode a g))
      with (JsMap.delete a (adjacencyIndex kind g)) by now destruct kind.
    rewrite JsMapFacts.get_delete. simpl. rewrite JsSetFacts.In_delete.
    destruct (String.eqb_spec n a) as [->|Hna]; [discriminate|].
    intros Hget. destruct (Hinv n es Hget) as (H1 & H2 & H3). auto. }
  constructor; simpl.
  - now apply JsSetFacts.NoDup_delete.
  - assumption.
  - now apply JsMapFacts.NoDup_keys_delete.
  - now apply JsMapFacts.NoDup_keys_delete.
  - intros n Hin. apply JsSetFacts.In_delete in Hin as [_ Hin]. auto.
  - assumption.
  - intros n Hin. apply JsSetFacts.In_delete in Hin as [Hna Hin].
    rewrite !JsMapFacts.get_delete.
    destruct (String.eqb_spec n a); [contradiction | auto].
  - intros a0 e Hget. destruct (I2 a0 e Hget) as (H1 & H2 & H3 & H4 & H5).
    rewrite !JsSetFacts.In_delete, !JsMapFacts.get_delete.
    pose proof (Hsrc a0 e Hget). pose proof (Hdst a0 e Hget).
    destruct (String.eqb_spec (dst e) a); [contradiction|].
    destruct (String.eqb_spec (src e) a); [contradiction|].
    auto 10.
  - now apply Hadj.
  - now apply Hadj.
Qed.

Lemma insertEdge_invariant e g :
  DataInvariant g ->
  EdgeAddress.isValid (address e) = true ->
  In (src e) (_nodes g) -> In (dst e) (_nodes g) ->
  JsMap.get (address e) (_edges g) = None ->
  DataInvariant (insertEdge e g).
Proof.
  intros [Hn He Hi Ho Hvn Hve I1 I2 I3 I4] Hvalid Hsrc Hdst Hnew.
  assert (Hedges : forall a0,
            JsMap.get a0 (_edges (insertEdge e g))
            = if String.eqb a0 (address e) then Some e
              else JsMap.get a0 (_edges g)).
  { intros a0. simpl. rewrite !JsMapFacts.get_set.
    now destruct (String.eqb a0 (address e)). }
  assert (Hadj : forall kind, AdjacencyInvariant kind g ->
            AdjacencyInvariant kind (insertEdge e g)).
  { intros kind Hinv n es.
    replace (adjacencyIndex kind (insertEdge e g))
      with (push (baseNodeAccessor kind e) e (adjacencyIndex kind g))
      by now destruct kind.
    rewrite get_push.
    assert (Hold : forall es0 e0, JsMap.get n (adjacencyIndex kind g) = Some es0 ->
              In e0 es0 -> address e0 <> address e).
    { intros es0 e0 Hget Hin Heq. destruct (Hinv n es0 Hget) as (_ & _ & H3).
      destruct (H3 e0 Hin) as [H _]. congruence. }
    destruct (String.eqb_spec n (baseNodeAccessor kind e)) as [->|Hne].
    - destruct (JsMap.get (baseNodeAccessor kind e) (adjacencyIndex kind g))
        as [es0|] eqn:Hget; [|discriminate].
      intros [= <-]. destruct (Hinv _ es0 Hget) as (H1 & H2 & H3).
      split; [exact H1|]. split.
      + rewrite map_app. simpl. apply NoDup_app; [exact H2 | repeat constructor; intros [] |].
        intros a0 Ha0 [<-|[]]. apply in_map_iff in Ha0 as (e0 & Heq & He0).
        now apply (Hold es0 e0 eq_refl He0).
      + intros e0 He0. rewrite Hedges. apply in_app_or in He0 as [He0|[<-|[]]].
        * destruct (String.eqb_spec (address e0) (address e)) as [Heq|_].
          -- now elim (Hold es0 e0 eq_refl He0).
          -- now apply H3.
        * now rewrite String.eqb_refl.
    - intros Hget. destruct (Hinv n es Hget) as (H1 & H2 & H3).
      split; [exact H1|]. split; [exact H2|].
      intros e0 He0. rewrite Hedges.
      destruct (String.eqb_spec (address e0) (address e)) as [Heq|_].
      + now elim (Hold es e0 Hget He0).
      + now apply H3. }
  constructor.
  - assumption.
  - simpl. now apply JsMapFacts.NoDup_keys_set, JsMapFacts.NoDup_keys_set.
  - simpl. now apply NoDup_keys_push.
  - simpl. now apply NoDup_keys_push.
  - assumption.
  - intros a0 e0. rewrite Hedges.
    destruct (String.eqb_spec a0 (address e)) as [->|_]; [now intros _|].
    apply Hve.
  - intros n Hin. simpl. rewrite !get_push. destruct (I1 n Hin) as [H1 H2].
    split.
    + destruct (String.eqb_spec n (dst e)) as [->|_]; [|exact H1].
      now destruct (JsMap.get (dst e) (_inEdges g)).
    + destruct (String.eqb_spec n (src e)) as [->|_]; [|exact H2].
      now destruct (JsMap.get (src e) (_outEdges g)).
  - intros a0 e0. rewrite Hedges. simpl. rewrite !get_push.
    destruct (String.eqb_spec a0 (address e)) as [->|Hne].
    + intros [= <-]. rewrite !String.eqb_refl.
      destruct (I1 _ Hsrc) as [_ H2]. destruct (I1 _ Hdst) as [H1 _].
      destruct (JsMap.get (dst e) (_inEdges g)) as [es1|]; [|congruence].
      destruct (JsMap.get (src e) (_outEdges g)) as [es2|]; [|congruence].
      repeat split; try assumption.
      * exists (es1 ++ [e]). split; [reflexivity|]. apply in_or_app. right. now left.
      * exists (es2 ++ [e]). split; [reflexivity|]. apply in_or_app. right. now left.
    + intros Hget.
      destruct (I2 a0 e0 Hget) as (H1 & H2 & H3 & (es1 & H4 & H4') & (es2 & H5 & H5')).
      repeat split; try assumption.
      * destruct (String.eqb_spec (dst e0) (dst e)) as [Heq|_].
        -- rewrite <- Heq, H4. exists (es1 ++ [e]). split; [reflexivity|].
           apply in_or_app. now left.
        -- now exists es1.
      * destruct (String.eqb_spec (src e0) (src e)) as [Heq|_].
        -- rewrite <- Heq, H5. exists (es2 ++ [e]). split; [reflexivity|].
           apply in_or_app. now left.
        -- now exists es2.
  - now apply Hadj.
  - now apply Hadj.
Qed.

Lemma deleteEdge_invariant e g :
  DataInvariant g ->
  JsMap.get (address e) (_edges g) = Some e ->
  DataInvariant (deleteEdge e g).
Proof.
  intros [Hn He Hi Ho Hvn Hve I1 I2 I3 I4] Hpresent.
  assert (Hedges : forall a0,
            JsMap.get a0 (_edges (deleteEdge e g))
            = if String.eqb a0 (address e) then None
              else JsMap.get a0 (_edges g)).
  { intros a0. simpl. apply JsMapFacts.get_delete. }
  assert (Hspliced : forall kind, AdjacencyInvariant kind g ->
            forall n es, JsMap.get n (adjacencyIndex kind g) = Some es ->
            exists es',
              JsMap.get n (splice (baseNodeAccessor kind e) (address e)
                                  (adjacencyIndex kind g)) = Some es'
              /\ NoDup (map address es')
              /\ forall e0, In e0 es' <-> In e0 es /\ address e0 <> address e).
  { intros kind Hinv n es Hget. destruct (Hinv n es Hget) as (H1 & H2 & H3).
    rewrite get_splice.
    destruct (String.eqb_spec n (baseNodeAccessor kind e)) as [->|Hne].
    - rewrite Hget. simpl.
      destruct (in_dec string_dec (address e) (map address es)) as [Hin|Hnin].
      + destruct (spliceOut_spec (address e) es H2 Hin) as (es' & -> & ? & ?).
        now exists es'.
      + rewrite (spliceOut_absent _ _ Hnin). exists es.
        split; [reflexivity|]. split; [assumption|].
        intros e0. split; [|tauto]. intros He0. split; [assumption|].
        intros Heq. apply Hnin. rewrite <- Heq. now apply in_map.
    - exists es. split; [assumption|]. split; [assumption|].
      intros e0. split; [|tauto]. intros He0. split; [assumption|].
      intros Heq. destruct (H3 e0 He0) as [Hg Hb].
      rewrite Heq, Hpresent in Hg. inversion Hg; subst e0. congruence. }
  assert (Hadj : forall kind, AdjacencyInvariant kind g ->
            AdjacencyInvariant kind (deleteEdge e g)).
  { intros kind Hinv n es'.
    replace (adjacencyIndex kind (deleteEdge e g))
      with (splice (baseNodeAccessor kind e) (address e) (adjacencyIndex kind g))
      by now destruct kind.
    intros Hget'.
    assert (exists es, JsMap.get n (adjacencyIndex kind g) = Some es) as [es Hget].
    { rewrite get_splice in Hget'.
      destruct (String.eqb n (baseNodeAccessor kind e)) eqn:Hn'; [|eauto].
      apply String.eqb_eq in Hn'. subst n.
      destruct (JsMap.get (baseNodeAccessor kind e) (adjacencyIndex kind g));
        [eauto | discriminate]. }
    destruct (Hspliced kind Hinv n es Hget) as (es'' & Hg'' & Hnd & Hiff).
    rewrite Hget' in Hg''. inversion Hg''; subst es''.
    destruct (Hinv n es Hget) as (H1 & H2 & H3).
    split; [exact H1|]. split; [exact Hnd|].
    intros e0 He0. apply Hiff in He0 as [He0 Hne]. rewrite Hedges.
    destruct (String.eqb_spec (address e0) (address e)); [contradiction|].
    now apply H3. }
  constructor.
  - assumption.
  - simpl. now apply JsMapFacts.NoDup_keys_delete.
  - simpl. now apply NoDup_keys_splice.
  - simpl. now apply NoDup_keys_splice.
  - assumption.
  - intros a0 e0. rewrite Hedges.
    destruct (String.eqb a0 (address e)); [discriminate | apply Hve].
  - intros n Hin. destruct (I1 n Hin) as [H1 H2].
    destruct (JsMap.get n (_inEdges g)) as [es1|] eqn:G1; [|congruence].
    destruct (JsMap.get n (_outEdges g)) as [es2|] eqn:G2; [|congruence].
    destruct (Hspliced InEdgeKind I3 n es1 G1) as (? & E1 & _).
    destruct (Hspliced OutEdgeKind I4 n es2 G2) as (? & E2 & _).
    simpl in *. rewrite E1, E2. split; discriminate.
  - intros a0 e0. rewrite Hedges.
    destruct (String.eqb_spec a0 (address e)) as [->|Hne]; [discriminate|].
    intros Hget.
    destruct (I2 a0 e0 Hget) as (H1 & H2 & H3 & (es1 & H4 & H4') & (es2 & H5 & H5')).
    destruct (Hspliced InEdgeKind I3 _ es1 H4) as (es1' & E1 & _ & F1).
    destruct (Hspliced OutEdgeKind I4 _ es2 H5) as (es2' & E2 & _ & F2).
    simpl in *. repeat split; try assumption.
    + exists es1'. split; [assumption|]. apply F1. split; [assumption|congruence].
    + exists es2'. split; [assumption|]. apply F2. split; [assumption|congruence].
  - now apply Hadj.
  - now apply Hadj.
Qed.

(** ** Running the methods on a graph that satisfies the invariants *)

Section Execution.

Variable NODE_ENV : string.

(** The cache once a sweep has passed at the current count. *)
Definition checked (g : Graph) : Graph :=
  set_invariantsLastChecked (mkLastChecked (_modificationCount g) None) g.

(** The state left by [checkInvariants]. *)
Definition afterCheck (g : Graph) : Graph :=
  if (when (_invariantsLastChecked g) =? _modificationCount g)%Z
  then g else checked g.

(** The state left by [_maybeCheckInvariants]. *)
Definition afterMaybeCheck (g : Graph) : Graph :=
  if String.eqb NODE_ENV "test" then afterCheck g else g.

(** The state left by [_markModification] when it returns. *)
Definition afterModification (g : Graph) : Graph :=
  afterMaybeCheck (set_modificationCount (_modificationCount g + 1) g).

Lemma checkInvariants_run g :
  GraphInvariant g -> checkInvariants g = Returned tt (afterCheck g).
Proof.
  intros [Hd [_ _ _ Hnow]]. unfold checkInvariants, afterCheck, bind, this.
  destruct (Z.eqb_spec (when (_invariantsLastChecked g)) (_modificationCount g))
    as [Heq|Hne]; simpl.
  - now rewrite (Hnow Heq).
  - unfold modify. simpl. now rewrite (checkInvariants_complete g Hd).
Qed.

Lemma maybeCheckInvariants_run g :
  GraphInvariant g -> _maybeCheckInvariants NODE_ENV g = Returned tt (afterMaybeCheck g).
Proof.
  intros H. unfold _maybeCheckInvariants, afterMaybeCheck.
  destruct (String.eqb NODE_ENV "test"); [now apply checkInvariants_run | reflexivity].
Qed.

Lemma afterCheck_data g :
  _nodes (afterCheck g) = _nodes g /\ _edges (afterCheck g) = _edges g
  /\ _inEdges (afterCheck g) = _inEdges g /\ _outEdges (afterCheck g) = _outEdges g
  /\ _modificationCount (afterCheck g) = _modificationCount g.
Proof. unfold afterCheck. now destruct (_ =? _)%Z. Qed.

Lemma afterMaybeCheck_data g :
  _nodes (afterMaybeCheck g) = _nodes g /\ _edges (afterMaybeCheck g) = _edges g
  /\ _inEdges (afterMaybeCheck g) = _inEdges g
  /\ _outEdges (afterMaybeCheck g) = _outEdges g
  /\ _modificationCount (afterMaybeCheck g) = _modificationCount g.
Proof.
  unfold afterMaybeCheck. destruct (String.eqb NODE_ENV "test");
    [apply afterCheck_data | now repeat split].
Qed.

Lemma afterCheck_invariant g : GraphInvariant g -> GraphInvariant (afterCheck g).
Proof.
  intros [Hd [Hr Hs Hp Hn]]. unfold afterCheck.
  destruct (Z.eqb_spec (when (_invariantsLastChecked g)) (_modificationCount g)).
  - now split.
  - split.
    + now apply (DataInvariant_ext g).
    + constructor; simpl; try assumption; [lia | reflexivity].
Qed.

Lemma afterMaybeCheck_invariant g :
  GraphInvariant g -> GraphInvariant (afterMaybeCheck g).
Proof.
  unfold afterMaybeCheck. destruct (String.eqb NODE_ENV "test");
    [apply afterCheck_invariant | trivial].
Qed.

Lemma afterMaybeCheck_idempotent g :
  afterMaybeCheck (afterMaybeCheck g) = afterMaybeCheck g.
Proof.
  unfold afterMaybeCheck. destruct (String.eqb NODE_ENV "test"); [|reflexivity].
  unfold afterCheck.
  destruct (Z.eqb_spec (when (_invariantsLastChecked g)) (_modificationCount g))
    as [Heq|Hne].
  - now rewrite (proj2 (Z.eqb_eq _ _) Heq).
  - simpl. now rewrite Z.eqb_refl.
Qed.

Lemma afterModification_data g :
  _nodes (afterModification g) = _nodes g
  /\ _edges (afterModification g) = _edges g
  /\ _inEdges (afterModification g) = _inEdges g
  /\ _outEdges (afterModification g) = _outEdges g
  /\ _modificationCount (afterModification g) = (_modificationCount g + 1)%Z.
Proof.
  unfold afterModification.
  destruct (afterMaybeCheck_data
              (set_modificationCount (_modificationCount g + 1) g))
    as (-> & -> & -> & -> & ->).
  now repeat split.
Qed.

(** The premises under which a changed graph, once its modification is
    counted, satisfies the invariants again. *)
Record Countable (g : Graph) : Prop := mkCountable {
  countable_data : DataInvariant g;
  countable_range : (0 <= _modificationCount g < MAX_SAFE_INTEGER)%Z;
  countable_size :
    (Z.of_nat (List.length (_nodes g) + List.length (_edges g))
     <= _modificationCount g + 1)%Z;
  countable_checked : (when (_invariantsLastChecked g) <= _modificationCount g)%Z
}.

Lemma counted_invariant g :
  Countable g ->
  GraphInvariant (set_modificationCount (_modificationCount g + 1) g).
Proof.
  intros [Hd Hr Hs Hp]. split.
  - now apply (DataInvariant_ext g).
  - constructor; simpl; try lia.
Qed.

Lemma afterModification_invariant g :
  Countable g -> GraphInvariant (afterModification g).
Proof.
  intros H. apply afterMaybeCheck_invariant. now apply counted_invariant.
Qed.

Lemma markModification_run g :
  DataInvariant g ->
  (0 <= _modificationCount g)%Z ->
  (when (_invariantsLastChecked g) <= _modificationCount g)%Z ->
  (Z.of_nat (List.length (_nodes g) + List.length (_edges g))
     <= _modificationCount g + 1)%Z ->
  _markModification NODE_ENV g
  = if (_modificationCount g >=? MAX_SAFE_INTEGER)%Z
    then Threw (ModificationLimitError (_modificationCount g)) g
    else Returned tt (afterModification g).
Proof.
  intros Hd H0 Hp Hs. unfold _markModification, bind, this, modify.
  destruct (Z.geb_spec (_modificationCount g) MAX_SAFE_INTEGER) as [Hge|Hlt].
  - reflexivity.
  - apply maybeCheckInvariants_run. apply counted_invariant.
    constructor; try assumption. lia.
Qed.

(** The common tail of the four mutations: count the modification, then
    maybe check. *)
Lemma finish_run g :
  DataInvariant g ->
  (0 <= _modificationCount g)%Z ->
  (when (_invariantsLastChecked g) <= _modificationCount g)%Z ->
  (Z.of_nat (List.length (_nodes g) + List.length (_edges g))
     <= _modificationCount g + 1)%Z ->
  (_markModification NODE_ENV ;;; _maybeCheckInvariants NODE_ENV) g
  = if (_modificationCount g >=? MAX_SAFE_INTEGER)%Z
    then Threw (ModificationLimitError (_modificationCount g)) g
    else Returned tt (afterModification g).
Proof.
  intros Hd H0 Hp Hs. unfold bind at 1.
  rewrite markModification_run by assumption.
  destruct (Z.geb_spec (_modificationCount g) MAX_SAFE_INTEGER) as [Hge|Hlt].
  - reflexivity.
  - rewrite maybeCheckInvariants_run.
    + unfold afterModification. now rewrite afterMaybeCheck_idempotent.
    + apply afterModification_invariant. constructor; try assumption. lia.
Qed.

End Execution.

Section Mutations.

Variable NODE_ENV : string.

(** [_markModification] then [_maybeCheckInvariants], on the changed graph. *)
Definition counted (g : Graph) : Outcome unit :=
  if (_modificationCount g >=? MAX_SAFE_INTEGER)%Z
  then Threw (ModificationLimitError (_modificationCount g)) g
  else Returned tt (afterModification NODE_ENV g).

Ltac run_tail g' :=
  let F := fresh "F" in
  pose proof (finish_run NODE_ENV g') as F;
  unfold bind in F; rewrite F; clear F; [reflexivity | ..].

Lemma length_nodes_add a s :
  (List.length (JsSet.add a s) <= S (List.length s))%nat.
Proof. rewrite JsSetFacts.length_add. destruct (JsSet.has a s); lia. Qed.

Theorem addNode_run a g :
  GraphInvariant g ->
  addNode NODE_ENV a g
  = if NodeAddress.isValid a
    then counted (if JsSet.has a (_nodes g) then g else insertNode a g)
    else Threw (InvalidAddressError "" a) g.
Proof.
  intros [Hd [Hr Hs Hp Hn]].
  unfold addNode, assertValidNode.
  destruct (NodeAddress.isValid a) eqn:Hvalid; [|reflexivity].
  unfold bind, this, ret, modify, counted.
  destruct (JsSet.has a (_nodes g)) eqn:Hhas; simpl.
  - run_tail g; try assumption; lia.
  - fold (insertNode a g). run_tail (insertNode a g).
    + apply insertNode_invariant; try assumption.
      now apply JsSetFacts.has_false.
    + simpl. lia.
    + assumption.
    + simpl. rewrite JsSetFacts.length_add, Hhas. lia.
Qed.

Theorem removeNode_run a g :
  GraphInvariant g ->
  removeNode NODE_ENV a g
  = if NodeAddress.isValid a
    then
      match orEmpty (JsMap.get a (_inEdges g))
            ++ orEmpty (JsMap.get a (_outEdges g)) with
      | example :: rest =>
          Threw (DanglingEdgeError a (S (List.length rest)) example) g
      | [] => counted (deleteNode a g)
      end
    else Threw (InvalidAddressError "" a) g.
Proof.
  intros [Hd [Hr Hs Hp Hn]].
  unfold removeNode, assertValidNode.
  destruct (NodeAddress.isValid a) eqn:Hvalid; [|reflexivity].
  unfold bind at 1 2. unfold this, ret.
  destruct (orEmpty (JsMap.get a (_inEdges g))
            ++ orEmpty (JsMap.get a (_outEdges g))) as [|example rest] eqn:Hinc.
  - apply app_eq_nil in Hinc as [Hin Hout].
    unfold bind, modify, counted. simpl. fold (deleteNode a g).
    run_tail (deleteNode a g).
    + now apply deleteNode_invariant.
    + simpl. lia.
    + assumption.
    + simpl. pose proof (JsSetFacts.length_delete a (_nodes g)). lia.
  - reflexivity.
Qed.

Lemma edge_eta e ex :
  src ex = src e -> dst ex = dst e -> address ex = address e -> ex = e.
Proof. destruct e, ex; simpl; congruence. Qed.

Lemma set_edges_same g e :
  NoDup (JsMap.keys (_edges g)) ->
  JsMap.get (address e) (_edges g) = Some e ->
  set_edges (JsMap.set (address e) e) g = g.
Proof.
  intros Hnd Hget. unfold set_edges.
  rewrite (JsMapFacts.set_same _ _ _ Hnd Hget). now destruct g.
Qed.

Theorem addEdge_run e g :
  GraphInvariant g ->
  addEdge NODE_ENV e g
  = if negb (NodeAddress.isValid (src e))
    then Threw (InvalidAddressError "edge.src" (src e)) g
    else if negb (NodeAddress.isValid (dst e))
    then Threw (InvalidAddressError "edge.dst" (dst e)) g
    else if negb (EdgeAddress.isValid (address e))
    then Threw (InvalidAddressError "edge.address" (address e)) g
    else if negb (JsSet.has (src e) (_nodes g))
    then Threw (MissingEndpointError "src" e) g
    else if negb (JsSet.has (dst e) (_nodes g))
    then Threw (MissingEndpointError "dst" e) g
    else
      match JsMap.get (address e) (_edges g) with
      | Some existingEdge =>
          if String.eqb (src existingEdge) (src e)
             && String.eqb (dst existingEdge) (dst e)
          then counted g
          else Threw (ConflictingEdgeError e existingEdge) g
      | None => counted (insertEdge e g)
      end.
Proof.
  intros [Hd [Hr Hs Hp Hn]].
  unfold addEdge, assertValidNode, assertValidEdge.
  destruct (NodeAddress.isValid (src e)) eqn:Vs; [|reflexivity].
  destruct (NodeAddress.isValid (dst e)) eqn:Vd; [|reflexivity].
  destruct (EdgeAddress.isValid (address e)) eqn:Va; [|reflexivity].
  unfold bind at 1 2 3 4. unfold this, ret. simpl.
  destruct (JsSet.has (src e) (_nodes g)) eqn:Hs'; [|reflexivity].
  destruct (JsSet.has (dst e) (_nodes g)) eqn:Hd'; [|reflexivity].
  simpl. apply JsSetFacts.has_In in Hs', Hd'.
  destruct (JsMap.get (address e) (_edges g)) as [ex|] eqn:Hget.
  - destruct (invariant_2 g Hd _ _ Hget) as (Hax & _).
    rewrite Hax, String.eqb_refl. simpl. rewrite orb_false_r.
    destruct (String.eqb_spec (src ex) (src e)) as [E1|]; [|reflexivity].
    destruct (String.eqb_spec (dst ex) (dst e)) as [E2|]; [|reflexivity].
    simpl. pose proof (edge_eta e ex E1 E2 Hax). subst ex.
    unfold bind, ret, modify, counted.
    rewrite (set_edges_same g e (edges_distinct g Hd) Hget).
    run_tail g; try assumption; lia.
  - destruct (invariant_1 g Hd _ Hs') as [_ Ho].
    destruct (invariant_1 g Hd _ Hd') as [Hi _].
    destruct (JsMap.get (dst e) (_inEdges g)) as [es1|] eqn:G1; [|congruence].
    destruct (JsMap.get (src e) (_outEdges g)) as [es2|] eqn:G2; [|congruence].
    unfold bind, this, ret, modify, NullUtil_get, counted. simpl.
    rewrite G1, G2. simpl. fold (insertEdge e g).
    run_tail (insertEdge e g).
    + now apply insertEdge_invariant.
    + simpl. lia.
    + assumption.
    + simpl. rewrite !JsMapFacts.length_set, !JsMapFacts.has_get.
      rewrite JsMapFacts.get_set, String.eqb_refl, Hget. lia.
Qed.

Theorem removeEdge_run a g :
  GraphInvariant g ->
  removeEdge NODE_ENV a g
  = if EdgeAddress.isValid a
    then
      match JsMap.get a (_edges g) with
      | Some e => counted (deleteEdge e g)
      | None => counted g
      end
    else Threw (InvalidAddressError "" a) g.
Proof.
  intros [Hd [Hr Hs Hp Hn]].
  unfold removeEdge, assertValidEdge.
  destruct (EdgeAddress.isValid a) eqn:Va; [|reflexivity].
  unfold bind at 1 2 3. unfold this, ret.
  destruct (JsMap.get a (_edges g)) as [e|] eqn:Hget.
  - destruct (invariant_2 g Hd _ _ Hget) as (Ha & _ & _ & (es1 & G1 & In1) & (es2 & G2 & In2)).
    subst a.
    destruct (invariant_3 g Hd _ _ G1) as (_ & N1 & _).
    destruct (invariant_4 g Hd _ _ G2) as (_ & N2 & _).
    simpl in G1, G2.
    destruct (spliceOut_spec (address e) es1 N1 (in_map address _ _ In1))
      as (es1' & S1 & _).
    destruct (spliceOut_spec (address e) es2 N2 (in_map address _ _ In2))
      as (es2' & S2 & _).
    unfold removeFrom, NullUtil_get, bind, this, ret, modify, counted. simpl.
    rewrite G1, G2. simpl. rewrite G1. simpl. rewrite S1. simpl. rewrite G2. simpl. rewrite S2.
    assert (Heq : set_outEdges (JsMap.set (src e) es2')
                    (set_inEdges (JsMap.set (dst e) es1')
                       (set_edges (JsMap.delete (address e)) g))
                  = deleteEdge e g).
    { unfold deleteEdge, splice, set_outEdges, set_inEdges. simpl.
      now rewrite G1, G2; simpl; rewrite S1, S2. }
    unfold modify. simpl in Heq |- *.
    unfold set_outEdges, set_inEdges, set_edges in Heq |- *. simpl in Heq |- *.
    rewrite Heq.
    run_tail (deleteEdge e g).
    + now apply deleteEdge_invariant.
    + simpl. lia.
    + assumption.
    + simpl. pose proof (JsMapFacts.length_delete_present _ _ _ Hget). lia.
  - unfold bind, ret, counted. run_tail g; try assumption; lia.
Qed.

End Mutations.

(** ** Invariants of the reachable graphs *)

Section Reachable.

Variable NODE_ENV : string.

Lemma counted_returns g g' :
  counted NODE_ENV g = Returned tt g' ->
  (_modificationCount g < MAX_SAFE_INTEGER)%Z
  /\ g' = afterModification NODE_ENV g.
Proof.
  unfold counted.
  destruct (Z.geb_spec (_modificationCount g) MAX_SAFE_INTEGER);
    [discriminate|]. intros [= <-]. now split.
Qed.

Lemma counted_unchanged g g' :
  GraphInvariant g -> counted NODE_ENV g = Returned tt g' -> GraphInvariant g'.
Proof.
  intros [Hd [Hr Hs Hp Hn]] H. apply counted_returns in H as [Hlt ->].
  apply afterModification_invariant. constructor; try assumption; lia.
Qed.

Lemma newGraph_invariant :
  GraphInvariant
    (mkGraph JsSet.empty JsMap.empty JsMap.empty JsMap.empty 0
             (mkLastChecked (-1) (Some NeverChecked))).
Proof.
  split.
  - constructor; simpl.
    + constructor.
    + constructor.
    + constructor.
    + constructor.
    + intros n [].
    + intros a e H. discriminate H.
    + intros n [].
    + intros a e H. discriminate H.
    + intros n es H. discriminate H.
    + intros n es H. discriminate H.
  - constructor; simpl; try lia. unfold MAX_SAFE_INTEGER. lia.
Qed.

Lemma addNode_invariant a g g' :
  GraphInvariant g -> addNode NODE_ENV a g = Returned tt g' -> GraphInvariant g'.
Proof.
  intros Hg. rewrite addNode_run by assumption.
  destruct (NodeAddress.isValid a) eqn:Hvalid; [|discriminate].
  destruct (JsSet.has a (_nodes g)) eqn:Hhas; [now apply counted_unchanged|].
  intros H. apply counted_returns in H as [Hlt ->].
  destruct Hg as [Hd [Hr Hs Hp Hn]].
  apply afterModification_invariant. constructor; simpl in *; try lia.
  - apply insertNode_invariant; try assumption. now apply JsSetFacts.has_false.
  - rewrite JsSetFacts.length_add, Hhas. lia.
Qed.

Lemma removeNode_invariant a g g' :
  GraphInvariant g -> removeNode NODE_ENV a g = Returned tt g' -> GraphInvariant g'.
Proof.
  intros Hg. rewrite removeNode_run by assumption.
  destruct (NodeAddress.isValid a) eqn:Hvalid; [|discriminate].
  destruct (orEmpty (JsMap.get a (_inEdges g))
            ++ orEmpty (JsMap.get a (_outEdges g))) eqn:Hinc; [|discriminate].
  apply app_eq_nil in Hinc as [Hin Hout].
  intros H. apply counted_returns in H as [Hlt ->].
  destruct Hg as [Hd [Hr Hs Hp Hn]].
  apply afterModification_invariant. constructor; simpl in *; try lia.
  - now apply deleteNode_invariant.
  - pose proof (JsSetFacts.length_delete a (_nodes g)). lia.
Qed.

Lemma addEdge_invariant e g g' :
  GraphInvariant g -> addEdge NODE_ENV e g = Returned tt g' -> GraphInvariant g'.
Proof.
  intros Hg. rewrite addEdge_run by assumption.
  destruct (negb (NodeAddress.isValid (src e))); [discriminate|].
  destruct (negb (NodeAddress.isValid (dst e))); [discriminate|].
  destruct (EdgeAddress.isValid (address e)) eqn:Va; [|discriminate]. simpl.
  destruct (JsSet.has (src e) (_nodes g)) eqn:Hs'; [|discriminate].
  destruct (JsSet.has (dst e) (_nodes g)) eqn:Hd'; [|discriminate]. simpl.
  destruct (JsMap.get (address e) (_edges g)) as [ex|] eqn:Hget.
  - destruct (_ && _); [now apply counted_unchanged | discriminate].
  - intros H. apply counted_returns in H as [Hlt ->].
    destruct Hg as [Hd [Hr Hs Hp Hn]].
    apply afterModification_invariant. constructor; simpl in *; try lia.
    + apply insertEdge_invariant; try assumption; now apply JsSetFacts.has_In.
    + rewrite !JsMapFacts.length_set, !JsMapFacts.has_get.
      rewrite JsMapFacts.get_set, String.eqb_refl, Hget. lia.
Qed.

Lemma removeEdge_invariant a g g' :
  GraphInvariant g -> removeEdge NODE_ENV a g = Returned tt g' -> GraphInvariant g'.
Proof.
  intros Hg. rewrite removeEdge_run by assumption.
  destruct (EdgeAddress.isValid a); [|discriminate].
  destruct (JsMap.get a (_edges g)) as [e|] eqn:Hget;
    [|now apply counted_unchanged].
  intros H. apply counted_returns in H as [Hlt ->].
  destruct Hg as [Hd [Hr Hs Hp Hn]].
  destruct (invariant_2 g Hd _ _ Hget) as (Ha & _). subst a.
  apply afterModification_invariant. constructor; simpl in *; try lia.
  - now apply deleteEdge_invariant.
  - pose proof (JsMapFacts.length_delete_present _ _ _ Hget). lia.
Qed.

Theorem reachable_invariant g : reachable NODE_ENV g -> GraphInvariant g.
Proof.
  induction 1 as [g Hnew|g a g' _ IH Hrun|g e g' _ IH Hrun|g a g' _ IH Hrun
                 |g a g' _ IH Hrun|g g' _ IH Hrun].
  - unfold constructor in Hnew.
    rewrite (maybeCheckInvariants_run _ _ newGraph_invariant) in Hnew.
    inversion Hnew; subst g. apply afterMaybeCheck_invariant, newGraph_invariant.
  - exact (addNode_invariant _ _ _ IH Hrun).
  - exact (addEdge_invariant _ _ _ IH Hrun).
  - exact (removeNode_invariant _ _ _ IH Hrun).
  - exact (removeEdge_invariant _ _ _ IH Hrun).
  - rewrite (checkInvariants_run _ IH) in Hrun. inversion Hrun; subst g'.
    now apply afterCheck_invariant.
Qed.

(** C1.  On every graph reached from [new Graph()] by calls of [addNode],
    [addEdge], [removeNode] and [removeEdge] that returned,
    [_checkInvariants] finds no failure and [checkInvariants()] returns;
    the documented invariants hold: the indices cover every node
    (invariant 1), every edge has its address, its endpoints in the
    graph and its entry in both indices (invariant 2), and each index
    holds only registered edges, anchored at their base, none of them
    twice (invariants 3 and 4). *)
Theorem checkInvariants_never_fails g :
  reachable NODE_ENV g ->
  _checkInvariants g = None
  /\ (exists g', checkInvariants g = Returned tt g')
  /\ DataInvariant g.
Proof.
  intros Hreach. pose proof (reachable_invariant g Hreach) as Hinv.
  split; [apply checkInvariants_complete, Hinv|].
  split; [|apply Hinv].
  eexists. now apply checkInvariants_run.
Qed.

End Reachable.

(** ** A running example: two nodes and the edge between them *)

Definition NUL : string := String Address.separator EmptyString.

Definition nodeA : NodeAddressT := ("N" ++ NUL ++ "a" ++ NUL)%string.
Definition nodeB : NodeAddressT := ("N" ++ NUL ++ "b" ++ NUL)%string.
Definition edgeAB : Edge := mkEdge ("E" ++ NUL ++ "ab" ++ NUL)%string nodeA nodeB.

(** [new Graph().addNode(b).addNode(a).addEdge(ab)] under [NODE_ENV=test]. *)
Definition exampleGraph : Graph :=
  mkGraph [nodeB; nodeA]
          [(address edgeAB, edgeAB)]
          [(nodeB, [edgeAB]); (nodeA, [])]
          [(nodeB, []); (nodeA, [edgeAB])]
          3 (mkLastChecked 3 None).

Lemma exampleGraph_reachable : reachable "test" exampleGraph.
Proof.
  eapply reachable_addEdge with (e := edgeAB).
  - eapply reachable_addNode with (a := nodeA).
    + eapply reachable_addNode with (a := nodeB).
      * apply reachable_new. reflexivity.
      * reflexivity.
    + reflexivity.
  - reflexivity.
Qed.

Lemma checkInvariants_never_fails_witness :
  _checkInvariants exampleGraph = None
  /\ (exists g', checkInvariants exampleGraph = Returned tt g')
  /\ DataInvariant exampleGraph.
Proof.
  apply (checkInvariants_never_fails "test" exampleGraph).
  exact exampleGraph_reachable.
Defined.

(** ** [addEdge] *)

Section AddEdge.

Variable NODE_ENV : string.

Lemma counted_state g : 
  let g' := stateOf (counted NODE_ENV g) in
  _nodes g' = _nodes g /\ _edges g' = _edges g
  /\ _inEdges g' = _inEdges g /\ _outEdges g' = _outEdges g.
Proof.
  unfold counted. destruct (_ >=? _)%Z; simpl; [now repeat split|].
  destruct (afterModification_data NODE_ENV g) as (-> & -> & -> & -> & _).
  now repeat split.
Qed.

Lemma counted_below g :
  (_modificationCount g < MAX_SAFE_INTEGER)%Z ->
  counted NODE_ENV g = Returned tt (afterModification NODE_ENV g).
Proof.
  intros H. unfold counted.
  destruct (Z.geb_spec (_modificationCount g) MAX_SAFE_INTEGER); [lia | reflexivity].
Qed.

Lemma edges_insertEdge e g :
  NoDup (JsMap.keys (_edges g)) ->
  JsMap.get (address e) (_edges g) = None ->
  _edges (insertEdge e g) = _edges g ++ [(address e, e)].
Proof.
  intros Hnd Hnew. simpl.
  assert (H1 : JsMap.set (address e) e (_edges g) = _edges g ++ [(address e, e)]).
  { unfold JsMap.set. now rewrite JsMapFacts.has_get, Hnew. }
  rewrite H1. apply JsMapFacts.set_same.
  - rewrite <- H1. now apply JsMapFacts.NoDup_keys_set.
  - rewrite <- H1, JsMapFacts.get_set. now rewrite String.eqb_refl.
Qed.

(** C3.  [addEdge(e)] on a graph [g], for an edge whose three addresses
    are valid: it throws the missing-endpoint error, leaving [g] as it
    was, when [e.src] or [e.dst] is not a node of [g]; otherwise it
    throws the conflicting-edge error, leaving [g] as it was, when
    [g] has at [e.address] an edge with another [src] or [dst];
    otherwise, when [g] has [e] itself, the nodes, the edges and both
    indices stay as they were; otherwise [e] is appended to the edge map,
    to the in-edges of [e.dst] and to the out-edges of [e.src], and
    nothing else changes.  In the last two cases the call returns as
    long as the modification count is below its limit. *)
Theorem addEdge_spec e g :
  reachable NODE_ENV g ->
  NodeAddress.isValid (src e) = true ->
  NodeAddress.isValid (dst e) = true ->
  EdgeAddress.isValid (address e) = true ->
  let g' := stateOf (addEdge NODE_ENV e g) in
  (~ In (src e) (_nodes g) \/ ~ In (dst e) (_nodes g) ->
     exists missingThing,
       addEdge NODE_ENV e g = Threw (MissingEndpointError missingThing e) g)
  /\ (In (src e) (_nodes g) -> In (dst e) (_nodes g) ->
      forall existing, JsMap.get (address e) (_edges g) = Some existing ->
      src existing <> src e \/ dst existing <> dst e ->
      addEdge NODE_ENV e g = Threw (ConflictingEdgeError e existing) g)
  /\ (In (src e) (_nodes g) -> In (dst e) (_nodes g) ->
      JsMap.get (address e) (_edges g) = Some e ->
      _nodes g' = _nodes g /\ _edges g' = _edges g
      /\ _inEdges g' = _inEdges g /\ _outEdges g' = _outEdges g
      /\ ((_modificationCount g < MAX_SAFE_INTEGER)%Z ->
          addEdge NODE_ENV e g = Returned tt g'))
  /\ (In (src e) (_nodes g) -> In (dst e) (_nodes g) ->
      JsMap.get (address e) (_edges g) = None ->
      exists inEdges outEdges,
        JsMap.get (dst e) (_inEdges g) = Some inEdges
        /\ JsMap.get (src e) (_outEdges g) = Some outEdges
        /\ _nodes g' = _nodes g
        /\ _edges g' = _edges g ++ [(address e, e)]
        /\ _inEdges g' = JsMap.set (dst e) (inEdges ++ [e]) (_inEdges g)
        /\ _outEdges g' = JsMap.set (src e) (outEdges ++ [e]) (_outEdges g)
        /\ ((_modificationCount g < MAX_SAFE_INTEGER)%Z ->
            addEdge NODE_ENV e g = Returned tt g')).
Proof.
  intros Hreach Vs Vd Va.
  pose proof (reachable_invariant NODE_ENV g Hreach) as Hinv.
  rewrite (addEdge_run NODE_ENV e g Hinv), Vs, Vd, Va. simpl.
  destruct Hinv as [Hd Hb].
  repeat split.
  - intros [Hs|Hs]; apply JsSetFacts.has_false in Hs.
    + rewrite Hs. simpl. eauto.
    + rewrite Hs. destruct (JsSet.has (src e) (_nodes g)); simpl; eauto.
  - intros Hs Hd' ex Hget Hdiff.
    apply JsSetFacts.has_In in Hs, Hd'. rewrite Hs, Hd', Hget. simpl.
    destruct (String.eqb_spec (src ex) (src e)); [|reflexivity].
    destruct (String.eqb_spec (dst ex) (dst e)); [|reflexivity].
    tauto.
  - apply JsSetFacts.has_In in H, H0. rewrite H, H0, H1, !String.eqb_refl.
    simpl. apply counted_state.
  - apply JsSetFacts.has_In in H, H0. rewrite H, H0, H1, !String.eqb_refl.
    simpl. apply counted_state.
  - apply JsSetFacts.has_In in H, H0. rewrite H, H0, H1, !String.eqb_refl.
    simpl. apply counted_state.
  - apply JsSetFacts.has_In in H, H0. rewrite H, H0, H1, !String.eqb_refl.
    simpl. apply counted_state.
  - apply JsSetFacts.has_In in H, H0. rewrite H, H0, H1, !String.eqb_refl.
    simpl. intros Hlt. now rewrite counted_below.
  - intros Hs Hd' Hnew.
    destruct (invariant_1 g Hd _ Hs) as [_ Ho].
    destruct (invariant_1 g Hd _ Hd') as [Hi _].
    destruct (JsMap.get (dst e) (_inEdges g)) as [es1|] eqn:G1; [|congruence].
    destruct (JsMap.get (src e) (_outEdges g)) as [es2|] eqn:G2; [|congruence].
    exists es1, es2. split; [reflexivity|]. split; [reflexivity|].
    apply JsSetFacts.has_In in Hs, Hd'. rewrite Hs, Hd', Hnew. simpl.
    destruct (counted_state (insertEdge e g)) as (-> & -> & -> & ->).
    split; [reflexivity|].
    split; [now apply edges_insertEdge; [apply Hd|]|].
    split; [simpl; unfold push; now rewrite G1|].
    split; [simpl; unfold push; now rewrite G2|].
    intros Hlt. rewrite counted_below; [reflexivity | exact Hlt].
Qed.

End AddEdge.

Lemma addEdge_spec_witness :
  let e := mkEdge ("E" ++ NUL ++ "ba" ++ NUL)%string nodeB nodeA in
  exists inEdges outEdges,
    JsMap.get nodeA (_inEdges exampleGraph) = Some inEdges
    /\ JsMap.get nodeB (_outEdges exampleGraph) = Some outEdges
    /\ _edges (stateOf (addEdge "test" e exampleGraph))
       = _edges exampleGraph ++ [(address e, e)].
Proof.
  intros e.
  destruct (addEdge_spec "test" e exampleGraph exampleGraph_reachable
              eq_refl eq_refl eq_refl) as (_ & _ & _ & H).
  destruct H as (i & o & Hi & Ho & _ & He & _).
  - simpl. tauto.
  - simpl. tauto.
  - reflexivity.
  - exists i, o. repeat split; assumption.
Defined.

(** ** A graph at the modification limit

    Every call of a mutation that returns is counted, and the count
    stops at [Number.MAX_SAFE_INTEGER]: a graph holding one node can sit
    at the limit (here outside the test environment, where the cache of
    [checkInvariants] is never filled). *)

Definition production : string := "production".

Definition oneNodeGraph (count : Z) : Graph :=
  mkGraph [nodeA] [] [(nodeA, [])] [(nodeA, [])] count
          (mkLastChecked (-1) (Some NeverChecked)).

Definition limitGraph : Graph := oneNodeGraph MAX_SAFE_INTEGER.

Lemma oneNodeGraph_reachable count :
  (1 <= count <= MAX_SAFE_INTEGER)%Z -> reachable production (oneNodeGraph count).
Proof.
  intros [Hlo Hhi]. revert Hhi.
  replace count with (1 + (count - 1))%Z by lia.
  assert (H0 : (0 <= count - 1)%Z) by lia. revert H0.
  generalize (count - 1)%Z. clear count Hlo.
  apply (natlike_ind (fun k =>
    (1 + k <= MAX_SAFE_INTEGER)%Z -> reachable production (oneNodeGraph (1 + k)))).
  - intros _. eapply reachable_addNode with (a := nodeA).
    + apply reachable_new. reflexivity.
    + reflexivity.
  - intros k Hk IH Hhi.
    assert (Hreach : reachable production (oneNodeGraph (1 + k))) by (apply IH; lia).
    eapply reachable_removeEdge with (a := address edgeAB); [exact Hreach|].
    rewrite removeEdge_run by (now apply (reachable_invariant production)).
    change (EdgeAddress.isValid (address edgeAB)) with true. cbv iota.
    change (JsMap.get (address edgeAB) (_edges (oneNodeGraph (1 + k))))
      with (@None Edge). cbv iota.
    unfold counted, oneNodeGraph at 1. cbv beta iota delta [_modificationCount].
    destruct (Z.geb_spec (1 + k) MAX_SAFE_INTEGER) as [Hge|_]; [lia|].
    unfold afterModification, afterMaybeCheck.
    change (String.eqb production "test") with false. cbv iota.
    unfold oneNodeGraph, set_modificationCount.
    cbv beta iota delta [_nodes _edges _inEdges _outEdges _modificationCount
                         _invariantsLastChecked].
    f_equal. f_equal. lia.
Qed.

Lemma limitGraph_reachable : reachable production limitGraph.
Proof. apply oneNodeGraph_reachable. unfold MAX_SAFE_INTEGER. lia. Qed.

(** ** [removeNode] *)

(** Some edge of the graph has [n] as [src] or [dst]. *)
Definition incident (n : NodeAddressT) (g : Graph) : Prop :=
  exists a e, JsMap.get a (_edges g) = Some e /\ (src e = n \/ dst e = n).

Lemma incident_adjacent n g :
  DataInvariant g ->
  incident n g
  <-> orEmpty (JsMap.get n (_inEdges g)) ++ orEmpty (JsMap.get n (_outEdges g))
      <> [].
Proof.
  intros Hd. split.
  - intros (a & e & Hget & Hn) Hnil. apply app_eq_nil in Hnil as [Hi Ho].
    destruct (invariant_2 g Hd a e Hget)
      as (_ & _ & _ & (es1 & G1 & In1) & (es2 & G2 & In2)).
    destruct Hn as [<-|<-].
    + rewrite G2 in Ho. simpl in Ho. subst es2. destruct In2.
    + rewrite G1 in Hi. simpl in Hi. subst es1. destruct In1.
  - intros Hne.
    destruct (JsMap.get n (_inEdges g)) as [[|e es]|] eqn:G1; simpl in Hne.
    + destruct (JsMap.get n (_outEdges g)) as [[|e es]|] eqn:G2; simpl in Hne;
        try congruence.
      destruct (invariant_4 g Hd n _ G2) as (_ & _ & H).
      destruct (H e (or_introl eq_refl)) as [Hget Hsrc].
      exists (address e), e. split; [assumption | now left].
    + destruct (invariant_3 g Hd n _ G1) as (_ & _ & H).
      destruct (H e (or_introl eq_refl)) as [Hget Hdst].
      exists (address e), e. split; [assumption | now right].
    + destruct (JsMap.get n (_outEdges g)) as [[|e es]|] eqn:G2; simpl in Hne;
        try congruence.
      destruct (invariant_4 g Hd n _ G2) as (_ & _ & H).
      destruct (H e (or_introl eq_refl)) as [Hget Hsrc].
      exists (address e), e. split; [assumption | now left].
Qed.

(** The claim that [removeNode] of a node without incident edges always
    returns fails at the modification limit: the node is deleted, and the
    call throws. *)
Lemma removeNode_at_limit :
  reachable production limitGraph
  /\ In nodeA (_nodes limitGraph)
  /\ ~ incident nodeA limitGraph
  /\ removeNode production nodeA limitGraph
     = Threw (ModificationLimitError MAX_SAFE_INTEGER)
             (deleteNode nodeA limitGraph).
Proof.
  split; [exact limitGraph_reachable|].
  split; [now left|].
  split; [|reflexivity].
  intros (a & e & Hget & _). discriminate Hget.
Qed.

Section RemoveNode.

Variable NODE_ENV : string.

Lemma removeEdges_shrink addrs : forall g g1,
  GraphInvariant g ->
  forEach (removeEdge NODE_ENV) addrs g = Returned tt g1 ->
  GraphInvariant g1
  /\ _nodes g1 = _nodes g
  /\ forall a e, JsMap.get a (_edges g1) = Some e ->
       JsMap.get a (_edges g) = Some e /\ ~ In a addrs.
Proof.
  induction addrs as [|a0 addrs IH]; simpl; intros g g1 Hinv Hrun.
  - inversion Hrun; subst g1. split; [assumption|]. split; [reflexivity|].
    intros a e H. split; [assumption | intros []].
  - unfold bind in Hrun.
    destruct (removeEdge NODE_ENV a0 g) as [[] g0|] eqn:Hstep; [|discriminate].
    pose proof (removeEdge_invariant NODE_ENV _ _ _ Hinv Hstep) as Hinv0.
    destruct (IH g0 g1 Hinv0 Hrun) as (Hinv1 & Hnodes & Hedges).
    rewrite (removeEdge_run NODE_ENV a0 g Hinv) in Hstep.
    destruct (EdgeAddress.isValid a0); [|discriminate].
    destruct (JsMap.get a0 (_edges g)) as [e0|] eqn:Hget0.
    + apply counted_returns in Hstep as [_ ->].
      destruct (afterModification_data NODE_ENV (deleteEdge e0 g))
        as (En & Ee & _).
      destruct (invariant_2 g (proj1 Hinv) _ _ Hget0) as (Ha0 & _).
      split; [assumption|]. split; [now rewrite Hnodes, En|].
      intros a e Hget. destruct (Hedges a e Hget) as [Hget' Hnin].
      rewrite Ee in Hget'. simpl in Hget'.
      rewrite JsMapFacts.get_delete, Ha0 in Hget'.
      destruct (String.eqb_spec a a0) as [->|Hne]; [discriminate|].
      split; [assumption|]. intros [Heq|Hin]; [congruence | contradiction].
    + apply counted_returns in Hstep as [_ ->].
      destruct (afterModification_data NODE_ENV g) as (En & Ee & _).
      split; [assumption|]. split; [now rewrite Hnodes, En|].
      intros a e Hget. destruct (Hedges a e Hget) as [Hget' Hnin].
      rewrite Ee in Hget'. split; [assumption|].
      intros [Heq|Hin]; [congruence | contradiction].
Qed.

Lemma removeNode_free n g :
  GraphInvariant g -> In n (_nodes g) -> ~ incident n g ->
  removeNode NODE_ENV n g = counted NODE_ENV (deleteNode n g).
Proof.
  intros Hinv Hn Hfree. rewrite (removeNode_run NODE_ENV n g Hinv).
  rewrite (nodes_valid g (proj1 Hinv) n Hn).
  destruct (orEmpty (JsMap.get n (_inEdges g))
            ++ orEmpty (JsMap.get n (_outEdges g))) eqn:Hadj; [reflexivity|].
  elim Hfree. apply (incident_adjacent n g (proj1 Hinv)). now rewrite Hadj.
Qed.

(** C4, amended.  For a node [n] of a graph [g]: [removeNode(n)] throws
    the dangling-edge error, leaving [g] as it was, if and only if some
    edge of [g] has [n] as [src] or [dst]; if none has and the
    modification count is below its limit, the call returns and [n] is
    gone from the node set and from both indices, the other nodes
    staying; and after calls of [removeEdge] that returned and covered
    every edge incident to [n], [removeNode(n)] returns if the count is
    still below the limit. *)
Theorem removeNode_spec n g :
  reachable NODE_ENV g -> In n (_nodes g) ->
  ((exists k example,
      removeNode NODE_ENV n g = Threw (DanglingEdgeError n k example) g)
   <-> incident n g)
  /\ (~ incident n g -> (_modificationCount g < MAX_SAFE_INTEGER)%Z ->
      exists g',
        removeNode NODE_ENV n g = Returned tt g'
        /\ _nodes g' = JsSet.delete n (_nodes g)
        /\ ~ In n (_nodes g')
        /\ JsMap.get n (_inEdges g') = None
        /\ JsMap.get n (_outEdges g') = None
        /\ _edges g' = _edges g)
  /\ (forall addrs g1,
        forEach (removeEdge NODE_ENV) addrs g = Returned tt g1 ->
        (forall a e, JsMap.get a (_edges g) = Some e ->
           src e = n \/ dst e = n -> In a addrs) ->
        (_modificationCount g1 < MAX_SAFE_INTEGER)%Z ->
        exists g2, removeNode NODE_ENV n g1 = Returned tt g2).
Proof.
  intros Hreach Hn.
  pose proof (reachable_invariant NODE_ENV g Hreach) as Hinv.
  assert (Hfree : forall g0, GraphInvariant g0 -> In n (_nodes g0) ->
            ~ incident n g0 -> (_modificationCount g0 < MAX_SAFE_INTEGER)%Z ->
            removeNode NODE_ENV n g0
            = Returned tt (afterModification NODE_ENV (deleteNode n g0))).
  { intros g0 H0 Hn0 Hf Hlt. rewrite removeNode_free by assumption.
    now apply counted_below. }
  split; [|split].
  - rewrite (incident_adjacent n g (proj1 Hinv)).
    rewrite (removeNode_run NODE_ENV n g Hinv).
    rewrite (nodes_valid g (proj1 Hinv) n Hn).
    destruct (orEmpty (JsMap.get n (_inEdges g))
              ++ orEmpty (JsMap.get n (_outEdges g))) as [|ex rest].
    + split; [|congruence]. intros (k & example & H). unfold counted in H.
      destruct (_ >=? _)%Z; discriminate H.
    + split; [discriminate|]. intros _. eauto.
  - intros Hf Hlt. eexists. split; [now apply Hfree|].
    destruct (afterModification_data NODE_ENV (deleteNode n g))
      as (-> & -> & -> & -> & _). simpl.
    split; [reflexivity|].
    split; [rewrite JsSetFacts.In_delete; tauto|].
    rewrite !JsMapFacts.get_delete, String.eqb_refl. now repeat split.
  - intros addrs g1 Hrun Hcover Hlt.
    destruct (removeEdges_shrink addrs g g1 Hinv Hrun) as (Hinv1 & Hnodes & Hedges).
    eexists. apply Hfree; try assumption.
    + now rewrite Hnodes.
    + intros (a & e & Hget & Hinc). destruct (Hedges a e Hget) as [Hget' Hnin].
      apply Hnin. now apply (Hcover a e).
Qed.

End RemoveNode.

Lemma removeNode_spec_witness :
  (exists k example,
      removeNode "test" nodeA exampleGraph
      = Threw (DanglingEdgeError nodeA k example) exampleGraph)
  <-> incident nodeA exampleGraph.
Proof.
  apply (removeNode_spec "test" nodeA exampleGraph exampleGraph_reachable).
  simpl. tauto.
Defined.

(** ** Failing mutations *)

Inductive Mutation :=
| AddNode (a : NodeAddressT)
| AddEdge (e : Edge)
| RemoveNode (a : NodeAddressT)
| RemoveEdge (a : EdgeAddressT).

Definition perform (NODE_ENV : string) (m : Mutation) : M unit :=
  match m with
  | AddNode a => addNode NODE_ENV a
  | AddEdge e => addEdge NODE_ENV e
  | RemoveNode a => removeNode NODE_ENV a
  | RemoveEdge a => removeEdge NODE_ENV a
  end.

(** The claim that a mutation that throws leaves the graph as it was
    fails at the modification limit: [addNode] of a new node throws
    there, after it has added the node. *)
Lemma addNode_at_limit :
  reachable production limitGraph
  /\ addNode production nodeB limitGraph
     = Threw (ModificationLimitError MAX_SAFE_INTEGER)
             (insertNode nodeB limitGraph)
  /\ _nodes limitGraph = [nodeA]
  /\ _nodes (insertNode nodeB limitGraph) = [nodeA; nodeB]
  /\ JsMap.get nodeB (_inEdges limitGraph) = None
  /\ JsMap.get nodeB (_inEdges (insertNode nodeB limitGraph)) = Some [].
Proof.
  split; [exact limitGraph_reachable|]. now repeat split.
Qed.

Section Atomicity.

Variable NODE_ENV : string.

Lemma counted_threw g err g' :
  counted NODE_ENV g = Threw err g' ->
  (_modificationCount g >= MAX_SAFE_INTEGER)%Z
  /\ err = ModificationLimitError (_modificationCount g).
Proof.
  unfold counted.
  destruct (Z.geb_spec (_modificationCount g) MAX_SAFE_INTEGER);
    [|discriminate].
  intros [= <- <-]. split; [lia | reflexivity].
Qed.

(** C9, amended.  Whenever [addNode], [addEdge], [removeNode] or
    [removeEdge] throws on a graph whose modification count is below
    [Number.MAX_SAFE_INTEGER] (or throws anything but the error of the
    modification limit), the graph, with its node set, its edge map and
    both adjacency indices, is exactly as it was before the call. *)
Theorem failed_mutation_changes_nothing m g err g' :
  reachable NODE_ENV g ->
  perform NODE_ENV m g = Threw err g' ->
  (_modificationCount g < MAX_SAFE_INTEGER)%Z
  \/ (forall count, err <> ModificationLimitError count) ->
  g' = g.
Proof.
  intros Hreach Hrun Hnolimit.
  pose proof (reachable_invariant NODE_ENV g Hreach) as Hinv.
  assert (Hcounted : forall g0, _modificationCount g0 = _modificationCount g ->
            counted NODE_ENV g0 = Threw err g' -> g' = g).
  { intros g0 Hcount H. apply counted_threw in H as [Hge ->].
    destruct Hnolimit as [Hlt|Hne]; [lia | now elim (Hne (_modificationCount g0))]. }
  destruct m as [a|e|a|a]; simpl in Hrun.
  - rewrite (addNode_run NODE_ENV a g Hinv) in Hrun.
    destruct (NodeAddress.isValid a); [|now inversion Hrun].
    destruct (JsSet.has a (_nodes g)); now apply Hcounted in Hrun.
  - rewrite (addEdge_run NODE_ENV e g Hinv) in Hrun.
    repeat match type of Hrun with
           | (if ?c then _ else _) = _ =>
               destruct c; [now inversion Hrun|]
           end.
    destruct (JsMap.get (address e) (_edges g)).
    + destruct (_ && _); [now apply Hcounted in Hrun | now inversion Hrun].
    + now apply Hcounted in Hrun.
  - rewrite (removeNode_run NODE_ENV a g Hinv) in Hrun.
    destruct (NodeAddress.isValid a); [|now inversion Hrun].
    destruct (_ ++ _); [now apply Hcounted in Hrun | now inversion Hrun].
  - rewrite (removeEdge_run NODE_ENV a g Hinv) in Hrun.
    destruct (EdgeAddress.isValid a); [|now inversion Hrun].
    destruct (JsMap.get a (_edges g)); now apply Hcounted in Hrun.
Qed.

End Atomicity.

Lemma failed_mutation_changes_nothing_witness :
  stateOf (perform "test" (RemoveNode nodeA) exampleGraph) = exampleGraph.
Proof.
  apply (failed_mutation_changes_nothing "test" (RemoveNode nodeA) exampleGraph
           (DanglingEdgeError nodeA 1 edgeAB)).
  - exact exampleGraph_reachable.
  - reflexivity.
  - left. reflexivity.
Defined.

(** ** Generators *)

Lemma In_skipn {A} (x : A) n l : In x (skipn n l) -> In x l.
Proof.
  intros H. rewrite <- (firstn_skipn n l). apply in_or_app. now right.
Qed.

Section GeneratorFacts.

Variable NODE_ENV : string.
Variables Args A B : Type.
Variable source : Args -> Graph -> Error + list A.
Variable select : Args -> A -> Error + option B.

(** The values a run over [items] yields when no test throws. *)
Definition selected (a : Args) (items : list A) : list B :=
  flat_map (fun x => match select a x with
                     | inr (Some y) => [y]
                     | _ => []
                     end) items.

(** No test throws. *)
Definition selectable (a : Args) (items : list A) : Prop :=
  forall x, In x items -> exists o, select a x = inr o.

Lemma checkForComodification_same g :
  GraphInvariant g ->
  (_checkForComodification NODE_ENV (_modificationCount g)
     ;;; _maybeCheckInvariants NODE_ENV) g
  = Returned tt (afterMaybeCheck NODE_ENV g).
Proof.
  intros Hinv. unfold _checkForComodification, bind, this.
  rewrite Z.eqb_refl, (maybeCheckInvariants_run NODE_ENV g Hinv).
  rewrite maybeCheckInvariants_run by now apply afterMaybeCheck_invariant.
  now rewrite afterMaybeCheck_idempotent.
Qed.

Lemma checkForComodification_changed since g :
  (since < _modificationCount g)%Z ->
  _checkForComodification NODE_ENV since g = Threw ConcurrentModificationError g.
Proof.
  intros Hlt. unfold _checkForComodification, bind, this.
  destruct (Z.eqb_spec (_modificationCount g) since); [lia|].
  destruct (Z.gtb_spec (_modificationCount g) since); [reflexivity | lia].
Qed.

(** After a modification, resuming throws wherever the loop stands. *)
Lemma resume_changed a since items : forall pos g,
  selectable a items ->
  (since < _modificationCount g)%Z ->
  resume NODE_ENV select a since items pos g
  = Threw ConcurrentModificationError g.
Proof.
  induction items as [|x items IH]; intros pos g Hsel Hlt; simpl.
  - unfold bind. now rewrite checkForComodification_changed.
  - destruct (Hsel x (or_introl eq_refl)) as [[y|] ->].
    + unfold bind. now rewrite checkForComodification_changed.
    + apply IH; [|assumption]. intros x' Hx'. apply Hsel. now right.
Qed.

Theorem next_changed (it : Generator Args) g items :
  completed it = false ->
  source (args it) g = inr items ->
  selectable (args it) items ->
  (initialModificationCount it < _modificationCount g)%Z ->
  next NODE_ENV source select it g
  = (complete it, Threw ConcurrentModificationError g).
Proof.
  intros Hopen Hsrc Hsel Hlt. unfold next, ranged. rewrite Hopen, Hsrc.
  rewrite resume_changed; [reflexivity| |assumption].
  intros x Hx. apply Hsel. eapply In_skipn; eauto.
Qed.

(** Without a modification, resuming finds the next selected item. *)
Fixpoint upToYield (a : Args) (items : list A) (pos : nat)
    : IteratorResult B * nat :=
  match items with
  | [] => (Done, pos)
  | x :: rest =>
      match select a x with
      | inr (Some y) => (Yield y, S pos)
      | _ => upToYield a rest (S pos)
      end
  end.

Lemma resume_same a items : forall pos g,
  GraphInvariant g ->
  selectable a items ->
  resume NODE_ENV select a (_modificationCount g) items pos g
  = Returned (upToYield a items pos) (afterMaybeCheck NODE_ENV g).
Proof.
  induction items as [|x items IH]; intros pos g Hinv Hsel; simpl.
  - pose proof (checkForComodification_same g Hinv) as H.
    unfold bind in *. destruct (_checkForComodification _ _ g); [|discriminate].
    destruct (_maybeCheckInvariants NODE_ENV g0); inversion H; reflexivity.
  - destruct (Hsel x (or_introl eq_refl)) as [[y|] ->].
    + pose proof (checkForComodification_same g Hinv) as H.
      unfold bind in *. destruct (_checkForComodification _ _ g); [|discriminate].
      destruct (_maybeCheckInvariants NODE_ENV g0); inversion H; reflexivity.
    + apply IH; [assumption|]. intros x' Hx'. apply Hsel. now right.
Qed.

Lemma upToYield_Done a items : forall pos pos',
  upToYield a items pos = (Done, pos') -> selected a items = [].
Proof.
  induction items as [|x items IH]; intros pos pos'; simpl; [reflexivity|].
  destruct (select a x) as [err|[y|]]; try discriminate; simpl; apply IH.
Qed.

Lemma upToYield_Yield a items : forall pos y pos',
  upToYield a items pos = (Yield y, pos') ->
  exists k, pos' = (pos + k)%nat /\ selected a items = y :: selected a (skipn k items).
Proof.
  induction items as [|x items IH]; intros pos y pos'; simpl; [discriminate|].
  destruct (select a x) as [err|[y0|]] eqn:Hx.
  - intros H. destruct (IH _ _ _ H) as (k & -> & Hsel).
    exists (S k). split; [lia | exact Hsel].
  - intros [= <- <-]. exists 1%nat. split; [lia | reflexivity].
  - intros H. destruct (IH _ _ _ H) as (k & -> & Hsel).
    exists (S k). split; [lia | exact Hsel].
Qed.

(** What the loop ranges over does not depend on the cache. *)
Definition stable (a : Args) : Prop :=
  forall g, source a (afterMaybeCheck NODE_ENV g) = source a g.

Theorem iterate_same a items n : forall pos g,
  GraphInvariant g ->
  stable a ->
  source a g = inr items ->
  selectable a items ->
  (List.length (selected a (skipn pos items)) < n)%nat ->
  exists it',
    completed it' = true
    /\ iterate NODE_ENV source select n
               (mkGenerator a (_modificationCount g) pos false) g
       = (selected a (skipn pos items),
          (it', Returned Done (afterMaybeCheck NODE_ENV g))).
Proof.
  induction n as [|n IH]; intros pos g Hinv Hst Hsrc Hsel Hlen; [lia|].
  simpl. unfold next, ranged. simpl. rewrite Hsrc.
  rewrite resume_same; [|assumption|].
  2:{ intros x Hx. apply Hsel. eapply In_skipn; eauto. }
  destruct (upToYield a (skipn pos items) pos) as [[y|] pos'] eqn:Hup.
  - destruct (upToYield_Yield _ _ _ _ _ Hup) as (k & -> & Hy).
    rewrite Hy in *. simpl in Hlen. rewrite skipn_skipn in *.
    destruct (afterMaybeCheck_data NODE_ENV g) as (_ & _ & _ & _ & Hcount).
    destruct (IH (pos + k)%nat (afterMaybeCheck NODE_ENV g)) as (it' & Hdone & Hrun).
    + now apply afterMaybeCheck_invariant.
    + assumption.
    + now rewrite Hst.
    + assumption.
    + rewrite Nat.add_comm. lia.
    + exists it'. split; [assumption|].
      unfold suspendAt. simpl. rewrite Hcount in Hrun. rewrite Hrun.
      rewrite afterMaybeCheck_idempotent, (Nat.add_comm k pos). reflexivity.
  - rewrite (upToYield_Done _ _ _ _ Hup). eexists. split; [|reflexivity].
    reflexivity.
Qed.

End GeneratorFacts.

Arguments selected {Args A B} select a items.
Arguments selectable {Args A B} select a items.

(** ** [nodes()] and [edges()] *)

Section Iteration.

Variable NODE_ENV : string.

Lemma perform_invariant m g g' :
  GraphInvariant g -> perform NODE_ENV m g = Returned tt g' ->
  GraphInvariant g' /\ _modificationCount g' = (_modificationCount g + 1)%Z.
Proof.
  intros Hinv Hrun. split.
  - destruct m; simpl in Hrun.
    + exact (addNode_invariant NODE_ENV _ _ _ Hinv Hrun).
    + exact (addEdge_invariant NODE_ENV _ _ _ Hinv Hrun).
    + exact (removeNode_invariant NODE_ENV _ _ _ Hinv Hrun).
    + exact (removeEdge_invariant NODE_ENV _ _ _ Hinv Hrun).
  - assert (Hc : forall g0, _modificationCount g0 = _modificationCount g ->
              counted NODE_ENV g0 = Returned tt g' ->
              _modificationCount g' = (_modificationCount g + 1)%Z).
    { intros g0 Hg0 H. apply counted_returns in H as [_ ->].
      destruct (afterModification_data NODE_ENV g0) as (_ & _ & _ & _ & ->).
      now rewrite Hg0. }
    destruct m as [a|e|a|a]; simpl in Hrun.
    + rewrite (addNode_run NODE_ENV a g Hinv) in Hrun.
      destruct (NodeAddress.isValid a); [|discriminate].
      destruct (JsSet.has a (_nodes g)); now apply Hc in Hrun.
    + rewrite (addEdge_run NODE_ENV e g Hinv) in Hrun.
      repeat match type of Hrun with
             | (if ?c then _ else _) = _ => destruct c; [discriminate|]
             end.
      destruct (JsMap.get (address e) (_edges g)).
      * destruct (_ && _); [now apply Hc in Hrun | discriminate].
      * now apply Hc in Hrun.
    + rewrite (removeNode_run NODE_ENV a g Hinv) in Hrun.
      destruct (NodeAddress.isValid a); [|discriminate].
      destruct (_ ++ _); [now apply Hc in Hrun | discriminate].
    + rewrite (removeEdge_run NODE_ENV a g Hinv) in Hrun.
      destruct (EdgeAddress.isValid a); [|discriminate].
      destruct (JsMap.get a (_edges g)); now apply Hc in Hrun.
Qed.

(** Calls of mutations that all return. *)
Lemma mutations_invariant ms : forall g g',
  GraphInvariant g ->
  forEach (perform NODE_ENV) ms g = Returned tt g' ->
  GraphInvariant g'
  /\ _modificationCount g'
     = (_modificationCount g + Z.of_nat (List.length ms))%Z.
Proof.
  induction ms as [|m ms IH]; intros g g' Hinv Hrun.
  - inversion Hrun; subst. split; [assumption | simpl; lia].
  - simpl in Hrun. unfold bind in Hrun.
    destruct (perform NODE_ENV m g) as [[] g0|] eqn:Hstep; [|discriminate].
    destruct (perform_invariant m g g0 Hinv Hstep) as [Hinv0 Hcount0].
    destruct (IH g0 g' Hinv0 Hrun) as [Hinv' Hcount'].
    split; [assumption|]. rewrite Hcount', Hcount0.
    change (List.length (m :: ms)) with (S (List.length ms)). lia.
Qed.

Lemma nodes_selectable prefix g :
  DataInvariant g -> NodeAddress.isValid prefix = true ->
  selectable nodesSelect prefix (_nodes g)
  /\ selected nodesSelect prefix (_nodes g)
     = filter (String.prefix prefix) (_nodes g).
Proof.
  intros Hd Hp.
  assert (Hsel : forall n, In n (_nodes g) ->
            nodesSelect prefix n
            = inr (if String.prefix prefix n then Some n else None)).
  { intros n Hn. unfold nodesSelect, nodeHasPrefix, hasPrefixOrThrow.
    rewrite (nodes_valid g Hd n Hn), Hp. simpl.
    now destruct (String.prefix prefix n). }
  split.
  - intros n Hn. rewrite (Hsel n Hn). eauto.
  - unfold selected. induction (_nodes g) as [|n l IH]; [reflexivity|].
    simpl. rewrite (Hsel n (or_introl eq_refl)).
    rewrite IH by (intros n' Hn'; apply Hsel; now right).
    now destruct (String.prefix prefix n).
Qed.

(** The test of [_edgesIterator], on valid addresses. *)
Definition edgeMatches (options : EdgesOptions) (e : Edge) : bool :=
  String.prefix (addressPrefix options) (address e)
  && String.prefix (srcPrefix options) (src e)
  && String.prefix (dstPrefix options) (dst e).

Definition validEdgesOptions (options : EdgesOptions) : Prop :=
  EdgeAddress.isValid (addressPrefix options) = true
  /\ NodeAddress.isValid (srcPrefix options) = true
  /\ NodeAddress.isValid (dstPrefix options) = true.

Lemma edges_selectable options g :
  DataInvariant g -> validEdgesOptions options ->
  selectable edgesSelect options (JsMap.values (_edges g))
  /\ selected edgesSelect options (JsMap.values (_edges g))
     = filter (edgeMatches options) (JsMap.values (_edges g)).
Proof.
  intros Hd (Va & Vs & Vd).
  assert (Hsel : forall e, In e (JsMap.values (_edges g)) ->
            edgesSelect options e
            = inr (if edgeMatches options e then Some e else None)).
  { intros e He. apply in_map_iff in He as ([a e'] & <- & Hin). simpl.
    apply (JsMapFacts.In_get _ _ _ (edges_distinct g Hd)) in Hin.
    destruct (invariant_2 g Hd a e' Hin) as (Ha & Hs' & Hd' & _).
    pose proof (edges_valid g Hd a e' Hin) as Hva. rewrite <- Ha in Hva.
    unfold edgesSelect, edgeHasPrefix, nodeHasPrefix, hasPrefixOrThrow, edgeMatches.
    rewrite Hva, Va, Vs, Vd.
    rewrite (nodes_valid g Hd _ Hs'), (nodes_valid g Hd _ Hd'). simpl.
    destruct (String.prefix (addressPrefix options) (address e')); [|reflexivity].
    destruct (String.prefix (srcPrefix options) (src e')); [|reflexivity].
    now destruct (String.prefix (dstPrefix options) (dst e')). }
  split.
  - intros e He. rewrite (Hsel e He). eauto.
  - unfold selected. induction (JsMap.values (_edges g)) as [|e l IH]; [reflexivity|].
    simpl. rewrite (Hsel e (or_introl eq_refl)).
    rewrite IH by (intros e' He'; apply Hsel; now right).
    now destruct (edgeMatches options e).
Qed.

(** C5.  For the iterator that [nodes()] or [edges()] returns on a graph
    [g], with valid prefixes.  If nothing modifies [g], calling [next()]
    yields exactly the nodes (the edges) that match, in the order of the
    graph, and then reports the end.  If calls of mutations that returned
    (each one increments the modification count) have taken place since
    the iterator was created, then wherever the iterator stands, its
    next [next()] throws the concurrent-modification error. *)
Theorem iterators_detect_modification g :
  reachable NODE_ENV g ->
  let g1 := afterMaybeCheck NODE_ENV g in
  (forall prefix, NodeAddress.isValid prefix = true ->
     let it := _nodesIterator (_modificationCount g) prefix in
     let matching := filter (String.prefix prefix) (_nodes g) in
     nodes NODE_ENV (Some (Some prefix)) g = Returned it g1
     /\ (forall n, (List.length matching < n)%nat ->
         exists it',
           completed it' = true
           /\ iterate NODE_ENV nodesSource nodesSelect n it g1
              = (matching, (it', Returned Done g1)))
     /\ (forall pos ms g',
           ms <> [] ->
           forEach (perform NODE_ENV) ms g1 = Returned tt g' ->
           nodesNext NODE_ENV (suspendAt it pos) g'
           = (complete (suspendAt it pos), Threw ConcurrentModificationError g')))
  /\ (forall options, validEdgesOptions options ->
     let it := _edgesIterator (_modificationCount g) options in
     let matching := filter (edgeMatches options) (JsMap.values (_edges g)) in
     edges NODE_ENV (Some options) g = Returned it g1
     /\ (forall n, (List.length matching < n)%nat ->
         exists it',
           completed it' = true
           /\ iterate NODE_ENV edgesSource edgesSelect n it g1
              = (matching, (it', Returned Done g1)))
     /\ (forall pos ms g',
           ms <> [] ->
           forEach (perform NODE_ENV) ms g1 = Returned tt g' ->
           edgesNext NODE_ENV (suspendAt it pos) g'
           = (complete (suspendAt it pos), Threw ConcurrentModificationError g'))).
Proof.
  intros Hreach g1.
  pose proof (reachable_invariant NODE_ENV g Hreach) as Hinv.
  pose proof (afterMaybeCheck_invariant NODE_ENV g Hinv) as Hinv1.
  destruct (afterMaybeCheck_data NODE_ENV g) as (En & Ee & _ & _ & Ec).
  fold g1 in Hinv1, En, Ee, Ec.
  assert (Hlater : forall ms g', ms <> [] ->
            forEach (perform NODE_ENV) ms g1 = Returned tt g' ->
            GraphInvariant g' /\ (_modificationCount g < _modificationCount g')%Z).
  { intros ms g' Hne Hrun.
    destruct (mutations_invariant ms g1 g' Hinv1 Hrun) as [Hinv' Hcount].
    split; [assumption|]. rewrite Hcount, Ec.
    destruct ms; [congruence | simpl; lia]. }
  split.
  - intros prefix Hp it matching.
    destruct (nodes_selectable prefix g1 (proj1 Hinv1) Hp) as [Hsel Hfil].
    split; [|split].
    + unfold nodes, bind, this, ret.
      now rewrite (maybeCheckInvariants_run NODE_ENV g Hinv).
    + intros n Hn. unfold it, _nodesIterator, matching.
      rewrite <- En, <- Ec, <- Hfil.
      destruct (iterate_same NODE_ENV _ _ _ nodesSource nodesSelect prefix
                  (_nodes g1) n 0%nat g1 Hinv1) as (it' & Hdone & Hrun).
      * intros g0. unfold nodesSource.
        now destruct (afterMaybeCheck_data NODE_ENV g0) as (-> & _).
      * reflexivity.
      * assumption.
      * simpl. rewrite Hfil, En. exact Hn.
      * exists it'. split; [assumption|].
        unfold g1 in Hrun at 4. rewrite afterMaybeCheck_idempotent in Hrun.
        exact Hrun.
    + intros pos ms g' Hne Hrun.
      destruct (Hlater ms g' Hne Hrun) as [Hinv' Hlt].
      apply (next_changed NODE_ENV _ _ _ nodesSource nodesSelect
               (suspendAt it pos) g' (_nodes g')); try reflexivity.
      * apply (nodes_selectable prefix g' (proj1 Hinv') Hp).
      * exact Hlt.
  - intros options Ho it matching.
    destruct (edges_selectable options g1 (proj1 Hinv1) Ho) as [Hsel Hfil].
    split; [|split].
    + unfold edges, bind, this, ret.
      now rewrite (maybeCheckInvariants_run NODE_ENV g Hinv).
    + intros n Hn. unfold it, _edgesIterator, matching.
      rewrite <- Ee, <- Ec, <- Hfil.
      destruct (iterate_same NODE_ENV _ _ _ edgesSource edgesSelect options
                  (JsMap.values (_edges g1)) n 0%nat g1 Hinv1)
        as (it' & Hdone & Hrun).
      * intros g0. unfold edgesSource.
        now destruct (afterMaybeCheck_data NODE_ENV g0) as (_ & -> & _).
      * reflexivity.
      * assumption.
      * simpl. rewrite Hfil, Ee. exact Hn.
      * exists it'. split; [assumption|].
        unfold g1 in Hrun at 4. rewrite afterMaybeCheck_idempotent in Hrun.
        exact Hrun.
    + intros pos ms g' Hne Hrun.
      destruct (Hlater ms g' Hne Hrun) as [Hinv' Hlt].
      apply (next_changed NODE_ENV _ _ _ edgesSource edgesSelect
               (suspendAt it pos) g' (JsMap.values (_edges g'))); try reflexivity.
      * apply (edges_selectable options g' (proj1 Hinv') Ho).
      * exact Hlt.
Qed.

End Iteration.

Lemma iterators_detect_modification_witness :
  let it := _nodesIterator 3 NodeAddress.empty in
  nodes "test" (Some (Some NodeAddress.empty)) exampleGraph
  = Returned it exampleGraph
  /\ (exists it',
        iterate "test" nodesSource nodesSelect 3 it exampleGraph
        = ([nodeB; nodeA], (it', Returned Done exampleGraph)))
  /\ (exists g',
        removeEdge "test" (address edgeAB) exampleGraph = Returned tt g'
        /\ nodesNext "test" (suspendAt it 1) g'
           = (complete (suspendAt it 1), Threw ConcurrentModificationError g')).
Proof.
  intros it.
  destruct (iterators_detect_modification "test" exampleGraph
              exampleGraph_reachable) as [Hnodes _].
  destruct (Hnodes NodeAddress.empty eq_refl) as (Hcreate & Hsame & Hchanged).
  split; [exact Hcreate|]. split.
  - destruct (Hsame 3%nat) as (it' & _ & Hrun).
    + simpl. lia.
    + exists it'. exact Hrun.
  - eexists. split; [reflexivity|].
    apply (Hchanged 1%nat [RemoveEdge (address edgeAB)]).
    + discriminate.
    + reflexivity.
Defined.

(** ** [neighbors()] *)

Definition Edge_eq_dec (e f : Edge) : {e = f} + {e <> f}.
Proof. repeat decide equality. Defined.

(** How many of the neighbors yielded go through the edge [e]. *)
Definition occurrences (e : Edge) (l : list Neighbor) : nat :=
  List.length (filter (fun nb => Edge_eqb (edge nb) e) l).

(** The end of [e] that a scan in direction [scan] reports. *)
Definition neighborNode (scan : DirectionT) (e : Edge) : NodeAddressT :=
  if DirectionT_eqb scan IN then src e else dst e.

(** The test of [_neighbors], on valid addresses. *)
Definition neighborPasses (options : NeighborsOptions) (scan : DirectionT)
    (e : Edge) : bool :=
  negb (DirectionT_eqb (direction options) ANY && DirectionT_eqb scan IN
        && String.eqb (src e) (dst e))
  && String.prefix (nodePrefix options) (neighborNode scan e)
  && String.prefix (edgePrefix options) (address e).

Lemma occurrences_app e l l' :
  occurrences e (l ++ l') = (occurrences e l + occurrences e l')%nat.
Proof. unfold occurrences. now rewrite filter_app, length_app. Qed.

Lemma selected_cons {Args A B} (select : Args -> A -> Error + option B) a x l :
  selected select a (x :: l)
  = match select a x with inr (Some y) => [y] | _ => [] end
    ++ selected select a l.
Proof. reflexivity. Qed.

Lemma selected_app {Args A B} (select : Args -> A -> Error + option B) a l l' :
  selected select a (l ++ l') = selected select a l ++ selected select a l'.
Proof. unfold selected. apply flat_map_app. Qed.

Section Neighbors.

Variable NODE_ENV : string.
Variable n : NodeAddressT.
Variable options : NeighborsOptions.

Hypothesis nodePrefix_valid : NodeAddress.isValid (nodePrefix options) = true.
Hypothesis edgePrefix_valid : EdgeAddress.isValid (edgePrefix options) = true.

Lemma neighborsSelect_valid scan e :
  NodeAddress.isValid (src e) = true ->
  NodeAddress.isValid (dst e) = true ->
  EdgeAddress.isValid (address e) = true ->
  neighborsSelect (n, options) (scan, e)
  = inr (if neighborPasses options scan e
         then Some (mkNeighbor (neighborNode scan e) e) else None).
Proof.
  intros Vs Vd Va. unfold neighborsSelect, neighborPasses, neighborNode.
  destruct (DirectionT_eqb (direction options) ANY && DirectionT_eqb scan IN
            && String.eqb (src e) (dst e)); [reflexivity|]. simpl.
  unfold nodeHasPrefix, edgeHasPrefix, hasPrefixOrThrow.
  rewrite nodePrefix_valid, edgePrefix_valid, Va.
  destruct (DirectionT_eqb scan IN); [rewrite Vs | rewrite Vd]; simpl.
  - destruct (String.prefix (nodePrefix options) (src e)); [|reflexivity].
    now destruct (String.prefix (edgePrefix options) (address e)).
  - destruct (String.prefix (nodePrefix options) (dst e)); [|reflexivity].
    now destruct (String.prefix (edgePrefix options) (address e)).
Qed.

(** One scan over valid edges: it throws nowhere, and reports an edge as
    often as the scanned array holds it, if the edge passes. *)
Lemma scan_occurrences scan es e :
  (forall e', In e' es ->
     NodeAddress.isValid (src e') = true /\ NodeAddress.isValid (dst e') = true
     /\ EdgeAddress.isValid (address e') = true) ->
  selectable neighborsSelect (n, options) (map (pair scan) es)
  /\ occurrences e (selected neighborsSelect (n, options) (map (pair scan) es))
     = if neighborPasses options scan e then count_occ Edge_eq_dec es e else 0%nat.
Proof.
  intros Hvalid. split.
  - intros item Hitem. apply in_map_iff in Hitem as (e' & <- & He').
    destruct (Hvalid e' He') as (Vs & Vd & Va).
    rewrite (neighborsSelect_valid scan e' Vs Vd Va). eauto.
  - induction es as [|e' es IH].
    + simpl. now destruct (neighborPasses options scan e).
    + destruct (Hvalid e' (or_introl eq_refl)) as (Vs & Vd & Va).
      change (map (pair scan) (e' :: es))
        with ((scan, e') :: map (pair scan) es).
      rewrite selected_cons, (neighborsSelect_valid scan e' Vs Vd Va).
      rewrite occurrences_app, IH by (intros e'' He''; apply Hvalid; now right).
      simpl count_occ.
      destruct (Edge_eq_dec e' e) as [->|Hne].
      * destruct (neighborPasses options scan e); [|reflexivity].
        unfold occurrences. simpl. now rewrite Edge_eqb_refl.
      * assert (Heq : Edge_eqb e' e = false).
        { destruct (Edge_eqb e' e) eqn:Heq; [|reflexivity].
          apply Edge_eqb_eq in Heq. contradiction. }
        destruct (neighborPasses options scan e'); [|reflexivity].
        unfold occurrences at 1. simpl. now rewrite Heq.
Qed.

Lemma anchored_count kind g es e :
  DataInvariant g ->
  JsMap.get n (adjacencyIndex kind g) = Some es ->
  JsMap.get (address e) (_edges g) = Some e ->
  count_occ Edge_eq_dec es e
  = if String.eqb (baseNodeAccessor kind e) n then 1%nat else 0%nat.
Proof.
  intros Hd Hes He.
  assert (Hadj : AdjacencyInvariant kind g)
    by (destruct kind; [apply (invariant_3 g Hd) | apply (invariant_4 g Hd)]).
  destruct (Hadj n es Hes) as (_ & Hnd & Hanch).
  apply NoDup_map_inv in Hnd.
  destruct (String.eqb_spec (baseNodeAccessor kind e) n) as [Hbase|Hbase].
  - assert (Hin : In e es).
    { destruct (invariant_2 g Hd _ _ He) as (_ & _ & _ & (es1 & G1 & In1) & (es2 & G2 & In2)).
      destruct kind; simpl in *; subst n; congruence. }
    apply (count_occ_In Edge_eq_dec) in Hin.
    pose proof (proj1 (NoDup_count_occ Edge_eq_dec es) Hnd e). lia.
  - apply (count_occ_not_In Edge_eq_dec). intros Hin.
    destruct (Hanch e Hin) as [_ Hb]. contradiction.
Qed.

(** C6.  [neighbors(n, options)] with direction [ANY] on a graph holding
    [n], with valid prefixes: the call returns an iterator; iterating it
    on the unmodified graph yields a list of neighbors and then reports
    the end; and in that list every edge of the graph incident to [n]
    that passes the filters occurs exactly once: a loop at [n] (it is
    skipped in the in-edge scan and reported by the out-edge scan, with
    [n] as the neighbor), an edge out of [n] to another node, and an
    edge into [n] from another node. *)
Theorem neighbors_yield_once g :
  reachable NODE_ENV g ->
  In n (_nodes g) ->
  direction options = ANY ->
  let g1 := afterMaybeCheck NODE_ENV g in
  let it := _neighbors n options (_modificationCount g) in
  exists yielded,
    neighbors NODE_ENV n options g = Returned it g1
    /\ (forall k, (List.length yielded < k)%nat ->
        exists it',
          completed it' = true
          /\ iterate NODE_ENV neighborsSource neighborsSelect k it g1
             = (yielded, (it', Returned Done g1)))
    /\ (forall e, JsMap.get (address e) (_edges g) = Some e ->
        String.prefix (edgePrefix options) (address e) = true ->
        (src e = n -> dst e = n ->
         String.prefix (nodePrefix options) n = true ->
         occurrences e yielded = 1%nat)
        /\ (src e = n -> dst e <> n ->
            String.prefix (nodePrefix options) (dst e) = true ->
            occurrences e yielded = 1%nat)
        /\ (dst e = n -> src e <> n ->
            String.prefix (nodePrefix options) (src e) = true ->
            occurrences e yielded = 1%nat)).
Proof.
  intros Hreach Hn Hany g1 it.
  pose proof (reachable_invariant NODE_ENV g Hreach) as Hinv.
  pose proof (afterMaybeCheck_invariant NODE_ENV g Hinv) as Hinv1.
  destruct Hinv as [Hd Hb].
  destruct (afterMaybeCheck_data NODE_ENV g) as (En & Ee & Ei & Eo & Ec).
  subst g1. set (g1 := afterMaybeCheck NODE_ENV g) in *.
  destruct (invariant_1 g Hd n Hn) as [Hi Ho].
  destruct (JsMap.get n (_inEdges g)) as [ins|] eqn:Gi; [|congruence].
  destruct (JsMap.get n (_outEdges g)) as [outs|] eqn:Go; [|congruence].
  clear Hi Ho.
  set (items := map (pair IN) ins ++ map (pair OUT) outs).
  assert (Hsrc : forall g0, _inEdges g0 = _inEdges g -> _outEdges g0 = _outEdges g ->
            neighborsSource (n, options) g0 = inr items).
  { intros g0 E1 E2. unfold neighborsSource. rewrite Hany, E1, E2, Gi, Go.
    reflexivity. }
  assert (Hvalid : forall kind es, JsMap.get n (adjacencyIndex kind g) = Some es ->
            forall e', In e' es ->
            NodeAddress.isValid (src e') = true /\ NodeAddress.isValid (dst e') = true
            /\ EdgeAddress.isValid (address e') = true).
  { intros kind es Hes e' He'.
    assert (Hadj : AdjacencyInvariant kind g)
      by (destruct kind; [apply (invariant_3 g Hd) | apply (invariant_4 g Hd)]).
    destruct (Hadj n es Hes) as (_ & _ & Hanch).
    destruct (Hanch e' He') as [Hget _].
    destruct (invariant_2 g Hd _ _ Hget) as (_ & Hs & Hd' & _).
    repeat split.
    - now apply (nodes_valid g Hd).
    - now apply (nodes_valid g Hd).
    - now apply (edges_valid g Hd _ _ Hget). }
  pose proof (Hvalid InEdgeKind ins Gi) as Vin.
  pose proof (Hvalid OutEdgeKind outs Go) as Vout.
  assert (Hsel : selectable neighborsSelect (n, options) items).
  { intros item Hitem. apply in_app_or in Hitem as [Hitem|Hitem].
    - now apply (proj1 (scan_occurrences IN ins (mkEdge "" "" "") Vin)).
    - now apply (proj1 (scan_occurrences OUT outs (mkEdge "" "" "") Vout)). }
  exists (selected neighborsSelect (n, options) items).
  split; [|split].
  - unfold neighbors, hasNode, assertValidNode, bind, this, ret.
    rewrite (nodes_valid g Hd n Hn).
    rewrite (maybeCheckInvariants_run NODE_ENV g (conj Hd Hb)).
    rewrite (proj2 (JsSetFacts.has_In n (_nodes g)) Hn). simpl.
    fold g1. rewrite (maybeCheckInvariants_run NODE_ENV g1 Hinv1).
    unfold g1. rewrite afterMaybeCheck_idempotent. fold g1. now rewrite Ec.
  - intros k Hk.
    destruct (iterate_same NODE_ENV _ _ _ neighborsSource neighborsSelect
                (n, options) items k 0%nat g1 Hinv1) as (it' & Hdone & Hrun).
    + intros g0. destruct (afterMaybeCheck_data NODE_ENV g0) as (_ & _ & E1 & E2 & _).
      unfold neighborsSource. now rewrite E1, E2.
    + now apply Hsrc.
    + assumption.
    + exact Hk.
    + exists it'. split; [assumption|].
      unfold g1 in Hrun. rewrite afterMaybeCheck_idempotent in Hrun.
      fold g1 in Hrun. rewrite Ec in Hrun. exact Hrun.
  - intros e He Hedge.
    assert (Hocc : occurrences e (selected neighborsSelect (n, options) items)
                   = ((if neighborPasses options IN e
                       then (if String.eqb (dst e) n then 1 else 0) else 0)
                      + (if neighborPasses options OUT e
                         then (if String.eqb (src e) n then 1 else 0) else 0))%nat).
    { unfold items, selected. rewrite flat_map_app, occurrences_app.
      pose proof (proj2 (scan_occurrences IN ins e Vin)) as O1.
      pose proof (proj2 (scan_occurrences OUT outs e Vout)) as O2.
      unfold selected in O1, O2. rewrite O1, O2.
      rewrite (anchored_count InEdgeKind g ins e Hd Gi He).
      now rewrite (anchored_count OutEdgeKind g outs e Hd Go He). }
    unfold neighborPasses, neighborNode in Hocc. rewrite Hany in Hocc.
    simpl in Hocc. rewrite Hedge in Hocc. rewrite Hocc.
    split; [|split].
    + intros Es Ed Hp. rewrite Es, Ed, !String.eqb_refl, Hp. reflexivity.
    + intros Es Ed Hp. rewrite Hp, Es, String.eqb_refl, !andb_true_r.
      destruct (String.eqb_spec (dst e) n); [contradiction|].
      destruct (String.eqb n (dst e));
        destruct (String.prefix (nodePrefix options) n); reflexivity.
    + intros Ed Es Hp. rewrite Hp, Ed, String.eqb_refl, !andb_true_r.
      destruct (String.eqb_spec (src e) n); [contradiction|]. simpl.
      now destruct (String.prefix (nodePrefix options) n).
Qed.

End Neighbors.

(** The running example with a loop at [nodeA]:
    [exampleGraph.addEdge(aa)] under [NODE_ENV=test]. *)
Definition edgeAA : Edge := mkEdge ("E" ++ NUL ++ "aa" ++ NUL)%string nodeA nodeA.

Definition loopedGraph : Graph :=
  mkGraph [nodeB; nodeA]
          [(address edgeAB, edgeAB); (address edgeAA, edgeAA)]
          [(nodeB, [edgeAB]); (nodeA, [edgeAA])]
          [(nodeB, []); (nodeA, [edgeAB; edgeAA])]
          4 (mkLastChecked 4 None).

Lemma loopedGraph_reachable : reachable "test" loopedGraph.
Proof.
  eapply reachable_addEdge with (e := edgeAA).
  - exact exampleGraph_reachable.
  - reflexivity.
Qed.

Lemma neighbors_yield_once_witness :
  let options := mkNeighborsOptions ANY NodeAddress.empty EdgeAddress.empty in
  let it := _neighbors nodeA options 4 in
  exists yielded it',
    neighbors "test" nodeA options loopedGraph = Returned it loopedGraph
    /\ completed it' = true
    /\ iterate "test" neighborsSource neighborsSelect
         (S (List.length yielded)) it loopedGraph
       = (yielded, (it', Returned Done loopedGraph))
    /\ occurrences edgeAA yielded = 1%nat
    /\ occurrences edgeAB yielded = 1%nat.
Proof.
  intros options it.
  destruct (neighbors_yield_once "test" nodeA options eq_refl eq_refl
              loopedGraph loopedGraph_reachable)
    as (yielded & Hcall & Hiterate & Honce).
  - simpl. tauto.
  - reflexivity.
  - destruct (Hiterate (S (List.length yielded)) (Nat.lt_succ_diag_r _))
      as (it' & Hcompleted & Hrun).
    exists yielded, it'.
    split; [exact Hcall|]. split; [exact Hcompleted|]. split; [exact Hrun|].
    split.
    + destruct (Honce edgeAA eq_refl eq_refl) as (Hloop & _ & _).
      apply Hloop; reflexivity.
    + destruct (Honce edgeAB eq_refl eq_refl) as (_ & Hout & _).
      apply Hout; [reflexivity | discriminate | reflexivity].
Defined.

(** ** Addresses: parts and back *)

Module AddressFacts.

Import Address.

Lemma prefix_split s1 : forall s2,
  String.prefix s1 s2 = true -> exists r, s2 = (s1 ++ r)%string.
Proof.
  induction s1 as [|c s1 IH]; intros s2.
  - intros _. now exists s2.
  - destruct s2 as [|c2 s2]; simpl; [discriminate|].
    destruct (Ascii.ascii_dec c c2) as [->|]; [|discriminate].
    intros H. destruct (IH s2 H) as [r ->]. now exists r.
Qed.

Lemma append_assoc (s1 s2 s3 : string) :
  ((s1 ++ s2) ++ s3 = s1 ++ (s2 ++ s3))%string.
Proof. induction s1 as [|c s1 IH]; simpl; [reflexivity | now rewrite IH]. Qed.

Lemma endsWithSeparator_cons c s :
  s <> EmptyString -> endsWithSeparator (String c s) = endsWithSeparator s.
Proof. destruct s; [congruence | reflexivity]. Qed.

Lemma endsWithSeparator_app s r :
  r <> EmptyString ->
  endsWithSeparator (s ++ r) = endsWithSeparator r.
Proof.
  intros Hr. induction s as [|c s IH]; [reflexivity|]. simpl append.
  rewrite endsWithSeparator_cons; [exact IH|].
  destruct s; simpl; [assumption | discriminate].
Qed.

Lemma split_nonempty s : split s <> [].
Proof.
  destruct s as [|c s]; simpl; [discriminate|].
  destruct (Ascii.eqb c separator); [discriminate|].
  destruct (split s); discriminate.
Qed.

Lemma split_nonce nonce r :
  containsSeparator nonce = false ->
  split (nonce ++ String separator r) = nonce :: split r.
Proof.
  induction nonce as [|c nonce IH]; simpl; intros H.
  - reflexivity.
  - apply orb_false_iff in H as [Hc Hn]. rewrite Hc, (IH Hn). reflexivity.
Qed.

Lemma split_parts_valid s : validParts (split s) = true.
Proof.
  induction s as [|c s IH]; [reflexivity|]. simpl.
  destruct (Ascii.eqb c separator) eqn:Hc; [exact IH|].
  destruct (split s) as [|p ps]; simpl in *; [now rewrite Hc|].
  now rewrite Hc.
Qed.

Lemma validParts_removelast l : validParts l = true -> validParts (removelast l) = true.
Proof.
  induction l as [|p l IH]; [trivial|]. simpl.
  destruct l as [|q l]; [reflexivity|].
  intros H. apply andb_true_iff in H as [Hp Hl].
  change (validParts (p :: removelast (q :: l)) = true).
  simpl. rewrite Hp. now apply IH.
Qed.

Lemma partsString_cons p l :
  partsString (p :: l) = (p ++ String separator (partsString l))%string.
Proof. reflexivity. Qed.

Lemma removelast_cons {A} (x : A) l :
  l <> [] -> removelast (x :: l) = x :: removelast l.
Proof. destruct l; [congruence | reflexivity]. Qed.

Lemma split_two r :
  endsWithSeparator r = true -> exists p q ps, split r = p :: q :: ps.
Proof.
  induction r as [|c r IH]; [discriminate|]. intros H. simpl split.
  destruct (Ascii.eqb c separator) eqn:Hc.
  - pose proof (split_nonempty r). destruct (split r) as [|q ps]; [congruence|].
    now exists EmptyString, q, ps.
  - destruct r as [|c' r]; [simpl in H; congruence|].
    destruct (IH H) as (p & q & ps & ->). now exists (String c p), q, ps.
Qed.

Lemma split_cons c s :
  split (String c s)
  = if Ascii.eqb c separator then EmptyString :: split s
    else match split s with
         | [] => [String c EmptyString]
         | p :: ps => String c p :: ps
         end.
Proof. reflexivity. Qed.

(** Splitting a string that is empty or ends with the separator, and
    joining all parts but the last (empty) one, gives the string back. *)
Lemma partsString_split r :
  r = EmptyString \/ endsWithSeparator r = true ->
  partsString (removelast (split r)) = r.
Proof.
  induction r as [|c r IH]; [reflexivity|]. intros [H|H]; [discriminate|].
  rewrite split_cons. destruct (Ascii.eqb c separator) eqn:Hc.
  - apply Ascii.eqb_eq in Hc. subst c.
    rewrite removelast_cons by apply split_nonempty.
    rewrite partsString_cons, IH; [reflexivity|].
    destruct r as [|c' r]; [now left | right; exact H].
  - destruct r as [|c' r]; [simpl in H; congruence|].
    assert (H' : endsWithSeparator (String c' r) = true) by exact H.
    destruct (split_two _ H') as (p & q & ps & Hs).
    specialize (IH (or_intror H')).
    rewrite Hs in *. rewrite removelast_cons in * by discriminate.
    rewrite partsString_cons in *. simpl append. f_equal. exact IH.
Qed.

Theorem fromParts_toParts nonce a :
  containsSeparator nonce = false ->
  isValid nonce a = true ->
  exists parts, toParts nonce a = Some parts /\ fromParts nonce parts = Some a.
Proof.
  intros Hnonce Hvalid. unfold toParts, fromParts. rewrite Hvalid.
  eexists. split; [reflexivity|].
  unfold isValid in Hvalid. apply andb_true_iff in Hvalid as [Hend Hpre].
  apply prefix_split in Hpre as [r ->].
  unfold nonceWithSeparator in *. rewrite append_assoc in *.
  simpl append in *. rewrite (split_nonce _ _ Hnonce). simpl tl.
  assert (Hr : r = EmptyString \/ endsWithSeparator r = true).
  { destruct r as [|c r]; [now left|]. right.
    rewrite endsWithSeparator_app in Hend by discriminate.
    exact Hend. }
  rewrite validParts_removelast by apply split_parts_valid.
  rewrite (partsString_split r Hr), append_assoc. reflexivity.
Qed.

End AddressFacts.

(** ** The order of strings *)

(** [codeUnitOrder] only rearranges the order: it loses nothing of a
    string. *)
Definition codeUnitRank_inverse (a : ascii) : ascii :=
  let n := N_of_ascii a in
  ascii_of_N (if (n <? 238)%N then n
              else if (n <? 254)%N then n + 2
              else n - 16)%N.

Lemma codeUnitRank_back a : codeUnitRank_inverse (codeUnitRank a) = a.
Proof. destruct a as [[] [] [] [] [] [] [] []]; reflexivity. Qed.

Lemma codeUnitOrder_injective x : forall y,
  codeUnitOrder x = codeUnitOrder y -> x = y.
Proof.
  induction x as [|a x IH]; intros [|b y] H; simpl in H;
    try discriminate; [reflexivity|].
  inversion H as [[Ha Hx]]. f_equal; [|now apply IH].
  rewrite <- (codeUnitRank_back a), <- (codeUnitRank_back b). now rewrite Ha.
Qed.

(** U+1F600 (bytes [F0 9F 98 80], code units [D83D DE00]) comes before
    U+FF61 (bytes [EF BD A1], code unit [FF61]), although its bytes come
    after; and ASCII strings compare as their bytes do. *)
Example compareStrings_code_units :
  let bytes := fun l => string_of_list_ascii (map ascii_of_nat l) in
  compareStrings (bytes [240; 159; 152; 128]) (bytes [239; 189; 161]) = Lt
  /\ String.compare (bytes [240; 159; 152; 128]) (bytes [239; 189; 161]) = Gt
  /\ compareStrings "IN_EDGE" "OUT_EDGE" = Lt
  /\ compareStrings "E" "Ea" = Lt.
Proof. repeat split; reflexivity. Qed.

(** ** Serialization *)

Lemma insertBy_Permutation {A} (key : A -> string) x l :
  Permutation (insertBy key x l) (x :: l).
Proof.
  induction l as [|y l IH]; simpl; [apply Permutation_refl|].
  destruct (stringLeb (key x) (key y)); [apply Permutation_refl|].
  apply perm_trans with (y :: x :: l); [now apply perm_skip | apply perm_swap].
Qed.

Lemma sortBy_Permutation {A} (key : A -> string) l :
  Permutation (sortBy key l) l.
Proof.
  induction l as [|x l IH]; simpl; [apply perm_nil|].
  apply perm_trans with (x :: sortBy key l);
    [apply insertBy_Permutation | now apply perm_skip].
Qed.

Lemma indexFrom_other n l : forall i m,
  ~ In n l -> JsMap.get n (indexFrom i l m) = JsMap.get n m.
Proof.
  induction l as [|x l IH]; intros i m Hn; simpl; [reflexivity|].
  rewrite IH by (intros H; apply Hn; now right).
  rewrite JsMapFacts.get_set.
  destruct (String.eqb_spec n x) as [->|]; [elim Hn; now left | reflexivity].
Qed.

(** [nodeToSortedIndex] maps each node to its place in the sorted array. *)
Lemma indexFrom_nth l : forall i m k n,
  NoDup l -> nth_error l k = Some n ->
  JsMap.get n (indexFrom i l m) = Some (i + k)%nat.
Proof.
  induction l as [|x l IH]; intros i m k n Hnd Hk; [now destruct k|].
  inversion Hnd as [|? ? Hx Hnd']; subst. simpl. destruct k as [|k].
  - inversion Hk; subst. rewrite indexFrom_other by assumption.
    rewrite JsMapFacts.get_set, String.eqb_refl. f_equal. lia.
  - rewrite (IH (S i) _ k n Hnd' Hk). f_equal. lia.
Qed.

Lemma mapM_pure {A B} (f : A -> M B) (f' : A -> B) l : forall g,
  (forall x, In x l -> f x g = Returned (f' x) g) ->
  mapM f l g = Returned (map f' l) g.
Proof.
  induction l as [|x l IH]; intros g H; simpl; [reflexivity|].
  unfold bind. rewrite (H x (or_introl eq_refl)).
  rewrite IH by (intros y Hy; apply H; now right). reflexivity.
Qed.

Section Collect.

Variable NODE_ENV : string.
Variables Args A B : Type.
Variable select : Args -> A -> Error + option B.

Lemma collect_same a items : forall g,
  GraphInvariant g ->
  selectable select a items ->
  collect NODE_ENV select a (_modificationCount g) items g
  = Returned (selected select a items) (afterMaybeCheck NODE_ENV g).
Proof.
  induction items as [|x items IH]; intros g Hinv Hsel.
  - simpl. pose proof (checkForComodification_same NODE_ENV g Hinv) as H.
    unfold bind in *. destruct (_checkForComodification _ _ g); [|discriminate].
    destruct (_maybeCheckInvariants NODE_ENV g0); inversion H; reflexivity.
  - rewrite selected_cons. simpl collect.
    destruct (Hsel x (or_introl eq_refl)) as [[y|] Hx]; rewrite Hx.
    + pose proof (checkForComodification_same NODE_ENV g Hinv) as H.
      destruct (afterMaybeCheck_data NODE_ENV g) as (_ & _ & _ & _ & Hcount).
      unfold bind in *. destruct (_checkForComodification _ _ g); [|discriminate].
      destruct (_maybeCheckInvariants NODE_ENV g0); inversion H; subst.
      rewrite <- Hcount, IH.
      * now rewrite afterMaybeCheck_idempotent.
      * now apply afterMaybeCheck_invariant.
      * intros x' Hx'. apply Hsel. now right.
    + apply IH; [assumption|]. intros x' Hx'. apply Hsel. now right.
Qed.

End Collect.

(** What [toJSON] computes. *)
Definition partsOf (a : string) : list string :=
  removelast (tl (Address.split a)).

Definition sortedNodes (g : Graph) : list NodeAddressT :=
  sortBy (fun x => x) (_nodes g).

Definition sortedEdges (g : Graph) : list Edge :=
  sortBy address (JsMap.values (_edges g)).

Definition nodeToSortedIndex (g : Graph) : JsMap.t nat :=
  indexFrom 0 (sortedNodes g) JsMap.empty.

Definition sortedIndex (g : Graph) (n : NodeAddressT) : nat :=
  match JsMap.get n (nodeToSortedIndex g) with Some i => i | None => 0%nat end.

Definition indexed (g : Graph) (e : Edge) : IndexedEdgeJSON :=
  mkIndexedEdgeJSON (partsOf (address e))
                    (sortedIndex g (src e)) (sortedIndex g (dst e)).

Definition serialized (g : Graph) : Compatible GraphJSON :=
  toCompat COMPAT_INFO
    (mkGraphJSON (map partsOf (sortedNodes g)) (map (indexed g) (sortedEdges g))).

Lemma valid_has_empty_prefix nonce a :
  Address.isValid nonce a = true -> String.prefix (Address.empty nonce) a = true.
Proof. unfold Address.isValid. intros H. now apply andb_true_iff in H. Qed.

Lemma filter_all {A} (f : A -> bool) l :
  (forall x, In x l -> f x = true) -> filter f l = l.
Proof.
  induction l as [|x l IH]; intros H; simpl; [reflexivity|].
  rewrite (H x (or_introl eq_refl)), IH; [reflexivity|].
  intros y Hy. apply H. now right.
Qed.

Lemma In_values_get g e :
  DataInvariant g ->
  In e (JsMap.values (_edges g)) <-> JsMap.get (address e) (_edges g) = Some e.
Proof.
  intros Hd. split.
  - intros He. apply in_map_iff in He as ([a e'] & <- & Hin). simpl.
    apply (JsMapFacts.In_get _ _ _ (edges_distinct g Hd)) in Hin.
    destruct (invariant_2 g Hd a e' Hin) as (-> & _). exact Hin.
  - intros Hget. apply JsMapFacts.get_In in Hget.
    change e with (snd (address e, e)). now apply in_map.
Qed.

Section ToJSON.

Variable NODE_ENV : string.

Lemma sortedIndex_nth g n :
  DataInvariant g -> In n (_nodes g) ->
  JsMap.get n (nodeToSortedIndex g) = Some (sortedIndex g n)
  /\ nth_error (sortedNodes g) (sortedIndex g n) = Some n.
Proof.
  intros Hd Hn.
  assert (Hin : In n (sortedNodes g)).
  { apply (Permutation_in n (Permutation_sym (sortBy_Permutation _ _))), Hn. }
  assert (Hnd : NoDup (sortedNodes g)).
  { apply (Permutation_NoDup (Permutation_sym (sortBy_Permutation _ _))).
    apply (nodes_distinct g Hd). }
  apply In_nth_error in Hin as [k Hk].
  pose proof (indexFrom_nth _ 0 JsMap.empty k n Hnd Hk) as Hget.
  unfold sortedIndex, nodeToSortedIndex. rewrite Hget. simpl. now split.
Qed.

Theorem toJSON_run g :
  GraphInvariant g ->
  toJSON NODE_ENV g = Returned (serialized g) (afterMaybeCheck NODE_ENV g).
Proof.
  intros Hinv. pose proof (afterMaybeCheck_invariant NODE_ENV g Hinv) as Hinv1.
  destruct (afterMaybeCheck_data NODE_ENV g) as (En & Ee & _ & _ & Ec).
  set (g1 := afterMaybeCheck NODE_ENV g) in *.
  assert (Hidem : afterMaybeCheck NODE_ENV g1 = g1)
    by apply afterMaybeCheck_idempotent.
  destruct Hinv as [Hd Hb]. pose proof (proj1 Hinv1) as Hd1.
  (* the nodes *)
  assert (Hnodes : arrayFrom NODE_ENV nodesSource nodesSelect
                     (_nodesIterator (_modificationCount g) NodeAddress.empty) g1
                   = Returned (_nodes g) g1).
  { unfold arrayFrom, bind, this. simpl. rewrite <- Ec.
    destruct (nodes_selectable NodeAddress.empty g1 Hd1 eq_refl) as [Hsel Hfil].
    rewrite (collect_same NODE_ENV _ _ _ nodesSelect _ _ g1 Hinv1 Hsel).
    rewrite Hidem, Hfil, En. f_equal. apply filter_all.
    intros n Hn.
    apply (valid_has_empty_prefix NodeAddress.nonce), (nodes_valid g Hd n Hn). }
  (* the edges *)
  assert (Hopt : validEdgesOptions defaultEdgesOptions) by now repeat split.
  assert (Hedges : arrayFrom NODE_ENV edgesSource edgesSelect
                     (_edgesIterator (_modificationCount g) defaultEdgesOptions) g1
                   = Returned (JsMap.values (_edges g)) g1).
  { unfold arrayFrom, bind, this. simpl. rewrite <- Ec.
    destruct (edges_selectable defaultEdgesOptions g1 Hd1 Hopt) as [Hsel Hfil].
    rewrite (collect_same NODE_ENV _ _ _ edgesSelect _ _ g1 Hinv1 Hsel).
    rewrite Hidem, Hfil, Ee. f_equal. apply filter_all.
    intros e He. apply (In_values_get g e Hd) in He.
    destruct (invariant_2 g Hd _ _ He) as (_ & Hs & Hd' & _).
    unfold edgeMatches, defaultEdgesOptions. simpl.
    rewrite !andb_true_iff. repeat split.
    - apply (valid_has_empty_prefix EdgeAddress.nonce), (edges_valid g Hd _ _ He).
    - apply (valid_has_empty_prefix NodeAddress.nonce), (nodes_valid g Hd _ Hs).
    - apply (valid_has_empty_prefix NodeAddress.nonce), (nodes_valid g Hd _ Hd'). }
  (* the indexed edges *)
  assert (Hindexed : mapM (fun e =>
              srcIndex <- NullUtil_get (JsMap.get (src e) (nodeToSortedIndex g)) ;;
              dstIndex <- NullUtil_get (JsMap.get (dst e) (nodeToSortedIndex g)) ;;
              parts <- edgeToParts (address e) ;;
              ret (mkIndexedEdgeJSON parts srcIndex dstIndex))
            (sortedEdges g) g1
          = Returned (map (indexed g) (sortedEdges g)) g1).
  { apply mapM_pure. intros e He.
    apply (Permutation_in e (sortBy_Permutation _ _)) in He.
    apply (In_values_get g e Hd) in He.
    destruct (invariant_2 g Hd _ _ He) as (_ & Hs & Hd' & _).
    destruct (sortedIndex_nth g _ Hd Hs) as [Gs _].
    destruct (sortedIndex_nth g _ Hd Hd') as [Gd _].
    unfold bind, NullUtil_get, edgeToParts, ret, indexed.
    rewrite Gs, Gd. unfold EdgeAddress.toParts, Address.toParts.
    fold (EdgeAddress.isValid (address e)).
    now rewrite (edges_valid g Hd _ _ He). }
  assert (Hparts : mapM nodeToParts (sortedNodes g) g1
                   = Returned (map partsOf (sortedNodes g)) g1).
  { apply mapM_pure. intros n Hn.
    apply (Permutation_in n (sortBy_Permutation _ _)) in Hn.
    unfold nodeToParts, NodeAddress.toParts, Address.toParts.
    fold (NodeAddress.isValid n). now rewrite (nodes_valid g Hd n Hn). }
  unfold toJSON, nodes, edges, bind, this, ret.
  rewrite (maybeCheckInvariants_run NODE_ENV g (conj Hd Hb)). fold g1.
  rewrite Hnodes.
  rewrite (maybeCheckInvariants_run NODE_ENV g1 Hinv1), Hidem.
  rewrite Ec, Hedges.
  unfold bind, ret in Hindexed. fold (sortedNodes g) (sortedEdges g).
  fold (nodeToSortedIndex g). rewrite Hindexed, Hparts.
  rewrite (maybeCheckInvariants_run NODE_ENV g1 Hinv1), Hidem. reflexivity.
Qed.

End ToJSON.

Section FromJSON.

Variable NODE_ENV : string.

Lemma addNodes_run l : forall g,
  GraphInvariant g ->
  NoDup l ->
  (forall n, In n l -> NodeAddress.isValid n = true /\ ~ In n (_nodes g)) ->
  (_modificationCount g + Z.of_nat (List.length l) <= MAX_SAFE_INTEGER)%Z ->
  exists g',
    forEach (addNode NODE_ENV) l g = Returned tt g'
    /\ GraphInvariant g'
    /\ _nodes g' = _nodes g ++ l
    /\ _edges g' = _edges g
    /\ _modificationCount g'
       = (_modificationCount g + Z.of_nat (List.length l))%Z.
Proof.
  induction l as [|n l IH]; intros g Hinv Hnd Hl Hcount.
  - exists g. simpl. rewrite app_nil_r, Z.add_0_r.
    split; [reflexivity|]. split; [assumption|]. now repeat split.
  - inversion Hnd as [|? ? Hn Hnd']; subst.
    destruct (Hl n (or_introl eq_refl)) as [Hvalid Hfresh].
    change (List.length (n :: l)) with (S (List.length l)) in Hcount.
    assert (Hstep : addNode NODE_ENV n g
                    = Returned tt (afterModification NODE_ENV (insertNode n g))).
    { rewrite (addNode_run NODE_ENV n g Hinv), Hvalid.
      rewrite (proj2 (JsSetFacts.has_false n (_nodes g)) Hfresh).
      apply counted_below. simpl. lia. }
    pose proof (addNode_invariant NODE_ENV n g _ Hinv Hstep) as Hinv'.
    destruct (afterModification_data NODE_ENV (insertNode n g))
      as (En & Ee & _ & _ & Ec). simpl in En, Ee, Ec.
    rewrite add_fresh in En by assumption.
    destruct (IH (afterModification NODE_ENV (insertNode n g)) Hinv' Hnd')
      as (g' & Hrun & Hinv'' & En' & Ee' & Ec').
    + intros m Hm. split; [now apply Hl; right|]. rewrite En.
      intros Hin. apply in_app_or in Hin as [Hin|[<-|[]]].
      * now apply (Hl m (or_intror Hm)).
      * contradiction.
    + rewrite Ec. lia.
    + exists g'. split; [|split; [assumption|]].
      * simpl. unfold bind. now rewrite Hstep.
      * rewrite En', En, Ee', Ee, Ec', Ec, <- app_assoc. repeat split.
        change (List.length (n :: l)) with (S (List.length l)). lia.
Qed.

Lemma addIndexedEdges_run (g0 : Graph) nodes l : forall g,
  GraphInvariant g ->
  _nodes g = nodes ->
  NoDup (map address l) ->
  (forall e, In e l ->
     EdgeAddress.isValid (address e) = true
     /\ nth_error nodes (sortedIndex g0 (src e)) = Some (src e)
     /\ nth_error nodes (sortedIndex g0 (dst e)) = Some (dst e)
     /\ JsMap.get (address e) (_edges g) = None) ->
  (_modificationCount g + Z.of_nat (List.length l) <= MAX_SAFE_INTEGER)%Z ->
  exists g',
    forEach (addIndexedEdge NODE_ENV nodes) (map (indexed g0) l) g
    = Returned tt g'
    /\ GraphInvariant g'
    /\ _nodes g' = nodes
    /\ _edges g' = _edges g ++ map (fun e => (address e, e)) l.
Proof.
  induction l as [|e l IH]; intros g Hinv Hnodes Hnd Hl Hcount.
  - exists g. simpl. rewrite app_nil_r.
    split; [reflexivity|]. split; [assumption|]. now split.
  - simpl in Hnd. inversion Hnd as [|? ? He Hnd']; subst.
    destruct (Hl e (or_introl eq_refl)) as (Hvalid & Hs & Hd & Hnew).
    change (List.length (e :: l)) with (S (List.length l)) in Hcount.
    assert (Hsrc : In (src e) (_nodes g)) by (eapply nth_error_In; eauto).
    assert (Hdst : In (dst e) (_nodes g)) by (eapply nth_error_In; eauto).
    assert (Hstep : addIndexedEdge NODE_ENV (_nodes g) (indexed g0 e) g
                    = Returned tt (afterModification NODE_ENV (insertEdge e g))).
    { unfold addIndexedEdge, indexed. cbn [json_address srcIndex dstIndex].
      destruct (AddressFacts.fromParts_toParts EdgeAddress.nonce (address e)
                  eq_refl Hvalid) as (parts & Hto & Hfrom).
      unfold Address.toParts in Hto. fold (EdgeAddress.isValid (address e)) in Hto.
      rewrite Hvalid in Hto. inversion Hto; subst parts.
      unfold EdgeAddress.fromParts, partsOf. rewrite Hfrom.
      unfold NodeAddressT in *. rewrite Hs, Hd.
      replace (mkEdge (address e) (src e) (dst e)) with e by now destruct e.
      rewrite (addEdge_run NODE_ENV e g Hinv).
      rewrite (nodes_valid g (proj1 Hinv) _ Hsrc).
      rewrite (nodes_valid g (proj1 Hinv) _ Hdst), Hvalid.
      rewrite (proj2 (JsSetFacts.has_In _ _) Hsrc).
      rewrite (proj2 (JsSetFacts.has_In _ _) Hdst), Hnew. simpl.
      apply counted_below. simpl. lia. }
    assert (Hinv' : GraphInvariant (afterModification NODE_ENV (insertEdge e g))).
    { apply (addEdge_invariant NODE_ENV e g); [assumption|].
      rewrite (addEdge_run NODE_ENV e g Hinv).
      rewrite (nodes_valid g (proj1 Hinv) _ Hsrc).
      rewrite (nodes_valid g (proj1 Hinv) _ Hdst), Hvalid.
      rewrite (proj2 (JsSetFacts.has_In _ _) Hsrc).
      rewrite (proj2 (JsSetFacts.has_In _ _) Hdst), Hnew. simpl.
      apply counted_below. simpl. lia. }
    destruct (afterModification_data NODE_ENV (insertEdge e g))
      as (En & Ee & _ & _ & Ec).
    rewrite edges_insertEdge in Ee by (try apply Hinv; assumption).
    simpl in En, Ec.
    destruct (IH (afterModification NODE_ENV (insertEdge e g)) Hinv' En Hnd')
      as (g' & Hrun & Hinv'' & En' & Ee').
    + intros e' He'. destruct (Hl e' (or_intror He')) as (V & S1 & S2 & N).
      repeat split; try assumption.
      rewrite Ee, JsMapFacts.get_app, N, JsMapFacts.get_cons.
      destruct (String.eqb_spec (address e') (address e)) as [Heq|]; [|reflexivity].
      elim He. rewrite <- Heq. now apply in_map.
    + rewrite Ec. lia.
    + exists g'. split; [|split; [assumption|split; [assumption|]]].
      * simpl. unfold bind. now rewrite Hstep.
      * rewrite Ee', Ee, <- app_assoc. reflexivity.
Qed.

End FromJSON.

Section RoundTrip.

Variable NODE_ENV : string.

Lemma mapParts_partsOf l :
  (forall n, In n l -> NodeAddress.isValid n = true) ->
  mapParts NodeAddress.fromParts (map partsOf l) = inr l.
Proof.
  induction l as [|n l IH]; intros H; simpl; [reflexivity|].
  destruct (AddressFacts.fromParts_toParts NodeAddress.nonce n eq_refl
              (H n (or_introl eq_refl))) as (parts & Hto & Hfrom).
  unfold Address.toParts in Hto. fold (NodeAddress.isValid n) in Hto.
  rewrite (H n (or_introl eq_refl)) in Hto. inversion Hto; subst parts.
  unfold NodeAddress.fromParts, partsOf. rewrite Hfrom.
  fold NodeAddress.fromParts. fold partsOf.
  rewrite IH by (intros m Hm; apply H; now right). reflexivity.
Qed.

Lemma get_option_ext {V} (m1 m2 : JsMap.t V) a :
  (forall v, JsMap.get a m1 = Some v <-> JsMap.get a m2 = Some v) ->
  JsMap.get a m1 = JsMap.get a m2.
Proof.
  intros H. destruct (JsMap.get a m1) as [v|] eqn:G1.
  - symmetry. now apply H.
  - destruct (JsMap.get a m2) as [v|] eqn:G2; [|reflexivity].
    now apply (proj2 (H v)).
Qed.

Lemma fromCompat_toCompat {A} info (data : A) :
  fromCompat info (toCompat info data) = Some data.
Proof. unfold fromCompat, toCompat. simpl. now rewrite !String.eqb_refl. Qed.

Lemma keys_addressed (l : list Edge) :
  JsMap.keys (map (fun e => (address e, e)) l) = map address l.
Proof. unfold JsMap.keys. rewrite map_map. reflexivity. Qed.

Lemma addresses_values g :
  DataInvariant g -> map address (JsMap.values (_edges g)) = JsMap.keys (_edges g).
Proof.
  intros Hd. unfold JsMap.values, JsMap.keys. rewrite map_map.
  apply map_ext_in. intros [a e] Hin. simpl.
  apply (JsMapFacts.In_get _ _ _ (edges_distinct g Hd)) in Hin.
  now destruct (invariant_2 g Hd a e Hin).
Qed.

(** C2.  A graph serialized by [toJSON] and read back by [fromJSON] has
    the nodes and the edge map of the original: the same nodes, at every
    edge address the same edge (address, [src] and [dst]), and [equals]
    answers [true]. *)
Theorem fromJSON_toJSON g :
  reachable NODE_ENV g ->
  exists json g',
    toJSON NODE_ENV g = Returned json (afterMaybeCheck NODE_ENV g)
    /\ fromJSON NODE_ENV json = inr g'
    /\ (forall n, In n (_nodes g') <-> In n (_nodes g))
    /\ (forall a, JsMap.get a (_edges g') = JsMap.get a (_edges g))
    /\ equals NODE_ENV g g' = Returned true (afterMaybeCheck NODE_ENV g').
Proof.
  intros Hreach.
  pose proof (reachable_invariant NODE_ENV g Hreach) as Hinv.
  pose proof (proj1 Hinv) as Hd. pose proof (proj2 Hinv) as Hb.
  exists (serialized g).
  (* the fresh graph *)
  set (fresh := mkGraph JsSet.empty JsMap.empty JsMap.empty JsMap.empty 0
                        (mkLastChecked (-1) (Some NeverChecked))).
  pose proof (afterMaybeCheck_invariant NODE_ENV fresh newGraph_invariant) as Hinv0.
  destruct (afterMaybeCheck_data NODE_ENV fresh) as (En0 & Ee0 & _ & _ & Ec0).
  set (g0 := afterMaybeCheck NODE_ENV fresh) in *.
  assert (Hnew : constructor NODE_ENV = Returned tt g0)
    by apply (maybeCheckInvariants_run NODE_ENV fresh newGraph_invariant).
  (* sizes *)
  pose proof (sortBy_Permutation (fun x => x) (_nodes g)) as Pn.
  pose proof (sortBy_Permutation address (JsMap.values (_edges g))) as Pe.
  fold (sortedNodes g) in Pn. fold (sortedEdges g) in Pe.
  pose proof (Permutation_length Pn) as Ln.
  pose proof (Permutation_length Pe) as Le.
  unfold JsMap.values in Le. rewrite length_map in Le.
  destruct Hb as [Hrange Hsize _ _].
  (* the nodes *)
  destruct (addNodes_run NODE_ENV (sortedNodes g) g0 Hinv0)
    as (gN & HrunN & HinvN & EnN & EeN & EcN).
  { apply (Permutation_NoDup (Permutation_sym Pn)), (nodes_distinct g Hd). }
  { intros n Hn. split.
    - apply (nodes_valid g Hd), (Permutation_in n Pn Hn).
    - rewrite En0. intros []. }
  { rewrite Ec0. change (_modificationCount fresh) with 0%Z. lia. }
  rewrite En0 in EnN. rewrite Ee0 in EeN. rewrite Ec0 in EcN.
  change (_nodes fresh ++ sortedNodes g) with (sortedNodes g) in EnN.
  change (_edges fresh) with (@nil (string * Edge)) in EeN.
  change (_modificationCount fresh) with 0%Z in EcN.
  (* the edges *)
  destruct (addIndexedEdges_run NODE_ENV g (sortedNodes g) (sortedEdges g) gN
              HinvN EnN) as (g' & HrunE & Hinv' & En' & Ee').
  { apply (Permutation_NoDup (Permutation_sym (Permutation_map address Pe))).
    rewrite (addresses_values g Hd). apply (edges_distinct g Hd). }
  { intros e He. apply (Permutation_in e Pe) in He.
    apply (In_values_get g e Hd) in He.
    destruct (invariant_2 g Hd _ _ He) as (_ & Hs & Hd' & _).
    split; [apply (edges_valid g Hd _ _ He)|].
    split; [apply (sortedIndex_nth g _ Hd Hs)|].
    split; [apply (sortedIndex_nth g _ Hd Hd')|].
    now rewrite EeN. }
  { rewrite EcN. lia. }
  rewrite EeN in Ee'.
  change (_edges g' = map (fun e => (address e, e)) (sortedEdges g)) in Ee'.
  exists g'.
  assert (Hnodes : forall n, In n (_nodes g') <-> In n (_nodes g)).
  { intros n. rewrite En'. split; intros H.
    - exact (Permutation_in n Pn H).
    - exact (Permutation_in n (Permutation_sym Pn) H). }
  assert (Hentries : forall a e, In (a, e) (_edges g') <-> In (a, e) (_edges g)).
  { intros a e. rewrite Ee', in_map_iff. split.
    - intros (e' & [= <- <-] & He'). apply (Permutation_in _ Pe) in He'.
      apply (In_values_get g _ Hd) in He'. now apply JsMapFacts.get_In.
    - intros Hin. exists e.
      apply (JsMapFacts.In_get _ _ _ (edges_distinct g Hd)) in Hin.
      destruct (invariant_2 g Hd a e Hin) as (<- & _).
      split; [reflexivity|]. apply (Permutation_in _ (Permutation_sym Pe)).
      now apply (In_values_get g e Hd). }
  assert (Hedges : forall a, JsMap.get a (_edges g') = JsMap.get a (_edges g)).
  { intros a. apply get_option_ext. intros e. split; intros H.
    - apply JsMapFacts.get_In, Hentries in H.
      now apply (JsMapFacts.In_get _ _ _ (edges_distinct g Hd)).
    - apply JsMapFacts.get_In, Hentries in H.
      now apply (JsMapFacts.In_get _ _ _ (edges_distinct g' (proj1 Hinv'))). }
  split; [apply toJSON_run; exact Hinv|].
  split.
  { unfold fromJSON, serialized. rewrite fromCompat_toCompat, Hnew.
    cbn [json_nodes json_edges].
    rewrite mapParts_partsOf.
    - unfold bind. rewrite HrunN, HrunE. reflexivity.
    - intros n Hn. apply (nodes_valid g Hd), (Permutation_in n Pn Hn). }
  split; [exact Hnodes|]. split; [exact Hedges|].
  unfold equals, bind, this, ret.
  rewrite (maybeCheckInvariants_run NODE_ENV g' Hinv').
  assert (Hset : setEquals (_nodes g') (_nodes g) = true).
  { unfold setEquals. rewrite En', Ln, Nat.eqb_refl. simpl.
    apply forallb_forall. intros n Hn. apply JsSetFacts.has_In.
    exact (Permutation_in n Pn Hn). }
  assert (Hmap : mapEquals (_edges g') (_edges g) = true).
  { unfold mapEquals. rewrite Ee' at 1. rewrite length_map, Le, Nat.eqb_refl.
    simpl. apply forallb_forall. intros [a e] Hin. apply Hentries in Hin.
    apply existsb_exists. exists (a, e). split; [assumption|].
    unfold entryEquals. simpl. now rewrite String.eqb_refl, Edge_eqb_refl. }
  now rewrite Hset, Hmap.
Qed.

End RoundTrip.

Lemma fromJSON_toJSON_witness :
  exists json g',
    toJSON "test" exampleGraph = Returned json exampleGraph
    /\ fromJSON "test" json = inr g'
    /\ (forall a, JsMap.get a (_edges g') = JsMap.get a (_edges exampleGraph)).
Proof.
  destruct (fromJSON_toJSON "test" exampleGraph exampleGraph_reachable)
    as (json & g' & Hto & Hfrom & _ & Hedges & _).
  exists json, g'. repeat split; assumption.
Defined.

(** ** Compression of cred data *)

Module CredDataFacts.

Import CredData.

Section WithNumber.

Variable number : Type.
Variable lt : number -> number -> bool.
Variable ge : number -> number -> bool.
Variable threshold : number.

(** Compressing an entry that came out of a compression changes nothing. *)
Lemma compressNode_again summaries d i d' :
  compressNode lt summaries threshold d i = Some d' ->
  compressNode lt summaries threshold d' i = Some d'.
Proof.
  unfold compressNode. destruct d as [d|]; [|now intros [= <-]].
  destruct (nth_error summaries i) as [s|] eqn:Hs; [|discriminate].
  destruct (lt (cred s) threshold) eqn:Hc; intros [= <-]; [reflexivity|].
  simpl.
  now destruct (lt (seedFlow s) threshold), (lt (syntheticLoopFlow s) threshold).
Qed.

Lemma compressEdge_again summaries d i d' :
  compressEdge ge summaries threshold d i = Some d' ->
  compressEdge ge summaries threshold d' i = Some d'.
Proof.
  unfold compressEdge. destruct d as [d|]; [|now intros [= <-]].
  destruct (nth_error summaries i) as [s|] eqn:Hs; [|discriminate].
  destruct (ge (forwardFlow s) threshold) eqn:Hf,
           (ge (backwardFlow s) threshold) eqn:Hb; simpl;
    intros [= <-]; reflexivity.
Qed.

Lemma mapFrom_again {A} (f : A -> nat -> option A) :
  (forall d i d', f d i = Some d' -> f d' i = Some d') ->
  forall l i l', mapFrom f i l = Some l' -> mapFrom f i l' = Some l'.
Proof.
  intros Hf. induction l as [|d l IH]; intros i l'; simpl.
  - now intros [= <-].
  - destruct (f d i) as [y|] eqn:Hy; [|discriminate].
    destruct (mapFrom f (S i) l) as [ys|] eqn:Hys; [|discriminate].
    intros [= <-]. simpl. now rewrite (Hf _ _ _ Hy), (IH _ _ Hys).
Qed.

(** C10.  [compressByThreshold] is idempotent: when a call with a
    threshold returns, the same call on its result returns that result
    unchanged (and when the first call throws, so does the composition). *)
Theorem compressByThreshold_idempotent (x : CredData number) :
  match compressByThreshold lt ge x threshold with
  | Some y => compressByThreshold lt ge y threshold
  | None => None
  end = compressByThreshold lt ge x threshold.
Proof.
  destruct (compressByThreshold lt ge x threshold) as [y|] eqn:Hx; [|reflexivity].
  unfold compressByThreshold in *.
  destruct (mapFrom _ 0 (nodeOverTime x)) as [ns|] eqn:Hn; [|discriminate].
  destruct (mapFrom _ 0 (edgeOverTime x)) as [es|] eqn:He; [|discriminate].
  inversion Hx; subst y. simpl.
  rewrite (mapFrom_again _ (compressNode_again (nodeSummaries x)) _ _ _ Hn).
  now rewrite (mapFrom_again _ (compressEdge_again (edgeSummaries x)) _ _ _ He).
Qed.

End WithNumber.

End CredDataFacts.

(** ** Score decomposition *)

Module NodeDecompositionFacts.

Import NodeDecomposition.

(** *** Comparisons that order *)

Class Comparator {A} (cmp : A -> A -> comparison) : Prop := {
  comparator_antisym : forall x y, cmp y x = CompOpp (cmp x y);
  comparator_lt_trans :
    forall x y z, cmp x y = Lt -> cmp y z = Lt -> cmp x z = Lt;
  comparator_eq_l : forall x y z, cmp x y = Eq -> cmp x z = cmp y z
}.

Section ComparatorFacts.

Context {A : Type} (cmp : A -> A -> comparison) `{Comparator A cmp}.

Lemma comparator_eq_r x y z : cmp x y = Eq -> cmp z x = cmp z y.
Proof.
  intros E. rewrite (comparator_antisym x z), (comparator_antisym y z).
  now rewrite (comparator_eq_l x y z E).
Qed.

Lemma comparator_refl x : cmp x x = Eq.
Proof.
  pose proof (comparator_antisym x x) as E.
  destruct (cmp x x); [reflexivity | discriminate | discriminate].
Qed.

(** [x] does not come after [y]. *)
Definition notAfter (x y : A) : Prop := cmp x y <> Gt.

Lemma notAfter_total x y : cmp x y = Gt -> notAfter y x.
Proof.
  intros G. unfold notAfter. rewrite (comparator_antisym x y), G. discriminate.
Qed.

Lemma notAfter_trans x y z : notAfter x y -> notAfter y z -> notAfter x z.
Proof.
  unfold notAfter. intros Hxy Hyz.
  destruct (cmp x y) eqn:Exy; [|clear Hxy|congruence].
  - now rewrite (comparator_eq_l x y z Exy).
  - destruct (cmp y z) eqn:Eyz; [| |congruence].
    + rewrite <- (comparator_eq_r y z x Eyz), Exy. discriminate.
    + rewrite (comparator_lt_trans x y z Exy Eyz). discriminate.
Qed.

Lemma insertSorted_Permutation x l :
  Permutation (insertSorted cmp x l) (x :: l).
Proof.
  induction l as [|y l IH]; simpl; [apply Permutation_refl|].
  destruct (cmp x y); try apply Permutation_refl.
  apply perm_trans with (y :: x :: l); [now apply perm_skip | apply perm_swap].
Qed.

Lemma sortByComparison_Permutation l :
  Permutation (sortByComparison cmp l) l.
Proof.
  induction l as [|x l IH]; simpl; [apply perm_nil|].
  apply perm_trans with (x :: sortByComparison cmp l);
    [apply insertSorted_Permutation | now apply perm_skip].
Qed.

Lemma insertSorted_Sorted x l :
  Sorted notAfter l -> Sorted notAfter (insertSorted cmp x l).
Proof.
  induction 1 as [|y l Hl IH Hy]; simpl.
  - repeat constructor.
  - destruct (cmp x y) eqn:Exy.
    + constructor; [now constructor|]. constructor. unfold notAfter.
      rewrite Exy. discriminate.
    + constructor; [now constructor|]. constructor. unfold notAfter.
      rewrite Exy. discriminate.
    + constructor; [exact IH|].
      destruct l as [|z l]; simpl.
      * constructor. now apply notAfter_total.
      * destruct (cmp x z); constructor;
          try (now apply notAfter_total); now inversion Hy.
Qed.

Theorem sortByComparison_sorted l :
  StronglySorted notAfter (sortByComparison cmp l).
Proof.
  apply Sorted_StronglySorted.
  - intros x y z. apply notAfter_trans.
  - induction l as [|x l IH]; simpl; [constructor|].
    now apply insertSorted_Sorted.
Qed.

(** Two strictly sorted arrangements of the same items are the same. *)
Lemma strictly_sorted_unique l1 : forall l2,
  StronglySorted (fun x y => cmp x y = Lt) l1 ->
  StronglySorted (fun x y => cmp x y = Lt) l2 ->
  Permutation l1 l2 -> l1 = l2.
Proof.
  induction l1 as [|x l1 IH]; intros l2 S1 S2 P.
  - apply Permutation_nil in P. now subst.
  - destruct l2 as [|y l2]; [apply Permutation_sym, Permutation_nil in P; discriminate|].
    inversion S1 as [|? ? S1' F1]; subst. inversion S2 as [|? ? S2' F2]; subst.
    assert (Hxy : x = y).
    { assert (Hx : In x (y :: l2)) by (apply (Permutation_in x P); now left).
      assert (Hy : In y (x :: l1))
        by (apply (Permutation_in y (Permutation_sym P)); now left).
      destruct Hx as [Hx|Hx]; [now subst|].
      destruct Hy as [Hy|Hy]; [now subst|].
      rewrite Forall_forall in F1, F2.
      pose proof (F1 y Hy) as L1. pose proof (F2 x Hx) as L2.
      rewrite (comparator_antisym x y), L1 in L2. discriminate. }
    subst y. f_equal. apply IH; try assumption.
    now apply Permutation_cons_inv in P.
Qed.

End ComparatorFacts.

(** *** The comparisons of [decompose] *)

#[local] Instance Comparator_Z : Comparator Z.compare.
Proof.
  constructor.
  - intros x y. apply Z.compare_antisym.
  - intros x y z. rewrite !Z.compare_lt_iff. lia.
  - intros x y z E. apply Z.compare_eq in E. now subst.
Qed.

#[local] Instance Comparator_string : Comparator compareStrings.
Proof.
  constructor; unfold compareStrings.
  - intros x y. apply String.compare_antisym.
  - intros x y z H1 H2.
    apply OrderedTypeEx.String_as_OT.cmp_lt in H1, H2.
    apply OrderedTypeEx.String_as_OT.cmp_lt.
    eapply OrderedTypeEx.String_as_OT.lt_trans; eassumption.
  - intros x y z E. apply String.compare_eq_iff in E. now rewrite E.
Qed.

(** A comparison of keys. *)
Definition on {A K} (key : A -> K) (cmp : K -> K -> comparison) (x y : A)
    : comparison :=
  cmp (key x) (key y).

#[local] Instance Comparator_on {A K} (key : A -> K) cmp `{Comparator K cmp} :
  Comparator (on key cmp).
Proof.
  constructor; unfold on.
  - intros x y. apply comparator_antisym.
  - intros x y z. apply comparator_lt_trans.
  - intros x y z. apply comparator_eq_l.
Qed.

(** The first comparison decides, the second breaks its ties. *)
Definition lexicographic {A} (c1 c2 : A -> A -> comparison) (x y : A)
    : comparison :=
  match c1 x y with Eq => c2 x y | c => c end.

#[local] Instance Comparator_lexicographic {A} (c1 c2 : A -> A -> comparison)
    `{Comparator A c1} `{Comparator A c2} :
  Comparator (lexicographic c1 c2).
Proof.
  constructor; unfold lexicographic.
  - intros x y. rewrite (comparator_antisym (cmp := c1) x y).
    destruct (c1 x y); simpl; [apply comparator_antisym | reflexivity..].
  - intros x y z.
    destruct (c1 x y) eqn:E1; [| |discriminate].
    + rewrite (comparator_eq_l x y z E1).
      destruct (c1 y z) eqn:E2; [|trivial|discriminate].
      apply comparator_lt_trans.
    + intros _. destruct (c1 y z) eqn:E2; [| |discriminate].
      * rewrite <- (comparator_eq_r c1 y z x E2), E1. reflexivity.
      * now rewrite (comparator_lt_trans x y z E1 E2).
  - intros x y z. destruct (c1 x y) eqn:E1; try discriminate.
    rewrite (comparator_eq_l x y z E1). intros E2.
    destruct (c1 y z); [now apply comparator_eq_l | reflexivity..].
Qed.

(** Sorting looks at the comparison on the items of the list only. *)
Lemma insertSorted_ext {A} (cmp cmp' : A -> A -> comparison) x l :
  (forall y, In y l -> cmp x y = cmp' x y) ->
  insertSorted cmp x l = insertSorted cmp' x l.
Proof.
  induction l as [|y l IH]; intros H; simpl; [reflexivity|].
  rewrite <- (H y (or_introl eq_refl)).
  destruct (cmp x y); try reflexivity.
  f_equal. apply IH. intros z Hz. apply H. now right.
Qed.

Lemma sortByComparison_ext {A} (cmp cmp' : A -> A -> comparison) l :
  (forall x y, In x l -> In y l -> cmp x y = cmp' x y) ->
  sortByComparison cmp l = sortByComparison cmp' l.
Proof.
  induction l as [|x l IH]; intros H; simpl; [reflexivity|].
  rewrite IH by (intros y z Hy Hz; apply H; now right).
  apply insertSorted_ext. intros y Hy. apply H; [now left|]. right.
  exact (Permutation_in y (sortByComparison_Permutation cmp' l) Hy).
Qed.

(** *** The order of the doubles

    [<] and [===] on doubles that are not NaN are those of a total
    order with ties (the two zeros): the order of the ranks below, the
    sign first, then the exponent and the mantissa. *)

Definition notNaN (x : number) : Prop := PrimFloat.is_nan x = false.

Definition floatRank (f : SpecFloat.spec_float) : Z * (Z * Z) :=
  match f with
  | SpecFloat.S754_nan => (3, (0, 0))
  | SpecFloat.S754_infinity s => (if s then -2 else 2, (0, 0))
  | SpecFloat.S754_zero _ => (0, (0, 0))
  | SpecFloat.S754_finite s m e =>
      if s then (-1, (- e, Z.neg m)) else (1, (e, Z.pos m))
  end%Z.

Definition compareRanks : Z * (Z * Z) -> Z * (Z * Z) -> comparison :=
  lexicographic (on fst Z.compare)
    (lexicographic (on (fun r => fst (snd r)) Z.compare)
                   (on (fun r => snd (snd r)) Z.compare)).

#[local] Instance Comparator_ranks : Comparator compareRanks.
Proof. unfold compareRanks. typeclasses eauto. Qed.

Lemma SFcompare_rank f1 f2 :
  f1 <> SpecFloat.S754_nan -> f2 <> SpecFloat.S754_nan ->
  SpecFloat.SFcompare f1 f2 = Some (compareRanks (floatRank f1) (floatRank f2)).
Proof.
  intros H1 H2.
  destruct f1 as [s1|s1| |s1 m1 e1], f2 as [s2|s2| |s2 m2 e2];
    try congruence;
    repeat match goal with s : bool |- _ => destruct s end;
    try reflexivity; unfold compareRanks, lexicographic, on; simpl.
  rewrite Z.compare_opp, (Z.compare_antisym e1 e2).
  destruct (Z.compare e1 e2); reflexivity.
Qed.

Lemma notNaN_spec x : notNaN x <-> FloatOps.Prim2SF x <> SpecFloat.S754_nan.
Proof.
  unfold notNaN, PrimFloat.is_nan. rewrite FloatAxioms.eqb_spec.
  unfold SpecFloat.SFeqb. split.
  - intros H E. rewrite E in H. discriminate.
  - intros H. rewrite (SFcompare_rank _ _ H H), (comparator_refl compareRanks).
    reflexivity.
Qed.

(** The comparison of two doubles by their ranks. *)
Definition totalCompare : number -> number -> comparison :=
  on (fun x => floatRank (FloatOps.Prim2SF x)) compareRanks.

#[local] Instance Comparator_total : Comparator totalCompare.
Proof. unfold totalCompare. typeclasses eauto. Qed.

Lemma ltb_total x y :
  notNaN x -> notNaN y ->
  PrimFloat.ltb x y = match totalCompare x y with Lt => true | _ => false end.
Proof.
  intros Hx Hy. apply notNaN_spec in Hx, Hy.
  rewrite FloatAxioms.ltb_spec. unfold SpecFloat.SFltb.
  now rewrite (SFcompare_rank _ _ Hx Hy).
Qed.

Lemma eqb_total x y :
  notNaN x -> notNaN y ->
  PrimFloat.eqb x y = match totalCompare x y with Eq => true | _ => false end.
Proof.
  intros Hx Hy. apply notNaN_spec in Hx, Hy.
  rewrite FloatAxioms.eqb_spec. unfold SpecFloat.SFeqb.
  now rewrite (SFcompare_rank _ _ Hx Hy).
Qed.

(** On numbers, [compareAscending] is that comparison. *)
Lemma compareNumbers_total x y :
  notNaN x -> notNaN y -> compareNumbers x y = totalCompare x y.
Proof.
  intros Hx Hy. unfold compareNumbers.
  rewrite (eqb_total x y Hx Hy), (eqb_total x x Hx Hx), (eqb_total y y Hy Hy),
    (ltb_total x y Hx Hy), (ltb_total y x Hy Hx).
  rewrite !(comparator_refl totalCompare), (comparator_antisym x y).
  destruct (totalCompare x y); reflexivity.
Qed.

Lemma notNaN_opp x : notNaN x -> notNaN (PrimFloat.opp x).
Proof.
  rewrite !notNaN_spec, FloatAxioms.opp_spec.
  now destruct (FloatOps.Prim2SF x).
Qed.

Lemma floatRank_opp f :
  f <> SpecFloat.S754_nan ->
  floatRank (SpecFloat.SFopp f)
  = (- fst (floatRank f),
     (- fst (snd (floatRank f)), - snd (snd (floatRank f))))%Z.
Proof.
  intros H. destruct f as [s|s| |s m e]; [| |congruence|];
    destruct s; simpl; rewrite ?Z.opp_involutive; reflexivity.
Qed.

(** [-x] against [-y] is [y] against [x]. *)
Lemma totalCompare_opp x y :
  notNaN x -> notNaN y ->
  totalCompare (PrimFloat.opp x) (PrimFloat.opp y) = totalCompare y x.
Proof.
  intros Hx Hy. apply notNaN_spec in Hx, Hy.
  unfold totalCompare, on. rewrite !FloatAxioms.opp_spec.
  rewrite (floatRank_opp _ Hx), (floatRank_opp _ Hy).
  unfold compareRanks, lexicographic, on. cbn [fst snd].
  now rewrite !Z.compare_opp.
Qed.

(** The comparison that sorts, with the comparison of the ranks for the
    scores. *)
Definition compareEntries : ScoredConnection -> ScoredConnection -> comparison :=
  lexicographic (on byScore totalCompare)
    (lexicographic (on byType compareStrings) (on byAddress compareStrings)).

#[local] Instance Comparator_compareEntries : Comparator compareEntries.
Proof. unfold compareEntries. typeclasses eauto. Qed.

Definition scoreIsNumber (x : ScoredConnection) : Prop :=
  notNaN (connectionScore x).

Lemma compareMultiple_entries x y :
  scoreIsNumber x -> scoreIsNumber y ->
  compareMultiple x y = compareEntries x y.
Proof.
  intros Hx Hy. unfold compareMultiple, compareEntries, lexicographic, on, byScore.
  now rewrite (compareNumbers_total _ _ (notNaN_opp _ Hx) (notNaN_opp _ Hy)).
Qed.

(** *** The order of the contributions *)

(** The canonical order of the adjacency kinds. *)
Definition kindRank (a : Adjacency) : nat :=
  match a with
  | IN_EDGE _ => 0
  | OUT_EDGE _ => 1
  | SYNTHETIC_LOOP => 2
  end.

(** Comparing the [type] tags as strings compares the kinds. *)
Lemma compare_type_rank a b :
  compareStrings (adjacencyType a) (adjacencyType b)
  = Nat.compare (kindRank a) (kindRank b).
Proof. destruct a, b; reflexivity. Qed.

Definition rankOf (x : ScoredConnection) : nat :=
  kindRank (adjacency (connection x)).

(** Descending by score ([<] and [===] of the doubles), then by kind,
    then by edge address in the order of strings. *)
Definition contributionOrder (strict : bool) (x y : ScoredConnection) : Prop :=
  PrimFloat.ltb (connectionScore y) (connectionScore x) = true
  \/ (PrimFloat.eqb (connectionScore x) (connectionScore y) = true
      /\ ((rankOf x < rankOf y)%nat
          \/ (rankOf x = rankOf y
              /\ if strict
                 then stringLtb (byAddress x) (byAddress y) = true
                 else stringLeb (byAddress x) (byAddress y) = true))).

Lemma byScore_compare x y :
  scoreIsNumber x -> scoreIsNumber y ->
  totalCompare (byScore x) (byScore y)
  = totalCompare (connectionScore y) (connectionScore x).
Proof. intros Hx Hy. now apply totalCompare_opp. Qed.

Lemma score_order_cases x y :
  scoreIsNumber x -> scoreIsNumber y ->
  match totalCompare (connectionScore y) (connectionScore x) with
  | Lt => PrimFloat.ltb (connectionScore y) (connectionScore x) = true
  | Eq => PrimFloat.eqb (connectionScore x) (connectionScore y) = true
          /\ PrimFloat.ltb (connectionScore y) (connectionScore x) = false
  | Gt => PrimFloat.eqb (connectionScore x) (connectionScore y) = false
          /\ PrimFloat.ltb (connectionScore y) (connectionScore x) = false
  end.
Proof.
  intros Hx Hy.
  rewrite (ltb_total _ _ Hy Hx), (eqb_total _ _ Hx Hy).
  rewrite (comparator_antisym (cmp := totalCompare)
             (connectionScore y) (connectionScore x)).
  destruct (totalCompare (connectionScore y) (connectionScore x));
    simpl; auto.
Qed.

Lemma compareEntries_order (strict : bool) x y :
  scoreIsNumber x -> scoreIsNumber y ->
  (if strict then compareEntries x y = Lt else compareEntries x y <> Gt)
  <-> contributionOrder strict x y.
Proof.
  intros Hx Hy.
  unfold compareEntries, lexicographic, on, contributionOrder, byType, rankOf.
  rewrite (byScore_compare x y Hx Hy), compare_type_rank.
  unfold stringLtb, stringLeb, String.ltb, String.leb, compareStrings.
  pose proof (score_order_cases x y Hx Hy) as Hs.
  destruct (totalCompare (connectionScore y) (connectionScore x)).
  - destruct Hs as [Heq Hnlt].
    destruct (Nat.compare_spec (kindRank (adjacency (connection x)))
                               (kindRank (adjacency (connection y)))) as [Er|Er|Er].
    + destruct (String.compare (codeUnitOrder (byAddress x))
                               (codeUnitOrder (byAddress y))), strict;
        (split;
         [ intros H;
           first [ congruence
                 | right; split; [exact Heq|]; right;
                   split; [exact Er | reflexivity] ]
         | intros [Hlt|[_ [Hlt|[_ Hlt]]]];
           [ congruence | lia | congruence ] ]).
    + destruct strict;
        (split; [intros _; right; split; [exact Heq | now left]
                | intros _; congruence]).
    + destruct strict;
        (split; [intros H; congruence
                | intros [Hlt|[_ [Hlt|[Hr _]]]]; [congruence | lia | lia]]).
  - destruct strict; (split; [intros _; now left | intros _; congruence]).
  - destruct Hs as [Hneq Hnlt].
    destruct strict;
      (split; [intros H; congruence | intros [Hlt|[Heq _]]; congruence]).
Qed.

(** *** [decompose] *)

(** What tells two connections of one node apart: the kind and the edge. *)
Definition connectionKey (c : Connection) : string * string :=
  (adjacencyType (adjacency c),
   match adjacency c with
   | IN_EDGE e => address e
   | OUT_EDGE e => address e
   | SYNTHETIC_LOOP => ""
   end).

(** A score map and a connection map of one graph: every node with
    connections and every source of a connection has a score, the
    contribution of a connection is a number (the scores of a stationary
    distribution and the weights give no NaN), and a node has at most
    one connection of each kind through each edge. *)
Definition Consistent (pr : NodeScore) (connections : NodeToConnections)
    : Prop :=
  forall target conns, In (target, conns) connections ->
    JsMap.get target pr <> None
    /\ (forall c, In c conns ->
          exists sourceScore,
            JsMap.get (adjacencySource target (adjacency c)) pr = Some sourceScore
            /\ notNaN (PrimFloat.mul (weight c) sourceScore))
    /\ NoDup (map connectionKey conns).

(** The entry of a connection in the decomposition of [target]. *)
Definition scored (pr : NodeScore) (target : NodeAddressT) (c : Connection)
    : ScoredConnection :=
  let source := adjacencySource target (adjacency c) in
  mkScoredConnection c source
    (PrimFloat.mul (weight c)
       match JsMap.get source pr with
       | Some s => s
       | None => PrimFloat.zero
       end).

Lemma scoreConnections_scored pr target conns :
  (forall c, In c conns ->
     JsMap.get (adjacencySource target (adjacency c)) pr <> None) ->
  scoreConnections pr target conns = Some (map (scored pr target) conns).
Proof.
  induction conns as [|c conns IH]; intros H; simpl; [reflexivity|].
  unfold scored at 1.
  destruct (JsMap.get (adjacencySource target (adjacency c)) pr) eqn:Hs;
    [|now elim (H c (or_introl eq_refl))].
  rewrite IH by (intros c' Hc'; apply H; now right). reflexivity.
Qed.

Lemma tie_same_key x y :
  compareEntries x y = Eq -> connectionKey (connection x) = connectionKey (connection y).
Proof.
  unfold compareEntries, lexicographic, on, connectionKey, compareStrings.
  destruct (totalCompare (byScore x) (byScore y)); try discriminate.
  destruct (String.compare (codeUnitOrder (byType x)) (codeUnitOrder (byType y)))
    eqn:Et; try discriminate.
  intros Ea. apply String.compare_eq_iff in Et, Ea.
  apply codeUnitOrder_injective in Et, Ea.
  unfold byType, byAddress in *. now rewrite Et, Ea.
Qed.

(** Without ties, sorted is strictly sorted. *)
Lemma sorted_strictly l :
  StronglySorted (notAfter compareEntries) l ->
  NoDup (map (fun x => connectionKey (connection x)) l) ->
  StronglySorted (fun x y => compareEntries x y = Lt) l.
Proof.
  induction 1 as [|x l Hl IH Hx]; intros Hnd; [constructor|].
  simpl in Hnd. inversion Hnd as [|? ? Hfresh Hnd']; subst.
  constructor; [now apply IH|].
  rewrite Forall_forall in *. intros y Hy. specialize (Hx y Hy).
  unfold notAfter in Hx.
  destruct (compareEntries x y) eqn:E; [|reflexivity|congruence].
  elim Hfresh. rewrite (tie_same_key x y E).
  now apply (in_map (fun x => connectionKey (connection x))).
Qed.

(** A sorted list stays sorted under a relation that holds between its
    items wherever the first did. *)
Lemma StronglySorted_weaken {A} (R R' : A -> A -> Prop) l :
  (forall x y, In x l -> In y l -> R x y -> R' x y) ->
  StronglySorted R l -> StronglySorted R' l.
Proof.
  intros HR S. induction S as [|x l Hl IH Hx]; constructor.
  - apply IH. intros y z Hy Hz. apply HR; now right.
  - rewrite Forall_forall in *. intros y Hy.
    apply HR; [now left | now right | now apply Hx].
Qed.

Lemma decomposeNode_spec pr target conns :
  JsMap.get target pr <> None ->
  (forall c, In c conns ->
     exists sourceScore,
       JsMap.get (adjacencySource target (adjacency c)) pr = Some sourceScore
       /\ notNaN (PrimFloat.mul (weight c) sourceScore)) ->
  NoDup (map connectionKey conns) ->
  exists d,
    decomposeNode pr target conns = Some d
    /\ JsMap.get target pr = Some (score d)
    /\ Permutation (scoredConnections d) (map (scored pr target) conns)
    /\ StronglySorted (contributionOrder false) (scoredConnections d)
    /\ StronglySorted (contributionOrder true) (scoredConnections d)
    /\ forall conns', Permutation conns' conns ->
         decomposeNode pr target conns' = Some d.
Proof.
  intros Ht Hs Hnd. unfold decomposeNode.
  destruct (JsMap.get target pr) as [s|] eqn:Hts; [|congruence].
  assert (Hget : forall c, In c conns ->
            JsMap.get (adjacencySource target (adjacency c)) pr <> None).
  { intros c Hc. destruct (Hs c Hc) as (w & -> & _). discriminate. }
  assert (Hnum : forall l, Permutation l (map (scored pr target) conns) ->
            forall x, In x l -> scoreIsNumber x).
  { intros l Pl x Hx. apply (Permutation_in x Pl) in Hx.
    apply in_map_iff in Hx as (c & <- & Hc).
    destruct (Hs c Hc) as (w & Hw & Hn).
    unfold scoreIsNumber, scored. cbv zeta. cbn [connectionScore].
    now rewrite Hw. }
  assert (Hsort : forall l, Permutation l (map (scored pr target) conns) ->
            sortByComparison compareMultiple l = sortByComparison compareEntries l).
  { intros l Pl. apply sortByComparison_ext. intros x y Hx Hy.
    apply compareMultiple_entries; now apply (Hnum l Pl). }
  rewrite (scoreConnections_scored pr target conns Hget).
  rewrite (Hsort _ (Permutation_refl _)).
  eexists. split; [reflexivity|]. simpl.
  pose proof (sortByComparison_Permutation compareEntries
                (map (scored pr target) conns)) as P.
  pose proof (sortByComparison_sorted compareEntries
                (map (scored pr target) conns)) as S.
  assert (Hkeys : forall l, Permutation l (map (scored pr target) conns) ->
            NoDup (map (fun x => connectionKey (connection x)) l)).
  { intros l Pl.
    apply (Permutation_NoDup
             (Permutation_sym (Permutation_map
                (fun x => connectionKey (connection x)) Pl))).
    rewrite map_map. exact Hnd. }
  pose proof (sorted_strictly _ S (Hkeys _ P)) as S'.
  split; [reflexivity|]. split; [exact P|]. split; [|split].
  - apply (StronglySorted_weaken (notAfter compareEntries)); [|exact S].
    intros x y Hx Hy.
    apply (proj1 (compareEntries_order false x y (Hnum _ P x Hx) (Hnum _ P y Hy))).
  - apply (StronglySorted_weaken (fun x y => compareEntries x y = Lt)); [|exact S'].
    intros x y Hx Hy.
    apply (proj1 (compareEntries_order true x y (Hnum _ P x Hx) (Hnum _ P y Hy))).
  - intros conns' Pc.
    rewrite (scoreConnections_scored pr target conns')
      by (intros c Hc; apply Hget, (Permutation_in c Pc Hc)).
    pose proof (Permutation_map (scored pr target) Pc) as Pm.
    rewrite (Hsort _ Pm).
    do 2 f_equal.
    apply (strictly_sorted_unique compareEntries).
    + apply sorted_strictly; [apply (sortByComparison_sorted compareEntries)|].
      apply Hkeys.
      eapply perm_trans; [apply (sortByComparison_Permutation compareEntries) | exact Pm].
    + exact S'.
    + eapply perm_trans; [apply (sortByComparison_Permutation compareEntries)|].
      eapply perm_trans; [exact Pm | apply Permutation_sym, P].
Qed.

(** C7.  For a score map and a connection map of one graph, [decompose]
    returns a map with the same keys; under each node it holds the score
    of the node and a list that rearranges the node's connections, each
    with its source and, as score, its weight multiplied by the score of
    its source, the product of the two doubles.  The list is in
    descending order of that score, ties (scores that are [===], as two
    products that round to the same double) broken by the kind of the
    adjacency (inbound edge, outbound edge, synthetic loop) and then by
    the edge address; no two entries tie, so the order is strict, and it
    is the same whatever the order in which the connections were
    given. *)
Theorem decompose_spec pr connections :
  Consistent pr connections ->
  exists result,
    decompose pr connections = Some result
    /\ Forall2
         (fun entry out =>
            let target := fst entry in
            let d := snd out in
            fst out = target
            /\ JsMap.get target pr = Some (score d)
            /\ Permutation (map connection (scoredConnections d)) (snd entry)
            /\ Forall (fun x =>
                 source x = adjacencySource target (adjacency (connection x))
                 /\ exists sourceScore,
                      JsMap.get (source x) pr = Some sourceScore
                      /\ connectionScore x
                         = PrimFloat.mul (weight (connection x)) sourceScore)
                 (scoredConnections d)
            /\ StronglySorted (contributionOrder false) (scoredConnections d)
            /\ StronglySorted (contributionOrder true) (scoredConnections d)
            /\ forall conns', Permutation conns' (snd entry) ->
                 decomposeNode pr target conns' = Some d)
         connections result.
Proof.
  unfold decompose. induction connections as [|[target conns] rest IH];
    intros Hc.
  - exists []. split; [reflexivity | constructor].
  - destruct (Hc target conns (or_introl eq_refl)) as (Ht & Hs & Hnd).
    destruct (decomposeNode_spec pr target conns Ht Hs Hnd)
      as (d & Hd & Hscore & P & S & S' & Hdet).
    destruct IH as (rest' & Hrest & Hall).
    { intros t c Hin. apply Hc. now right. }
    exists ((target, d) :: rest'). simpl. rewrite Hd, Hrest.
    split; [reflexivity|]. constructor; [|exact Hall]. simpl.
    split; [reflexivity|]. split; [exact Hscore|]. split.
    { pose proof (Permutation_map connection P) as Pm.
      rewrite map_map in Pm. simpl in Pm. now rewrite map_id in Pm. }
    split; [|now repeat split].
    rewrite Forall_forall. intros x Hx.
    apply (Permutation_in x P) in Hx.
    apply in_map_iff in Hx as (c & <- & Hc'). simpl.
    split; [reflexivity|].
    destruct (Hs c Hc') as (s & Hget & _).
    exists s. rewrite Hget. now split.
Qed.

End NodeDecompositionFacts.

(** The example of the test for ties, with a tie that only the doubles
    have.  Two in-edges into [nodeB] are given with their addresses in
    descending order.  The contribution through [edgeY] is
    [(1 + 2^-52) * (1 + 2^-52)], which rounds to [1 + 2^-51]; the
    contribution through [edgeX] is [(1 + 2^-51) * 1].  The two are
    equal as doubles, and the address decides. *)
Definition edgeX : Edge := mkEdge ("E" ++ NUL ++ "x" ++ NUL)%string nodeB nodeB.
Definition edgeY : Edge := mkEdge ("E" ++ NUL ++ "y" ++ NUL)%string nodeA nodeB.

Module Doubles.

Import PrimFloat.

Definition one : float := 1%float.
Definition onePlusUlp : float := 0x1.0000000000001p0%float.
Definition onePlusTwoUlps : float := 0x1.0000000000002p0%float.
Definition quarter : float := 0.25%float.

End Doubles.

Definition tiedScores : NodeDecomposition.NodeScore :=
  [(nodeA, Doubles.onePlusUlp); (nodeB, Doubles.one)].

Definition tiedConnections : NodeDecomposition.NodeToConnections :=
  [(nodeB,
    [NodeDecomposition.mkConnection NodeDecomposition.SYNTHETIC_LOOP
       Doubles.quarter;
     NodeDecomposition.mkConnection (NodeDecomposition.IN_EDGE edgeY)
       Doubles.onePlusUlp;
     NodeDecomposition.mkConnection (NodeDecomposition.IN_EDGE edgeX)
       Doubles.onePlusTwoUlps])].

Lemma decompose_spec_witness :
  exists result,
    NodeDecomposition.decompose tiedScores tiedConnections = Some result
    /\ map (fun out =>
              map (fun x =>
                     (NodeDecomposition.adjacency (NodeDecomposition.connection x),
                      NodeDecomposition.connectionScore x))
                  (NodeDecomposition.scoredConnections (snd out)))
           result
       = [[(NodeDecomposition.IN_EDGE edgeX, Doubles.onePlusTwoUlps);
           (NodeDecomposition.IN_EDGE edgeY, Doubles.onePlusTwoUlps);
           (NodeDecomposition.SYNTHETIC_LOOP, Doubles.quarter)]].
Proof.
  destruct (NodeDecompositionFacts.decompose_spec tiedScores tiedConnections)
    as (result & Hrun & _).
  - intros target conns [[= <- <-]|[]]. split; [discriminate|]. split.
    + intros c [<-|[<-|[<-|[]]]]; eexists; (split; [reflexivity|]);
        reflexivity.
    + repeat constructor; simpl; intuition discriminate.
  - exists result. split; [exact Hrun|].
    vm_compute in Hrun. inversion Hrun. reflexivity.
Defined.

(** ** The graph with payloads: merging *)

Module LegacyGraphFacts.

Import LegacyGraph.

Section WithPayloads.

Variable Address : Type.
Variable Address_eq_dec : forall a b : Address, {a = b} + {a <> b}.
Variable addressType : Address -> string.
Variables NP EP : Type.
Variable NP_eq_dec : forall p q : NP, {p = q} + {p <> q}.
Variable EP_eq_dec : forall p q : EP, {p = q} + {p <> q}.

#[local] Abbreviation Graph := (LegacyGraph.Graph Address NP EP).
#[local] Abbreviation Node := (LegacyGraph.Node Address NP).
#[local] Abbreviation Edge := (LegacyGraph.Edge Address EP).
#[local] Abbreviation Result := (LegacyError Address + Graph)%type.
#[local] Abbreviation eqb := (Address_eqb Address_eq_dec).

Lemma Address_eqb_eq a b : eqb a b = true <-> a = b.
Proof. unfold Address_eqb. destruct (Address_eq_dec a b); split; congruence. Qed.

Lemma Address_eqb_refl a : eqb a a = true.
Proof. now apply Address_eqb_eq. Qed.

Lemma Node_eqb_eq (u v : Node) : Node_eqb Address_eq_dec NP_eq_dec u v = true <-> u = v.
Proof.
  unfold Node_eqb. rewrite andb_true_iff, Address_eqb_eq.
  destruct u as [a p], v as [b q]; simpl.
  destruct (NP_eq_dec p q); split; intros H; try (destruct H; congruence).
  - inversion H; subst. now split.
  - inversion H. contradiction.
Qed.

(** *** Address maps *)

Section AddressMapFacts.

Variable T : Type.
Variable addressOf : T -> Address.

#[local] Abbreviation get := (LegacyGraph.get Address_eq_dec addressOf).
#[local] Abbreviation add := (LegacyGraph.add Address_eq_dec addressOf).

Lemma get_address a m t : get a m = Some t -> addressOf t = a /\ In t m.
Proof.
  unfold LegacyGraph.get. intros H. apply find_some in H as [Hin Heq].
  apply Address_eqb_eq in Heq. now split.
Qed.

Lemma get_absent a m : get a m = None <-> ~ In a (map addressOf m).
Proof.
  unfold LegacyGraph.get. induction m as [|t m IH]; simpl; [tauto|].
  destruct (Address_eq_dec (addressOf t) a) as [E|E].
  - rewrite (proj2 (Address_eqb_eq _ _) E). split; [discriminate | tauto].
  - destruct (eqb (addressOf t) a) eqn:E'; [apply Address_eqb_eq in E'; contradiction|].
    rewrite IH. tauto.
Qed.

Lemma get_concat a m m' :
  get a (m ++ m') = match get a m with Some t => Some t | None => get a m' end.
Proof.
  unfold LegacyGraph.get. induction m as [|t m IH]; simpl; [reflexivity|].
  now destruct (eqb (addressOf t) a).
Qed.

Lemma add_absent t m : get (addressOf t) m = None -> add t m = m ++ [t].
Proof. intros H. unfold LegacyGraph.add. now rewrite H. Qed.

Lemma get_member m t :
  NoDup (map addressOf m) -> In t m -> get (addressOf t) m = Some t.
Proof.
  unfold LegacyGraph.get. induction m as [|t' m IH]; simpl; [intros _ []|].
  intros Hnd [->|Hin]; inversion Hnd as [|? ? Hfresh Hnd']; subst.
  - now rewrite Address_eqb_refl.
  - destruct (eqb (addressOf t') (addressOf t)) eqn:E; [|auto].
    apply Address_eqb_eq in E. elim Hfresh. rewrite E. now apply in_map.
Qed.

End AddressMapFacts.

(** *** The two kinds of phases of [merge]

    The four loops of [merge] come in two kinds, once on nodes and once
    on edges: the first adds, for each item of the first graph, the item
    or what the resolver makes of it; the second adds the items of the
    second graph whose address is still free. *)

Section Phases.

Variable T : Type.
Variable addressOf : T -> Address.

(** The map of the graph that holds the items, the map that holds the
    others, and the method that adds an item. *)
Variable items : Graph -> AddressMap T.
Variable Frame : Type.
Variable others : Graph -> Frame.
Variable insert : T -> Graph -> Result.

#[local] Abbreviation get := (LegacyGraph.get Address_eq_dec addressOf).

Hypothesis insert_absent : forall t g,
  get (addressOf t) (items g) = None ->
  exists g', insert t g = inr g' /\ items g' = items g ++ [t]
             /\ others g' = others g.

Variable g2 : Graph.
Variable resolver : T -> T -> LegacyError Address + T.

(** What the first phase adds for an item of the first graph. *)
Definition resolution (x : T) : T :=
  match get (addressOf x) (items g2) with
  | Some x2 => match resolver x x2 with inr w => w | inl _ => x end
  | None => x
  end.

Definition resolveInto (x : T) (result : Graph) : Result :=
  match get (addressOf x) (items g2) with
  | Some x2 =>
      match resolver x x2 with
      | inl err => inl err
      | inr resolved => insert resolved result
      end
  | None => insert x result
  end.

Definition addIfAbsent (x : T) (result : Graph) : Result :=
  match get (addressOf x) (items result) with
  | None => insert x result
  | Some _ => inr result
  end.

Hypothesis resolver_returns : forall x x2,
  addressOf x = addressOf x2 ->
  exists w, resolver x x2 = inr w /\ addressOf w = addressOf x.

Lemma resolution_address x : addressOf (resolution x) = addressOf x.
Proof.
  unfold resolution.
  destruct (get (addressOf x) (items g2)) as [x2|] eqn:G; [|reflexivity].
  apply get_address in G as [G _].
  destruct (resolver_returns x x2 (eq_sym G)) as (w & -> & Hw). exact Hw.
Qed.

Lemma resolve_phase l : forall result,
  NoDup (map addressOf l) ->
  (forall x, In x l -> get (addressOf x) (items result) = None) ->
  exists result',
    forEach resolveInto l result = inr result'
    /\ items result' = items result ++ map resolution l
    /\ others result' = others result.
Proof.
  induction l as [|x l IH]; intros result Hnd Hfree; simpl.
  - exists result. now rewrite app_nil_r.
  - inversion Hnd as [|? ? Hx Hnd']; subst.
    assert (Hstep : exists r, resolveInto x result = inr r
                              /\ items r = items result ++ [resolution x]
                              /\ others r = others result).
    { pose proof (resolution_address x) as Ha.
      unfold resolveInto, resolution in *.
      destruct (get (addressOf x) (items g2)) as [x2|] eqn:G.
      - apply get_address in G as [G _].
        destruct (resolver_returns x x2 (eq_sym G)) as (w & Hw & Hwa).
        rewrite Hw in *. apply insert_absent. rewrite Hwa.
        apply Hfree. now left.
      - apply insert_absent, Hfree. now left. }
    destruct Hstep as (r & -> & Hitems & Hothers).
    destruct (IH r Hnd') as (result' & Hrun & Hitems' & Hothers').
    + intros y Hy. rewrite Hitems, get_concat, (Hfree y (or_intror Hy)).
      unfold LegacyGraph.get. simpl.
      destruct (eqb (addressOf (resolution x)) (addressOf y)) eqn:E; [|reflexivity].
      apply Address_eqb_eq in E. rewrite resolution_address in E.
      elim Hx. rewrite E. now apply in_map.
    + exists result'. split; [exact Hrun|]. split; [|congruence].
      rewrite Hitems', Hitems, <- app_assoc. reflexivity.
Qed.

Lemma addIfAbsent_phase l : forall result,
  exists result',
    forEach addIfAbsent l result = inr result'
    /\ (forall a t, get a (items result) = Some t -> get a (items result') = Some t)
    /\ others result' = others result.
Proof.
  induction l as [|x l IH]; intros result; simpl.
  - exists result. auto.
  - unfold addIfAbsent at 1.
    destruct (get (addressOf x) (items result)) as [t|] eqn:G.
    + apply IH.
    + destruct (insert_absent x result G) as (r & -> & Hitems & Hothers).
      destruct (IH r) as (result' & Hrun & Hkeep & Hothers').
      exists result'. split; [exact Hrun|]. split; [|congruence].
      intros a t Ht. apply Hkeep. rewrite Hitems, get_concat. now rewrite Ht.
Qed.

End Phases.

(** *** The instances: nodes and edges *)

#[local] Abbreviation node := (LegacyGraph.node Address_eq_dec).
#[local] Abbreviation edge := (LegacyGraph.edge Address_eq_dec).
#[local] Abbreviation addNode := (LegacyGraph.addNode Address_eq_dec NP_eq_dec).
#[local] Abbreviation addEdge := (LegacyGraph.addEdge Address_eq_dec EP_eq_dec).

Lemma addNode_absent (n : Node) (g : Graph) :
  node (nodeAddress n) g = None ->
  exists g', addNode n g = inr g' /\ _nodes g' = _nodes g ++ [n]
             /\ _edges g' = _edges g.
Proof.
  intros H. unfold LegacyGraph.addNode. rewrite H. eexists.
  split; [reflexivity|]. simpl. split; [|reflexivity].
  now apply add_absent.
Qed.

Lemma addEdge_absent (e : Edge) (g : Graph) :
  edge (address e) g = None ->
  exists g', addEdge e g = inr g' /\ _edges g' = _edges g ++ [e]
             /\ _nodes g' = _nodes g.
Proof.
  intros H. unfold LegacyGraph.addEdge. rewrite H. eexists.
  split; [reflexivity|]. simpl. split; [|reflexivity].
  now apply add_absent.
Qed.

(** Each map holds one item per address; every [AddressMap] does. *)
Definition WellKeyed (g : Graph) : Prop :=
  NoDup (map (@nodeAddress Address NP) (_nodes g))
  /\ NoDup (map (@address Address EP) (_edges g)).

(** The first loop of [mergeConservative] throws at the first node of
    the first graph that the second graph has with other contents. *)
Lemma conservative_phase (g2 : Graph) l : forall result : Graph,
  NoDup (map (@nodeAddress Address NP) l) ->
  (forall x, In x l -> node (nodeAddress x) result = None) ->
  (exists n n2, In n l /\ node (nodeAddress n) g2 = Some n2 /\ n <> n2) ->
  exists a',
    forEach (resolveInto Node (@nodeAddress Address NP) (@_nodes Address NP EP)
                         addNode g2
                         (conservativeNodeResolver Address_eq_dec NP_eq_dec))
            l result
    = inl (Distinct "nodes" a').
Proof.
  induction l as [|x l IH]; intros result Hnd Hfree (n & n2 & Hin & Hn2 & Hne).
  - destruct Hin.
  - inversion Hnd as [|? ? Hx Hnd']; subst. simpl.
    assert (Hnext : forall r, _nodes r = _nodes result ++ [x] -> n <> x ->
              exists a', forEach (resolveInto Node (@nodeAddress Address NP)
                                    (@_nodes Address NP EP) addNode g2
                                    (conservativeNodeResolver Address_eq_dec NP_eq_dec))
                                 l r
                         = inl (Distinct "nodes" a')).
    { intros r Hr Hnx. apply IH; [assumption| |].
      - intros y Hy. unfold LegacyGraph.node. rewrite Hr, get_concat.
        pose proof (Hfree y (or_intror Hy)) as Hy'. unfold LegacyGraph.node in Hy'.
        rewrite Hy'. unfold LegacyGraph.get. simpl.
        destruct (eqb (nodeAddress x) (nodeAddress y)) eqn:E; [|reflexivity].
        apply Address_eqb_eq in E. elim Hx. rewrite E. now apply in_map.
      - exists n, n2. split; [|now split].
        destruct Hin as [->|Hin]; [congruence | assumption]. }
    unfold resolveInto at 1. fold (node (nodeAddress x) g2).
    destruct (node (nodeAddress x) g2) as [x2|] eqn:G.
    + unfold conservativeNodeResolver.
      destruct (Node_eqb Address_eq_dec NP_eq_dec x x2) eqn:E.
      * apply Node_eqb_eq in E. subst x2.
        destruct (addNode_absent x result (Hfree x (or_introl eq_refl)))
          as (r & -> & Hr & _).
        apply (Hnext r Hr). intros ->. rewrite G in Hn2. congruence.
      * eauto.
    + destruct (addNode_absent x result (Hfree x (or_introl eq_refl)))
        as (r & -> & Hr & _).
      apply (Hnext r Hr). intros ->. congruence.
Qed.

(** C8.  For two graphs that both have a node at the address [a], with
    different contents: [mergeConservative] throws the error of
    conflicting nodes; [merge] with resolvers that return an item at the
    address of the items they are given (their contract) returns, and
    the merged graph has at [a] what the node resolver made of the two
    nodes. *)
Theorem merge_conflicting_node (g1 g2 : Graph) a (n1 n2 : Node) :
  WellKeyed g1 ->
  node a g1 = Some n1 -> node a g2 = Some n2 -> n1 <> n2 ->
  (exists a',
     mergeConservative Address_eq_dec addressType NP_eq_dec EP_eq_dec g1 g2
     = inl (Distinct "nodes" a'))
  /\ forall nodeResolver edgeResolver,
       (forall u v : Node, nodeAddress u = nodeAddress v ->
          exists w, nodeResolver u v = inr w /\ nodeAddress w = nodeAddress u) ->
       (forall e f : Edge, address e = address f ->
          exists w, edgeResolver e f = inr w /\ address w = address e) ->
       exists result resolved,
         merge Address_eq_dec addressType NP_eq_dec EP_eq_dec g1 g2 nodeResolver edgeResolver
         = inr result
         /\ nodeResolver n1 n2 = inr resolved
         /\ node a result = Some resolved.
Proof.
  intros [Wn We] H1 H2 Hne.
  destruct (get_address _ _ _ _ _ H1) as [Ha1 Hin1].
  destruct (get_address _ _ _ _ _ H2) as [Ha2 Hin2].
  split.
  - unfold mergeConservative, merge.
    destruct (conservative_phase g2 (nodes addressType None g1) (empty Address NP EP) Wn)
      as (a' & Hrun).
    + intros x _. reflexivity.
    + exists n1, n2. split; [exact Hin1|]. split; [|exact Hne].
      now rewrite Ha1.
    + exists a'. unfold resolveInto in Hrun. unfold LegacyGraph.node.
      now rewrite Hrun.
  - intros nodeResolver edgeResolver Hnr Her.
    unfold merge.
    (* the nodes of the first graph *)
    destruct (resolve_phase Node (@nodeAddress Address NP) (@_nodes Address NP EP)
                _ (@_edges Address NP EP) addNode addNode_absent g2 nodeResolver
                Hnr (nodes addressType None g1) (empty Address NP EP) Wn)
      as (r1 & Hrun1 & Hitems1 & Hothers1).
    { intros x _. reflexivity. }
    unfold resolveInto in Hrun1. unfold LegacyGraph.node at 1. rewrite Hrun1.
    (* the nodes of the second graph *)
    destruct (addIfAbsent_phase Node (@nodeAddress Address NP)
                (@_nodes Address NP EP) _ (@_edges Address NP EP) addNode
                addNode_absent (nodes addressType None g2) r1)
      as (r2 & Hrun2 & Hkeep2 & Hothers2).
    unfold addIfAbsent in Hrun2. unfold LegacyGraph.node at 1. rewrite Hrun2.
    (* the edges of the first graph *)
    destruct (resolve_phase Edge (@address Address EP) (@_edges Address NP EP)
                _ (@_nodes Address NP EP) addEdge addEdge_absent g2 edgeResolver
                Her (edgesOf addressType None g1) r2 We)
      as (r3 & Hrun3 & Hitems3 & Hothers3).
    { intros x _. rewrite Hothers2, Hothers1. reflexivity. }
    unfold resolveInto in Hrun3. unfold LegacyGraph.edge at 1. rewrite Hrun3.
    (* the edges of the second graph *)
    destruct (addIfAbsent_phase Edge (@address Address EP)
                (@_edges Address NP EP) _ (@_nodes Address NP EP) addEdge
                addEdge_absent (edgesOf addressType None g2) r3)
      as (r4 & Hrun4 & Hkeep4 & Hothers4).
    unfold addIfAbsent in Hrun4. unfold LegacyGraph.edge at 1. rewrite Hrun4.
    destruct (Hnr n1 n2) as (w & Hw & Hwa); [congruence|].
    exists r4, w. split; [reflexivity|]. split; [exact Hw|].
    unfold LegacyGraph.node. rewrite Hothers4, Hothers3. apply Hkeep2.
    rewrite Hitems1. simpl.
    assert (Hres : resolution Node (@nodeAddress Address NP)
                     (@_nodes Address NP EP) g2 nodeResolver n1 = w).
    { unfold resolution. rewrite Ha1. fold (node a g2). now rewrite H2, Hw. }
    rewrite <- Hres, <- Ha1.
    rewrite <- (resolution_address Node (@nodeAddress Address NP)
                  (@_nodes Address NP EP) g2 nodeResolver Hnr n1) at 1.
    apply get_member.
    + rewrite map_map.
      erewrite map_ext; [exact Wn|]. intros x.
      apply (resolution_address Node (@nodeAddress Address NP)
               (@_nodes Address NP EP) g2 nodeResolver Hnr).
    + now apply in_map.
Qed.

(** *** The neighborhood of a node

    The class keeps, for every address, the addresses of the edges that
    leave it and of those that enter it; [neighborhood] with direction
    [ANY] reports a loop from the entering edges and drops it from the
    leaving ones. *)

Lemma legacy_Edge_eqb_eq (e f : Edge) :
  LegacyGraph.Edge_eqb Address_eq_dec EP_eq_dec e f = true <-> e = f.
Proof.
  unfold LegacyGraph.Edge_eqb. rewrite !andb_true_iff, !Address_eqb_eq.
  destruct e as [a s d p], f as [b t c q]; simpl.
  destruct (EP_eq_dec p q); split; intros H.
  - destruct H as [[[-> ->] ->] _]. congruence.
  - inversion H; subst. auto.
  - destruct H as [_ H]. discriminate.
  - inversion H. contradiction.
Qed.

Section AddressMapUpdates.

Variable T : Type.
Variable addressOf : T -> Address.

#[local] Abbreviation get := (LegacyGraph.get Address_eq_dec addressOf).
#[local] Abbreviation add := (LegacyGraph.add Address_eq_dec addressOf).
#[local] Abbreviation remove := (LegacyGraph.remove Address_eq_dec addressOf).

Lemma get_replaced t m a :
  get a (map (fun t' => if eqb (addressOf t') (addressOf t) then t else t') m)
  = if eqb (addressOf t) a
    then match get (addressOf t) m with Some _ => Some t | None => None end
    else get a m.
Proof.
  unfold LegacyGraph.get. induction m as [|t0 m IH]; simpl.
  - now destruct (eqb (addressOf t) a).
  - destruct (eqb (addressOf t0) (addressOf t)) eqn:E0; simpl.
    + apply Address_eqb_eq in E0. rewrite E0.
      destruct (eqb (addressOf t) a) eqn:E; [reflexivity|].
      exact IH.
    + destruct (eqb (addressOf t0) a) eqn:E1.
      * destruct (eqb (addressOf t) a) eqn:E; [|reflexivity].
        apply Address_eqb_eq in E1, E. rewrite E1, <- E, Address_eqb_refl in E0.
        discriminate.
      * exact IH.
Qed.

Lemma get_added t m a :
  get a (add t m) = if eqb (addressOf t) a then Some t else get a m.
Proof.
  unfold LegacyGraph.add.
  destruct (get (addressOf t) m) as [t0|] eqn:G.
  - rewrite get_replaced, G. reflexivity.
  - rewrite get_concat. unfold LegacyGraph.get at 2. simpl.
    destruct (eqb (addressOf t) a) eqn:E.
    + apply Address_eqb_eq in E. subst a. now rewrite G.
    + now destruct (get a m).
Qed.

Lemma get_removed b m a :
  get a (remove b m) = if eqb b a then None else get a m.
Proof.
  unfold LegacyGraph.get, LegacyGraph.remove.
  induction m as [|t m IH]; simpl.
  - now destruct (eqb b a).
  - destruct (eqb (addressOf t) b) eqn:E0; simpl.
    + rewrite IH. destruct (eqb b a) eqn:E; [reflexivity|].
      destruct (eqb (addressOf t) a) eqn:E1; [|reflexivity].
      apply Address_eqb_eq in E0, E1. rewrite <- E0, E1, Address_eqb_refl in E.
      discriminate.
    + destruct (eqb (addressOf t) a) eqn:E1.
      * destruct (eqb b a) eqn:E; [|reflexivity].
        apply Address_eqb_eq in E1, E. rewrite E1, <- E, Address_eqb_refl in E0.
        discriminate.
      * exact IH.
Qed.

End AddressMapUpdates.

#[local] Abbreviation Adjacent := (LegacyGraph.Adjacent Address).
#[local] Abbreviation lookup := (LegacyGraph._lookupEdges Address_eq_dec).
#[local] Abbreviation spliceFirst := (LegacyGraph.spliceFirst Address_eq_dec).
#[local] Abbreviation spliceEntry := (LegacyGraph.spliceEntry Address_eq_dec).
#[local] Abbreviation entries := (@anchor Address).
#[local] Abbreviation addressOfEdge := (@address Address EP).

Lemma lookup_added k l (m : AddressMap Adjacent) a :
  lookup (add Address_eq_dec entries (mkAdjacent k l) m) a
  = if eqb k a then l else lookup m a.
Proof.
  unfold LegacyGraph._lookupEdges. rewrite get_added. simpl.
  now destruct (eqb k a).
Qed.

Lemma lookup_spliced k x (m : AddressMap Adjacent) a :
  lookup (spliceEntry k x m) a
  = if eqb k a then spliceFirst x (lookup m a) else lookup m a.
Proof.
  unfold LegacyGraph.spliceEntry.
  destruct (get Address_eq_dec entries k m) as [r|] eqn:G.
  - rewrite lookup_added.
    destruct (get_address _ _ _ _ _ G) as [Hr _]. rewrite Hr.
    destruct (eqb k a) eqn:E; [|reflexivity].
    apply Address_eqb_eq in E. subst a.
    unfold LegacyGraph._lookupEdges. now rewrite G.
  - destruct (eqb k a) eqn:E; [|reflexivity].
    apply Address_eqb_eq in E. subst a.
    unfold LegacyGraph._lookupEdges. now rewrite G.
Qed.

Lemma spliceFirst_subset x l y : In y (spliceFirst x l) -> In y l.
Proof.
  induction l as [|z l IH]; simpl; [tauto|].
  destruct (eqb z x); simpl; tauto.
Qed.

Lemma spliceFirst_distinct x l : NoDup l -> NoDup (spliceFirst x l).
Proof.
  induction 1 as [|z l Hz Hnd IH]; simpl; [constructor|].
  destruct (eqb z x); [assumption|].
  constructor; [|assumption]. intros H. now apply Hz, (spliceFirst_subset x).
Qed.

Lemma spliceFirst_members x l y :
  NoDup l -> In y (spliceFirst x l) <-> In y l /\ y <> x.
Proof.
  induction 1 as [|z l Hz Hnd IH]; simpl; [tauto|].
  destruct (eqb z x) eqn:E.
  - apply Address_eqb_eq in E. subst z. split.
    + intros H. split; [now right|]. intros ->. contradiction.
    + intros [[->|H] Hne]; [congruence | assumption].
  - assert (z <> x) by (intros ->; now rewrite Address_eqb_refl in E).
    simpl. rewrite IH. intuition congruence.
Qed.

(** One index of the graph: the array at every address is duplicate
    free and lists the addresses of the edges with that endpoint. *)
Definition IndexedBy (endpoint : Edge -> Address)
    (m : AddressMap Adjacent) (es : AddressMap Edge) : Prop :=
  (forall a, NoDup (lookup m a))
  /\ forall a ea,
       In ea (lookup m a)
       <-> exists e, get Address_eq_dec addressOfEdge ea es = Some e
                     /\ endpoint e = a.

Definition Indexed (g : Graph) : Prop :=
  IndexedBy (@src Address EP) (_outEdges g) (_edges g)
  /\ IndexedBy (@dst Address EP) (_inEdges g) (_edges g).

Section OneIndex.

Variable endpoint : Edge -> Address.

Lemma indexedBy_addNode k m es :
  IndexedBy endpoint m es ->
  IndexedBy endpoint (add Address_eq_dec entries (mkAdjacent k (lookup m k)) m) es.
Proof.
  intros [Hnd Hiff].
  assert (Hsame : forall a,
            lookup (add Address_eq_dec entries (mkAdjacent k (lookup m k)) m) a
            = lookup m a).
  { intros a. rewrite lookup_added. destruct (eqb k a) eqn:E; [|reflexivity].
    apply Address_eqb_eq in E. now subst a. }
  split; intros a; [|intros ea]; rewrite Hsame; auto.
Qed.

Lemma indexedBy_addEdge e m es :
  get Address_eq_dec addressOfEdge (address e) es = None ->
  IndexedBy endpoint m es ->
  IndexedBy endpoint
    (add Address_eq_dec entries
         (mkAdjacent (endpoint e) (lookup m (endpoint e) ++ [address e])) m)
    (add Address_eq_dec addressOfEdge e es).
Proof.
  intros Hfree [Hnd Hiff].
  assert (Hnew : forall a, ~ In (address e) (lookup m a)).
  { intros a H. apply Hiff in H as (e' & He' & _). congruence. }
  split.
  - intros a. rewrite lookup_added. destruct (eqb (endpoint e) a); [|apply Hnd].
    apply NoDup_app; [apply Hnd | repeat constructor; intros [] |].
    intros x Hx [<-|[]]. now apply (Hnew (endpoint e)).
  - intros a ea. rewrite lookup_added.
    assert (Hold : forall e',
              get Address_eq_dec addressOfEdge ea es = Some e' ->
              get Address_eq_dec addressOfEdge ea
                  (add Address_eq_dec addressOfEdge e es) = Some e').
    { intros e' He'. rewrite get_added.
      destruct (eqb (address e) ea) eqn:E'; [|exact He'].
      apply Address_eqb_eq in E'. subst ea. congruence. }
    destruct (eqb (endpoint e) a) eqn:E.
    + apply Address_eqb_eq in E. subst a. rewrite in_app_iff, Hiff. simpl.
      split.
      * intros [(e' & He' & Hend)|[<-|[]]]; [eauto|].
        exists e. split; [|reflexivity].
        now rewrite get_added, Address_eqb_refl.
      * intros (e' & He' & Hend). rewrite get_added in He'.
        destruct (eqb (address e) ea) eqn:E'.
        -- apply Address_eqb_eq in E'. auto.
        -- left. eauto.
    + rewrite Hiff. split.
      * intros (e' & He' & Hend). eauto.
      * intros (e' & He' & Hend). rewrite get_added in He'.
        destruct (eqb (address e) ea) eqn:E'.
        -- inversion He'; subst e'. subst a.
           now rewrite Address_eqb_refl in E.
        -- eauto.
Qed.

Lemma indexedBy_removeEdge a e m es :
  get Address_eq_dec addressOfEdge a es = Some e ->
  IndexedBy endpoint m es ->
  IndexedBy endpoint (spliceEntry (endpoint e) a m)
                     (remove Address_eq_dec addressOfEdge a es).
Proof.
  intros He [Hnd Hiff]. split.
  - intros x. rewrite lookup_spliced. destruct (eqb (endpoint e) x); [|apply Hnd].
    apply spliceFirst_distinct, Hnd.
  - intros x ea. rewrite lookup_spliced.
    assert (Hgone : forall e',
              get Address_eq_dec addressOfEdge ea
                  (remove Address_eq_dec addressOfEdge a es) = Some e'
              <-> get Address_eq_dec addressOfEdge ea es = Some e' /\ ea <> a).
    { intros e'. rewrite get_removed. destruct (eqb a ea) eqn:E.
      - apply Address_eqb_eq in E. subst ea. split; [discriminate | tauto].
      - assert (ea <> a) by (intros ->; now rewrite Address_eqb_refl in E).
        tauto. }
    destruct (eqb (endpoint e) x) eqn:E.
    + rewrite spliceFirst_members by apply Hnd. rewrite Hiff. split.
      * intros [(e' & He' & Hend) Hne]. exists e'. split; [|exact Hend].
        now apply Hgone.
      * intros (e' & He' & Hend). apply Hgone in He' as [He' Hne]. eauto.
    + rewrite Hiff. split.
      * intros (e' & He' & Hend). exists e'. split; [|exact Hend].
        apply Hgone. split; [exact He'|]. intros ->.
        rewrite He in He'. inversion He'; subst e'. subst x.
        now rewrite Address_eqb_refl in E.
      * intros (e' & He' & Hend). apply Hgone in He' as [He' Hne]. eauto.
Qed.

Lemma indexedBy_removeAbsent a m es :
  get Address_eq_dec addressOfEdge a es = None ->
  IndexedBy endpoint m es ->
  IndexedBy endpoint m (remove Address_eq_dec addressOfEdge a es).
Proof.
  intros He [Hnd Hiff]. split; [exact Hnd|].
  intros x ea. rewrite Hiff. split; intros (e' & He' & Hend); exists e';
    (split; [|exact Hend]); rewrite get_removed in *.
  - destruct (eqb a ea) eqn:E; [|exact He'].
    apply Address_eqb_eq in E. subst ea. congruence.
  - destruct (eqb a ea); [discriminate | exact He'].
Qed.

End OneIndex.

(** The graphs that the four mutators build. *)
Inductive obtained : Graph -> Prop :=
| obtained_empty : obtained (empty Address NP EP)
| obtained_addNode n g g' :
    obtained g -> addNode n g = inr g' -> obtained g'
| obtained_addEdge e g g' :
    obtained g -> addEdge e g = inr g' -> obtained g'
| obtained_removeNode a g :
    obtained g -> obtained (removeNode Address_eq_dec a g)
| obtained_removeEdge a g :
    obtained g -> obtained (removeEdge Address_eq_dec a g).

Lemma obtained_indexed g : obtained g -> Indexed g.
Proof.
  induction 1 as [|n g g' _ [IHo IHi] Hrun|e g g' _ [IHo IHi] Hrun
                  |a g _ IH|a g _ [IHo IHi]].
  - split; (split; [intros a; constructor|]); intros a ea; simpl;
      (split; [intros [] | intros (e & He & _); discriminate]).
  - unfold LegacyGraph.addNode in Hrun.
    destruct (LegacyGraph.node Address_eq_dec (nodeAddress n) g) as [existing|].
    + destruct (Node_eqb Address_eq_dec NP_eq_dec existing n); inversion Hrun.
      subst g'. now split.
    + inversion Hrun. subst g'. split; simpl; now apply indexedBy_addNode.
  - unfold LegacyGraph.addEdge in Hrun.
    destruct (LegacyGraph.edge Address_eq_dec (address e) g) as [existing|] eqn:G.
    + destruct (LegacyGraph.Edge_eqb Address_eq_dec EP_eq_dec existing e);
        inversion Hrun.
      subst g'. now split.
    + inversion Hrun. subst g'. split; simpl.
      * now apply (indexedBy_addEdge (@src Address EP)).
      * now apply (indexedBy_addEdge (@dst Address EP)).
  - exact IH.
  - unfold LegacyGraph.removeEdge.
    destruct (LegacyGraph.edge Address_eq_dec a g) as [e|] eqn:G; split; simpl.
    + now apply (indexedBy_removeEdge (@src Address EP)).
    + now apply (indexedBy_removeEdge (@dst Address EP)).
    + now apply indexedBy_removeAbsent.
    + now apply indexedBy_removeAbsent.
Qed.

#[local] Abbreviation Neighbor := (LegacyGraph.Neighbor Address EP).
#[local] Abbreviation neighborsAt := (LegacyGraph.neighborsAt Address_eq_dec).

(** How often [neighborhood] reports the edge [e]. *)
Definition reports (e : Edge) (result : list Neighbor) : nat :=
  List.length
    (filter (fun x => LegacyGraph.Edge_eqb Address_eq_dec EP_eq_dec (neighborEdge x) e)
            result).

Lemma reports_app e r r' : reports e (r ++ r') = (reports e r + reports e r')%nat.
Proof. unfold reports. now rewrite filter_app, length_app. Qed.

Lemma filter_twice {A} (p q : A -> bool) l :
  filter p (filter q l) = filter (fun x => q x && p x) l.
Proof.
  induction l as [|x l IH]; simpl; [reflexivity|].
  destruct (q x); simpl; [destruct (p x)|]; now rewrite IH.
Qed.

Lemma filter_true {A} (l : list A) : filter (fun _ => true) l = l.
Proof. induction l as [|x l IH]; simpl; now rewrite ?IH. Qed.

Section Scan.

Variable g : Graph.
Variable endpoint : Edge -> Address.

Definition found (l : list Address) (es : list Edge) : Prop :=
  Forall2 (fun ea e => edge ea g = Some e) l es.

Definition reported (es : list Edge) : list Neighbor :=
  map (fun e => mkNeighbor e (endpoint e)) es.

Lemma neighborsAt_found l :
  (forall ea, In ea l -> exists e, edge ea g = Some e) ->
  exists es, neighborsAt endpoint g l = Some (reported es) /\ found l es.
Proof.
  induction l as [|ea l IH]; intros Hall; simpl.
  - exists []. split; [reflexivity | constructor].
  - destruct (Hall ea (or_introl eq_refl)) as (e & He).
    destruct IH as (es & Hrun & Hes); [intros x Hx; apply Hall; now right|].
    fold edge. rewrite He, Hrun. exists (e :: es). split; [reflexivity|].
    now constructor.
Qed.

Lemma reports_none l es e keep :
  found l es ->
  ~ In (address e) l \/ keep (mkNeighbor e (endpoint e)) = false ->
  reports e (filter keep (reported es)) = 0%nat.
Proof.
  unfold reports. induction 1 as [|ea e' l es He' _ IH]; intros Hout;
    [reflexivity|]. simpl.
  assert (Hrest : ~ In (address e) l \/ keep (mkNeighbor e (endpoint e)) = false)
    by (simpl in Hout; tauto).
  destruct (keep (mkNeighbor e' (endpoint e'))) eqn:K; [|now apply IH]. simpl.
  destruct (LegacyGraph.Edge_eqb Address_eq_dec EP_eq_dec e' e) eqn:E;
    [|now apply IH].
  apply legacy_Edge_eqb_eq in E. subst e'.
  destruct Hout as [Hout|Hout]; [|congruence].
  elim Hout. left. symmetry.
  exact (proj1 (get_address _ _ _ _ _ He')).
Qed.

Lemma reports_one l es e keep :
  NoDup l -> found l es ->
  edge (address e) g = Some e ->
  In (address e) l -> keep (mkNeighbor e (endpoint e)) = true ->
  reports e (filter keep (reported es)) = 1%nat.
Proof.
  intros Hnd Hes He. revert Hnd.
  induction Hes as [|ea e' l es He' Hes IH]; intros Hnd Hin Hkeep;
    [destruct Hin|].
  inversion Hnd as [|? ? Hea Hnd']; subst.
  pose proof (proj1 (get_address _ _ _ _ _ He')) as Ha.
  destruct (Address_eq_dec ea (address e)) as [->|Hne].
  - assert (e' = e) by congruence. subst e'.
    simpl. rewrite Hkeep. unfold reports in *. simpl.
    rewrite (proj2 (legacy_Edge_eqb_eq e e) eq_refl). simpl. f_equal.
    apply (reports_none l es e keep Hes). now left.
  - destruct Hin as [Hin|Hin]; [contradiction|].
    specialize (IH Hnd' Hin Hkeep). unfold reports in *. simpl.
    destruct (keep (mkNeighbor e' (endpoint e'))); [|exact IH]. simpl.
    destruct (LegacyGraph.Edge_eqb Address_eq_dec EP_eq_dec e' e) eqn:E;
      [|exact IH].
    apply legacy_Edge_eqb_eq in E. subst e'. congruence.
Qed.

End Scan.

(** The options ask for direction [ANY], in words or by default. *)
Definition anyDirection (options : option NeighborhoodOptions) : Prop :=
  match options with
  | Some o => direction o = None \/ direction o = Some ANY
  | None => True
  end.

(** The two type filters of [neighborhood]. *)
Definition passes (options : option NeighborhoodOptions) (x : Neighbor) : bool :=
  match options with
  | Some o =>
      match edgeType o with
      | Some t => String.eqb (addressType (address (neighborEdge x))) t
      | None => true
      end
      && match nodeType o with
         | Some t => String.eqb (addressType (neighbor x)) t
         | None => true
         end
  | None => true
  end.

Definition isLoop (x : Neighbor) : bool :=
  eqb (src (neighborEdge x)) (dst (neighborEdge x)).

Lemma neighborhood_any n options (g : Graph) :
  anyDirection options ->
  neighborhood Address_eq_dec addressType n options g
  = match neighborsAt (@src Address EP) g (lookup (_inEdges g) n),
          neighborsAt (@dst Address EP) g (lookup (_outEdges g) n) with
    | Some inNeighbors, Some outNeighbors =>
        Some (filter (passes options)
                     (inNeighbors ++ filter (fun x => negb (isLoop x)) outNeighbors))
    | _, _ => None
    end.
Proof.
  intros Hany. unfold neighborhood.
  assert (Hd : match options with
               | Some o => match direction o with Some d => d | None => ANY end
               | None => ANY
               end = ANY).
  { destruct options as [o|]; [|reflexivity].
    destruct Hany as [->| ->]; reflexivity. }
  rewrite Hd. simpl.
  destruct (neighborsAt (@src Address EP) g (lookup (_inEdges g) n))
    as [inNeighbors|]; [|reflexivity].
  destruct (neighborsAt (@dst Address EP) g (lookup (_outEdges g) n))
    as [outNeighbors|]; [|reflexivity].
  f_equal. unfold passes, isLoop.
  destruct options as [o|]; [|now rewrite filter_true].
  destruct (edgeType o) as [t|], (nodeType o) as [t'|]; simpl.
  - now rewrite filter_twice.
  - apply filter_ext. intros x. now rewrite andb_true_r.
  - reflexivity.
  - now rewrite filter_true.
Qed.

(** The neighbor that [neighborhood] reports for an edge at [n]. *)
Definition across (n : Address) (e : Edge) : Address :=
  if eqb (dst e) n then src e else dst e.

(** The counterpart of C6 for this class.  In a graph built by the
    mutators, [neighborhood] with direction [ANY] returns, and it
    reports every edge at [n] that passes the type filters exactly once,
    a loop like any other edge. *)
Lemma neighborhood_reports_once (g : Graph) n options (e : Edge) :
  obtained g -> anyDirection options ->
  edge (address e) g = Some e ->
  src e = n \/ dst e = n ->
  passes options (mkNeighbor e (across n e)) = true ->
  exists result,
    neighborhood Address_eq_dec addressType n options g = Some result
    /\ reports e result = 1%nat.
Proof.
  intros Hg Hany He Hat Hpass.
  destruct (obtained_indexed g Hg) as [[Hond Hout] [Hind Hin]].
  rewrite neighborhood_any by exact Hany.
  destruct (neighborsAt_found g (@src Address EP) (lookup (_inEdges g) n))
    as (ins & -> & Hins).
  { intros ea Hea. apply Hin in Hea as (e' & He' & _). eauto. }
  destruct (neighborsAt_found g (@dst Address EP) (lookup (_outEdges g) n))
    as (outs & -> & Houts).
  { intros ea Hea. apply Hout in Hea as (e' & He' & _). eauto. }
  eexists. split; [reflexivity|].
  rewrite filter_app, reports_app, filter_twice.
  unfold across in Hpass.
  destruct (eqb (dst e) n) eqn:E.
  - apply Address_eqb_eq in E.
    rewrite (reports_one g (@src Address EP) _ ins e (passes options) (Hind n) Hins He);
      [|apply Hin; eauto|exact Hpass].
    rewrite (reports_none g (@dst Address EP) _ outs e _ Houts); [reflexivity|].
    destruct (Address_eq_dec (src e) n) as [Hs|Hs].
    + right. unfold isLoop. simpl. now rewrite Hs, E, Address_eqb_refl.
    + left. intros H. apply Hout in H as (e' & He' & Hsrc).
      unfold LegacyGraph.edge in He. congruence.
  - assert (Hd : dst e <> n) by (intros H; now rewrite H, Address_eqb_refl in E).
    destruct Hat as [Hs|]; [|contradiction].
    rewrite (reports_none g (@src Address EP) _ ins e _ Hins).
    + apply (reports_one g (@dst Address EP) _ outs e _ (Hond n) Houts He).
      * apply Hout. eauto.
      * unfold isLoop. simpl. rewrite Hpass, andb_true_r.
        destruct (eqb (src e) (dst e)) eqn:E'; [|reflexivity].
        apply Address_eqb_eq in E'. congruence.
    + left. intros H. apply Hin in H as (e' & He' & Hdst).
      unfold LegacyGraph.edge in He. congruence.
Qed.

(** X15.  The index that the class keeps, as its comment describes it:
    in a graph built by the mutators, the address of every edge appears
    exactly once among the out-edges of its [src] and exactly once
    among the in-edges of its [dst], and every address listed among the
    out-edges (in-edges) of an address is that of an edge with this
    [src] ([dst]). *)
Theorem adjacency_lists_exact (g : Graph) :
  obtained g ->
  (forall e : Edge, edge (address e) g = Some e ->
     count_occ Address_eq_dec (lookup (_outEdges g) (src e)) (address e) = 1%nat
     /\ count_occ Address_eq_dec (lookup (_inEdges g) (dst e)) (address e) = 1%nat)
  /\ (forall a ea, In ea (lookup (_outEdges g) a) ->
        exists e, edge ea g = Some e /\ src e = a)
  /\ (forall a ea, In ea (lookup (_inEdges g) a) ->
        exists e, edge ea g = Some e /\ dst e = a).
Proof.
  intros Hg. destruct (obtained_indexed g Hg) as [[Hond Hout] [Hind Hin]].
  assert (Honce : forall l (a : Address), NoDup l -> In a l ->
            count_occ Address_eq_dec l a = 1%nat).
  { intros l a Hnd Ha.
    pose proof (proj1 (NoDup_count_occ Address_eq_dec l) Hnd a).
    apply (count_occ_In Address_eq_dec) in Ha. lia. }
  split; [|split].
  - intros e He. split; apply Honce; auto.
    + apply Hout. eauto.
    + apply Hin. eauto.
  - intros a ea. apply Hout.
  - intros a ea. apply Hin.
Qed.

(** *** Accumulating items: [addNode] and [addEdge] in a loop, and the
    phases of [mergeConservative] *)

Section Accumulating.

Variable T : Type.
Variable addressOf : T -> Address.
Variable T_eq_dec : forall t t' : T, {t = t'} + {t <> t'}.
Variable items : Graph -> AddressMap T.
Variable Frame : Type.
Variable others : Graph -> Frame.
Variable insert : T -> Graph -> Result.

#[local] Abbreviation get := (LegacyGraph.get Address_eq_dec addressOf).

Hypothesis insert_absent : forall t g,
  get (addressOf t) (items g) = None ->
  exists g', insert t g = inr g' /\ items g' = items g ++ [t]
             /\ others g' = others g.
Hypothesis insert_same : forall t g,
  get (addressOf t) (items g) = Some t -> insert t g = inr g.
Hypothesis insert_other : forall t t' g,
  get (addressOf t) (items g) = Some t' -> t' <> t ->
  exists err, insert t g = inl err.

(** The items of [l] whose address [m] does not have. *)
Definition fresh (m : AddressMap T) (l : list T) : list T :=
  filter (fun t => match get (addressOf t) m with
                   | None => true
                   | Some _ => false
                   end) l.

(** [m] and [l] hold the same item wherever both have one. *)
Definition agreeing (m : AddressMap T) (l : list T) : Prop :=
  forall t t', In t l -> get (addressOf t) m = Some t' -> t' = t.

Definition conflicting (m : AddressMap T) (l : list T) : Prop :=
  exists t t', In t l /\ get (addressOf t) m = Some t' /\ t' <> t.

Lemma conflicting_not_agreeing m l : conflicting m l -> ~ agreeing m l.
Proof. intros (t & t' & Hin & G & Hne) Hagree. exact (Hne (Hagree t t' Hin G)). Qed.

Lemma get_appended a m t :
  addressOf t <> a -> get a (m ++ [t]) = get a m.
Proof.
  intros Hne. rewrite get_concat. unfold LegacyGraph.get at 2. simpl.
  destruct (eqb (addressOf t) a) eqn:E;
    [apply Address_eqb_eq in E; contradiction|].
  now destruct (get a m).
Qed.

Lemma fresh_appended m t l :
  ~ In (addressOf t) (map addressOf l) ->
  fresh (m ++ [t]) l = fresh m l.
Proof.
  intros Hnew. unfold fresh. apply filter_ext_in. intros u Hu.
  rewrite get_appended; [reflexivity|].
  intros E. apply Hnew. rewrite E. now apply in_map.
Qed.

(** A loop of [insert] over items with distinct addresses: it returns
    if the map and the items agree, and has then appended the items
    whose address was free; it throws if they do not agree. *)
Lemma insertAll_run l : forall g,
  NoDup (map addressOf l) ->
  (agreeing (items g) l
   /\ exists g', forEach insert l g = inr g'
                 /\ items g' = items g ++ fresh (items g) l
                 /\ others g' = others g)
  \/ (conflicting (items g) l /\ exists err, forEach insert l g = inl err).
Proof.
  induction l as [|t l IH]; intros g Hnd.
  - left. split; [intros t t' []|]. exists g. simpl. now rewrite app_nil_r.
  - inversion Hnd as [|? ? Hnew Hnd']; subst.
    destruct (get (addressOf t) (items g)) as [t'|] eqn:G.
    + destruct (T_eq_dec t' t) as [->|Hne].
      * destruct (IH g Hnd') as [(Hagree & g' & Hrun & Hitems & Hothers)
                                |((u & u' & Hu & Gu & Hneq) & err & Hrun)].
        -- left. split.
           ++ intros u u' [<-|Hu] Gu; [congruence | now apply Hagree].
           ++ exists g'. simpl. rewrite (insert_same t g G).
              split; [exact Hrun|]. split; [|exact Hothers].
              unfold fresh. simpl. unfold fresh in Hitems. now rewrite G.
        -- right. split; [exists u, u'; split; [now right | now split]|].
           exists err. simpl. now rewrite (insert_same t g G).
      * right. split; [exists t, t'; split; [now left | now split]|].
        destruct (insert_other t t' g G Hne) as (err & Herr).
        exists err. simpl. now rewrite Herr.
    + destruct (insert_absent t g G) as (g1 & Hstep & Hitems1 & Hothers1).
      destruct (IH g1 Hnd') as [(Hagree & g' & Hrun & Hitems & Hothers)
                               |((u & u' & Hu & Gu & Hneq) & err & Hrun)].
      * left. split.
        -- intros u u' [<-|Hu] Gu; [congruence|].
           apply (Hagree u u' Hu). rewrite Hitems1, get_concat. now rewrite Gu.
        -- exists g'. simpl. rewrite Hstep. split; [exact Hrun|].
           split; [|congruence].
           rewrite Hitems, Hitems1, (fresh_appended _ _ _ Hnew), <- app_assoc.
           unfold fresh at 2. simpl. now rewrite G.
      * right. split.
        -- exists u, u'. split; [now right|]. split; [|exact Hneq].
           rewrite Hitems1, get_concat in Gu.
           destruct (get (addressOf u) (items g)) as [w|]; [exact Gu|].
           unfold LegacyGraph.get in Gu. simpl in Gu.
           destruct (eqb (addressOf t) (addressOf u)) eqn:E; [|discriminate].
           apply Address_eqb_eq in E. elim Hnew. rewrite E. now apply in_map.
        -- exists err. simpl. now rewrite Hstep.
Qed.

(** The second kind of phase of [merge] never throws: it appends the
    items whose address is free. *)
Lemma addIfAbsent_run l : forall g,
  NoDup (map addressOf l) ->
  exists g',
    forEach (addIfAbsent T addressOf items insert) l g = inr g'
    /\ items g' = items g ++ fresh (items g) l
    /\ others g' = others g.
Proof.
  induction l as [|t l IH]; intros g Hnd.
  - exists g. simpl. now rewrite app_nil_r.
  - inversion Hnd as [|? ? Hnew Hnd']; subst. simpl.
    unfold addIfAbsent at 1. unfold fresh. simpl. fold (fresh (items g) l).
    destruct (get (addressOf t) (items g)) as [t'|] eqn:G.
    + apply (IH g Hnd').
    + destruct (insert_absent t g G) as (g1 & -> & Hitems1 & Hothers1).
      destruct (IH g1 Hnd') as (g' & Hrun & Hitems & Hothers).
      exists g'. split; [exact Hrun|]. split; [|congruence].
      rewrite Hitems, Hitems1, (fresh_appended _ _ _ Hnew), <- app_assoc.
      reflexivity.
Qed.

(** The first kind of phase, with a resolver that accepts equal items
    only. *)
Variable g2 : Graph.
Variable resolver : T -> T -> LegacyError Address + T.

Hypothesis resolver_same : forall x, resolver x x = inr x.
Hypothesis resolver_other : forall x x2, x <> x2 -> exists err, resolver x x2 = inl err.

Lemma conservative_run l : forall g,
  NoDup (map addressOf l) ->
  (forall x, In x l -> get (addressOf x) (items g) = None) ->
  (agreeing (items g2) l
   /\ exists g', forEach (resolveInto T addressOf items insert g2 resolver) l g
                 = inr g'
                 /\ items g' = items g ++ l
                 /\ others g' = others g)
  \/ (conflicting (items g2) l
      /\ exists err, forEach (resolveInto T addressOf items insert g2 resolver) l g
                     = inl err).
Proof.
  induction l as [|x l IH]; intros g Hnd Hfree.
  - left. split; [intros t t' []|]. exists g. simpl. now rewrite app_nil_r.
  - inversion Hnd as [|? ? Hnew Hnd']; subst.
    assert (Hstep : forall g1, insert x g = inr g1 ->
              items g1 = items g ++ [x] -> others g1 = others g ->
              (forall x2, get (addressOf x) (items g2) = Some x2 -> x2 = x) ->
              (agreeing (items g2) (x :: l)
               /\ exists g', forEach (resolveInto T addressOf items insert g2 resolver)
                                     l g1 = inr g'
                             /\ items g' = items g ++ x :: l
                             /\ others g' = others g)
              \/ (conflicting (items g2) (x :: l)
                  /\ exists err,
                       forEach (resolveInto T addressOf items insert g2 resolver)
                               l g1 = inl err)).
    { intros g1 Hins Hitems1 Hothers1 Hx.
      destruct (IH g1 Hnd') as [(Hagree & g' & Hrun & Hitems & Hothers)
                               |((u & u' & Hu & Gu & Hneq) & err & Hrun)].
      - intros y Hy. rewrite Hitems1, get_appended; [apply Hfree; now right|].
        intros E. apply Hnew. rewrite E. now apply in_map.
      - left. split.
        + intros u u' [<-|Hu] Gu; [now apply Hx | now apply Hagree].
        + exists g'. split; [exact Hrun|]. split; [|congruence].
          rewrite Hitems, Hitems1, <- app_assoc. reflexivity.
      - right. split; [exists u, u'; split; [now right | now split]|].
        eauto. }
    destruct (insert_absent x g (Hfree x (or_introl eq_refl)))
      as (g1 & Hins & Hitems1 & Hothers1).
    simpl forEach. unfold resolveInto at 1. unfold resolveInto at 2.
    destruct (get (addressOf x) (items g2)) as [x2|] eqn:G.
    + destruct (T_eq_dec x x2) as [<-|Hne].
      * rewrite resolver_same, Hins.
        apply (Hstep g1 Hins Hitems1 Hothers1). now intros ? [= <-].
      * right. split; [exists x, x2; split; [now left|]; split; [exact G | congruence]|].
        destruct (resolver_other x x2 Hne) as (err & ->). eauto.
    + rewrite Hins. apply (Hstep g1 Hins Hitems1 Hothers1). discriminate.
Qed.

Lemma get_fresh a m l :
  get a (m ++ fresh m l) = match get a m with Some t => Some t | None => get a l end.
Proof.
  rewrite get_concat. destruct (get a m) as [t|] eqn:G; [reflexivity|].
  induction l as [|u l IH]; [reflexivity|].
  unfold fresh. simpl filter. fold (fresh m l).
  destruct (Address_eq_dec (addressOf u) a) as [E|E].
  - rewrite E, G. unfold LegacyGraph.get. simpl.
    now rewrite E, Address_eqb_refl.
  - assert (Hu : eqb (addressOf u) a = false).
    { destruct (eqb (addressOf u) a) eqn:F; [|reflexivity].
      apply Address_eqb_eq in F. contradiction. }
    assert (Hskip : get a (u :: l) = get a l).
    { unfold LegacyGraph.get. simpl. now rewrite Hu. }
    rewrite Hskip.
    destruct (get (addressOf u) m); [exact IH|].
    unfold LegacyGraph.get. simpl. rewrite Hu. exact IH.
Qed.

Lemma fresh_distinct m l :
  NoDup (map addressOf m) -> NoDup (map addressOf l) ->
  NoDup (map addressOf (m ++ fresh m l)).
Proof.
  intros Hm Hl. rewrite map_app. apply NoDup_app; [exact Hm| |].
  - unfold fresh. induction l as [|u l IH]; simpl; [constructor|].
    inversion Hl as [|? ? Hu Hl']; subst.
    destruct (get (addressOf u) m); [now apply IH|].
    simpl. constructor; [|now apply IH].
    intros Hin. apply Hu. apply in_map_iff in Hin as (w & Hw & Hin).
    apply filter_In in Hin as [Hin _]. rewrite <- Hw. now apply in_map.
  - intros a Ha Hb. apply in_map_iff in Hb as (u & <- & Hu).
    apply filter_In in Hu as [_ Hu].
    destruct (get (addressOf u) m) eqn:G; [discriminate|].
    now apply get_absent in G.
Qed.

End Accumulating.

(** *** The instances *)

Lemma Node_eq_dec (u v : Node) : {u = v} + {u <> v}.
Proof. decide equality. Qed.

Lemma legacy_Edge_eq_dec (e f : Edge) : {e = f} + {e <> f}.
Proof. decide equality. Qed.

Lemma addNode_same (n : Node) (g : Graph) :
  node (nodeAddress n) g = Some n -> addNode n g = inr g.
Proof.
  intros H. unfold LegacyGraph.addNode. rewrite H.
  now rewrite (proj2 (Node_eqb_eq n n) eq_refl).
Qed.

Lemma addNode_other (n n' : Node) (g : Graph) :
  node (nodeAddress n) g = Some n' -> n' <> n ->
  exists err, addNode n g = inl err.
Proof.
  intros H Hne. unfold LegacyGraph.addNode. rewrite H.
  destruct (Node_eqb Address_eq_dec NP_eq_dec n' n) eqn:E;
    [apply Node_eqb_eq in E; contradiction | eauto].
Qed.

Lemma addEdge_same (e : Edge) (g : Graph) :
  edge (address e) g = Some e -> addEdge e g = inr g.
Proof.
  intros H. unfold LegacyGraph.addEdge. rewrite H.
  now rewrite (proj2 (legacy_Edge_eqb_eq e e) eq_refl).
Qed.

Lemma addEdge_other (e e' : Edge) (g : Graph) :
  edge (address e) g = Some e' -> e' <> e ->
  exists err, addEdge e g = inl err.
Proof.
  intros H Hne. unfold LegacyGraph.addEdge. rewrite H.
  destruct (LegacyGraph.Edge_eqb Address_eq_dec EP_eq_dec e' e) eqn:E;
    [apply legacy_Edge_eqb_eq in E; contradiction | eauto].
Qed.

Lemma conservativeNodeResolver_same (x : Node) :
  conservativeNodeResolver Address_eq_dec NP_eq_dec x x = inr x.
Proof.
  unfold conservativeNodeResolver. now rewrite (proj2 (Node_eqb_eq x x) eq_refl).
Qed.

Lemma conservativeNodeResolver_other (x x2 : Node) :
  x <> x2 ->
  exists err, conservativeNodeResolver Address_eq_dec NP_eq_dec x x2 = inl err.
Proof.
  intros Hne. unfold conservativeNodeResolver.
  destruct (Node_eqb Address_eq_dec NP_eq_dec x x2) eqn:E;
    [apply Node_eqb_eq in E; contradiction | eauto].
Qed.

Lemma conservativeEdgeResolver_same (x : Edge) :
  conservativeEdgeResolver Address_eq_dec EP_eq_dec x x = inr x.
Proof.
  unfold conservativeEdgeResolver.
  now rewrite (proj2 (legacy_Edge_eqb_eq x x) eq_refl).
Qed.

Lemma conservativeEdgeResolver_other (x x2 : Edge) :
  x <> x2 ->
  exists err, conservativeEdgeResolver Address_eq_dec EP_eq_dec x x2 = inl err.
Proof.
  intros Hne. unfold conservativeEdgeResolver.
  destruct (LegacyGraph.Edge_eqb Address_eq_dec EP_eq_dec x x2) eqn:E;
    [apply legacy_Edge_eqb_eq in E; contradiction | eauto].
Qed.

#[local] Abbreviation nodeOf := (@nodeAddress Address NP).
#[local] Abbreviation nodesOf := (@_nodes Address NP EP).
#[local] Abbreviation edgeMap := (@_edges Address NP EP).
#[local] Abbreviation edgeAt := (@address Address EP).
#[local] Abbreviation freshNodes := (fresh Node nodeOf).
#[local] Abbreviation freshEdges := (fresh Edge edgeAt).

(** Two graphs hold the same node and the same edge wherever both have
    one. *)
Definition agree (g1 g2 : Graph) : Prop :=
  agreeing Node nodeOf (_nodes g1) (_nodes g2)
  /\ agreeing Edge edgeAt (_edges g1) (_edges g2).

Lemma agreeing_sym {T} (addressOf : T -> Address) (m l : list T) :
  NoDup (map addressOf m) -> NoDup (map addressOf l) ->
  agreeing T addressOf m l -> agreeing T addressOf l m.
Proof.
  intros Hm Hl Hagree t t' Ht Gt.
  destruct (get_address _ _ _ _ _ Gt) as [Ha Hin].
  symmetry. apply (Hagree t' t Hin). rewrite Ha.
  rewrite <- (get_member _ _ m t Hm Ht). reflexivity.
Qed.

Lemma conflicting_sym {T} (addressOf : T -> Address) (m l : list T) :
  NoDup (map addressOf m) -> NoDup (map addressOf l) ->
  conflicting T addressOf m l -> conflicting T addressOf l m.
Proof.
  intros Hm Hl (t & t' & Ht & Gt & Hne).
  destruct (get_address _ _ _ _ _ Gt) as [Ha Hin].
  exists t', t. split; [exact Hin|]. split; [|congruence].
  rewrite Ha. rewrite <- (get_member _ _ l t Hl Ht). reflexivity.
Qed.

(** What [mergeConservative] and the loop of [mergeManyConservative]
    leave in the nodes and in the edges. *)
Definition merged (g1 g2 result : Graph) : Prop :=
  _nodes result = _nodes g1 ++ freshNodes (_nodes g1) (_nodes g2)
  /\ _edges result = _edges g1 ++ freshEdges (_edges g1) (_edges g2).

Lemma mergeConservative_run (g1 g2 : Graph) :
  WellKeyed g1 -> WellKeyed g2 ->
  (agree g1 g2
   /\ exists result,
        mergeConservative Address_eq_dec addressType NP_eq_dec EP_eq_dec g1 g2
        = inr result
        /\ merged g1 g2 result)
  \/ (~ agree g1 g2
      /\ exists err,
           mergeConservative Address_eq_dec addressType NP_eq_dec EP_eq_dec g1 g2
           = inl err).
Proof.
  intros [Wn1 We1] [Wn2 We2].
  remember (mergeConservative Address_eq_dec addressType NP_eq_dec EP_eq_dec g1 g2)
    as outcome eqn:Hout.
  unfold mergeConservative, merge in Hout.
  (* the nodes of the first graph *)
  destruct (conservative_run Node nodeOf Node_eq_dec nodesOf _ edgeMap addNode
              addNode_absent g2 _ conservativeNodeResolver_same
              conservativeNodeResolver_other
              (nodes addressType None g1) (empty Address NP EP) Wn1)
    as [(An & r1 & Hrun1 & Hitems1 & Hothers1)|(Cn & err & Hrun1)].
  { intros x _. reflexivity. }
  2:{ right. split.
      - intros [Hn _].
        apply (conflicting_not_agreeing _ _ _ _ Cn).
        now apply agreeing_sym.
      - exists err. unfold resolveInto in Hrun1.
        unfold LegacyGraph.node at 1 in Hout. now rewrite Hrun1 in Hout. }
  unfold resolveInto in Hrun1.
  unfold LegacyGraph.node at 1 in Hout. rewrite Hrun1 in Hout.
  (* the nodes of the second graph *)
  destruct (addIfAbsent_run Node nodeOf nodesOf _ edgeMap addNode addNode_absent
              (nodes addressType None g2) r1 Wn2)
    as (r2 & Hrun2 & Hitems2 & Hothers2).
  unfold addIfAbsent in Hrun2.
  unfold LegacyGraph.node at 1 in Hout. rewrite Hrun2 in Hout.
  (* the edges of the first graph *)
  destruct (conservative_run Edge edgeAt legacy_Edge_eq_dec edgeMap _
              nodesOf addEdge addEdge_absent g2 _ conservativeEdgeResolver_same
              conservativeEdgeResolver_other
              (edgesOf addressType None g1) r2 We1)
    as [(Ae & r3 & Hrun3 & Hitems3 & Hothers3)|(Ce & err & Hrun3)].
  { intros x _. rewrite Hothers2, Hothers1. reflexivity. }
  2:{ right. split.
      - intros [_ He].
        apply (conflicting_not_agreeing _ _ _ _ Ce).
        now apply agreeing_sym.
      - exists err. unfold resolveInto in Hrun3.
        unfold LegacyGraph.edge at 1 in Hout. now rewrite Hrun3 in Hout. }
  unfold resolveInto in Hrun3.
  unfold LegacyGraph.edge at 1 in Hout. rewrite Hrun3 in Hout.
  (* the edges of the second graph *)
  destruct (addIfAbsent_run Edge edgeAt edgeMap _ nodesOf addEdge
              addEdge_absent (edgesOf addressType None g2) r3 We2)
    as (r4 & Hrun4 & Hitems4 & Hothers4).
  unfold addIfAbsent in Hrun4.
  unfold LegacyGraph.edge at 1 in Hout. rewrite Hrun4 in Hout.
  left. split.
  - split; now apply agreeing_sym.
  - exists r4. split; [exact Hout|]. split.
    + rewrite Hothers4, Hothers3, Hitems2, Hitems1. reflexivity.
    + rewrite Hitems4, Hitems3, Hothers2, Hothers1. reflexivity.
Qed.

Lemma merged_wellKeyed (g1 g2 result : Graph) :
  WellKeyed g1 -> WellKeyed g2 -> merged g1 g2 result -> WellKeyed result.
Proof.
  intros [Wn1 We1] [Wn2 We2] [Hn He]. split.
  - rewrite Hn. now apply fresh_distinct.
  - rewrite He. now apply fresh_distinct.
Qed.

(** X16.  [mergeConservative] of two graphs returns exactly when the
    graphs agree wherever both have a node or both have an edge; the
    merged graph then has, at every address, the node (the edge) of the
    first graph, or else that of the second, the items of the first
    graph coming first. *)
Theorem mergeConservative_spec (g1 g2 : Graph) :
  WellKeyed g1 -> WellKeyed g2 ->
  (agree g1 g2 ->
   exists result,
     mergeConservative Address_eq_dec addressType NP_eq_dec EP_eq_dec g1 g2
     = inr result
     /\ merged g1 g2 result
     /\ (forall a, node a result
                   = match node a g1 with Some n => Some n | None => node a g2 end)
     /\ (forall a, edge a result
                   = match edge a g1 with Some e => Some e | None => edge a g2 end))
  /\ (~ agree g1 g2 ->
      exists err,
        mergeConservative Address_eq_dec addressType NP_eq_dec EP_eq_dec g1 g2
        = inl err).
Proof.
  intros W1 W2.
  destruct (mergeConservative_run g1 g2 W1 W2)
    as [(Hagree & result & Hrun & Hn & He)|(Hnot & err & Hrun)].
  - split; [|tauto]. intros _. exists result. split; [exact Hrun|].
    split; [now split|]. split; intros a.
    + unfold LegacyGraph.node. rewrite Hn. apply get_fresh.
    + unfold LegacyGraph.edge. rewrite He. apply get_fresh.
  - split; [tauto|]. intros _. eauto.
Qed.

(** X17.  [copy()] returns a graph with the nodes and the edges of the
    graph, in the same order. *)
Theorem legacy_copy_spec (g : Graph) :
  WellKeyed g ->
  exists result,
    copy Address_eq_dec addressType NP_eq_dec EP_eq_dec g = inr result
    /\ _nodes result = _nodes g
    /\ _edges result = _edges g.
Proof.
  intros W. unfold copy.
  assert (W0 : WellKeyed (empty Address NP EP)) by (split; constructor).
  destruct (mergeConservative_run (empty Address NP EP) g W0 W)
    as [(_ & result & Hrun & Hn & He)|(Hnot & _)].
  - exists result. split; [exact Hrun|].
    assert (Hall : forall T (addressOf : T -> Address) (l : list T),
              fresh T addressOf [] l = l).
    { intros T addressOf l. unfold fresh. simpl.
      induction l as [|t l IH]; simpl; [reflexivity | now rewrite IH]. }
    rewrite Hn, He, !Hall. now split.
  - elim Hnot. split; intros t t' _ H; discriminate.
Qed.

(** *** [mergeManyConservative] *)

(** The body of the loop of [mergeManyConservative]. *)
Definition addAll (graph result : Graph) : Result :=
  match forEach addNode (nodes addressType None graph) result with
  | inl err => inl err
  | inr result => forEach addEdge (edgesOf addressType None graph) result
  end.

Lemma addAll_run (acc h : Graph) :
  WellKeyed acc -> WellKeyed h ->
  (agree acc h /\ exists result, addAll h acc = inr result /\ merged acc h result)
  \/ (~ agree acc h /\ exists err, addAll h acc = inl err).
Proof.
  intros [Wn We] [Wnh Weh]. unfold addAll.
  destruct (insertAll_run Node nodeOf Node_eq_dec nodesOf _ edgeMap addNode
              addNode_absent addNode_same addNode_other
              (nodes addressType None h) acc Wnh)
    as [(An & r1 & Hrun1 & Hitems1 & Hothers1)|(Cn & err & Hrun1)].
  2:{ right. split.
      - intros [Hn _]. exact (conflicting_not_agreeing _ _ _ _ Cn Hn).
      - exists err. now rewrite Hrun1. }
  rewrite Hrun1.
  destruct (insertAll_run Edge edgeAt legacy_Edge_eq_dec edgeMap _ nodesOf
              addEdge addEdge_absent addEdge_same addEdge_other
              (edgesOf addressType None h) r1 Weh)
    as [(Ae & r2 & Hrun2 & Hitems2 & Hothers2)|(Ce & err & Hrun2)].
  - left. rewrite Hothers1 in *. split; [now split|].
    exists r2. split; [exact Hrun2|].
    split; [rewrite Hothers2, Hitems1; reflexivity | exact Hitems2].
  - right. rewrite Hothers1 in Ce. split.
    + intros [_ He]. exact (conflicting_not_agreeing _ _ _ _ Ce He).
    + eauto.
Qed.

(** Two outcomes are alike: both are errors, or both are graphs with
    the same nodes and the same edges, in the same order. *)
Definition alike (o o' : Result) : Prop :=
  match o, o' with
  | inr r, inr r' => _nodes r = _nodes r' /\ _edges r = _edges r'
  | inl _, inl _ => True
  | _, _ => False
  end.

Lemma agree_same (acc acc' h : Graph) :
  _nodes acc = _nodes acc' -> _edges acc = _edges acc' ->
  agree acc h -> agree acc' h.
Proof. unfold agree. intros <- <-. auto. Qed.

Lemma fold_conservative_error graphs (err : LegacyError Address) :
  fold_left (fun acc h =>
               match acc with
               | inl err => inl err
               | inr g =>
                   mergeConservative Address_eq_dec addressType NP_eq_dec
                                     EP_eq_dec g h
               end)
            graphs (inl err)
  = inl err.
Proof. induction graphs as [|h graphs IH]; simpl; [reflexivity | exact IH]. Qed.

Lemma mergeMany_reduce graphs : forall acc acc' : Graph,
  Forall WellKeyed graphs ->
  WellKeyed acc -> _nodes acc = _nodes acc' -> _edges acc = _edges acc' ->
  alike (forEach addAll graphs acc)
        (fold_left (fun acc h =>
                      match acc with
                      | inl err => inl err
                      | inr g =>
                          mergeConservative Address_eq_dec addressType NP_eq_dec
                                            EP_eq_dec g h
                      end)
                   graphs (inr acc')).
Proof.
  induction graphs as [|h graphs IH]; intros acc acc' Hall W En Ee.
  - simpl. now split.
  - inversion Hall as [|? ? Wh Hall']; subst.
    assert (W' : WellKeyed acc') by (destruct W; split; congruence).
    simpl.
    destruct (addAll_run acc h W Wh)
      as [(Hagree & r & -> & Hm)|(Hnot & err & ->)];
      destruct (mergeConservative_run acc' h W' Wh)
        as [(Hagree' & r' & -> & Hm')|(Hnot' & err' & ->)].
    + apply IH; [assumption | exact (merged_wellKeyed _ _ _ W Wh Hm) | |].
      * destruct Hm as [-> _], Hm' as [-> _]. now rewrite En.
      * destruct Hm as [_ ->], Hm' as [_ ->]. now rewrite Ee.
    + elim Hnot'. exact (agree_same _ _ _ En Ee Hagree).
    + elim Hnot. exact (agree_same _ _ _ (eq_sym En) (eq_sym Ee) Hagree').
    + now rewrite fold_conservative_error.
Qed.

(** X18.  [mergeManyConservative] does what its comment says: on the
    same graphs, it and the chain of [mergeConservative] calls starting
    from a new graph both throw, or both return, and then the two
    graphs returned have the same nodes and the same edges, in the same
    order. *)
Theorem mergeManyConservative_reduce graphs :
  Forall WellKeyed graphs ->
  alike (mergeManyConservative Address_eq_dec addressType NP_eq_dec EP_eq_dec graphs)
        (reduceConservative Address_eq_dec addressType NP_eq_dec EP_eq_dec graphs).
Proof.
  intros Hall. unfold mergeManyConservative, reduceConservative.
  apply (mergeMany_reduce graphs (empty Address NP EP) (empty Address NP EP) Hall);
    [split; constructor | reflexivity | reflexivity].
Qed.

End WithPayloads.

End LegacyGraphFacts.

(** Two graphs with one node each, at the same address, with payloads 1
    and 2; the resolver keeps the larger payload.  The addresses are
    strings, all of one type. *)
Definition legacyType (a : string) : string := "NODE".

Definition legacyNode (p : nat) : LegacyGraph.Node string nat :=
  LegacyGraph.mkNode "a" p.

Definition legacyGraph (p : nat) : LegacyGraph.Graph string nat nat :=
  LegacyGraph.mkGraph [legacyNode p] []
    [LegacyGraph.mkAdjacent "a" []] [LegacyGraph.mkAdjacent "a" []].

Definition largerPayload (u v : LegacyGraph.Node string nat)
    : LegacyGraph.LegacyError string + LegacyGraph.Node string nat :=
  inr (LegacyGraph.mkNode (LegacyGraph.nodeAddress u)
         (Nat.max (LegacyGraph.nodePayload u) (LegacyGraph.nodePayload v))).

Definition firstEdge (e f : LegacyGraph.Edge string nat)
    : LegacyGraph.LegacyError string + LegacyGraph.Edge string nat :=
  inr e.

Lemma merge_conflicting_node_witness :
  (exists a',
     LegacyGraph.mergeConservative string_dec legacyType Nat.eq_dec Nat.eq_dec
       (legacyGraph 1) (legacyGraph 2)
     = inl (LegacyGraph.Distinct "nodes" a'))
  /\ exists result,
       LegacyGraph.merge string_dec legacyType Nat.eq_dec Nat.eq_dec
         (legacyGraph 1) (legacyGraph 2) largerPayload firstEdge
       = inr result
       /\ LegacyGraph.node string_dec "a" result = Some (legacyNode 2).
Proof.
  destruct (LegacyGraphFacts.merge_conflicting_node string string_dec legacyType nat nat
              Nat.eq_dec Nat.eq_dec (legacyGraph 1) (legacyGraph 2) "a"
              (legacyNode 1) (legacyNode 2)) as [Hconservative Hmerge].
  - split; repeat constructor; intros [].
  - reflexivity.
  - reflexivity.
  - discriminate.
  - split; [exact Hconservative|].
    destruct (Hmerge largerPayload firstEdge) as (result & resolved & Hrun & Hres & Hnode).
    + intros u v _. eexists. split; reflexivity.
    + intros e f _. eexists. split; reflexivity.
    + exists result. split; [exact Hrun|]. rewrite Hnode. f_equal.
      inversion Hres. reflexivity.
Defined.

(** A loop at the node of [legacyGraph 1]: [neighborhood] reports it
    once, with the node as its own neighbor. *)
Definition legacyLoop : LegacyGraph.Edge string nat :=
  LegacyGraph.mkEdge "e" "a" "a" 0%nat.

Example neighborhood_of_loop :
  exists g,
    LegacyGraph.addEdge string_dec Nat.eq_dec legacyLoop (legacyGraph 1) = inr g
    /\ LegacyGraph.neighborhood string_dec legacyType "a" None g
       = Some [LegacyGraph.mkNeighbor legacyLoop "a"].
Proof. eexists. split; reflexivity. Qed.

(** [legacyGraph 1] with the loop added, and how it is built. *)
Definition loopGraph : LegacyGraph.Graph string nat nat :=
  LegacyGraph.mkGraph [legacyNode 1] [legacyLoop]
    [LegacyGraph.mkAdjacent "a" ["e"%string]]
    [LegacyGraph.mkAdjacent "a" ["e"%string]].

Lemma loopGraph_obtained :
  LegacyGraphFacts.obtained string string_dec nat nat Nat.eq_dec Nat.eq_dec loopGraph.
Proof.
  apply (LegacyGraphFacts.obtained_addEdge _ _ _ _ _ _ legacyLoop (legacyGraph 1)).
  - apply (LegacyGraphFacts.obtained_addNode _ _ _ _ _ _ (legacyNode 1)
             (LegacyGraph.empty string nat nat)).
    + apply LegacyGraphFacts.obtained_empty.
    + reflexivity.
  - reflexivity.
Qed.

Lemma loopGraph_wellKeyed : LegacyGraphFacts.WellKeyed string nat nat loopGraph.
Proof. split; repeat constructor; intros []. Qed.

Lemma legacyGraph_wellKeyed p : LegacyGraphFacts.WellKeyed string nat nat (legacyGraph p).
Proof. split; repeat constructor; intros []. Qed.

Lemma adjacency_lists_exact_witness :
  count_occ string_dec
    (LegacyGraph._lookupEdges string_dec (LegacyGraph._outEdges loopGraph) "a") "e" = 1%nat
  /\ count_occ string_dec
       (LegacyGraph._lookupEdges string_dec (LegacyGraph._inEdges loopGraph) "a") "e" = 1%nat.
Proof.
  destruct (LegacyGraphFacts.adjacency_lists_exact string string_dec legacyType nat nat
              Nat.eq_dec Nat.eq_dec loopGraph loopGraph_obtained) as [Honce _].
  exact (Honce legacyLoop eq_refl).
Defined.

Lemma mergeConservative_spec_witness :
  exists result,
    LegacyGraph.mergeConservative string_dec legacyType Nat.eq_dec Nat.eq_dec
      (legacyGraph 1) loopGraph
    = inr result
    /\ LegacyGraph.node string_dec "a" result = Some (legacyNode 1)
    /\ LegacyGraph.edge string_dec "e" result = Some legacyLoop.
Proof.
  destruct (LegacyGraphFacts.mergeConservative_spec string string_dec legacyType
              nat nat Nat.eq_dec Nat.eq_dec (legacyGraph 1) loopGraph
              (legacyGraph_wellKeyed 1) loopGraph_wellKeyed) as [Hreturns _].
  destruct Hreturns as (result & Hrun & _ & Hnode & Hedge).
  - split.
    + intros t t' [<-|[]] H. now inversion H.
    + intros t t' _ H. discriminate.
  - exists result. split; [exact Hrun|].
    rewrite Hnode, Hedge. split; reflexivity.
Defined.

Lemma legacy_copy_spec_witness :
  exists result,
    LegacyGraph.copy string_dec legacyType Nat.eq_dec Nat.eq_dec loopGraph
    = inr result
    /\ LegacyGraph._nodes result = [legacyNode 1]
    /\ LegacyGraph._edges result = [legacyLoop].
Proof.
  exact (LegacyGraphFacts.legacy_copy_spec string string_dec legacyType nat nat
           Nat.eq_dec Nat.eq_dec loopGraph loopGraph_wellKeyed).
Defined.

Lemma mergeManyConservative_reduce_witness :
  let graphs := [legacyGraph 1; loopGraph; legacyGraph 2] in
  LegacyGraphFacts.alike string nat nat
    (LegacyGraph.mergeManyConservative string_dec legacyType Nat.eq_dec Nat.eq_dec
       graphs)
    (LegacyGraph.reduceConservative string_dec legacyType Nat.eq_dec Nat.eq_dec
       graphs).
Proof.
  intros graphs.
  apply (LegacyGraphFacts.mergeManyConservative_reduce string string_dec legacyType
           nat nat Nat.eq_dec Nat.eq_dec graphs).
  apply Forall_cons; [apply legacyGraph_wellKeyed|].
  apply Forall_cons; [apply loopGraph_wellKeyed|].
  apply Forall_cons; [apply legacyGraph_wellKeyed|].
  apply Forall_nil.
Defined.

(* ================================================================== *)
(** * Part III.  Further properties of the code                        *)
(* ================================================================== *)

(** ** Cred data: the two compressions and [computeCredData] *)

Module CredDataCompression.

Import CredData.

Section WithNumber.

Variable number : Type.
Variable lt : number -> number -> bool.
Variable ge : number -> number -> bool.

#[local] Abbreviation CredData := (CredData.CredData number).
#[local] Abbreviation byThreshold := (compressByThreshold lt ge).

(** The callback of [compressDownToMatchingIndices] on [nodeOverTime]. *)
Definition keepMatching (inclusionIndices : list nat)
    (d : option (NodeCredOverTime number)) (i : nat)
    : option (NodeCredOverTime number) :=
  match d with
  | None => None
  | Some d =>
      if existsb (Nat.eqb i) inclusionIndices
      then Some (mkNodeCredOverTime (credOverTime d) None None)
      else None
  end.

Lemma mapIndexed_twice {A} (f g h : A -> nat -> A) :
  (forall d i, g (f d i) i = h d i) ->
  forall l i, mapIndexed g i (mapIndexed f i l) = mapIndexed h i l.
Proof.
  intros Hfg. induction l as [|d l IH]; intros i; simpl; [reflexivity|].
  now rewrite Hfg, IH.
Qed.

Lemma keepMatching_both indices indices' d i :
  keepMatching indices' (keepMatching indices d i) i
  = keepMatching (filter (fun j => existsb (Nat.eqb j) indices') indices) d i.
Proof.
  unfold keepMatching. destruct d as [d|]; [|reflexivity].
  assert (Hboth : existsb (Nat.eqb i)
                    (filter (fun j => existsb (Nat.eqb j) indices') indices)
                  = existsb (Nat.eqb i) indices && existsb (Nat.eqb i) indices').
  { induction indices as [|j l IH]; simpl; [reflexivity|].
    destruct (Nat.eqb i j) eqn:E.
    - apply Nat.eqb_eq in E. subst j. simpl.
      destruct (existsb (Nat.eqb i) indices') eqn:E'; simpl.
      + now rewrite Nat.eqb_refl.
      + rewrite IH. apply andb_false_r.
    - simpl. destruct (existsb (Nat.eqb j) indices'); simpl; [rewrite E|];
        exact IH. }
  rewrite Hboth.
  destruct (existsb (Nat.eqb i) indices); simpl; [|reflexivity].
  now destruct (existsb (Nat.eqb i) indices').
Qed.

(** X1.  [compressDownToMatchingIndices] after
    [compressDownToMatchingIndices] keeps the cred series of the nodes
    whose index is in both sets and nothing else, as one call with the
    common indices does; so the function is idempotent, as its comment
    asks. *)
Theorem compressDownToMatchingIndices_twice (x : CredData) indices indices' :
  compressDownToMatchingIndices
    (compressDownToMatchingIndices x indices) indices'
  = compressDownToMatchingIndices x
      (filter (fun j => existsb (Nat.eqb j) indices') indices)
  /\ compressDownToMatchingIndices
       (compressDownToMatchingIndices x indices) indices
     = compressDownToMatchingIndices x indices.
Proof.
  assert (Hgen : forall s s' s'',
            (forall d i, keepMatching s' (keepMatching s d i) i
                         = keepMatching s'' d i) ->
            compressDownToMatchingIndices
              (compressDownToMatchingIndices x s) s'
            = compressDownToMatchingIndices x s'').
  { intros s s' s'' H. unfold compressDownToMatchingIndices. simpl. f_equal.
    - apply (mapIndexed_twice (keepMatching s) (keepMatching s')
                              (keepMatching s'') H).
    - rewrite map_map. reflexivity. }
  split; apply Hgen.
  - apply keepMatching_both.
  - intros d i. unfold keepMatching. destruct d as [d|]; [|reflexivity].
    destruct (existsb (Nat.eqb i) indices); reflexivity.
Qed.

(** *** Two thresholds *)

Lemma mapFrom_after {A} (f g : A -> nat -> option A) :
  (forall d i d', f d i = Some d' -> g d' i = g d i) ->
  forall l i l', mapFrom f i l = Some l' -> mapFrom g i l' = mapFrom g i l.
Proof.
  intros Hfg. induction l as [|d l IH]; intros i l'; simpl.
  - now intros [= <-].
  - destruct (f d i) as [y|] eqn:Hy; [|discriminate].
    destruct (mapFrom f (S i) l) as [ys|] eqn:Hys; [|discriminate].
    intros [= <-]. simpl. now rewrite (Hfg _ _ _ Hy), (IH _ _ Hys).
Qed.

Section TwoThresholds.

Variables t t' : number.

(** [t'] is at least [t], as far as the two comparisons can tell. *)
Hypothesis lt_larger : forall a, lt a t = true -> lt a t' = true.
Hypothesis ge_larger : forall a, ge a t' = true -> ge a t = true.

Lemma compressNode_after summaries d i d' :
  compressNode lt summaries t d i = Some d' ->
  compressNode lt summaries t' d' i = compressNode lt summaries t' d i.
Proof.
  unfold compressNode. destruct d as [d|]; [|now intros [= <-]].
  destruct (nth_error summaries i) as [s|] eqn:Hs; [|discriminate].
  destruct (lt (cred s) t) eqn:Hc; intros [= <-].
  - now rewrite (lt_larger _ Hc).
  - destruct (lt (cred s) t'); [reflexivity|]. simpl.
    do 2 f_equal. f_equal.
    + destruct (lt (seedFlow s) t') eqn:E'; [reflexivity|].
      destruct (lt (seedFlow s) t) eqn:E; [|reflexivity].
      rewrite (lt_larger _ E) in E'. discriminate.
    + destruct (lt (syntheticLoopFlow s) t') eqn:E'; [reflexivity|].
      destruct (lt (syntheticLoopFlow s) t) eqn:E; [|reflexivity].
      rewrite (lt_larger _ E) in E'. discriminate.
Qed.

Lemma compressEdge_after summaries d i d' :
  compressEdge ge summaries t d i = Some d' ->
  compressEdge ge summaries t' d' i = compressEdge ge summaries t' d i.
Proof.
  unfold compressEdge. destruct d as [d|]; [|now intros [= <-]].
  destruct (nth_error summaries i) as [s|] eqn:Hs; [|discriminate].
  pose proof (ge_larger (forwardFlow s)) as Hf.
  pose proof (ge_larger (backwardFlow s)) as Hb.
  destruct (ge (forwardFlow s) t) eqn:Ef, (ge (backwardFlow s) t) eqn:Eb;
    simpl; intros [= <-]; rewrite ?Hs;
    destruct (ge (forwardFlow s) t') eqn:Ef', (ge (backwardFlow s) t') eqn:Eb';
    simpl; try reflexivity;
    try (specialize (Hf eq_refl); discriminate);
    try (specialize (Hb eq_refl); discriminate).
Qed.

(** X2.  Compressing at a threshold and then at one that is at least as
    large gives what compressing at the larger threshold alone gives;
    nothing that the second pass would keep is lost in the first. *)
Theorem compressByThreshold_then_larger (x y : CredData) :
  byThreshold x t = Some y ->
  byThreshold y t' = byThreshold x t'.
Proof.
  unfold compressByThreshold.
  destruct (mapFrom _ 0 (nodeOverTime x)) as [ns|] eqn:Hn; [|discriminate].
  destruct (mapFrom _ 0 (edgeOverTime x)) as [es|] eqn:He; [|discriminate].
  intros [= <-]. simpl.
  rewrite (mapFrom_after _ _ (compressNode_after (nodeSummaries x)) _ _ _ Hn).
  now rewrite (mapFrom_after _ _ (compressEdge_after (edgeSummaries x)) _ _ _ He).
Qed.

End TwoThresholds.

(** *** The two compressions together *)

Lemma mapFrom_keepMatching summaries t indices l : forall i l',
  mapFrom (compressNode lt summaries t) i l = Some l' ->
  mapFrom (compressNode lt summaries t) i (mapIndexed (keepMatching indices) i l)
  = Some (mapIndexed (keepMatching indices) i l').
Proof.
  induction l as [|d l IH]; intros i l'; simpl.
  - now intros [= <-].
  - destruct (compressNode lt summaries t d i) as [y|] eqn:Hy; [|discriminate].
    destruct (mapFrom _ (S i) l) as [ys|] eqn:Hys; [|discriminate].
    intros [= <-]. simpl. rewrite (IH _ _ Hys).
    assert (Hd : compressNode lt summaries t (keepMatching indices d i) i
                 = Some (keepMatching indices y i)).
    { unfold compressNode, keepMatching in *. destruct d as [d|].
      - destruct (nth_error summaries i) as [s|] eqn:Hs; [|discriminate].
        destruct (lt (cred s) t) eqn:Hc; inversion Hy; subst y;
          destruct (existsb (Nat.eqb i) indices); simpl;
          rewrite ?Hs, ?Hc; simpl; try reflexivity.
        now destruct (lt (seedFlow s) t), (lt (syntheticLoopFlow s) t).
      - now inversion Hy. }
    now rewrite Hd.
Qed.

Lemma mapFrom_dropped summaries t l : forall i l',
  mapFrom (compressEdge ge summaries t) i l = Some l' ->
  mapFrom (compressEdge ge summaries t) i (map (fun _ => None) l)
  = Some (map (fun _ => None) l').
Proof.
  induction l as [|d l IH]; intros i l'; simpl.
  - now intros [= <-].
  - destruct (compressEdge ge summaries t d i) as [y|]; [|discriminate].
    destruct (mapFrom _ (S i) l) as [ys|] eqn:Hys; [|discriminate].
    intros [= <-]. simpl. now rewrite (IH _ _ Hys).
Qed.

(** X3.  The two compressions can be chained in either order: when
    [compressByThreshold] returns on the data, it returns on the data
    compressed down to a set of indices as well, and its result is its
    result on the original data compressed down to those indices. *)
Theorem compressions_commute (x y : CredData) t indices :
  byThreshold x t = Some y ->
  byThreshold (compressDownToMatchingIndices x indices) t
  = Some (compressDownToMatchingIndices y indices).
Proof.
  unfold compressByThreshold.
  destruct (mapFrom _ 0 (nodeOverTime x)) as [ns|] eqn:Hn; [|discriminate].
  destruct (mapFrom _ 0 (edgeOverTime x)) as [es|] eqn:He; [|discriminate].
  intros [= <-]. unfold compressDownToMatchingIndices. simpl.
  pose proof (mapFrom_keepMatching _ _ indices _ _ _ Hn) as Hn'.
  unfold keepMatching in Hn'. rewrite Hn'.
  now rewrite (mapFrom_dropped _ _ _ _ _ He).
Qed.

End WithNumber.

End CredDataCompression.

(** Integer cred: two nodes, one edge, two intervals. *)
Definition credExample : CredData.CredData Z :=
  CredData.mkCredData
    [CredData.mkNodeCredSummary 5 1 0; CredData.mkNodeCredSummary 1 1 0]%Z
    [Some (CredData.mkNodeCredOverTime [2; 3] (Some [1; 0]) (Some [0; 0]));
     Some (CredData.mkNodeCredOverTime [1; 0] (Some [1; 0]) (Some [0; 0]))]%Z
    [CredData.mkEdgeCredSummary 4 0]%Z
    [Some (CredData.mkEdgeCredOverTime (Some [2; 2]) (Some [0; 0]))]%Z
    [10; 20]%Z.

Lemma compressByThreshold_then_larger_witness :
  exists y,
    CredData.compressByThreshold Z.ltb Z.geb credExample 2%Z = Some y
    /\ CredData.compressByThreshold Z.ltb Z.geb y 4%Z
       = CredData.compressByThreshold Z.ltb Z.geb credExample 4%Z.
Proof.
  eexists. split; [reflexivity|].
  apply (CredDataCompression.compressByThreshold_then_larger
           Z Z.ltb Z.geb 2%Z 4%Z).
  - intros a H. apply Z.ltb_lt in H. apply Z.ltb_lt. lia.
  - intros a H. apply Z.geb_le in H. apply Z.geb_le. lia.
  - reflexivity.
Defined.

Lemma compressions_commute_witness :
  exists y,
    CredData.compressByThreshold Z.ltb Z.geb credExample 2%Z = Some y
    /\ CredData.compressByThreshold Z.ltb Z.geb
         (CredData.compressDownToMatchingIndices credExample [0%nat]) 2%Z
       = Some (CredData.compressDownToMatchingIndices y [0%nat]).
Proof.
  eexists. split; [reflexivity|].
  apply (CredDataCompression.compressions_commute Z Z.ltb Z.geb).
  reflexivity.
Defined.

(** ** [computeCredData]: the loops compute the series and their sums *)

Module ComputeCredData.

Import CredData.

Section WithNumber.

Variable number : Type.
Variable zero : number.
Variable add : number -> number -> number.
Variable undefined : number.

#[local] Abbreviation Scores := (CredScores number).
#[local] Abbreviation read := (CredData.read undefined).

(** What the intervals hold at index [n] of one of their arrays, in the
    order of the intervals. *)
Definition series (field : Scores -> list number) (scores : list Scores)
    (n : nat) : list number :=
  map (fun s => read (field s) n) scores.

(** The sum as the loop forms it: from [0], interval after interval. *)
Definition total (values : list number) : number := fold_left add values zero.

(** *** Updating every index once *)

Lemma updateAt_app {A} (f : A -> A) l l' :
  updateAt (List.length l) f (l ++ l')
  = l ++ match l' with [] => [] | x :: rest => f x :: rest end.
Proof.
  induction l as [|y l IH]; simpl.
  - now destruct l'.
  - now rewrite IH.
Qed.

Lemma fold_updateAt {A} (f : nat -> A -> A) l' : forall l,
  fold_left (fun acc n => updateAt n (f n) acc)
            (seq (List.length l) (List.length l')) (l ++ l')
  = l ++ mapIndexed (fun x n => f n x) (List.length l) l'.
Proof.
  induction l' as [|x l' IH]; intros l; simpl; [reflexivity|].
  rewrite updateAt_app.
  change (l ++ f (List.length l) x :: l')
    with (l ++ [f (List.length l) x] ++ l').
  rewrite app_assoc.
  replace (S (List.length l))
    with (List.length (l ++ [f (List.length l) x]))
    by (rewrite length_app; simpl; lia).
  rewrite IH, <- app_assoc. reflexivity.
Qed.

Lemma mapIndexed_map {B C} (f : B -> nat -> C) (g : nat -> B) k : forall i,
  mapIndexed f i (map g (seq i k)) = map (fun n => f (g n) n) (seq i k).
Proof.
  induction k as [|k IH]; intros i; simpl; [reflexivity|]. now rewrite IH.
Qed.

(** One pass over the indices updates each entry of a table laid out by
    index. *)
Lemma fold_table {A} (f : nat -> A -> A) (g : nat -> A) k :
  fold_left (fun acc n => updateAt n (f n) acc) (seq 0 k) (map g (seq 0 k))
  = map (fun n => f n (g n)) (seq 0 k).
Proof.
  pose proof (fold_updateAt f (map g (seq 0 k)) []) as H. simpl in H.
  rewrite length_map, length_seq in H. rewrite H. apply mapIndexed_map.
Qed.

(** *** The two inner loops *)

Lemma accumulateNodes_run i (scores : Scores) ns : forall acc,
  fold_left (accumulateNode add undefined i scores) ns acc
  = mkAccumulator
      (fold_left
         (fun l n =>
            updateAt n
              (fun s => mkNodeCredSummary
                          (add (cred s) (read (scoreCred scores) n))
                          (add (seedFlow s) (read (scoreSeedFlow scores) n))
                          (add (syntheticLoopFlow s)
                               (read (scoreSyntheticLoopFlow scores) n)))
              l)
         ns (accNodeSummaries acc))
      (fold_left
         (fun l n =>
            updateAt n
              (fun d => mkNodeSeries
                  (updateAt i (fun _ => read (scoreCred scores) n) (credSeries d))
                  (updateAt i (fun _ => read (scoreSeedFlow scores) n)
                            (seedFlowSeries d))
                  (updateAt i (fun _ => read (scoreSyntheticLoopFlow scores) n)
                            (syntheticLoopFlowSeries d)))
              l)
         ns (accNodeOverTime acc))
      (accEdgeSummaries acc)
      (accEdgeOverTime acc).
Proof.
  induction ns as [|n ns IH]; intros acc; simpl.
  - now destruct acc.
  - rewrite IH. reflexivity.
Qed.

Lemma accumulateEdges_run i (scores : Scores) es : forall acc,
  fold_left (accumulateEdge add undefined i scores) es acc
  = mkAccumulator
      (accNodeSummaries acc)
      (accNodeOverTime acc)
      (fold_left
         (fun l e =>
            updateAt e
              (fun s => mkEdgeCredSummary
                          (add (forwardFlow s) (read (scoreForwardFlow scores) e))
                          (add (backwardFlow s) (read (scoreBackwardFlow scores) e)))
              l)
         es (accEdgeSummaries acc))
      (fold_left
         (fun l e =>
            updateAt e
              (fun d => mkEdgeSeries
                  (updateAt i (fun _ => read (scoreForwardFlow scores) e)
                            (forwardFlowSeries d))
                  (updateAt i (fun _ => read (scoreBackwardFlow scores) e)
                            (backwardFlowSeries d)))
              l)
         es (accEdgeOverTime acc)).
Proof.
  induction es as [|e es IH]; intros acc; simpl.
  - now destruct acc.
  - rewrite IH. reflexivity.
Qed.

(** *** The outer loop *)

Variables numNodes numEdges numIntervals : nat.

(** A series filled for the intervals [done]; the slots of the others
    are still empty. *)
Definition filled (field : Scores -> list number) (done : list Scores)
    (n : nat) : list number :=
  series field done n ++ repeat undefined (numIntervals - List.length done).

(** The accumulator once the intervals [done] have been processed. *)
Definition after (done : list Scores) : Accumulator number :=
  mkAccumulator
    (map (fun n => mkNodeCredSummary
                     (total (series (@scoreCred number) done n))
                     (total (series (@scoreSeedFlow number) done n))
                     (total (series (@scoreSyntheticLoopFlow number) done n)))
         (seq 0 numNodes))
    (map (fun n => mkNodeSeries
                     (filled (@scoreCred number) done n)
                     (filled (@scoreSeedFlow number) done n)
                     (filled (@scoreSyntheticLoopFlow number) done n))
         (seq 0 numNodes))
    (map (fun e => mkEdgeCredSummary
                     (total (series (@scoreForwardFlow number) done e))
                     (total (series (@scoreBackwardFlow number) done e)))
         (seq 0 numEdges))
    (map (fun e => mkEdgeSeries
                     (filled (@scoreForwardFlow number) done e)
                     (filled (@scoreBackwardFlow number) done e))
         (seq 0 numEdges)).

Lemma total_snoc field done (s : Scores) n :
  add (total (series field done n)) (read (field s) n)
  = total (series field (done ++ [s]) n).
Proof.
  unfold total, series. now rewrite map_app, fold_left_app.
Qed.

Lemma filled_snoc field done (s : Scores) n :
  (List.length done < numIntervals)%nat ->
  updateAt (List.length done) (fun _ => read (field s) n) (filled field done n)
  = filled field (done ++ [s]) n.
Proof.
  intros Hlt. unfold filled, series.
  replace (List.length done)
    with (List.length (map (fun s0 : Scores => read (field s0) n) done)) at 1
    by apply length_map.
  rewrite updateAt_app, map_app, length_app. simpl.
  replace (numIntervals - List.length done)%nat
    with (S (numIntervals - (List.length done + 1)))%nat by lia.
  simpl. now rewrite <- app_assoc.
Qed.

Lemma accumulateInterval_run done (s : Scores) :
  (List.length done < numIntervals)%nat ->
  accumulateInterval add undefined numNodes numEdges (after done)
                     (List.length done, s)
  = after (done ++ [s]).
Proof.
  intros Hlt. unfold accumulateInterval.
  rewrite accumulateEdges_run, accumulateNodes_run. unfold after. simpl.
  rewrite !fold_table. f_equal; apply map_ext; intros n;
    cbn [cred seedFlow syntheticLoopFlow forwardFlow backwardFlow
         credSeries seedFlowSeries syntheticLoopFlowSeries
         forwardFlowSeries backwardFlowSeries].
  - now rewrite !total_snoc.
  - now rewrite !filled_snoc.
  - now rewrite !total_snoc.
  - now rewrite !filled_snoc.
Qed.

Lemma accumulateIntervals_run todo : forall done,
  (List.length done + List.length todo <= numIntervals)%nat ->
  fold_left (accumulateInterval add undefined numNodes numEdges)
            (combine (seq (List.length done) (List.length todo)) todo)
            (after done)
  = after (done ++ todo).
Proof.
  induction todo as [|s todo IH]; intros done Hlen;
    cbn [List.length seq combine fold_left].
  - now rewrite app_nil_r.
  - simpl in Hlen. rewrite accumulateInterval_run by lia.
    replace (S (List.length done)) with (List.length (done ++ [s]))
      by (rewrite length_app; simpl; lia).
    rewrite IH by (rewrite length_app; simpl; lia).
    now rewrite <- app_assoc.
Qed.

End WithNumber.

(** X4.  [computeCredData] lays the scores out by node and by edge: the
    over-time arrays of a node (an edge) list its values interval by
    interval, read at the index of the node in the arrays of each
    interval, and each summary is the sum of the corresponding array,
    added up from [0] in the order of the intervals.  There are as many
    nodes (edges) as the first interval has cred values (forward
    flows); without intervals the result is empty. *)
Theorem computeCredData_spec {number} (zero : number) add undefined
    (scores : list (CredScores number)) :
  let numNodes := match scores with
                  | [] => 0%nat
                  | first :: _ => List.length (scoreCred first)
                  end in
  let numEdges := match scores with
                  | [] => 0%nat
                  | first :: _ => List.length (scoreForwardFlow first)
                  end in
  let column field n := series number undefined field scores n in
  let sum field n := total number zero add (column field n) in
  computeCredData zero add undefined scores
  = mkCredData
      (map (fun n => mkNodeCredSummary
                       (sum (@scoreCred number) n)
                       (sum (@scoreSeedFlow number) n)
                       (sum (@scoreSyntheticLoopFlow number) n))
           (seq 0 numNodes))
      (map (fun n => Some (mkNodeCredOverTime
                             (column (@scoreCred number) n)
                             (Some (column (@scoreSeedFlow number) n))
                             (Some (column (@scoreSyntheticLoopFlow number) n))))
           (seq 0 numNodes))
      (map (fun e => mkEdgeCredSummary
                       (sum (@scoreForwardFlow number) e)
                       (sum (@scoreBackwardFlow number) e))
           (seq 0 numEdges))
      (map (fun e => Some (mkEdgeCredOverTime
                             (Some (column (@scoreForwardFlow number) e))
                             (Some (column (@scoreBackwardFlow number) e))))
           (seq 0 numEdges))
      (map (@endTimeMs number) scores).
Proof.
  destruct scores as [|first rest]; [reflexivity|].
  cbv zeta. unfold computeCredData.
  set (scores := first :: rest).
  set (numNodes := List.length (scoreCred first)).
  set (numEdges := List.length (scoreForwardFlow first)).
  pose proof (accumulateIntervals_run number zero add undefined numNodes numEdges
                (List.length scores) scores [] (Nat.le_refl _)) as Hrun.
  assert (Hstart :
            after number zero add undefined numNodes numEdges (List.length scores) []
            = mkAccumulator
                (repeat (mkNodeCredSummary zero zero zero) numNodes)
                (repeat (mkNodeSeries
                           (repeat undefined (List.length scores))
                           (repeat undefined (List.length scores))
                           (repeat undefined (List.length scores))) numNodes)
                (repeat (mkEdgeCredSummary zero zero) numEdges)
                (repeat (mkEdgeSeries
                           (repeat undefined (List.length scores))
                           (repeat undefined (List.length scores))) numEdges)).
  { assert (Hconst : forall {A} (c : A) k, map (fun _ => c) (seq 0 k) = repeat c k).
    { intros A c k. generalize 0%nat.
      induction k as [|k IH]; intros i; simpl; [reflexivity|]. now rewrite IH. }
    unfold after, filled, series, total. simpl.
    rewrite ?Nat.sub_0_r. now rewrite !Hconst. }
  change (List.length (@nil (CredScores number))) with 0%nat in Hrun.
  change ([] ++ scores) with scores in Hrun.
  rewrite Hstart in Hrun.
  subst scores numNodes numEdges.
  cbv beta iota zeta delta [computeCredData].
  rewrite Hrun. unfold after, filled.
  cbn [accNodeSummaries accNodeOverTime accEdgeSummaries accEdgeOverTime].
  rewrite Nat.sub_diag, !map_map.
  f_equal; apply map_ext; intros n;
    cbn [credSeries seedFlowSeries syntheticLoopFlowSeries
         forwardFlowSeries backwardFlowSeries repeat];
    now rewrite ?app_nil_r.
Qed.

End ComputeCredData.

(** ** [neighbors]: every direction, and what is yielded *)

(** Whether [neighbors(n, options)] reports the edge [e]: from the scan
    of the in-edges of [n] (unless the direction is [ANY] and [e] is a
    loop) or from the scan of its out-edges. *)
Definition reportedBy (n : NodeAddressT) (options : NeighborsOptions) (e : Edge)
    : bool :=
  let d := direction options in
  String.prefix (edgePrefix options) (address e)
  && (((DirectionT_eqb d IN || DirectionT_eqb d ANY)
       && String.eqb (dst e) n
       && negb (DirectionT_eqb d ANY && String.eqb (src e) (dst e))
       && String.prefix (nodePrefix options) (src e))
      || ((DirectionT_eqb d OUT || DirectionT_eqb d ANY)
          && String.eqb (src e) n
          && String.prefix (nodePrefix options) (dst e))).

Section NeighborsInEveryDirection.

Variable NODE_ENV : string.
Variable n : NodeAddressT.
Variable options : NeighborsOptions.

Hypothesis nodePrefix_valid : NodeAddress.isValid (nodePrefix options) = true.
Hypothesis edgePrefix_valid : EdgeAddress.isValid (edgePrefix options) = true.

Lemma hasNode_run a g :
  GraphInvariant g -> NodeAddress.isValid a = true ->
  hasNode NODE_ENV a g
  = Returned (JsSet.has a (_nodes g)) (afterMaybeCheck NODE_ENV g).
Proof.
  intros Hinv Hvalid. unfold hasNode, assertValidNode, bind, this, ret.
  rewrite Hvalid. now rewrite (maybeCheckInvariants_run NODE_ENV g Hinv).
Qed.

(** The items that the generator ranges over. *)
Definition scanned (ins outs : list Edge) : list (DirectionT * Edge) :=
  (if DirectionT_eqb (direction options) IN
      || DirectionT_eqb (direction options) ANY
   then map (pair IN) ins else [])
  ++ (if DirectionT_eqb (direction options) OUT
         || DirectionT_eqb (direction options) ANY
      then map (pair OUT) outs else []).

Lemma neighborsSource_scanned g ins outs :
  JsMap.get n (_inEdges g) = Some ins ->
  JsMap.get n (_outEdges g) = Some outs ->
  neighborsSource (n, options) g = inr (scanned ins outs).
Proof.
  intros Gi Go. unfold neighborsSource, scanned. rewrite Gi, Go.
  destruct (DirectionT_eqb (direction options) IN
            || DirectionT_eqb (direction options) ANY),
           (DirectionT_eqb (direction options) OUT
            || DirectionT_eqb (direction options) ANY); reflexivity.
Qed.

Lemma selected_scan_sound scan es x :
  (forall e', In e' es ->
     NodeAddress.isValid (src e') = true /\ NodeAddress.isValid (dst e') = true
     /\ EdgeAddress.isValid (address e') = true) ->
  In x (selected neighborsSelect (n, options) (map (pair scan) es)) ->
  In (edge x) es
  /\ node x = neighborNode scan (edge x)
  /\ neighborPasses options scan (edge x) = true.
Proof.
  intros Hvalid. induction es as [|e es IH]; [intros []|].
  change (map (pair scan) (e :: es)) with ((scan, e) :: map (pair scan) es).
  rewrite selected_cons.
  destruct (Hvalid e (or_introl eq_refl)) as (Vs & Vd & Va).
  rewrite (neighborsSelect_valid n options nodePrefix_valid edgePrefix_valid
             scan e Vs Vd Va).
  intros Hin. apply in_app_or in Hin as [Hin|Hin].
  - destruct (neighborPasses options scan e) eqn:Hp; [|destruct Hin].
    destruct Hin as [<-|[]]. simpl. auto.
  - destruct IH as (Hes & Hnode & Hp); [intros e' He'; apply Hvalid; now right
                                       | exact Hin |].
    split; [now right | now split].
Qed.

(** X5.  [neighbors(n, options)] on a graph holding [n], in any
    direction and with valid prefixes: the call returns an iterator that,
    on the unmodified graph, yields a list of neighbors and then reports
    the end.  Every neighbor yielded carries an edge of the graph that
    has [n] as [dst] (then the neighbor is its [src]) or as [src] (then
    the neighbor is its [dst]), and an edge of the graph is yielded once
    if it enters [n] and the direction is [IN] or [ANY], or leaves [n]
    and the direction is [OUT] or [ANY], and passes both prefix filters,
    and never otherwise. *)
Theorem neighbors_spec g :
  reachable NODE_ENV g ->
  In n (_nodes g) ->
  let g1 := afterMaybeCheck NODE_ENV g in
  let it := _neighbors n options (_modificationCount g) in
  exists yielded,
    neighbors NODE_ENV n options g = Returned it g1
    /\ (forall k, (List.length yielded < k)%nat ->
        exists it',
          completed it' = true
          /\ iterate NODE_ENV neighborsSource neighborsSelect k it g1
             = (yielded, (it', Returned Done g1)))
    /\ (forall x, In x yielded ->
        JsMap.get (address (edge x)) (_edges g) = Some (edge x)
        /\ ((dst (edge x) = n /\ node x = src (edge x))
            \/ (src (edge x) = n /\ node x = dst (edge x))))
    /\ (forall e, JsMap.get (address e) (_edges g) = Some e ->
        occurrences e yielded = if reportedBy n options e then 1%nat else 0%nat).
Proof.
  intros Hreach Hn g1 it.
  pose proof (reachable_invariant NODE_ENV g Hreach) as Hinv.
  pose proof (afterMaybeCheck_invariant NODE_ENV g Hinv) as Hinv1.
  destruct Hinv as [Hd Hb].
  destruct (afterMaybeCheck_data NODE_ENV g) as (En & Ee & Ei & Eo & Ec).
  subst g1. set (g1 := afterMaybeCheck NODE_ENV g) in *.
  destruct (invariant_1 g Hd n Hn) as [Hi Ho].
  destruct (JsMap.get n (_inEdges g)) as [ins|] eqn:Gi; [|congruence].
  destruct (JsMap.get n (_outEdges g)) as [outs|] eqn:Go; [|congruence].
  clear Hi Ho.
  assert (Hadj : forall kind es, JsMap.get n (adjacencyIndex kind g) = Some es ->
            forall e', In e' es ->
            JsMap.get (address e') (_edges g) = Some e'
            /\ baseNodeAccessor kind e' = n).
  { intros kind es Hes.
    assert (Hk : AdjacencyInvariant kind g)
      by (destruct kind; [apply (invariant_3 g Hd) | apply (invariant_4 g Hd)]).
    apply (Hk n es Hes). }
  assert (Hvalid : forall kind es, JsMap.get n (adjacencyIndex kind g) = Some es ->
            forall e', In e' es ->
            NodeAddress.isValid (src e') = true /\ NodeAddress.isValid (dst e') = true
            /\ EdgeAddress.isValid (address e') = true).
  { intros kind es Hes e' He'.
    destruct (Hadj kind es Hes e' He') as [Hget _].
    destruct (invariant_2 g Hd _ _ Hget) as (_ & Hs & Hd' & _).
    repeat split.
    - now apply (nodes_valid g Hd).
    - now apply (nodes_valid g Hd).
    - now apply (edges_valid g Hd _ _ Hget). }
  pose proof (Hvalid InEdgeKind ins Gi) as Vin.
  pose proof (Hvalid OutEdgeKind outs Go) as Vout.
  pose proof (scan_occurrences n options nodePrefix_valid edgePrefix_valid
                IN ins) as Sin.
  pose proof (scan_occurrences n options nodePrefix_valid edgePrefix_valid
                OUT outs) as Sout.
  set (items := scanned ins outs).
  assert (Hsel : selectable neighborsSelect (n, options) items).
  { intros item Hitem. unfold items, scanned in Hitem.
    apply in_app_or in Hitem as [Hitem|Hitem].
    - destruct (DirectionT_eqb (direction options) IN
                || DirectionT_eqb (direction options) ANY); [|destruct Hitem].
      now apply (proj1 (Sin (mkEdge "" "" "") Vin)).
    - destruct (DirectionT_eqb (direction options) OUT
                || DirectionT_eqb (direction options) ANY); [|destruct Hitem].
      now apply (proj1 (Sout (mkEdge "" "" "") Vout)). }
  exists (selected neighborsSelect (n, options) items).
  split; [|split; [|split]].
  - unfold neighbors, bind.
    rewrite (hasNode_run n g (conj Hd Hb) (nodes_valid g Hd n Hn)).
    rewrite (proj2 (JsSetFacts.has_In n (_nodes g)) Hn). simpl.
    unfold this, ret. fold g1.
    rewrite (maybeCheckInvariants_run NODE_ENV g1 Hinv1).
    unfold g1. rewrite afterMaybeCheck_idempotent. fold g1. now rewrite Ec.
  - intros k Hk.
    destruct (iterate_same NODE_ENV _ _ _ neighborsSource neighborsSelect
                (n, options) items k 0%nat g1 Hinv1) as (it' & Hdone & Hrun).
    + intros g0. destruct (afterMaybeCheck_data NODE_ENV g0) as (_ & _ & E1 & E2 & _).
      unfold neighborsSource. now rewrite E1, E2.
    + apply neighborsSource_scanned; congruence.
    + assumption.
    + exact Hk.
    + exists it'. split; [assumption|].
      unfold g1 in Hrun. rewrite afterMaybeCheck_idempotent in Hrun.
      fold g1 in Hrun. rewrite Ec in Hrun. exact Hrun.
  - intros x Hx. unfold items, scanned in Hx. rewrite selected_app in Hx.
    apply in_app_or in Hx as [Hx|Hx].
    + destruct (DirectionT_eqb (direction options) IN
                || DirectionT_eqb (direction options) ANY); [|destruct Hx].
      destruct (selected_scan_sound IN ins x Vin Hx) as (Hes & Hnode & _).
      destruct (Hadj InEdgeKind ins Gi _ Hes) as [Hget Hbase].
      split; [exact Hget|]. left. split; [exact Hbase | exact Hnode].
    + destruct (DirectionT_eqb (direction options) OUT
                || DirectionT_eqb (direction options) ANY); [|destruct Hx].
      destruct (selected_scan_sound OUT outs x Vout Hx) as (Hes & Hnode & _).
      destruct (Hadj OutEdgeKind outs Go _ Hes) as [Hget Hbase].
      split; [exact Hget|]. right. split; [exact Hbase | exact Hnode].
  - intros e He. unfold items, scanned.
    rewrite selected_app, occurrences_app.
    assert (Oin : occurrences e
                    (selected neighborsSelect (n, options) (map (pair IN) ins))
                  = if neighborPasses options IN e && String.eqb (dst e) n
                    then 1%nat else 0%nat).
    { rewrite (proj2 (Sin e Vin)).
      rewrite (anchored_count n InEdgeKind g ins e Hd Gi He). simpl.
      now destruct (neighborPasses options IN e), (String.eqb (dst e) n). }
    assert (Oout : occurrences e
                     (selected neighborsSelect (n, options) (map (pair OUT) outs))
                   = if neighborPasses options OUT e && String.eqb (src e) n
                     then 1%nat else 0%nat).
    { rewrite (proj2 (Sout e Vout)).
      rewrite (anchored_count n OutEdgeKind g outs e Hd Go He). simpl.
      now destruct (neighborPasses options OUT e), (String.eqb (src e) n). }
    unfold reportedBy, neighborPasses, neighborNode in *. simpl in *.
    destruct (direction options); simpl in *;
      rewrite ?Oin, ?Oout; unfold occurrences; simpl;
      destruct (String.prefix (edgePrefix options) (address e));
      destruct (String.eqb_spec (dst e) n) as [Ed|Ed];
      destruct (String.eqb_spec (src e) n) as [Es|Es];
      destruct (String.prefix (nodePrefix options) (src e)) eqn:Ps;
      destruct (String.prefix (nodePrefix options) (dst e)) eqn:Pd;
      destruct (String.eqb_spec (src e) (dst e)) as [El|El];
      simpl; try reflexivity; congruence.
Qed.

(** X6.  [neighbors(n, options)] for a valid address that is not a node
    of the graph throws the error of the missing node; the nodes, the
    edges and both indices stay as they were. *)
Theorem neighbors_of_missing_node g :
  reachable NODE_ENV g ->
  NodeAddress.isValid n = true -> ~ In n (_nodes g) ->
  neighbors NODE_ENV n options g
  = Threw (NodeDoesNotExistError n) (afterMaybeCheck NODE_ENV g)
  /\ _nodes (afterMaybeCheck NODE_ENV g) = _nodes g
  /\ _edges (afterMaybeCheck NODE_ENV g) = _edges g
  /\ _inEdges (afterMaybeCheck NODE_ENV g) = _inEdges g
  /\ _outEdges (afterMaybeCheck NODE_ENV g) = _outEdges g.
Proof.
  intros Hreach Hvalid Hn.
  pose proof (reachable_invariant NODE_ENV g Hreach) as Hinv.
  destruct (afterMaybeCheck_data NODE_ENV g) as (En & Ee & Ei & Eo & _).
  split; [|auto].
  unfold neighbors, bind. rewrite (hasNode_run n g Hinv Hvalid).
  now rewrite (proj2 (JsSetFacts.has_false n (_nodes g)) Hn).
Qed.

End NeighborsInEveryDirection.

(** ** Mutations and lookups *)

(** The nodes, the edges and both indices of two graphs are the same. *)
Definition sameData (g g' : Graph) : Prop :=
  _nodes g' = _nodes g /\ _edges g' = _edges g
  /\ _inEdges g' = _inEdges g /\ _outEdges g' = _outEdges g.

Lemma sameData_refl g : sameData g g.
Proof. now repeat split. Qed.

Lemma sameData_trans g1 g2 g3 : sameData g1 g2 -> sameData g2 g3 -> sameData g1 g3.
Proof. unfold sameData. intuition congruence. Qed.

Lemma set_set {V} k (v v' : V) m :
  JsMap.set k v (JsMap.set k v' m) = JsMap.set k v m.
Proof.
  unfold JsMap.set at 2 3. destruct (JsMap.has k m) eqn:Hhas.
  - unfold JsMap.set.
    assert (Hhas' : JsMap.has k (map (fun p : string * V =>
                       if String.eqb k (fst p) then (k, v') else p) m) = true).
    { unfold JsMap.has in *. rewrite existsb_exists in *.
      destruct Hhas as (p & Hp & Hk). exists (k, v'). split.
      - apply in_map_iff. exists p. now rewrite Hk.
      - simpl. apply String.eqb_refl. }
    rewrite Hhas', map_map. apply map_ext. intros p.
    destruct (String.eqb k (fst p)) eqn:E; simpl.
    + now rewrite String.eqb_refl.
    + now rewrite E.
  - unfold JsMap.set.
    assert (Hhas' : JsMap.has k (m ++ [(k, v')]) = true).
    { unfold JsMap.has. rewrite existsb_app. simpl.
      rewrite String.eqb_refl. apply orb_true_iff. right. reflexivity. }
    rewrite Hhas', map_app. simpl. rewrite String.eqb_refl. f_equal.
    rewrite <- (map_id m) at 2. apply map_ext_in. intros p Hp.
    destruct (String.eqb k (fst p)) eqn:E; [|reflexivity].
    unfold JsMap.has in Hhas.
    assert (existsb (fun p => String.eqb k (fst p)) m = true)
      by (apply existsb_exists; eauto).
    congruence.
Qed.

Lemma delete_appended {V} k (v : V) m :
  ~ In k (JsMap.keys m) -> JsMap.delete k (m ++ [(k, v)]) = m.
Proof.
  intros Hk. unfold JsMap.delete. rewrite filter_app. simpl.
  rewrite String.eqb_refl. simpl. rewrite app_nil_r.
  apply filter_all. intros p Hp.
  destruct (String.eqb k (fst p)) eqn:E; [|reflexivity].
  apply String.eqb_eq in E. elim Hk. subst k. now apply in_map.
Qed.

Lemma delete_set_new {V} k (v : V) m :
  ~ In k (JsMap.keys m) -> JsMap.delete k (JsMap.set k v m) = m.
Proof.
  intros Hk. unfold JsMap.set.
  assert (Hhas : JsMap.has k m = false).
  { unfold JsMap.has. destruct (existsb _ m) eqn:E; [|reflexivity].
    apply existsb_exists in E as (p & Hp & Hkp).
    apply String.eqb_eq in Hkp. elim Hk. subst k. now apply in_map. }
  rewrite Hhas. now apply delete_appended.
Qed.

Lemma delete_missing x s : ~ In x s -> JsSet.delete x s = s.
Proof.
  intros Hx. apply filter_all. intros y Hy.
  destruct (String.eqb x y) eqn:E; [|reflexivity].
  apply String.eqb_eq in E. subst y. contradiction.
Qed.

Lemma delete_missing_key {V} k (m : JsMap.t V) :
  ~ In k (JsMap.keys m) -> JsMap.delete k m = m.
Proof.
  intros Hk. apply filter_all. intros p Hp.
  destruct (String.eqb k (fst p)) eqn:E; [|reflexivity].
  apply String.eqb_eq in E. elim Hk. subst k. now apply in_map.
Qed.

Lemma spliceOut_appended e es :
  ~ In (address e) (map address es) ->
  spliceOut (address e) (es ++ [e]) = Some es.
Proof.
  induction es as [|e' es IH]; simpl; intros Hnew.
  - now rewrite String.eqb_refl.
  - destruct (String.eqb (address e') (address e)) eqn:E.
    + apply String.eqb_eq in E. elim Hnew. now left.
    + rewrite IH; [reflexivity | tauto].
Qed.

Lemma splice_pushed k e m es :
  NoDup (JsMap.keys m) ->
  JsMap.get k m = Some es ->
  ~ In (address e) (map address es) ->
  splice k (address e) (push k e m) = m.
Proof.
  intros Hnd Hes Hnew. unfold splice, push. rewrite Hes.
  rewrite JsMapFacts.get_set, String.eqb_refl. simpl.
  rewrite (spliceOut_appended e es Hnew), set_set.
  now apply JsMapFacts.set_same.
Qed.

Section MutationsAndLookups.

Variable NODE_ENV : string.

(** X7.  [removeEdge] undoes [addEdge]: on a graph that has the
    endpoints of an edge and nothing at its address, with room for two
    more modifications, [addEdge(e)] and then [removeEdge(e.address)]
    return and leave the nodes, the edges and both indices exactly as
    they were before (order included); the two calls are counted. *)
Theorem removeEdge_undoes_addEdge e g :
  reachable NODE_ENV g ->
  NodeAddress.isValid (src e) = true ->
  NodeAddress.isValid (dst e) = true ->
  EdgeAddress.isValid (address e) = true ->
  In (src e) (_nodes g) -> In (dst e) (_nodes g) ->
  JsMap.get (address e) (_edges g) = None ->
  (_modificationCount g + 1 < MAX_SAFE_INTEGER)%Z ->
  exists g1 g2,
    addEdge NODE_ENV e g = Returned tt g1
    /\ removeEdge NODE_ENV (address e) g1 = Returned tt g2
    /\ sameData g g2
    /\ _modificationCount g2 = (_modificationCount g + 2)%Z.
Proof.
  intros Hreach Vs Vd Va Hs Hd Hnew Hroom.
  pose proof (reachable_invariant NODE_ENV g Hreach) as Hinv.
  pose proof Hinv as [Hdata Hbook].
  set (g1 := afterModification NODE_ENV (insertEdge e g)).
  assert (Hadd : addEdge NODE_ENV e g = Returned tt g1).
  { rewrite (addEdge_run NODE_ENV e g Hinv), Vs, Vd, Va. simpl.
    rewrite (proj2 (JsSetFacts.has_In _ _) Hs), (proj2 (JsSetFacts.has_In _ _) Hd).
    simpl. rewrite Hnew. apply counted_below. simpl. lia. }
  pose proof (addEdge_invariant NODE_ENV e g g1 Hinv Hadd) as Hinv1.
  destruct (afterModification_data NODE_ENV (insertEdge e g))
    as (En & Ee & Ei & Eo & Ec). fold g1 in En, Ee, Ei, Eo, Ec.
  pose proof (edges_insertEdge e g (edges_distinct g Hdata) Hnew) as Hedges.
  assert (Hget : JsMap.get (address e) (_edges g1) = Some e).
  { rewrite Ee, Hedges, JsMapFacts.get_app, Hnew. simpl.
    unfold JsMap.get. simpl. now rewrite String.eqb_refl. }
  set (g2 := afterModification NODE_ENV (deleteEdge e g1)).
  assert (Hremove : removeEdge NODE_ENV (address e) g1 = Returned tt g2).
  { rewrite (removeEdge_run NODE_ENV (address e) g1 Hinv1), Va, Hget.
    apply counted_below. simpl. rewrite Ec. simpl. lia. }
  exists g1, g2. split; [exact Hadd|]. split; [exact Hremove|].
  destruct (afterModification_data NODE_ENV (deleteEdge e g1))
    as (En2 & Ee2 & Ei2 & Eo2 & Ec2). fold g2 in En2, Ee2, Ei2, Eo2, Ec2.
  assert (Hfresh : forall kind es n,
            JsMap.get n (adjacencyIndex kind g) = Some es ->
            ~ In (address e) (map address es)).
  { intros kind es n Hes Hin. apply in_map_iff in Hin as (e' & Ha & He').
    assert (Hk : AdjacencyInvariant kind g)
      by (destruct kind; [apply (invariant_3 g Hdata) | apply (invariant_4 g Hdata)]).
    destruct (Hk n es Hes) as (_ & _ & Hanch).
    destruct (Hanch e' He') as [Hreg _]. congruence. }
  destruct (invariant_1 g Hdata _ Hd) as [Hin _].
  destruct (invariant_1 g Hdata _ Hs) as [_ Hout].
  destruct (JsMap.get (dst e) (_inEdges g)) as [ins|] eqn:Gi; [|congruence].
  destruct (JsMap.get (src e) (_outEdges g)) as [outs|] eqn:Go; [|congruence].
  split; [|rewrite Ec2; simpl; rewrite Ec; simpl; lia].
  unfold sameData. rewrite En2, Ee2, Ei2, Eo2. simpl.
  rewrite En, Ee, Ei, Eo, Hedges. simpl.
  repeat split.
  - apply delete_appended. now apply JsMapFacts.get_None.
  - apply (splice_pushed (dst e) e (_inEdges g) ins);
      [apply (inEdges_distinct g Hdata) | exact Gi
       | apply (Hfresh InEdgeKind ins (dst e) Gi)].
  - apply (splice_pushed (src e) e (_outEdges g) outs);
      [apply (outEdges_distinct g Hdata) | exact Go
       | apply (Hfresh OutEdgeKind outs (src e) Go)].
Qed.

(** X8.  [removeNode] undoes [addNode]: for a valid address that is not
    a node of the graph, with room for two more modifications,
    [addNode(a)] and then [removeNode(a)] return and leave the nodes,
    the edges and both indices exactly as they were before. *)
Theorem removeNode_undoes_addNode a g :
  reachable NODE_ENV g ->
  NodeAddress.isValid a = true ->
  ~ In a (_nodes g) ->
  (_modificationCount g + 1 < MAX_SAFE_INTEGER)%Z ->
  exists g1 g2,
    addNode NODE_ENV a g = Returned tt g1
    /\ removeNode NODE_ENV a g1 = Returned tt g2
    /\ sameData g g2
    /\ _modificationCount g2 = (_modificationCount g + 2)%Z.
Proof.
  intros Hreach Va Hnew Hroom.
  pose proof (reachable_invariant NODE_ENV g Hreach) as Hinv.
  pose proof Hinv as [Hdata Hbook].
  set (g1 := afterModification NODE_ENV (insertNode a g)).
  assert (Hadd : addNode NODE_ENV a g = Returned tt g1).
  { rewrite (addNode_run NODE_ENV a g Hinv), Va.
    rewrite (proj2 (JsSetFacts.has_false _ _) Hnew).
    apply counted_below. simpl. lia. }
  pose proof (addNode_invariant NODE_ENV a g g1 Hinv Hadd) as Hinv1.
  destruct (afterModification_data NODE_ENV (insertNode a g))
    as (En & Ee & Ei & Eo & Ec). fold g1 in En, Ee, Ei, Eo, Ec.
  set (g2 := afterModification NODE_ENV (deleteNode a g1)).
  assert (Hremove : removeNode NODE_ENV a g1 = Returned tt g2).
  { rewrite (removeNode_run NODE_ENV a g1 Hinv1), Va, Ei, Eo. simpl.
    rewrite !JsMapFacts.get_set, String.eqb_refl. simpl.
    apply counted_below. simpl. rewrite Ec. simpl. lia. }
  exists g1, g2. split; [exact Hadd|]. split; [exact Hremove|].
  destruct (afterModification_data NODE_ENV (deleteNode a g1))
    as (En2 & Ee2 & Ei2 & Eo2 & Ec2). fold g2 in En2, Ee2, Ei2, Eo2, Ec2.
  split; [|rewrite Ec2; simpl; rewrite Ec; simpl; lia].
  unfold sameData. rewrite En2, Ee2, Ei2, Eo2. simpl.
  rewrite En, Ee, Ei, Eo. simpl.
  repeat split.
  - rewrite (add_fresh a (_nodes g) Hnew). unfold JsSet.delete.
    rewrite filter_app. simpl. rewrite String.eqb_refl. simpl.
    rewrite app_nil_r. apply filter_all. intros y Hy.
    destruct (String.eqb a y) eqn:E; [|reflexivity].
    apply String.eqb_eq in E. subst y. contradiction.
  - apply delete_set_new. apply JsMapFacts.get_None.
    now apply (adjacency_absent InEdgeKind g a (invariant_3 g Hdata)).
  - apply delete_set_new. apply JsMapFacts.get_None.
    now apply (adjacency_absent OutEdgeKind g a (invariant_4 g Hdata)).
Qed.

(** *** What [hasNode], [hasEdge] and [edge] answer after a mutation *)

Lemma hasEdge_run a g :
  GraphInvariant g -> EdgeAddress.isValid a = true ->
  hasEdge NODE_ENV a g
  = Returned (JsMap.has a (_edges g)) (afterMaybeCheck NODE_ENV g).
Proof.
  intros Hinv Hvalid. unfold hasEdge, assertValidEdge, bind, this, ret.
  rewrite Hvalid. now rewrite (maybeCheckInvariants_run NODE_ENV g Hinv).
Qed.

Lemma getEdge_run a g :
  GraphInvariant g -> EdgeAddress.isValid a = true ->
  getEdge NODE_ENV a g
  = Returned (JsMap.get a (_edges g)) (afterMaybeCheck NODE_ENV g).
Proof.
  intros Hinv Hvalid. unfold getEdge, assertValidEdge, bind, this, ret.
  rewrite Hvalid. now rewrite (maybeCheckInvariants_run NODE_ENV g Hinv).
Qed.

(** The answers of the three lookups on a graph. *)
Definition answers (g : Graph) (b : NodeAddressT) (a : EdgeAddressT)
    : bool * bool * option Edge :=
  (JsSet.has b (_nodes g), JsMap.has a (_edges g), JsMap.get a (_edges g)).

Lemma lookups_run g b a :
  GraphInvariant g ->
  NodeAddress.isValid b = true -> EdgeAddress.isValid a = true ->
  exists g1 g2 g3,
    hasNode NODE_ENV b g = Returned (fst (fst (answers g b a))) g1
    /\ hasEdge NODE_ENV a g = Returned (snd (fst (answers g b a))) g2
    /\ getEdge NODE_ENV a g = Returned (snd (answers g b a)) g3.
Proof.
  intros Hinv Vb Va. do 3 eexists.
  rewrite (hasEdge_run a g Hinv Va), (getEdge_run a g Hinv Va).
  unfold hasNode, assertValidNode, bind, this, ret. rewrite Vb.
  rewrite (maybeCheckInvariants_run NODE_ENV g Hinv). simpl. auto.
Qed.

(** X9.  The lookups follow the mutations.  After a call that returned,
    [hasNode(b)], [hasEdge(a)] and [edge(a)] (for valid addresses)
    return, and they answer: after [addNode(n)], [true] for [n] and as
    before for the other nodes; after [removeNode(n)], [false] for [n];
    after [addEdge(e)], [e] at [e.address]; after [removeEdge(x)],
    nothing at [x]; and in every case as before for what the call did
    not name. *)
Theorem lookups_follow_mutations m g g' b a :
  reachable NODE_ENV g ->
  perform NODE_ENV m g = Returned tt g' ->
  NodeAddress.isValid b = true -> EdgeAddress.isValid a = true ->
  exists g1 g2 g3 present known found,
    hasNode NODE_ENV b g' = Returned present g1
    /\ hasEdge NODE_ENV a g' = Returned known g2
    /\ getEdge NODE_ENV a g' = Returned found g3
    /\ known = (match found with Some _ => true | None => false end)
    /\ present
       = match m with
         | AddNode n => String.eqb b n || JsSet.has b (_nodes g)
         | RemoveNode n => negb (String.eqb b n) && JsSet.has b (_nodes g)
         | _ => JsSet.has b (_nodes g)
         end
    /\ found
       = match m with
         | AddEdge e =>
             if String.eqb a (address e) then Some e
             else JsMap.get a (_edges g)
         | RemoveEdge x =>
             if String.eqb a x then None else JsMap.get a (_edges g)
         | _ => JsMap.get a (_edges g)
         end.
Proof.
  intros Hreach Hrun Vb Va.
  pose proof (reachable_invariant NODE_ENV g Hreach) as Hinv.
  pose proof Hinv as [Hdata Hbook].
  destruct (perform_invariant NODE_ENV m g g' Hinv Hrun) as [Hinv' _].
  destruct (lookups_run g' b a Hinv' Vb Va) as (g1 & g2 & g3 & H1 & H2 & H3).
  exists g1, g2, g3. do 3 eexists.
  split; [exact H1|]. split; [exact H2|]. split; [exact H3|].
  unfold answers. simpl. split; [apply JsMapFacts.has_get|].
  destruct m as [n|e|n|x]; simpl in Hrun.
  - rewrite (addNode_run NODE_ENV n g Hinv) in Hrun.
    destruct (NodeAddress.isValid n); [|discriminate].
    apply counted_returns in Hrun as [_ ->].
    destruct (afterModification_data NODE_ENV
                (if JsSet.has n (_nodes g) then g else insertNode n g))
      as (-> & -> & _).
    destruct (JsSet.has n (_nodes g)) eqn:Hn; simpl.
    + split; [|reflexivity].
      destruct (String.eqb_spec b n) as [->|]; [now rewrite Hn | reflexivity].
    + split; [apply JsSetFacts.has_add | reflexivity].
  - rewrite (addEdge_run NODE_ENV e g Hinv) in Hrun.
    destruct (negb (NodeAddress.isValid (src e))); [discriminate|].
    destruct (negb (NodeAddress.isValid (dst e))); [discriminate|].
    destruct (negb (EdgeAddress.isValid (address e))); [discriminate|].
    destruct (negb (JsSet.has (src e) (_nodes g))); [discriminate|].
    destruct (negb (JsSet.has (dst e) (_nodes g))); [discriminate|].
    destruct (JsMap.get (address e) (_edges g)) as [existing|] eqn:G.
    + destruct (String.eqb (src existing) (src e)
                && String.eqb (dst existing) (dst e)) eqn:Hsame; [|discriminate].
      apply counted_returns in Hrun as [_ ->].
      destruct (afterModification_data NODE_ENV g) as (-> & -> & _).
      split; [reflexivity|].
      destruct (String.eqb_spec a (address e)) as [->|]; [|reflexivity].
      rewrite G. f_equal. apply andb_true_iff in Hsame as [Es Ed].
      apply String.eqb_eq in Es, Ed.
      apply edge_eta; [assumption..|].
      now destruct (invariant_2 g Hdata _ _ G).
    + apply counted_returns in Hrun as [_ ->].
      destruct (afterModification_data NODE_ENV (insertEdge e g))
        as (-> & -> & _).
      split; [reflexivity|].
      rewrite (edges_insertEdge e g (edges_distinct g Hdata) G).
      rewrite JsMapFacts.get_app. unfold JsMap.get at 2. simpl.
      destruct (String.eqb_spec a (address e)) as [->|].
      * now rewrite G.
      * now destruct (JsMap.get a (_edges g)).
  - rewrite (removeNode_run NODE_ENV n g Hinv) in Hrun.
    destruct (NodeAddress.isValid n); [|discriminate].
    destruct (orEmpty (JsMap.get n (_inEdges g))
              ++ orEmpty (JsMap.get n (_outEdges g))); [|discriminate].
    apply counted_returns in Hrun as [_ ->].
    destruct (afterModification_data NODE_ENV (deleteNode n g))
      as (-> & -> & _).
    simpl. split; [|reflexivity].
    rewrite JsSetFacts.has_delete. now rewrite (eqb_sym_string n b).
  - rewrite (removeEdge_run NODE_ENV x g Hinv) in Hrun.
    destruct (EdgeAddress.isValid x); [|discriminate].
    destruct (JsMap.get x (_edges g)) as [e|] eqn:G.
    + apply counted_returns in Hrun as [_ ->].
      destruct (afterModification_data NODE_ENV (deleteEdge e g))
        as (-> & -> & _).
      simpl. split; [reflexivity|].
      destruct (invariant_2 g Hdata _ _ G) as [-> _].
      apply JsMapFacts.get_delete.
    + apply counted_returns in Hrun as [_ ->].
      destruct (afterModification_data NODE_ENV g) as (-> & -> & _).
      split; [reflexivity|].
      destruct (String.eqb_spec a x) as [->|]; [exact G | reflexivity].
Qed.

(** X10.  A call that changes nothing is a modification all the same.
    Below the limit of the count, [addNode] of a node of the graph,
    [removeNode] of a valid address that is no node, [removeEdge] of a
    valid address that holds no edge and [addEdge] of an edge of the
    graph return, leave the nodes, the edges and both indices as they
    were, and add one to the modification count; an iterator of the
    nodes obtained before the call throws the error of concurrent
    modification at its next step. *)
Theorem idle_mutations_are_counted m g :
  reachable NODE_ENV g ->
  (_modificationCount g < MAX_SAFE_INTEGER)%Z ->
  match m with
  | AddNode n => In n (_nodes g)
  | RemoveNode n => NodeAddress.isValid n = true /\ ~ In n (_nodes g)
  | RemoveEdge x =>
      EdgeAddress.isValid x = true /\ JsMap.get x (_edges g) = None
  | AddEdge e => JsMap.get (address e) (_edges g) = Some e
  end ->
  exists g',
    perform NODE_ENV m g = Returned tt g'
    /\ sameData g g'
    /\ _modificationCount g' = (_modificationCount g + 1)%Z
    /\ forall prefix pos,
         NodeAddress.isValid prefix = true ->
         nodesNext NODE_ENV
           (suspendAt (_nodesIterator (_modificationCount g) prefix) pos) g'
         = (complete (suspendAt (_nodesIterator (_modificationCount g) prefix) pos),
            Threw ConcurrentModificationError g').
Proof.
  intros Hreach Hroom Hidle.
  pose proof (reachable_invariant NODE_ENV g Hreach) as Hinv.
  pose proof Hinv as [Hdata Hbook].
  assert (Hrun : perform NODE_ENV m g = Returned tt (afterModification NODE_ENV g)).
  { destruct m as [n|e|n|x]; simpl.
    - rewrite (addNode_run NODE_ENV n g Hinv).
      rewrite (nodes_valid g Hdata n Hidle).
      rewrite (proj2 (JsSetFacts.has_In _ _) Hidle).
      now apply counted_below.
    - rewrite (addEdge_run NODE_ENV e g Hinv).
      destruct (invariant_2 g Hdata _ _ Hidle) as (_ & Hs & Hd & _).
      rewrite (nodes_valid g Hdata _ Hs), (nodes_valid g Hdata _ Hd).
      rewrite (edges_valid g Hdata _ _ Hidle). simpl.
      rewrite (proj2 (JsSetFacts.has_In _ _) Hs).
      rewrite (proj2 (JsSetFacts.has_In _ _) Hd). simpl.
      rewrite Hidle, !String.eqb_refl. simpl. now apply counted_below.
    - destruct Hidle as [Vn Hn].
      rewrite (removeNode_run NODE_ENV n g Hinv), Vn.
      pose proof (adjacency_absent InEdgeKind g n (invariant_3 g Hdata) Hn) as Gi.
      pose proof (adjacency_absent OutEdgeKind g n (invariant_4 g Hdata) Hn) as Go.
      simpl in Gi, Go. rewrite Gi, Go. simpl.
      assert (Hsame : deleteNode n g = g).
      { apply JsMapFacts.get_None in Gi, Go.
        destruct g as [ns es ins outs c l].
        unfold deleteNode, set_nodes, set_outEdges, set_inEdges. simpl in *.
        now rewrite (delete_missing n ns Hn), (delete_missing_key n ins Gi),
                    (delete_missing_key n outs Go). }
      rewrite Hsame. now apply counted_below.
    - destruct Hidle as [Vx Hx].
      rewrite (removeEdge_run NODE_ENV x g Hinv), Vx, Hx.
      now apply counted_below. }
  exists (afterModification NODE_ENV g).
  destruct (afterModification_data NODE_ENV g) as (En & Ee & Ei & Eo & Ec).
  split; [exact Hrun|]. split; [now repeat split|]. split; [exact Ec|].
  intros prefix pos Vp.
  destruct (perform_invariant NODE_ENV m g _ Hinv Hrun) as [[Hdata' _] _].
  apply (next_changed NODE_ENV _ _ _ nodesSource nodesSelect _ _
           (_nodes (afterModification NODE_ENV g))).
  - reflexivity.
  - reflexivity.
  - now apply nodes_selectable.
  - simpl. rewrite Ec. lia.
Qed.

End MutationsAndLookups.

(** The running example again, with a third address and the edge back. *)
Definition nodeC : NodeAddressT := ("N" ++ NUL ++ "c" ++ NUL)%string.
Definition edgeBA : Edge := mkEdge ("E" ++ NUL ++ "ba" ++ NUL)%string nodeB nodeA.

Lemma neighbors_spec_witness :
  let options := mkNeighborsOptions IN NodeAddress.empty EdgeAddress.empty in
  exists yielded,
    neighbors "test" nodeB options exampleGraph
    = Returned (_neighbors nodeB options 3) exampleGraph
    /\ occurrences edgeAB yielded = 1%nat.
Proof.
  intros options.
  destruct (neighbors_spec "test" nodeB options eq_refl eq_refl
              exampleGraph exampleGraph_reachable)
    as (yielded & Hcall & _ & _ & Hocc).
  - simpl. tauto.
  - exists yielded. split; [exact Hcall|].
    rewrite (Hocc edgeAB eq_refl). reflexivity.
Defined.

Lemma neighbors_of_missing_node_witness :
  let options := mkNeighborsOptions ANY NodeAddress.empty EdgeAddress.empty in
  neighbors "test" nodeC options exampleGraph
  = Threw (NodeDoesNotExistError nodeC) exampleGraph.
Proof.
  intros options.
  destruct (neighbors_of_missing_node "test" nodeC options
              exampleGraph exampleGraph_reachable eq_refl) as [Hthrow _].
  - simpl. intros [H|[H|[]]]; discriminate.
  - exact Hthrow.
Defined.

(** A generator of [neighbors] that has started keeps the arrays it
    read.  After its first item, [removeEdge] empties the array and
    [removeNode] lets go of it: the next call ends the empty array and
    meets the comodification check. *)
Example neighbors_after_removeNode :
  let options := mkNeighborsOptions ANY NodeAddress.empty EdgeAddress.empty in
  exists it1 g1 g2 g3,
    neighborsNext "test" (_neighbors nodeA options 3) exampleGraph
    = (it1, Returned (Yield (mkNeighbor nodeB edgeAB)) g1)
    /\ removeEdge "test" (address edgeAB) g1 = Returned tt g2
    /\ removeNode "test" nodeA g2 = Returned tt g3
    /\ neighborsNext "test" it1 g3
       = (complete it1, Threw ConcurrentModificationError g3).
Proof.
  intros options. do 4 eexists.
  split; [vm_compute; reflexivity|].
  split; [vm_compute; reflexivity|].
  split; vm_compute; reflexivity.
Qed.

Lemma removeEdge_undoes_addEdge_witness :
  exists g1 g2,
    addEdge "test" edgeBA exampleGraph = Returned tt g1
    /\ removeEdge "test" (address edgeBA) g1 = Returned tt g2
    /\ sameData exampleGraph g2.
Proof.
  destruct (removeEdge_undoes_addEdge "test" edgeBA exampleGraph
              exampleGraph_reachable eq_refl eq_refl eq_refl)
    as (g1 & g2 & Hadd & Hremove & Hsame & _).
  - simpl. tauto.
  - simpl. tauto.
  - reflexivity.
  - unfold MAX_SAFE_INTEGER. simpl. lia.
  - exists g1, g2. auto.
Defined.

Lemma removeNode_undoes_addNode_witness :
  exists g1 g2,
    addNode "test" nodeC exampleGraph = Returned tt g1
    /\ removeNode "test" nodeC g1 = Returned tt g2
    /\ sameData exampleGraph g2.
Proof.
  destruct (removeNode_undoes_addNode "test" nodeC exampleGraph
              exampleGraph_reachable eq_refl)
    as (g1 & g2 & Hadd & Hremove & Hsame & _).
  - simpl. intros [H|[H|[]]]; discriminate.
  - unfold MAX_SAFE_INTEGER. simpl. lia.
  - exists g1, g2. auto.
Defined.

Lemma lookups_follow_mutations_witness :
  exists g' g3,
    removeEdge "test" (address edgeAB) exampleGraph = Returned tt g'
    /\ getEdge "test" (address edgeAB) g' = Returned None g3.
Proof.
  eexists.
  destruct (lookups_follow_mutations "test" (RemoveEdge (address edgeAB))
              exampleGraph _ nodeA (address edgeAB)
              exampleGraph_reachable eq_refl eq_refl eq_refl)
    as (g1 & g2 & g3 & present & known & found & _ & _ & Hget & _ & _ & Hfound).
  exists g3. split; [reflexivity|].
  rewrite Hget, Hfound. reflexivity.
Defined.

Lemma idle_mutations_are_counted_witness :
  exists g',
    addNode "test" nodeA exampleGraph = Returned tt g'
    /\ sameData exampleGraph g'
    /\ _modificationCount g' = 4%Z.
Proof.
  destruct (idle_mutations_are_counted "test" (AddNode nodeA) exampleGraph
              exampleGraph_reachable)
    as (g' & Hrun & Hsame & Hcount & _).
  - unfold MAX_SAFE_INTEGER. simpl. lia.
  - simpl. tauto.
  - exists g'. auto.
Defined.

(** ** [equals] and the canonical form of [toJSON] *)

Lemma setEquals_spec s1 s2 :
  NoDup s1 -> NoDup s2 ->
  setEquals s1 s2 = true <-> (forall x, In x s1 <-> In x s2).
Proof.
  intros N1 N2. unfold setEquals.
  rewrite andb_true_iff, Nat.eqb_eq, forallb_forall. split.
  - intros [Hlen Hsub].
    assert (I12 : incl s1 s2)
      by (intros x Hx; apply JsSetFacts.has_In; now apply Hsub).
    assert (I21 : incl s2 s1)
      by (apply (NoDup_length_incl N1); [lia | exact I12]).
    intros x. split; [apply I12 | apply I21].
  - intros Hsame. split.
    + apply Nat.le_antisymm; apply NoDup_incl_length; try assumption;
        intros x Hx; now apply Hsame.
    + intros x Hx. apply JsSetFacts.has_In. now apply Hsame.
Qed.

Lemma entryEquals_eq p q : entryEquals p q = true <-> p = q.
Proof.
  unfold entryEquals. rewrite andb_true_iff, String.eqb_eq, Edge_eqb_eq.
  destruct p, q; simpl. split; [intros [-> ->] | intros [= -> ->]]; auto.
Qed.

Lemma mapEquals_spec m1 m2 :
  NoDup (JsMap.keys m1) -> NoDup (JsMap.keys m2) ->
  mapEquals m1 m2 = true <-> (forall a, JsMap.get a m1 = JsMap.get a m2).
Proof.
  intros K1 K2.
  pose proof (NoDup_map_inv _ _ K1) as N1.
  pose proof (NoDup_map_inv _ _ K2) as N2.
  assert (Hget : forall m m' : JsMap.t Edge,
            NoDup (JsMap.keys m) -> NoDup (JsMap.keys m') ->
            incl m m' -> incl m' m -> forall a, JsMap.get a m = JsMap.get a m').
  { intros m m' K K' I I' a. apply get_option_ext. intros v. split; intros H.
    - apply JsMapFacts.In_get; [exact K'|]. apply I. now apply JsMapFacts.get_In.
    - apply JsMapFacts.In_get; [exact K|]. apply I'. now apply JsMapFacts.get_In. }
  assert (Hincl : forall m m' : JsMap.t Edge,
            NoDup (JsMap.keys m) ->
            (forall a, JsMap.get a m = JsMap.get a m') -> incl m m').
  { intros m m' K Hsame [k v] Hp. apply JsMapFacts.get_In.
    rewrite <- Hsame. now apply JsMapFacts.In_get. }
  unfold mapEquals. rewrite andb_true_iff, Nat.eqb_eq, forallb_forall. split.
  - intros [Hlen Hsub].
    assert (I12 : incl m1 m2).
    { intros p Hp. specialize (Hsub p Hp).
      apply existsb_exists in Hsub as (q & Hq & Heq).
      apply entryEquals_eq in Heq. now subst q. }
    assert (I21 : incl m2 m1)
      by (apply (NoDup_length_incl N1); [lia | exact I12]).
    now apply Hget.
  - intros Hsame.
    assert (I12 : incl m1 m2) by now apply Hincl.
    assert (I21 : incl m2 m1) by (apply Hincl; [exact K2 | now symmetry]).
    split.
    + apply Nat.le_antisymm; now apply NoDup_incl_length.
    + intros p Hp. apply existsb_exists. exists p.
      split; [now apply I12 | now apply entryEquals_eq].
Qed.

(** *** Sorting by a string key *)

Lemma leb_trans (a b c : string) :
  String.leb a b = true -> String.leb b c = true -> String.leb a c = true.
Proof.
  assert (Hle : forall x y, String.leb x y = true
                            <-> OrderedTypeEx.String_as_OT.lt x y \/ x = y).
  { intros x y. unfold String.leb.
    destruct (String.compare x y) eqn:C.
    - apply String.compare_eq_iff in C. tauto.
    - apply OrderedTypeEx.String_as_OT.cmp_lt in C. tauto.
    - split; [discriminate|]. intros [H| ->].
      + apply OrderedTypeEx.String_as_OT.cmp_lt in H.
        unfold OrderedTypeEx.String_as_OT.cmp in H. congruence.
      + assert (E : String.compare y y = Eq).
        { pose proof (String.compare_antisym y y) as A.
          destruct (String.compare y y); simpl in A; congruence. }
        congruence. }
  intros H1 H2. apply Hle in H1, H2. apply Hle.
  destruct H1 as [H1| ->]; [|exact H2].
  destruct H2 as [H2| ->]; [|now left].
  left. exact (OrderedTypeEx.String_as_OT.lt_trans _ _ _ H1 H2).
Qed.

Section SortBy.

Variable A : Type.
Variable key : A -> string.

Definition inOrder (x y : A) : Prop := stringLeb (key x) (key y) = true.

Lemma insertBy_sorted x l :
  StronglySorted inOrder l -> StronglySorted inOrder (insertBy key x l).
Proof.
  induction 1 as [|y l Hl IH Hy]; simpl.
  - repeat constructor.
  - destruct (stringLeb (key x) (key y)) eqn:E.
    + constructor; [now constructor|]. constructor; [exact E|].
      eapply Forall_impl; [|exact Hy]. intros z Hz.
      exact (leb_trans _ _ _ E Hz).
    + assert (Hyx : inOrder y x).
      { unfold inOrder, stringLeb in *.
        destruct (String.leb_total (codeUnitOrder (key x))
                                   (codeUnitOrder (key y)));
          [congruence | assumption]. }
      constructor; [exact IH|].
      apply (Permutation_Forall (Permutation_sym (insertBy_Permutation key x l))).
      now constructor.
Qed.

Lemma sortBy_sorted l : StronglySorted inOrder (sortBy key l).
Proof.
  induction l as [|x l IH]; simpl; [constructor | now apply insertBy_sorted].
Qed.

Lemma sorted_unique l : forall l',
  StronglySorted inOrder l -> StronglySorted inOrder l' ->
  NoDup (map key l) -> Permutation l l' -> l = l'.
Proof.
  induction l as [|x l IH]; intros l' S S' Hnd Hperm.
  - apply Permutation_nil in Hperm. now subst.
  - destruct l' as [|y l'];
      [apply Permutation_sym, Permutation_nil in Hperm; discriminate|].
    inversion S as [|? ? Sl Hx]; subst. inversion S' as [|? ? Sl' Hy]; subst.
    assert (Hxy : x = y).
    { assert (Iy : In y (x :: l))
        by (apply (Permutation_in _ (Permutation_sym Hperm)); now left).
      assert (Ix : In x (y :: l'))
        by (apply (Permutation_in _ Hperm); now left).
      destruct Iy as [Hyx|Iy]; [exact Hyx|].
      destruct Ix as [Hyx|Ix]; [now symmetry|].
      assert (Hk : key x = key y).
      { apply codeUnitOrder_injective, String.leb_antisym.
        - exact (proj1 (Forall_forall _ _) Hx y Iy).
        - exact (proj1 (Forall_forall _ _) Hy x Ix). }
      inversion Hnd as [|? ? Hfresh _]; subst.
      elim Hfresh. rewrite Hk. now apply in_map. }
    subst y. f_equal. apply IH; try assumption.
    + now inversion Hnd.
    + now apply Permutation_cons_inv in Hperm.
Qed.

(** The sorted array depends on the elements only, not on their order. *)
Lemma sortBy_canonical l l' :
  NoDup (map key l) -> Permutation l l' -> sortBy key l = sortBy key l'.
Proof.
  intros Hnd Hperm. apply sorted_unique; try apply sortBy_sorted.
  - apply (Permutation_NoDup (Permutation_map key
             (Permutation_sym (sortBy_Permutation key l))) Hnd).
  - apply perm_trans with l; [apply sortBy_Permutation|].
    apply perm_trans with l'; [exact Hperm|].
    apply Permutation_sym, sortBy_Permutation.
Qed.

End SortBy.

Section EqualGraphs.

Variable NODE_ENV : string.

(** Two graphs hold the same nodes and the same edges. *)
Definition sameGraph (g h : Graph) : Prop :=
  (forall n, In n (_nodes g) <-> In n (_nodes h))
  /\ (forall a, JsMap.get a (_edges g) = JsMap.get a (_edges h)).

(** X11.  [g.equals(h)] returns, and it answers [true] exactly when the
    two graphs have the same nodes and, at every address, the same
    edge; the order in which nodes and edges were added plays no part. *)
Theorem equals_spec g h :
  reachable NODE_ENV g -> reachable NODE_ENV h ->
  exists answer,
    equals NODE_ENV h g = Returned answer (afterMaybeCheck NODE_ENV g)
    /\ (answer = true <-> sameGraph g h).
Proof.
  intros Hg Hh.
  pose proof (reachable_invariant NODE_ENV g Hg) as Hinv.
  destruct (reachable_invariant NODE_ENV h Hh) as [Dh _].
  pose proof Hinv as [Dg _].
  eexists. split.
  - unfold equals, bind, this, ret.
    rewrite (maybeCheckInvariants_run NODE_ENV g Hinv). reflexivity.
  - unfold sameGraph. rewrite andb_true_iff.
    rewrite (setEquals_spec _ _ (nodes_distinct g Dg) (nodes_distinct h Dh)).
    rewrite (mapEquals_spec _ _ (edges_distinct g Dg) (edges_distinct h Dh)).
    reflexivity.
Qed.

Lemma values_distinct g :
  DataInvariant g -> NoDup (map address (JsMap.values (_edges g))).
Proof.
  intros Hd. unfold JsMap.values. rewrite map_map.
  erewrite map_ext_in; [exact (edges_distinct g Hd)|].
  intros [k e] Hp. simpl.
  apply (JsMapFacts.In_get _ _ _ (edges_distinct g Hd)) in Hp.
  now destruct (invariant_2 g Hd _ _ Hp).
Qed.

Lemma sameGraph_serialized g h :
  DataInvariant g -> DataInvariant h -> sameGraph g h ->
  serialized g = serialized h.
Proof.
  intros Dg Dh [Hn He].
  assert (Hnodes : sortedNodes g = sortedNodes h).
  { unfold sortedNodes. apply sortBy_canonical.
    - rewrite map_id. apply (nodes_distinct g Dg).
    - apply NoDup_Permutation;
        [apply (nodes_distinct g Dg) | apply (nodes_distinct h Dh) | exact Hn]. }
  assert (Hedges : sortedEdges g = sortedEdges h).
  { unfold sortedEdges. apply sortBy_canonical; [now apply values_distinct|].
    apply NoDup_Permutation.
    - exact (NoDup_map_inv _ _ (values_distinct g Dg)).
    - exact (NoDup_map_inv _ _ (values_distinct h Dh)).
    - intros e. rewrite (In_values_get g e Dg), (In_values_get h e Dh).
      now rewrite He. }
  unfold serialized. rewrite Hnodes, Hedges. do 2 f_equal.
  apply map_ext. intros e.
  unfold indexed, sortedIndex, nodeToSortedIndex. now rewrite Hnodes.
Qed.

(** X12.  [toJSON] is canonical: two graphs with the same nodes and the
    same edges, however they were built, serialize to the same JSON. *)
Theorem toJSON_canonical g h :
  reachable NODE_ENV g -> reachable NODE_ENV h ->
  sameGraph g h ->
  exists json,
    toJSON NODE_ENV g = Returned json (afterMaybeCheck NODE_ENV g)
    /\ toJSON NODE_ENV h = Returned json (afterMaybeCheck NODE_ENV h).
Proof.
  intros Hg Hh Hsame.
  pose proof (reachable_invariant NODE_ENV g Hg) as Ig.
  pose proof (reachable_invariant NODE_ENV h Hh) as Ih.
  exists (serialized g). split.
  - now apply toJSON_run.
  - rewrite (sameGraph_serialized g h (proj1 Ig) (proj1 Ih) Hsame).
    now apply toJSON_run.
Qed.

End EqualGraphs.

(** The example built in the other order:
    [new Graph().addNode(a).addNode(b).addEdge(ab)]. *)
Definition exampleGraphReordered : Graph :=
  mkGraph [nodeA; nodeB]
          [(address edgeAB, edgeAB)]
          [(nodeA, []); (nodeB, [edgeAB])]
          [(nodeA, [edgeAB]); (nodeB, [])]
          3 (mkLastChecked 3 None).

Lemma exampleGraphReordered_reachable : reachable "test" exampleGraphReordered.
Proof.
  eapply reachable_addEdge with (e := edgeAB).
  - eapply reachable_addNode with (a := nodeB).
    + eapply reachable_addNode with (a := nodeA).
      * apply reachable_new. reflexivity.
      * reflexivity.
    + reflexivity.
  - reflexivity.
Qed.

Lemma equals_spec_witness :
  equals "test" exampleGraphReordered exampleGraph = Returned true exampleGraph.
Proof.
  destruct (equals_spec "test" exampleGraph exampleGraphReordered
              exampleGraph_reachable exampleGraphReordered_reachable)
    as (answer & Hrun & Hiff).
  rewrite Hrun. f_equal. apply Hiff. split.
  - intros n. simpl. tauto.
  - intros a. unfold JsMap.get. reflexivity.
Defined.

Lemma toJSON_canonical_witness :
  exists json,
    toJSON "test" exampleGraph = Returned json exampleGraph
    /\ toJSON "test" exampleGraphReordered = Returned json exampleGraphReordered.
Proof.
  apply (toJSON_canonical "test" exampleGraph exampleGraphReordered
           exampleGraph_reachable exampleGraphReordered_reachable).
  split.
  - intros n. simpl. tauto.
  - intros a. unfold JsMap.get. reflexivity.
Defined.

(** ** [Graph.merge] and [copy] *)

(** The number of calls of [addNode] and [addEdge] that merging a graph
    takes. *)
Definition sizeOf (g : Graph) : nat :=
  (List.length (_nodes g) + List.length (_edges g))%nat.

(** The edges of the graphs agree wherever two of them use one address. *)
Definition compatible (graphs : list Graph) : Prop :=
  forall g g' a e e',
    In g graphs -> In g' graphs ->
    JsMap.get a (_edges g) = Some e -> JsMap.get a (_edges g') = Some e' ->
    e = e'.

Lemma all_nodes_selected g :
  DataInvariant g ->
  selectable nodesSelect NodeAddress.empty (_nodes g)
  /\ selected nodesSelect NodeAddress.empty (_nodes g) = _nodes g.
Proof.
  intros Hd.
  destruct (nodes_selectable NodeAddress.empty g Hd eq_refl) as [Hsel Hfil].
  split; [exact Hsel|]. rewrite Hfil. apply filter_all. intros n Hn.
  apply (valid_has_empty_prefix NodeAddress.nonce), (nodes_valid g Hd n Hn).
Qed.

Lemma all_edges_selected g :
  DataInvariant g ->
  selectable edgesSelect defaultEdgesOptions (JsMap.values (_edges g))
  /\ selected edgesSelect defaultEdgesOptions (JsMap.values (_edges g))
     = JsMap.values (_edges g).
Proof.
  intros Hd.
  assert (Hopt : validEdgesOptions defaultEdgesOptions) by now repeat split.
  destruct (edges_selectable defaultEdgesOptions g Hd Hopt) as [Hsel Hfil].
  split; [exact Hsel|]. rewrite Hfil. apply filter_all.
  intros e He. apply (In_values_get g e Hd) in He.
  destruct (invariant_2 g Hd _ _ He) as (_ & Hs & Hd' & _).
  unfold edgeMatches, defaultEdgesOptions. simpl.
  rewrite !andb_true_iff. repeat split.
  - apply (valid_has_empty_prefix EdgeAddress.nonce), (edges_valid g Hd _ _ He).
  - apply (valid_has_empty_prefix NodeAddress.nonce), (nodes_valid g Hd _ Hs).
  - apply (valid_has_empty_prefix NodeAddress.nonce), (nodes_valid g Hd _ Hd').
Qed.

Section MergeFacts.

Variable NODE_ENV : string.

(** How a loop ends when its body, run on the items in turn, ends as
    [o]: the generator has run its check on [graph]. *)
Definition loopEnd (graph : Graph) (o : Outcome unit) : LoopOutcome :=
  match o with
  | Returned _ result => Completed (afterMaybeCheck NODE_ENV graph) result
  | Threw err result => Aborted err (afterMaybeCheck NODE_ENV graph) result
  end.

Section Loop.

Variables Args A B : Type.
Variable select : Args -> A -> Error + option B.
Variable body : B -> M unit.

(** On a graph that satisfies the invariants and is not modified, the
    loop runs the body on the selected items, in order, until the body
    throws. *)
Lemma forOfItems_run a items : forall graph result,
  GraphInvariant graph ->
  selectable select a items ->
  forOfItems NODE_ENV select body a (_modificationCount graph) items graph result
  = loopEnd graph (forEach body (selected select a items) result).
Proof.
  induction items as [|x items IH]; intros graph result Hinv Hsel.
  - simpl. now rewrite (checkForComodification_same NODE_ENV graph Hinv).
  - assert (Hrest : selectable select a items)
      by (intros y Hy; apply Hsel; now right).
    destruct (Hsel x (or_introl eq_refl)) as [o Ho].
    simpl forOfItems. rewrite selected_cons, Ho.
    destruct o as [y|]; [|now apply IH].
    rewrite (checkForComodification_same NODE_ENV graph Hinv).
    simpl app. simpl forEach. unfold bind at 1.
    destruct (body y result) as [[] result'|err result']; [|reflexivity].
    destruct (afterMaybeCheck_data NODE_ENV graph) as (_ & _ & _ & _ & Ec).
    rewrite <- Ec.
    rewrite (IH _ result' (afterMaybeCheck_invariant NODE_ENV graph Hinv) Hrest).
    unfold loopEnd. now rewrite afterMaybeCheck_idempotent.
Qed.

End Loop.

(** [mergeOne] adds the nodes and then the edges of the graph, in their
    order, until [addNode] or [addEdge] throws. *)
Lemma mergeOne_run graph result :
  GraphInvariant graph ->
  mergeOne NODE_ENV graph result
  = loopEnd graph
      ((forEach (addNode NODE_ENV) (_nodes graph) ;;;
        forEach (addEdge NODE_ENV) (JsMap.values (_edges graph))) result).
Proof.
  intros Hinv. pose proof Hinv as [Hd _].
  pose proof (afterMaybeCheck_invariant NODE_ENV graph Hinv) as Hinv1.
  destruct (afterMaybeCheck_data NODE_ENV graph) as (En & Ee & _ & _ & Ec).
  set (g1 := afterMaybeCheck NODE_ENV graph) in *.
  assert (Hidem : afterMaybeCheck NODE_ENV g1 = g1)
    by apply afterMaybeCheck_idempotent.
  unfold mergeOne, nodes, edges, bind, this, ret.
  rewrite (maybeCheckInvariants_run NODE_ENV graph Hinv). fold g1.
  unfold forOf. simpl. rewrite <- Ec, <- En.
  destruct (all_nodes_selected g1 (proj1 Hinv1)) as [Hsel Hall].
  rewrite (forOfItems_run _ _ _ nodesSelect (addNode NODE_ENV) _ _ g1 result
             Hinv1 Hsel).
  rewrite Hall. unfold loopEnd. rewrite Hidem. fold g1.
  destruct (forEach (addNode NODE_ENV) (_nodes g1) result)
    as [[] result1|err result1]; [|reflexivity].
  rewrite (maybeCheckInvariants_run NODE_ENV g1 Hinv1), Hidem. simpl.
  rewrite <- Ee.
  destruct (all_edges_selected g1 (proj1 Hinv1)) as [Hsel' Hall'].
  rewrite (forOfItems_run _ _ _ edgesSelect (addEdge NODE_ENV) _ _ g1 result1
             Hinv1 Hsel').
  rewrite Hall'. unfold loopEnd. now rewrite Hidem.
Qed.

(** *** Filling the new graph *)

Lemma addNode_step n r :
  reachable NODE_ENV r ->
  NodeAddress.isValid n = true ->
  (_modificationCount r < MAX_SAFE_INTEGER)%Z ->
  exists r',
    addNode NODE_ENV n r = Returned tt r'
    /\ reachable NODE_ENV r'
    /\ _nodes r' = JsSet.add n (_nodes r)
    /\ _edges r' = _edges r
    /\ _modificationCount r' = (_modificationCount r + 1)%Z.
Proof.
  intros Hreach Vn Hroom.
  pose proof (reachable_invariant NODE_ENV r Hreach) as Hinv.
  assert (Hrun : addNode NODE_ENV n r
                 = Returned tt (afterModification NODE_ENV
                     (if JsSet.has n (_nodes r) then r else insertNode n r))).
  { rewrite (addNode_run NODE_ENV n r Hinv), Vn. apply counted_below.
    destruct (JsSet.has n (_nodes r)); simpl; exact Hroom. }
  eexists. split; [exact Hrun|].
  split; [exact (reachable_addNode NODE_ENV r n _ Hreach Hrun)|].
  destruct (afterModification_data NODE_ENV
              (if JsSet.has n (_nodes r) then r else insertNode n r))
    as (-> & -> & _ & _ & ->).
  unfold JsSet.add.
  destruct (JsSet.has n (_nodes r)) eqn:E; simpl; [auto|].
  unfold JsSet.add. rewrite E. auto.
Qed.

Lemma addNodes_any l : forall r,
  reachable NODE_ENV r ->
  (forall n, In n l -> NodeAddress.isValid n = true) ->
  (_modificationCount r + Z.of_nat (List.length l) <= MAX_SAFE_INTEGER)%Z ->
  exists r',
    forEach (addNode NODE_ENV) l r = Returned tt r'
    /\ reachable NODE_ENV r'
    /\ (forall n, In n (_nodes r') <-> In n (_nodes r) \/ In n l)
    /\ _edges r' = _edges r
    /\ _modificationCount r'
       = (_modificationCount r + Z.of_nat (List.length l))%Z
    /\ (NoDup l -> (forall n, In n l -> ~ In n (_nodes r)) ->
        _nodes r' = _nodes r ++ l).
Proof.
  induction l as [|n l IH]; intros r Hreach Hvalid Hroom.
  - exists r. split; [reflexivity|]. split; [exact Hreach|].
    split; [intros n; simpl; tauto|]. split; [reflexivity|].
    split; [simpl; lia|]. intros _ _. now rewrite app_nil_r.
  - simpl List.length in Hroom. rewrite Nat2Z.inj_succ in Hroom.
    destruct (addNode_step n r Hreach (Hvalid n (or_introl eq_refl)))
      as (r1 & Hrun & Hreach1 & En & Ee & Ec); [lia|].
    destruct (IH r1 Hreach1) as (r' & Hrun' & Hreach' & Hn' & Ee' & Ec' & Hexact).
    + intros m Hm. apply Hvalid. now right.
    + rewrite Ec. lia.
    + exists r'. simpl forEach. unfold bind. rewrite Hrun.
      split; [exact Hrun'|]. split; [exact Hreach'|].
      split; [|split; [congruence|split]].
      * intros m. rewrite Hn', En, JsSetFacts.In_add. simpl. intuition.
      * rewrite Ec', Ec. simpl List.length. lia.
      * intros Hnd Hnew. inversion Hnd as [|? ? Hn Hnd']; subst.
        rewrite Hexact, En.
        -- rewrite (add_fresh n (_nodes r)) by (apply Hnew; now left).
           now rewrite <- app_assoc.
        -- exact Hnd'.
        -- intros m Hm. rewrite En, JsSetFacts.In_add.
           intros [->|Hin]; [contradiction|].
           apply (Hnew m); [now right | exact Hin].
Qed.

Lemma addEdge_step e r :
  reachable NODE_ENV r ->
  EdgeAddress.isValid (address e) = true ->
  In (src e) (_nodes r) -> In (dst e) (_nodes r) ->
  (_modificationCount r < MAX_SAFE_INTEGER)%Z ->
  match JsMap.get (address e) (_edges r) with
  | Some x =>
      address x = address e
      /\ if Edge_eq_dec x e
         then exists r',
                addEdge NODE_ENV e r = Returned tt r'
                /\ reachable NODE_ENV r'
                /\ _nodes r' = _nodes r /\ _edges r' = _edges r
                /\ _modificationCount r' = (_modificationCount r + 1)%Z
         else addEdge NODE_ENV e r = Threw (ConflictingEdgeError e x) r
  | None =>
      exists r',
        addEdge NODE_ENV e r = Returned tt r'
        /\ reachable NODE_ENV r'
        /\ _nodes r' = _nodes r
        /\ _edges r' = _edges r ++ [(address e, e)]
        /\ _modificationCount r' = (_modificationCount r + 1)%Z
  end.
Proof.
  intros Hreach Va Hs Hd Hroom.
  pose proof (reachable_invariant NODE_ENV r Hreach) as Hinv.
  pose proof Hinv as [Hdata _].
  pose proof (addEdge_run NODE_ENV e r Hinv) as Hrun.
  rewrite (nodes_valid r Hdata _ Hs), (nodes_valid r Hdata _ Hd), Va in Hrun.
  rewrite (proj2 (JsSetFacts.has_In _ _) Hs) in Hrun.
  rewrite (proj2 (JsSetFacts.has_In _ _) Hd) in Hrun.
  simpl in Hrun.
  destruct (JsMap.get (address e) (_edges r)) as [x|] eqn:G.
  - destruct (invariant_2 r Hdata _ _ G) as [Hax _]. split; [exact Hax|].
    destruct (Edge_eq_dec x e) as [->|Hne].
    + rewrite !String.eqb_refl in Hrun. simpl in Hrun.
      rewrite (counted_below NODE_ENV r Hroom) in Hrun.
      eexists. split; [exact Hrun|].
      split; [exact (reachable_addEdge NODE_ENV r e _ Hreach Hrun)|].
      now destruct (afterModification_data NODE_ENV r) as (-> & -> & _ & _ & ->).
    + destruct (String.eqb (src x) (src e) && String.eqb (dst x) (dst e)) eqn:E;
        [|exact Hrun].
      apply andb_true_iff in E as [Es Ed]. apply String.eqb_eq in Es, Ed.
      elim Hne. now apply edge_eta.
  - rewrite (counted_below NODE_ENV (insertEdge e r)) in Hrun by exact Hroom.
    eexists. split; [exact Hrun|].
    split; [exact (reachable_addEdge NODE_ENV r e _ Hreach Hrun)|].
    destruct (afterModification_data NODE_ENV (insertEdge e r))
      as (-> & -> & _ & _ & ->).
    split; [reflexivity|]. split; [|reflexivity].
    exact (edges_insertEdge e r (edges_distinct r Hdata) G).
Qed.

(** Where two edges are in each other's way: [x] is at the address of
    [e] in the graph, or is an edge of the list like [e]. *)
Definition clash (r : Graph) (l : list Edge) (e x : Edge) : Prop :=
  In e l /\ x <> e /\ address x = address e
  /\ (JsMap.get (address e) (_edges r) = Some x \/ In x l).

Lemma addEdges_any l : forall r,
  reachable NODE_ENV r ->
  (forall e, In e l ->
     EdgeAddress.isValid (address e) = true
     /\ In (src e) (_nodes r) /\ In (dst e) (_nodes r)) ->
  (_modificationCount r + Z.of_nat (List.length l) <= MAX_SAFE_INTEGER)%Z ->
  (exists r',
     forEach (addEdge NODE_ENV) l r = Returned tt r'
     /\ reachable NODE_ENV r'
     /\ _nodes r' = _nodes r
     /\ _modificationCount r'
        = (_modificationCount r + Z.of_nat (List.length l))%Z
     /\ (forall a x, JsMap.get a (_edges r') = Some x
                     <-> JsMap.get a (_edges r) = Some x
                         \/ (In x l /\ address x = a))
     /\ (NoDup (map address l) ->
         (forall e, In e l -> JsMap.get (address e) (_edges r) = None) ->
         _edges r' = _edges r ++ map (fun e => (address e, e)) l))
  \/ (exists e x r',
        forEach (addEdge NODE_ENV) l r = Threw (ConflictingEdgeError e x) r'
        /\ clash r l e x).
Proof.
  induction l as [|e l IH]; intros r Hreach Hvalid Hroom.
  - left. exists r. split; [reflexivity|]. split; [exact Hreach|].
    split; [reflexivity|]. split; [simpl; lia|]. split.
    + intros a x. simpl. split; [tauto | intros [H|[[] _]]; exact H].
    + intros _ _. simpl. now rewrite app_nil_r.
  - simpl List.length in Hroom. rewrite Nat2Z.inj_succ in Hroom.
    destruct (Hvalid e (or_introl eq_refl)) as (Va & Hs & Hd).
    pose proof (addEdge_step e r Hreach Va Hs Hd) as Hstep.
    assert (Hnext : forall r1,
              addEdge NODE_ENV e r = Returned tt r1 ->
              reachable NODE_ENV r1 -> _nodes r1 = _nodes r ->
              _modificationCount r1 = (_modificationCount r + 1)%Z ->
              (forall a x, JsMap.get a (_edges r1) = Some x
                           <-> JsMap.get a (_edges r) = Some x
                               \/ (x = e /\ address x = a)) ->
              (JsMap.get (address e) (_edges r) = None ->
               _edges r1 = _edges r ++ [(address e, e)]) ->
              (exists r',
                 forEach (addEdge NODE_ENV) (e :: l) r = Returned tt r'
                 /\ reachable NODE_ENV r'
                 /\ _nodes r' = _nodes r
                 /\ _modificationCount r'
                    = (_modificationCount r + Z.of_nat (S (List.length l)))%Z
                 /\ (forall a x, JsMap.get a (_edges r') = Some x
                                 <-> JsMap.get a (_edges r) = Some x
                                     \/ (In x (e :: l) /\ address x = a))
                 /\ (NoDup (map address (e :: l)) ->
                     (forall e', In e' (e :: l) ->
                        JsMap.get (address e') (_edges r) = None) ->
                     _edges r' = _edges r ++ map (fun e => (address e, e)) (e :: l)))
              \/ (exists e' x r',
                    forEach (addEdge NODE_ENV) (e :: l) r
                    = Threw (ConflictingEdgeError e' x) r'
                    /\ clash r (e :: l) e' x)).
    { intros r1 Hrun Hreach1 En Ec Hget Hfresh.
      simpl forEach. unfold bind. rewrite Hrun.
      destruct (IH r1 Hreach1) as [(r' & Hrun' & Hreach' & En' & Ec' & Hget' & Hexact)
                                  |(e' & x & r' & Hthrow & Hin & Hne & Ha & Hwhere)].
      - intros e' He'. rewrite En. apply Hvalid. now right.
      - rewrite Ec. lia.
      - left. exists r'. split; [exact Hrun'|]. split; [exact Hreach'|].
        split; [congruence|]. split; [rewrite Ec', Ec; lia|]. split.
        + intros a x. rewrite Hget', Hget. simpl. intuition.
        + intros Hnd Hnone. inversion Hnd as [|? ? Hnew Hnd']; subst.
          rewrite Hexact, (Hfresh (Hnone e (or_introl eq_refl))).
          * simpl. now rewrite <- app_assoc.
          * exact Hnd'.
          * intros e' He'.
            destruct (JsMap.get (address e') (_edges r1)) as [x|] eqn:G;
              [|reflexivity].
            apply Hget in G as [G|[-> Ha]].
            -- rewrite (Hnone e' (or_intror He')) in G. discriminate.
            -- elim Hnew. rewrite Ha. now apply in_map.
      - right. exists e', x, r'. split; [exact Hthrow|].
        split; [now right|]. split; [exact Hne|]. split; [exact Ha|].
        destruct Hwhere as [G|Hx]; [|right; now right].
        apply Hget in G as [G|[-> _]]; [now left | right; now left]. }
    destruct (JsMap.get (address e) (_edges r)) as [x|] eqn:G.
    + destruct Hstep as [Hax Hstep]; [lia|].
      destruct (Edge_eq_dec x e) as [->|Hne].
      * destruct Hstep as (r1 & Hrun & Hreach1 & En & Ee & Ec).
        apply (Hnext r1 Hrun Hreach1 En Ec); [|discriminate].
        intros a y. rewrite Ee. split; [tauto|].
        intros [H|[-> <-]]; [exact H | exact G].
      * right. exists e, x, r. simpl forEach. unfold bind. rewrite Hstep.
        split; [reflexivity|]. split; [now left|]. split; [exact Hne|].
        split; [exact Hax | now left].
    + destruct Hstep as (r1 & Hrun & Hreach1 & En & Ee & Ec); [lia|].
      apply (Hnext r1 Hrun Hreach1 En Ec); [|intros _; exact Ee].
      intros a y. rewrite Ee, JsMapFacts.get_app.
      unfold JsMap.get at 2. simpl.
      destruct (JsMap.get a (_edges r)) as [z|] eqn:Ga.
      * split; [tauto|]. intros [H|[-> <-]]; [exact H | congruence].
      * destruct (String.eqb_spec a (address e)) as [->|Hna].
        -- split; [intros [= <-]; auto | intros [H|[-> _]]; [discriminate | reflexivity]].
        -- split; [discriminate | intros [H|[-> Ha]]; [discriminate | congruence]].
Qed.

(** *** One graph after the other *)

(** An edge of one of the graphs. *)
Definition edgeOf (graphs : list Graph) (e : Edge) : Prop :=
  exists g, In g graphs /\ JsMap.get (address e) (_edges g) = Some e.

Lemma mergeOne_any graph r :
  GraphInvariant graph ->
  reachable NODE_ENV r ->
  (_modificationCount r + Z.of_nat (sizeOf graph) <= MAX_SAFE_INTEGER)%Z ->
  (exists r',
     mergeOne NODE_ENV graph r = Completed (afterMaybeCheck NODE_ENV graph) r'
     /\ reachable NODE_ENV r'
     /\ _modificationCount r' = (_modificationCount r + Z.of_nat (sizeOf graph))%Z
     /\ (forall n, In n (_nodes r') <-> In n (_nodes r) \/ In n (_nodes graph))
     /\ (forall a x, JsMap.get a (_edges r') = Some x
                     <-> JsMap.get a (_edges r) = Some x
                         \/ JsMap.get a (_edges graph) = Some x)
     /\ (_nodes r = [] -> _edges r = [] ->
         _nodes r' = _nodes graph /\ _edges r' = _edges graph))
  \/ (exists e x r',
        mergeOne NODE_ENV graph r
        = Aborted (ConflictingEdgeError e x) (afterMaybeCheck NODE_ENV graph) r'
        /\ JsMap.get (address e) (_edges graph) = Some e
        /\ JsMap.get (address e) (_edges r) = Some x
        /\ x <> e).
Proof.
  intros Hinv Hreach Hroom. pose proof Hinv as [Hd _].
  unfold sizeOf in Hroom. rewrite Nat2Z.inj_add in Hroom.
  rewrite (mergeOne_run graph r Hinv). unfold bind.
  destruct (addNodes_any (_nodes graph) r Hreach (nodes_valid graph Hd))
    as (r1 & Hrun1 & Hreach1 & Hn1 & Ee1 & Ec1 & Hexact1); [lia|].
  rewrite Hrun1.
  assert (Hvalues : forall e, In e (JsMap.values (_edges graph)) ->
            JsMap.get (address e) (_edges graph) = Some e)
    by (intros e; apply (In_values_get graph e Hd)).
  assert (Hlen : List.length (JsMap.values (_edges graph))
                 = List.length (_edges graph))
    by apply length_map.
  destruct (addEdges_any (JsMap.values (_edges graph)) r1 Hreach1)
    as [(r' & Hrun & Hreach' & En & Ec & Hget & Hexact)
       |(e & x & r' & Hthrow & Hin & Hne & Ha & Hwhere)].
  - intros e He. apply Hvalues in He.
    destruct (invariant_2 graph Hd _ _ He) as (_ & Hs & Hd' & _).
    split; [exact (edges_valid graph Hd _ _ He)|].
    split; apply Hn1; now right.
  - rewrite Ec1, Hlen. lia.
  - left. exists r'. rewrite Hrun. split; [reflexivity|].
    split; [exact Hreach'|].
    split; [rewrite Ec, Ec1, Hlen; unfold sizeOf; lia|].
    split; [intros n; rewrite En; apply Hn1|]. split.
    + intros a x. rewrite Hget, Ee1. split; (intros [H|H]; [now left|right]).
      * destruct H as [Hx <-]. now apply Hvalues.
      * destruct (invariant_2 graph Hd _ _ H) as [Hax _].
        split; [|exact Hax]. apply (In_values_get graph x Hd). now rewrite Hax.
    + intros En0 Ee0. split.
      * rewrite En, Hexact1, En0; [reflexivity | apply (nodes_distinct graph Hd)|].
        intros n _. now rewrite En0.
      * rewrite Hexact, Ee1, Ee0.
        -- simpl. unfold JsMap.values. rewrite map_map.
           rewrite <- (map_id (_edges graph)) at 2. apply map_ext_in.
           intros [k e] Hp. simpl.
           apply (JsMapFacts.In_get _ _ _ (edges_distinct graph Hd)) in Hp.
           now destruct (invariant_2 graph Hd _ _ Hp) as [-> _].
        -- now apply values_distinct.
        -- intros e _. now rewrite Ee1, Ee0.
  - right. exists e, x, r'. rewrite Hthrow. split; [reflexivity|].
    pose proof (Hvalues e Hin) as He. split; [exact He|].
    destruct Hwhere as [G|Hx]; [rewrite Ee1 in G; now split|].
    apply Hvalues in Hx. rewrite Ha in Hx. congruence.
Qed.

Lemma mergeInto_any graphs : forall r,
  Forall GraphInvariant graphs ->
  reachable NODE_ENV r ->
  (_modificationCount r + Z.of_nat (list_sum (map sizeOf graphs))
   <= MAX_SAFE_INTEGER)%Z ->
  (exists r',
     mergeInto NODE_ENV graphs r
     = (inr r', map (afterMaybeCheck NODE_ENV) graphs)
     /\ reachable NODE_ENV r'
     /\ (forall n, In n (_nodes r')
                   <-> In n (_nodes r) \/ exists g, In g graphs /\ In n (_nodes g))
     /\ (forall a x, JsMap.get a (_edges r') = Some x
                     <-> JsMap.get a (_edges r) = Some x
                         \/ exists g, In g graphs /\ JsMap.get a (_edges g) = Some x))
  \/ (exists e x states,
        mergeInto NODE_ENV graphs r = (inl (ConflictingEdgeError e x), states)
        /\ edgeOf graphs e
        /\ (JsMap.get (address e) (_edges r) = Some x \/ edgeOf graphs x)
        /\ address x = address e /\ x <> e).
Proof.
  induction graphs as [|graph graphs IH]; intros r Hall Hreach Hroom.
  - left. exists r. simpl. split; [reflexivity|]. split; [exact Hreach|].
    split; intros; (split; [tauto | intros [H|(g & [] & _)]; exact H]).
  - inversion Hall as [|? ? Hinv Hall']; subst.
    simpl map in Hroom. simpl list_sum in Hroom. rewrite Nat2Z.inj_add in Hroom.
    simpl mergeInto.
    destruct (mergeOne_any graph r Hinv Hreach)
      as [(r1 & Hrun & Hreach1 & Ec & Hn & He & _)
         |(e & x & r1 & Hthrow & Hge & Hre & Hne)]; [lia| |].
    + rewrite Hrun.
      destruct (IH r1 Hall' Hreach1)
        as [(r' & Hrun' & Hreach' & Hn' & He')
           |(e & x & states & Hthrow & Hge & Hwhere & Ha & Hne)];
        [rewrite Ec; lia| |].
      * left. exists r'. rewrite Hrun'. split; [reflexivity|].
        split; [exact Hreach'|]. split.
        -- intros n. rewrite Hn', Hn. split.
           ++ intros [[H|H]|(g & Hg & H)]; [now left| |]; right;
                [exists graph | exists g]; simpl; auto.
           ++ intros [H|(g & [<-|Hg] & H)]; [tauto | tauto |].
              right. eauto.
        -- intros a x. rewrite He', He. split.
           ++ intros [[H|H]|(g & Hg & H)]; [now left| |]; right;
                [exists graph | exists g]; simpl; auto.
           ++ intros [H|(g & [<-|Hg] & H)]; [tauto | tauto |].
              right. eauto.
      * right. exists e, x, (afterMaybeCheck NODE_ENV graph :: states).
        rewrite Hthrow. split; [reflexivity|].
        destruct Hge as (g & Hg & Hge).
        split; [exists g; split; [now right | exact Hge]|].
        split; [|now split].
        destruct Hwhere as [G|(g' & Hg' & G)].
        -- apply He in G as [G|G]; [now left|]. right. exists graph.
           split; [now left|].
           destruct Hinv as [Hd _].
           now destruct (invariant_2 graph Hd _ _ G) as [-> _].
        -- right. exists g'. split; [now right | exact G].
    + right. exists e, x, (afterMaybeCheck NODE_ENV graph :: graphs).
      rewrite Hthrow. split; [reflexivity|].
      split; [exists graph; split; [now left | exact Hge]|].
      split; [now left|]. split; [|exact Hne].
      apply reachable_invariant in Hreach as [Hd _].
      now destruct (invariant_2 r Hd _ _ Hre).
Qed.

Lemma new_graph :
  exists r, constructor NODE_ENV = Returned tt r
            /\ reachable NODE_ENV r
            /\ _nodes r = [] /\ _edges r = []
            /\ _modificationCount r = 0%Z.
Proof.
  pose proof (maybeCheckInvariants_run NODE_ENV _ newGraph_invariant) as Hrun.
  exists (afterMaybeCheck NODE_ENV
            (mkGraph JsSet.empty JsMap.empty JsMap.empty JsMap.empty 0
                     (mkLastChecked (-1) (Some NeverChecked)))).
  split; [exact Hrun|]. split; [apply reachable_new; exact Hrun|].
  destruct (afterMaybeCheck_data NODE_ENV
              (mkGraph JsSet.empty JsMap.empty JsMap.empty JsMap.empty 0
                       (mkLastChecked (-1) (Some NeverChecked))))
    as (-> & -> & _ & _ & ->).
  now repeat split.
Qed.

(** X13.  [Graph.merge(graphs)], for graphs whose nodes and edges
    together are no more than the modification count can take.  If the
    graphs agree on every edge address that two of them use, the call
    returns a new graph whose nodes are the nodes of the graphs and
    whose edges are their edges.  If not, it throws the error of the
    conflicting edge, for an edge of one graph and a different edge that
    another graph has at the same address.  One of the two happens, and
    the graphs of the argument keep their nodes, edges and indices. *)
Theorem merge_spec graphs :
  Forall (reachable NODE_ENV) graphs ->
  (Z.of_nat (list_sum (map sizeOf graphs)) <= MAX_SAFE_INTEGER)%Z ->
  (compatible graphs ->
   exists result,
     merge NODE_ENV graphs
     = (inr result, map (afterMaybeCheck NODE_ENV) graphs)
     /\ reachable NODE_ENV result
     /\ (forall n, In n (_nodes result)
                   <-> exists g, In g graphs /\ In n (_nodes g))
     /\ (forall a e, JsMap.get a (_edges result) = Some e
                     <-> exists g, In g graphs /\ JsMap.get a (_edges g) = Some e))
  /\ (~ compatible graphs ->
      exists e x states,
        merge NODE_ENV graphs = (inl (ConflictingEdgeError e x), states)
        /\ edgeOf graphs e /\ edgeOf graphs x
        /\ address x = address e /\ x <> e)
  /\ ((exists result states, merge NODE_ENV graphs = (inr result, states))
      \/ (exists e x states,
            merge NODE_ENV graphs = (inl (ConflictingEdgeError e x), states)))
  /\ Forall2 sameData graphs (snd (merge NODE_ENV graphs)).
Proof.
  intros Hall Hroom.
  assert (Hinv : Forall GraphInvariant graphs)
    by (eapply Forall_impl; [|exact Hall]; apply reachable_invariant).
  destruct new_graph as (r & Hnew & Hreach & En & Ee & Ec).
  unfold merge. rewrite Hnew.
  destruct (mergeInto_any graphs r Hinv Hreach)
    as [(r' & Hrun & Hreach' & Hn & He)
       |(e & x & states & Hthrow & Hge & Hwhere & Ha & Hne)]; [rewrite Ec; lia| |].
  - assert (Hcompat : compatible graphs).
    { intros g g' a e e' Hg Hg' G G'.
      assert (H1 : JsMap.get a (_edges r') = Some e) by (apply He; eauto).
      assert (H2 : JsMap.get a (_edges r') = Some e') by (apply He; eauto).
      congruence. }
    rewrite Hrun. split; [|split; [tauto|split]].
    + intros _. exists r'. split; [reflexivity|]. split; [exact Hreach'|]. split.
      * intros n. rewrite Hn, En. simpl. tauto.
      * intros a y. rewrite He, Ee. unfold JsMap.get at 1. simpl.
        split; [intros [H|H]; [discriminate | exact H] | tauto].
    + left. eauto.
    + simpl. clear. induction graphs as [|g graphs IH]; constructor;
        [|exact IH].
      destruct (afterMaybeCheck_data NODE_ENV g) as (? & ? & ? & ? & _).
      now repeat split.
  - assert (Hx : edgeOf graphs x).
    { destruct Hwhere as [G|H]; [|exact H].
      rewrite Ee in G. discriminate. }
    assert (Hclash : ~ compatible graphs).
    { intros Hcompat. destruct Hge as (g & Hg & G), Hx as (g' & Hg' & G').
      rewrite Ha in G'. elim Hne. exact (Hcompat _ _ _ _ _ Hg' Hg G' G). }
    rewrite Hthrow. split; [tauto|]. split; [|split].
    + intros _. exists e, x, states. auto.
    + right. eauto.
    + simpl. clear - Hthrow Hinv. revert r states Hthrow.
      induction Hinv as [|g graphs Hg Hinv IH]; intros r states Hthrow.
      * discriminate.
      * simpl in Hthrow. rewrite (mergeOne_run g r Hg) in Hthrow.
        assert (Hsame : sameData g (afterMaybeCheck NODE_ENV g)).
        { destruct (afterMaybeCheck_data NODE_ENV g) as (? & ? & ? & ? & _).
          now repeat split. }
        destruct ((forEach (addNode NODE_ENV) (_nodes g) ;;;
                   forEach (addEdge NODE_ENV) (JsMap.values (_edges g))) r)
          as [[] r1|err r1]; simpl in Hthrow.
        -- destruct (mergeInto NODE_ENV graphs r1) as [outcome rest] eqn:Hrest.
           inversion Hthrow; subst. constructor; [exact Hsame|].
           now apply (IH r1).
        -- inversion Hthrow; subst. constructor; [exact Hsame|].
           clear. induction graphs; constructor; [apply sameData_refl | assumption].
Qed.

(** X14.  [copy()] returns a new graph with the nodes and the edges of
    the graph, in the same order; the graph itself keeps its nodes, its
    edges and its indices, and [equals] finds the two equal. *)
Theorem copy_spec g :
  reachable NODE_ENV g ->
  exists result,
    copy NODE_ENV g = Returned result (afterMaybeCheck NODE_ENV g)
    /\ reachable NODE_ENV result
    /\ _nodes result = _nodes g
    /\ _edges result = _edges g
    /\ sameData g (afterMaybeCheck NODE_ENV g)
    /\ equals NODE_ENV result (afterMaybeCheck NODE_ENV g)
       = Returned true (afterMaybeCheck NODE_ENV g).
Proof.
  intros Hg.
  pose proof (reachable_invariant NODE_ENV g Hg) as Hinv.
  pose proof (afterMaybeCheck_invariant NODE_ENV g Hinv) as Hinv1.
  destruct new_graph as (r & Hnew & Hreach & En & Ee & Ec).
  destruct (mergeOne_any g r Hinv Hreach)
    as [(r' & Hrun & Hreach' & _ & _ & _ & Hexact)
       |(e & x & r' & _ & _ & G & _)].
  - rewrite Ec. destruct Hinv as [_ Hb].
    pose proof (size_bound g Hb). pose proof (count_range g Hb).
    unfold sizeOf. lia.
  - destruct (Hexact En Ee) as [Hn He].
    exists r'. unfold copy, merge. rewrite Hnew. simpl. rewrite Hrun. simpl.
    unfold bind, ret.
    rewrite (maybeCheckInvariants_run NODE_ENV _ Hinv1).
    rewrite afterMaybeCheck_idempotent.
    split; [reflexivity|]. split; [exact Hreach'|].
    split; [exact Hn|]. split; [exact He|].
    destruct (afterMaybeCheck_data NODE_ENV g) as (En1 & Ee1 & Ei1 & Eo1 & _).
    split; [now repeat split|].
    unfold equals, bind, this, ret.
    rewrite (maybeCheckInvariants_run NODE_ENV _ Hinv1).
    rewrite afterMaybeCheck_idempotent. f_equal.
    rewrite En1, Ee1, Hn, He. apply andb_true_iff. split.
    + apply setEquals_spec; try apply (nodes_distinct g (proj1 Hinv)). tauto.
    + apply mapEquals_spec; try apply (edges_distinct g (proj1 Hinv)).
      reflexivity.
  - rewrite Ee in G. discriminate.
Qed.

End MergeFacts.

(** A graph that has another edge at the address of [edgeAB]. *)
Definition clashingEdge : Edge := mkEdge (address edgeAB) nodeB nodeA.

Definition clashingGraph : Graph :=
  mkGraph [nodeB; nodeA]
          [(address edgeAB, clashingEdge)]
          [(nodeB, []); (nodeA, [clashingEdge])]
          [(nodeB, [clashingEdge]); (nodeA, [])]
          3 (mkLastChecked 3 None).

Lemma clashingGraph_reachable : reachable "test" clashingGraph.
Proof.
  eapply reachable_addEdge with (e := clashingEdge).
  - eapply reachable_addNode with (a := nodeA).
    + eapply reachable_addNode with (a := nodeB).
      * apply reachable_new. reflexivity.
      * reflexivity.
    + reflexivity.
  - reflexivity.
Qed.

Lemma merge_spec_witness :
  (exists result,
     merge "test" [exampleGraph; exampleGraphReordered]
     = (inr result, [exampleGraph; exampleGraphReordered])
     /\ JsMap.get (address edgeAB) (_edges result) = Some edgeAB)
  /\ exists e x states,
       merge "test" [exampleGraph; clashingGraph]
       = (inl (ConflictingEdgeError e x), states).
Proof.
  split.
  - destruct (merge_spec "test" [exampleGraph; exampleGraphReordered])
      as (Hok & _).
    + apply Forall_cons; [apply exampleGraph_reachable|].
      apply Forall_cons; [apply exampleGraphReordered_reachable|].
      apply Forall_nil.
    + unfold MAX_SAFE_INTEGER. simpl. lia.
    + destruct Hok as (result & Hrun & _ & _ & He).
      * intros g g' a e e' [<-|[<-|[]]] [<-|[<-|[]]]; unfold JsMap.get; simpl;
          destruct (String.eqb a _); congruence.
      * exists result. split; [exact Hrun|]. apply He.
        exists exampleGraph. split; [now left | reflexivity].
  - destruct (merge_spec "test" [exampleGraph; clashingGraph])
      as (_ & Hclash & _).
    + apply Forall_cons; [apply exampleGraph_reachable|].
      apply Forall_cons; [apply clashingGraph_reachable | apply Forall_nil].
    + unfold MAX_SAFE_INTEGER. simpl. lia.
    + destruct Hclash as (e & x & states & Hthrow & _).
      * intros Hcompat.
        specialize (Hcompat exampleGraph clashingGraph (address edgeAB)
                      edgeAB clashingEdge).
        discriminate Hcompat; simpl; auto.
      * eauto.
Defined.

Lemma copy_spec_witness :
  exists result,
    copy "test" exampleGraph = Returned result exampleGraph
    /\ _nodes result = [nodeB; nodeA]
    /\ _edges result = [(address edgeAB, edgeAB)].
Proof.
  destruct (copy_spec "test" exampleGraph exampleGraph_reachable)
    as (result & Hrun & _ & Hn & He & _).
  exists result. split; [exact Hrun|]. now split.
Defined.

(** ** What a sweep that returns has established *)

Lemma firstFailure_passed {A} (check : A -> option Failure) l :
  firstFailure check l = None -> forall x, In x l -> check x = None.
Proof.
  induction l as [|y l IH]; simpl; intros H x Hx; [destruct Hx|].
  destruct (check y) eqn:E; [discriminate|].
  destruct Hx as [<-|Hx]; [exact E | now apply IH].
Qed.

Lemma checkAnchored_passed g kind base es : forall seen seen',
  checkAnchored g kind base es seen = inr seen' ->
  seen' = seen ++ map address es
  /\ NoDup (map address es)
  /\ (forall e, In e es -> ~ In (address e) seen)
  /\ forall e, In e es ->
       JsMap.get (address e) (_edges g) = Some e /\ baseNodeAccessor kind e = base.
Proof.
  induction es as [|e es IH]; simpl; intros seen seen' Hrun.
  - inversion Hrun. rewrite app_nil_r.
    split; [reflexivity|]. split; [constructor|]. split; intros e [].
  - destruct (JsSet.has (address e) seen) eqn:Hseen; [discriminate|].
    apply JsSetFacts.has_false in Hseen.
    destruct (JsMap.get (address e) (_edges g)) as [expected|] eqn:Hget;
      [|discriminate].
    destruct (Edge_eqb e expected) eqn:Heq; [|discriminate].
    apply Edge_eqb_eq in Heq. subst expected. simpl in Hrun.
    destruct (String.eqb_spec base (baseNodeAccessor kind e)) as [Hbase|];
      [|discriminate].
    simpl in Hrun. rewrite (add_fresh _ _ Hseen) in Hrun.
    destruct (IH _ _ Hrun) as (-> & Hnd & Hfresh & Hes).
    split; [now rewrite <- app_assoc|].
    assert (Hnew : forall e', In e' es -> ~ In (address e') (seen ++ [address e]))
      by exact Hfresh.
    split; [|split].
    + constructor; [|exact Hnd].
      intros Hin. apply in_map_iff in Hin as (e' & Ha & He').
      apply (Hnew e' He'). apply in_or_app. right. left. now symmetry.
    + intros e' [<-|He']; [exact Hseen|].
      intros Hin. apply (Hnew e' He'). apply in_or_app. now left.
    + intros e' [<-|He']; [now split | now apply Hes].
Qed.

Lemma checkAdjacency_passed g kind entries : forall seen seen',
  checkAdjacency g kind entries seen = inr seen' ->
  seen' = seen ++ addressesOf entries
  /\ forall base es, In (base, es) entries ->
       In base (_nodes g)
       /\ NoDup (map address es)
       /\ forall e, In e es ->
            JsMap.get (address e) (_edges g) = Some e
            /\ baseNodeAccessor kind e = base.
Proof.
  induction entries as [|[base es] entries IH]; simpl; intros seen seen' Hrun.
  - inversion Hrun. unfold addressesOf. simpl. rewrite app_nil_r.
    split; [reflexivity | intros ? ? []].
  - destruct (JsSet.has base (_nodes g)) eqn:Hbase; [|discriminate].
    apply JsSetFacts.has_In in Hbase. simpl in Hrun.
    destruct (checkAnchored g kind base es seen) as [f|seen1] eqn:Hes;
      [discriminate|].
    destruct (checkAnchored_passed _ _ _ _ _ _ Hes) as (-> & Hnd & _ & Hall).
    destruct (IH _ _ Hrun) as (-> & Hentries).
    split.
    + unfold addressesOf. simpl. now rewrite map_app, <- app_assoc.
    + intros b l [Heq|Hin]; [|now apply Hentries].
      inversion Heq; subst b l. now split.
Qed.

(** The four invariants that the comment block of [_checkInvariants]
    documents. *)
Definition Documented (g : Graph) : Prop :=
  (forall n, In n (_nodes g) ->
     JsMap.get n (_inEdges g) <> None /\ JsMap.get n (_outEdges g) <> None)
  /\ (forall a e, JsMap.get a (_edges g) = Some e ->
        address e = a
        /\ In (src e) (_nodes g)
        /\ In (dst e) (_nodes g)
        /\ (exists es, JsMap.get (dst e) (_inEdges g) = Some es /\ In e es)
        /\ (exists es, JsMap.get (src e) (_outEdges g) = Some es /\ In e es))
  /\ AdjacencyInvariant InEdgeKind g
  /\ AdjacencyInvariant OutEdgeKind g.

(** What a [Set] and a [Map] give, and [assertValid] at every entry
    point: distinct keys and valid addresses. *)
Definition Represented (g : Graph) : Prop :=
  NoDup (_nodes g)
  /\ NoDup (JsMap.keys (_edges g))
  /\ NoDup (JsMap.keys (_inEdges g))
  /\ NoDup (JsMap.keys (_outEdges g))
  /\ (forall n, In n (_nodes g) -> NodeAddress.isValid n = true)
  /\ (forall a e, JsMap.get a (_edges g) = Some e -> EdgeAddress.isValid a = true).

Lemma seen_found g kind (e : Edge) :
  NoDup (JsMap.keys (adjacencyIndex kind g)) ->
  (forall base es, In (base, es) (adjacencyIndex kind g) ->
     forall e', In e' es ->
       JsMap.get (address e') (_edges g) = Some e'
       /\ baseNodeAccessor kind e' = base) ->
  JsMap.get (address e) (_edges g) = Some e ->
  In (address e) (addressesOf (adjacencyIndex kind g)) ->
  exists es,
    JsMap.get (baseNodeAccessor kind e) (adjacencyIndex kind g) = Some es
    /\ In e es.
Proof.
  intros Hkeys Hentries Hget Hseen. unfold addressesOf in Hseen.
  apply in_map_iff in Hseen as (e' & Ha & He').
  apply in_concat in He' as (es & Hes & He').
  apply in_map_iff in Hes as ([base es'] & <- & Hentry). simpl in He'.
  destruct (Hentries base es' Hentry e' He') as [Hget' Hbase].
  rewrite Ha, Hget in Hget'. inversion Hget'; subst e'.
  exists es'. split; [|exact He'].
  rewrite Hbase. now apply JsMapFacts.In_get.
Qed.

Lemma sweep_passed g :
  NoDup (JsMap.keys (_inEdges g)) -> NoDup (JsMap.keys (_outEdges g)) ->
  _checkInvariants g = None -> Documented g.
Proof.
  intros Hi Ho Hrun. unfold _checkInvariants in Hrun.
  destruct (firstFailure (checkNode g) (_nodes g)) eqn:H1; [discriminate|].
  destruct (firstFailure (checkEdgeEntry g) (_edges g)) eqn:H2; [discriminate|].
  destruct (checkAdjacency g InEdgeKind (_inEdges g) JsSet.empty)
    as [|inEdgesSeen] eqn:H3; [discriminate|].
  destruct (checkAdjacency g OutEdgeKind (_outEdges g) JsSet.empty)
    as [|outEdgesSeen] eqn:H4; [discriminate|].
  destruct (checkAdjacency_passed _ _ _ _ _ H3) as (-> & Hin).
  destruct (checkAdjacency_passed _ _ _ _ _ H4) as (-> & Hout).
  assert (I3 : AdjacencyInvariant InEdgeKind g).
  { intros n es Hget. apply (Hin n es). now apply JsMapFacts.get_In. }
  assert (I4 : AdjacencyInvariant OutEdgeKind g).
  { intros n es Hget. apply (Hout n es). now apply JsMapFacts.get_In. }
  split; [|split; [|now split]].
  - intros n Hn. pose proof (firstFailure_passed _ _ H1 n Hn) as Hc.
    unfold checkNode in Hc. rewrite !JsMapFacts.has_get in Hc.
    destruct (JsMap.get n (_inEdges g)); [|discriminate].
    destruct (JsMap.get n (_outEdges g)); [|discriminate].
    split; discriminate.
  - intros a e Hget.
    pose proof (firstFailure_passed _ _ H2 (a, e) (JsMapFacts.get_In _ _ _ Hget))
      as Hc.
    unfold checkEdgeEntry in Hc.
    destruct (String.eqb_spec (address e) a) as [Ha|]; [|discriminate].
    simpl in Hc.
    destruct (JsSet.has (src e) (_nodes g)) eqn:Hs; [|discriminate].
    destruct (JsSet.has (dst e) (_nodes g)) eqn:Hd; [|discriminate].
    apply JsSetFacts.has_In in Hs, Hd.
    assert (Hvalue : In e (JsMap.values (_edges g))).
    { unfold JsMap.values. change e with (snd (a, e)).
      apply in_map. now apply JsMapFacts.get_In. }
    pose proof (firstFailure_passed _ _ Hrun e Hvalue) as Hseen.
    unfold checkEdgeSeen in Hseen.
    destruct (JsSet.has (address e) (JsSet.empty ++ addressesOf (_inEdges g)))
      eqn:Hsi; [|discriminate].
    destruct (JsSet.has (address e) (JsSet.empty ++ addressesOf (_outEdges g)))
      eqn:Hso; [|discriminate].
    apply JsSetFacts.has_In in Hsi, Hso.
    rewrite <- Ha in Hget.
    split; [exact Ha|]. split; [exact Hs|]. split; [exact Hd|]. split.
    + apply (seen_found g InEdgeKind e Hi); [|exact Hget|exact Hsi].
      intros base es Hentry. now apply (Hin base es Hentry).
    + apply (seen_found g OutEdgeKind e Ho); [|exact Hget|exact Hso].
      intros base es Hentry. now apply (Hout base es Hentry).
Qed.

(** X19.  The sweep of [_checkInvariants] decides the four documented
    invariants: on a graph whose sets and maps hold valid addresses it
    returns exactly when they all hold, and throws when one of them
    fails. *)
Theorem sweep_decides_invariants (g : Graph) :
  Represented g ->
  (_checkInvariants g = None <-> Documented g).
Proof.
  intros (Hn & He & Hi & Ho & Hvn & Hve). split.
  - now apply sweep_passed.
  - intros (I1 & I2 & I3 & I4). apply checkInvariants_complete.
    now constructor.
Qed.

Lemma sweep_decides_invariants_witness : Documented exampleGraph.
Proof.
  apply (sweep_decides_invariants exampleGraph); [|reflexivity].
  destruct (reachable_invariant "test" exampleGraph exampleGraph_reachable)
    as [[Hn He Hi Ho Hvn Hve _ _ _ _] _].
  unfold Represented. auto 10.
Defined.

(** ** [decompose] without a score *)

Module MissingScores.

Import NodeDecomposition.

Lemma scoreConnections_throws pr target conns :
  scoreConnections pr target conns = None
  <-> exists c, In c conns
                /\ JsMap.get (adjacencySource target (adjacency c)) pr = None.
Proof.
  induction conns as [|c conns IH]; simpl.
  - split; [discriminate | intros (c & [] & _)].
  - destruct (JsMap.get (adjacencySource target (adjacency c)) pr) as [s|] eqn:G.
    + destruct (scoreConnections pr target conns) as [scored|].
      * split; [discriminate|].
        intros (c' & [<-|Hc'] & G'); [congruence|].
        assert (H : Some scored = None) by (apply IH; eauto). discriminate.
      * split; [|reflexivity]. intros _.
        destruct (proj1 IH eq_refl) as (c' & Hc' & G'). eauto.
    + split; [|reflexivity]. intros _. eauto.
Qed.

Lemma decomposeNode_throws pr target conns :
  decomposeNode pr target conns = None
  <-> JsMap.get target pr = None
      \/ exists c, In c conns
                   /\ JsMap.get (adjacencySource target (adjacency c)) pr = None.
Proof.
  unfold decomposeNode. rewrite <- scoreConnections_throws.
  destruct (JsMap.get target pr) as [s|]; [|tauto].
  destruct (scoreConnections pr target conns); split;
    try discriminate; try tauto.
  intros [H|H]; discriminate.
Qed.

(** X20.  [decompose] throws exactly when a score is missing: that of a
    node of the connection map, or that of the source of one of its
    connections.  Otherwise it returns a map with the same nodes in the
    same order. *)
Theorem decompose_throws_without_score pr (connections : NodeToConnections) :
  (decompose pr connections = None
   <-> exists target conns,
         In (target, conns) connections
         /\ (JsMap.get target pr = None
             \/ exists c, In c conns
                          /\ JsMap.get (adjacencySource target (adjacency c)) pr
                             = None))
  /\ forall result,
       decompose pr connections = Some result ->
       JsMap.keys result = JsMap.keys connections.
Proof.
  unfold decompose. induction connections as [|[target conns] rest [IH IHk]]; simpl.
  - split; [split; [discriminate | intros (? & ? & [] & _)]|].
    intros result H. now inversion H.
  - destruct (decomposeNode pr target conns) as [d|] eqn:D.
    + destruct (mapValues (decomposeNode pr) rest) as [rest'|].
      * split.
        -- split; [discriminate|].
           intros (t & cs & [Heq|Hin] & Hmiss).
           ++ inversion Heq; subst t cs.
              apply decomposeNode_throws in Hmiss. congruence.
           ++ assert (H : Some rest' = None) by (apply IH; eauto).
              discriminate.
        -- intros result H. inversion H. simpl. f_equal. now apply IHk.
      * split; [|discriminate]. split; [|reflexivity]. intros _.
        destruct (proj1 IH eq_refl) as (t & cs & Hin & Hmiss).
        exists t, cs. split; [now right | exact Hmiss].
    + split; [|discriminate]. split; [|reflexivity]. intros _.
      exists target, conns. split; [now left|].
      now apply decomposeNode_throws.
Qed.

End MissingScores.
